(** * Route optimisation engine of the NYC delivery optimizer

    Shallow embedding of [client/src/lib/algorithms.ts]: the haversine
    distance model, the nearest-neighbour builder, the 2-opt improver, the
    genetic search and the comparator, followed by the properties the
    specification states about them.  The handlers of
    [client/src/App.tsx] that call the engine and the function
    [detectBorough] of the map components are embedded as well, with
    further properties of the engine and of these callers.

    Numbers.  A JavaScript [number] is an IEEE-754 double.  The embedding
    has two models of it.  The numbers of [JS] keep the special values
    the control flow of the program depends on ([NaN], [Infinity],
    [-Infinity], with the comparison and division rules of IEEE-754) and
    take every finite value as a real number: rounding error, overflow of
    finite operations and the sign of zero are abstracted, and [Math.sin],
    [Math.cos], [Math.sqrt], [Math.atan2] and [Math.PI] are the functions
    and the constant of the real numbers.  The statements about every
    input are made on these numbers.  The rounding of the doubles changes
    the outcome of the code on some inputs: the distance of two stops at
    opposite points of the globe can be [NaN], and a sum depends on the
    order of its terms.  A statement that an algorithm returns is
    therefore made for stops that are near one another, and a statement
    about a sum says so when it is one of exact arithmetic.  The numbers
    of [Binary64] are the doubles themselves, on which the distance model
    and nearest neighbour are embedded a second time, evaluated where
    the rounding decides, and nearest neighbour is followed on every
    input. *)

From Stdlib Require Import String.
From Stdlib Require Import Reals Lra Lia ZArith List Bool Permutation Arith.
From Stdlib Require Import Zfloor Sorted.
From Stdlib Require Floats Uint63.
Import ListNotations.

Set Implicit Arguments.

(** ** JavaScript numbers *)

Module JS.

Local Open Scope R_scope.

Inductive number : Type :=
| NaN : number
| Inf : bool -> number          (* [Inf false] is Infinity, [Inf true] is -Infinity *)
| Fin : R -> number.

Definition Infinity : number := Inf false.

Definition Rltb (x y : R) : bool := if Rlt_dec x y then true else false.
Definition Reqb (x y : R) : bool := if Req_dec_T x y then true else false.

Definition neg (x : number) : number :=
  match x with
  | NaN => NaN
  | Inf s => Inf (negb s)
  | Fin r => Fin (- r)
  end.

Definition add (x y : number) : number :=
  match x, y with
  | NaN, _ | _, NaN => NaN
  | Inf s, Inf t => if Bool.eqb s t then Inf s else NaN
  | Inf s, Fin _ | Fin _, Inf s => Inf s
  | Fin a, Fin b => Fin (a + b)
  end.

Definition sub (x y : number) : number := add x (neg y).

(** Sign of a non-zero real, [true] for negative. *)
Definition Rneg (r : R) : bool := Rltb r 0.

Definition mul (x y : number) : number :=
  match x, y with
  | NaN, _ | _, NaN => NaN
  | Inf s, Inf t => Inf (xorb s t)
  | Inf s, Fin r | Fin r, Inf s => if Reqb r 0 then NaN else Inf (xorb s (Rneg r))
  | Fin a, Fin b => Fin (a * b)
  end.

Definition div (x y : number) : number :=
  match x, y with
  | NaN, _ | _, NaN => NaN
  | Inf _, Inf _ => NaN
  | Inf s, Fin r => Inf (xorb s (Rneg r))
  | Fin _, Inf _ => Fin 0
  | Fin a, Fin b =>
      if Reqb b 0 then (if Reqb a 0 then NaN else Inf (Rneg a))
      else Fin (a / b)
  end.

(** [x < y]: false as soon as one side is [NaN]. *)
Definition lt (x y : number) : bool :=
  match x, y with
  | NaN, _ | _, NaN => false
  | Inf s, Inf t => s && negb t
  | Inf s, Fin _ => s
  | Fin _, Inf t => negb t
  | Fin a, Fin b => Rltb a b
  end.

Definition gt (x y : number) : bool := lt y x.

(** Strict equality [===] on numbers: [NaN] differs from itself. *)
Definition eqb (x y : number) : bool :=
  match x, y with
  | NaN, _ | _, NaN => false
  | Inf s, Inf t => Bool.eqb s t
  | Fin a, Fin b => Reqb a b
  | _, _ => false
  end.

Definition Math_PI : number := Fin PI.

Definition Math_sin (x : number) : number :=
  match x with Fin r => Fin (sin r) | _ => NaN end.

Definition Math_cos (x : number) : number :=
  match x with Fin r => Fin (cos r) | _ => NaN end.

Definition Math_sqrt (x : number) : number :=
  match x with
  | NaN => NaN
  | Inf s => if s then NaN else Inf false
  | Fin r => if Rltb r 0 then NaN else Fin (sqrt r)
  end.

(** Two-argument arctangent on the reals, the angle of the point [(x, y)]
    in [(-PI, PI]]. *)
Definition Ratan2 (y x : R) : R :=
  if Rltb 0 x then atan (y / x)
  else if Rltb x 0 then (if Rltb y 0 then atan (y / x) - PI else atan (y / x) + PI)
  else if Rltb 0 y then PI / 2
  else if Rltb y 0 then - (PI / 2)
  else 0.

Definition Math_atan2 (y x : number) : number :=
  match y, x with
  | NaN, _ | _, NaN => NaN
  | Fin a, Fin b => Fin (Ratan2 a b)
  | Fin a, Inf s => if s then (if Rltb a 0 then Fin (- PI) else Fin PI) else Fin 0
  | Inf t, Fin _ => if t then Fin (- (PI / 2)) else Fin (PI / 2)
  | Inf t, Inf s =>
      let q := if s then 3 * PI / 4 else PI / 4 in
      if t then Fin (- q) else Fin q
  end.

(** [Math.min(...xs)]: [Infinity] on no argument, [NaN] as soon as one
    argument is [NaN]. *)
Definition min2 (x y : number) : number :=
  match x, y with
  | NaN, _ | _, NaN => NaN
  | _, _ => if lt y x then y else x
  end.

Definition Math_min (xs : list number) : number := fold_left min2 xs Infinity.

End JS.

Import JS.

Declare Scope js_scope.
Delimit Scope js_scope with js.
Infix "+" := add : js_scope.
Infix "-" := sub : js_scope.
Infix "*" := mul : js_scope.
Infix "/" := div : js_scope.
Infix "<?" := lt : js_scope.
Infix ">?" := gt (at level 70) : js_scope.

(** ** Outcomes of a call

    A call returns, throws a [TypeError] (a property read on [undefined])
    or does not return.  The loops whose number of rounds is not fixed by
    their header carry a fuel; the lemmas of this development show that the
    fuel they are given is never exhausted. *)

Inductive outcome (A : Type) : Type :=
| Ok : A -> outcome A
| TypeError : outcome A
| Diverges : outcome A.

Arguments TypeError {A}.
Arguments Diverges {A}.

Definition bind {A B : Type} (m : outcome A) (k : A -> outcome B) : outcome B :=
  match m with
  | Ok a => k a
  | TypeError => TypeError
  | Diverges => Diverges
  end.

Declare Scope outcome_scope.
Delimit Scope outcome_scope with outcome.
Notation "x <- m ;; k" := (bind m (fun x => k))
  (at level 61, m at next level, right associativity) : outcome_scope.

(** ** Data model *)

Record Stop : Type := mkStop { id : string; lat : number; lng : number }.

Record OptimizationResult : Type := mkResult {
  stops : list Stop;
  distance : number;
  improvement : number
}.

(** ** Arrays

    Positions driven by a loop counter are natural numbers; the indices
    stored in a [number[]] are integers, since [-1] is stored as a
    sentinel. *)

Definition indices (n : nat) : list Z := map Z.of_nat (seq 0 n).

(** [xs[i]] for an integer [i]: [None] stands for [undefined]. *)
Definition get {A : Type} (xs : list A) (i : Z) : option A :=
  if (i <? 0)%Z then None else nth_error xs (Z.to_nat i).

(** [stops[i]] whose [lat] and [lng] are read next: the read of a property
    of [undefined] throws. *)
Definition stop_at (xs : list Stop) (i : Z) : outcome Stop :=
  match get xs i with
  | Some s => Ok s
  | None => TypeError
  end.

(** [route[p]] whose value is used next as an index into [stops]. *)
Definition read (route : list Z) (p : nat) : outcome Z :=
  match nth_error route p with
  | Some v => Ok v
  | None => TypeError
  end.

(** [route.map(i => stops[i])], the result of which goes to
    [calculateRouteDistance], where an [undefined] element throws. *)
Fixpoint map_stops (xs : list Stop) (route : list Z) : outcome (list Stop) :=
  match route with
  | [] => Ok []
  | i :: rest =>
      (s <- stop_at xs i ;;
       ss <- map_stops xs rest ;;
       Ok (s :: ss))%outcome
  end.

(** [xs[p] = v] for a position inside the array. *)
Fixpoint set_nth {A : Type} (xs : list A) (p : nat) (v : A) : list A :=
  match xs, p with
  | [], _ => []
  | _ :: rest, O => v :: rest
  | x :: rest, S q => x :: set_nth rest q v
  end.

(** [[xs[i], xs[j]] = [xs[j], xs[i]]] for positions inside the array. *)
Definition swap {A : Type} (xs : list A) (i j : nat) : list A :=
  match nth_error xs i, nth_error xs j with
  | Some x, Some y => set_nth (set_nth xs i y) j x
  | _, _ => xs
  end.

(** ** Distance model *)

Definition calculateDistance (lat1 lng1 lat2 lng2 : number) : number :=
  let R := Fin 6371 in
  let dLat := (((lat2 - lat1) * Math_PI) / Fin 180)%js in
  let dLng := (((lng2 - lng1) * Math_PI) / Fin 180)%js in
  let a :=
    (Math_sin (dLat / Fin 2) * Math_sin (dLat / Fin 2) +
     Math_cos ((lat1 * Math_PI) / Fin 180) *
       Math_cos ((lat2 * Math_PI) / Fin 180) *
       Math_sin (dLng / Fin 2) *
       Math_sin (dLng / Fin 2))%js in
  let c := (Fin 2 * Math_atan2 (Math_sqrt a) (Math_sqrt (Fin 1 - a)))%js in
  (R * c)%js.

Definition dist (p q : Stop) : number :=
  calculateDistance (lat p) (lng p) (lat q) (lng q).

(** The [for] loop of [calculateRouteDistance]: [total] after the legs
    between consecutive stops have been added, first leg first. *)
Fixpoint legs (total : number) (xs : list Stop) : number :=
  match xs with
  | p :: (q :: _) as rest => legs (total + dist p q)%js rest
  | _ => total
  end.

Definition calculateRouteDistance (xs : list Stop) : number :=
  match xs with
  | first :: _ :: _ =>
      let total := legs (Fin 0) xs in
      (total + dist (last xs first) first)%js
  | _ => Fin 0
  end.

(** ** Nearest neighbour *)

(** The body of [unvisited.forEach], run on the pair [(nearest, minDist)]. *)
Definition nn_visit (xs : list Stop) (current : Z)
    (st : Z * number) (idx : Z) : outcome (Z * number) :=
  (c <- stop_at xs current ;;
   s <- stop_at xs idx ;;
   let d := dist c s in
   if (d <? snd st)%js then Ok (idx, d) else Ok st)%outcome.

Fixpoint nn_scan (xs : list Stop) (current : Z)
    (unvisited : list Z) (st : Z * number) : outcome (Z * number) :=
  match unvisited with
  | [] => Ok st
  | idx :: rest =>
      (st' <- nn_visit xs current st idx ;;
       nn_scan xs current rest st')%outcome
  end.

(** The [while (unvisited.size > 0)] loop.  The set [unvisited] is the list
    of its elements in insertion order, the order [forEach] visits them. *)
Fixpoint nn_loop (fuel : nat) (xs : list Stop)
    (route unvisited : list Z) : outcome (list Z) :=
  match unvisited with
  | [] => Ok route
  | _ :: _ =>
      match fuel with
      | O => Diverges
      | S fuel' =>
          let current := last route 0%Z in
          (st <- nn_scan xs current unvisited ((-1)%Z, Infinity) ;;
           let nearest := fst st in
           nn_loop fuel' xs (route ++ [nearest])
                   (remove Z.eq_dec nearest unvisited))%outcome
      end
  end.

Definition nearestNeighbor (xs : list Stop) : outcome OptimizationResult :=
  if length xs <? 2 then
    Ok {| stops := xs; distance := Fin 0; improvement := Fin 0 |}
  else
    (let unvisited := remove Z.eq_dec 0%Z (indices (length xs)) in
     route <- nn_loop (length xs) xs [0%Z] unvisited ;;
     optimizedStops <- map_stops xs route ;;
     let distance := calculateRouteDistance optimizedStops in
     Ok {| stops := optimizedStops; distance := distance;
           improvement := Fin 0 |})%outcome.

(** ** 2-opt *)

(** The inner [while (left < right)] loop, which reverses
    [newRoute[left..right]] by swaps from both ends. *)
Fixpoint reverse_loop (fuel : nat) (newRoute : list Z) (left right : nat) : list Z :=
  match fuel with
  | O => newRoute
  | S fuel' =>
      if left <? right
      then reverse_loop fuel' (swap newRoute left right) (left + 1) (right - 1)
      else newRoute
  end.

Definition reverse_segment (route : list Z) (i j : nat) : list Z :=
  reverse_loop (j - i) route (i + 1) j.

(** The body of the [for j] loop, run on the pair [(route, improved)]. *)
Definition twoOpt_visit (xs : list Stop) (i : nat)
    (st : list Z * bool) (j : nat) : outcome (list Z * bool) :=
  let route := fst st in
  (a <- read route i ;;
   b <- read route (i + 1) ;;
   c <- read route j ;;
   d <- read route ((j + 1) mod length route) ;;
   sa <- stop_at xs a ;;
   sb <- stop_at xs b ;;
   sc <- stop_at xs c ;;
   sd <- stop_at xs d ;;
   let currentDist := (dist sa sb + dist sc sd)%js in
   let newDist := (dist sa sc + dist sb sd)%js in
   if (newDist <? currentDist)%js
   then Ok (reverse_segment route i j, true)
   else Ok st)%outcome.

(** A [for] loop over the positions of [ps], in order. *)
Fixpoint for_each {S : Type} (ps : list nat) (body : S -> nat -> outcome S)
    (st : S) : outcome S :=
  match ps with
  | [] => Ok st
  | p :: rest => (st' <- body st p ;; for_each rest body st')%outcome
  end.

(** [for (let j = i + 2; j < route.length; j++)] *)
Definition twoOpt_inner (xs : list Stop) (st : list Z * bool) (i : nat)
  : outcome (list Z * bool) :=
  for_each (seq (i + 2) (length (fst st) - (i + 2))) (twoOpt_visit xs i) st.

(** [for (let i = 0; i < route.length - 2; i++)] *)
Definition twoOpt_pass (xs : list Stop) (route : list Z) : outcome (list Z * bool) :=
  for_each (seq 0 (length route - 2)) (twoOpt_inner xs) (route, false).

(** [while (improved && iteration < maxIterations)], on the number of
    iterations that remain. *)
Fixpoint twoOpt_while (remaining : nat) (xs : list Stop)
    (route : list Z) (improved : bool) : outcome (list Z) :=
  match remaining with
  | O => Ok route
  | S remaining' =>
      if improved then
        (st <- twoOpt_pass xs route ;;
         twoOpt_while remaining' xs (fst st) (snd st))%outcome
      else Ok route
  end.

(** The working tour [nnResult.stops.map((s, i) => i)] is the list of the
    positions [0 .. n - 1]; the loop reads the stops through it from the
    parameter [stops]. *)
Definition twoOpt (xs : list Stop) (maxIterations : nat) : outcome OptimizationResult :=
  if length xs <? 4 then nearestNeighbor xs
  else
    (nnResult <- nearestNeighbor xs ;;
     let route := indices (length (stops nnResult)) in
     route' <- twoOpt_while maxIterations xs route true ;;
     optimizedStops <- map_stops xs route' ;;
     let distance := calculateRouteDistance optimizedStops in
     let nnDistance := calculateRouteDistance (stops nnResult) in
     Ok {| stops := optimizedStops; distance := distance;
           improvement := (((nnDistance - distance) / nnDistance) * Fin 100)%js |})%outcome.

(** ** Random numbers

    [Math.random()] returns a number in [[0, 1)].  A random source gives
    the value of each call, in the order of the calls; a computation that
    draws random numbers threads the number of calls made so far. *)

Record RandomSource : Type := mkRandomSource {
  draw : nat -> R;
  draw_range : forall k : nat, (0 <= draw k < 1)%R
}.

Definition Rand (A : Type) : Type := nat -> outcome (A * nat).

Definition ret {A : Type} (a : A) : Rand A := fun k => Ok (a, k).

Definition bindR {A B : Type} (m : Rand A) (f : A -> Rand B) : Rand B :=
  fun k =>
    match m k with
    | Ok (a, k') => f a k'
    | TypeError => TypeError
    | Diverges => Diverges
    end.

Definition lift {A : Type} (m : outcome A) : Rand A :=
  fun k =>
    match m with
    | Ok a => Ok (a, k)
    | TypeError => TypeError
    | Diverges => Diverges
    end.

Declare Scope rand_scope.
Delimit Scope rand_scope with rand.
Notation "x <- m ;; k" := (bindR m (fun x => k))
  (at level 61, m at next level, right associativity) : rand_scope.

(** [xs.map(f)] for an [f] that may throw. *)
Fixpoint mapM {A B : Type} (f : A -> outcome B) (xs : list A) : outcome (list B) :=
  match xs with
  | [] => Ok []
  | x :: rest => (y <- f x ;; ys <- mapM f rest ;; Ok (y :: ys))%outcome
  end.

(** ** Genetic search *)

Section GeneticSearch.

Variable rnd : RandomSource.

Definition Math_random : Rand number := fun k => Ok (Fin (draw rnd k), S k).

(** [Math.floor(x)] used as an array position; [x] is the product of a
    draw and a length, a finite number that is not negative. *)
Definition floor_position (x : number) : nat :=
  match x with
  | Fin r => Z.to_nat (Zfloor r)
  | _ => O
  end.

(** [Math.floor(Math.random() * n)] *)
Definition random_below (n : nat) : Rand nat :=
  (r <- Math_random ;; ret (floor_position (r * Fin (INR n))%js))%rand.

(** The Fisher-Yates loop [for (let j = route.length - 1; j > 0; j--)]. *)
Fixpoint shuffle_loop (j : nat) (route : list Z) : Rand (list Z) :=
  match j with
  | O => ret route
  | S j' =>
      (k <- random_below (j + 1) ;;
       shuffle_loop j' (swap route j k))%rand
  end.

Definition shuffled (n : nat) : Rand (list Z) :=
  let route := indices n in
  shuffle_loop (length route - 1) route.

(** [for (let i = 0; i < populationSize; i++)], creating the population. *)
Fixpoint initial_population (n count : nat) : Rand (list (list Z)) :=
  match count with
  | O => ret []
  | S count' =>
      (route <- shuffled n ;;
       rest <- initial_population n count' ;;
       ret (route :: rest))%rand
  end.

Definition route_distance (xs : list Stop) (route : list Z) : outcome number :=
  (routeStops <- map_stops xs route ;;
   Ok (calculateRouteDistance routeStops))%outcome.

Definition route_fitness (xs : list Stop) (route : list Z) : outcome number :=
  (distance <- route_distance xs route ;;
   Ok (Fin 1 / (distance + Fin (1 / 10)))%js)%outcome.

(** [fitness[idx1] > fitness[idx2] ? population[idx1] : population[idx2]];
    a fitness read outside the array is [undefined], which compares as
    [NaN]; the chromosome goes to [orderCrossover], whose read of [length]
    throws on [undefined]. *)
Definition tournament (fitness : list number) (population : list (list Z))
    (idx1 idx2 : nat) : outcome (list Z) :=
  let winner :=
    if (nth idx1 fitness NaN >? nth idx2 fitness NaN)%js then idx1 else idx2 in
  match nth_error population winner with
  | Some parent => Ok parent
  | None => TypeError
  end.

(** [child.includes(v)] *)
Definition includes (child : list Z) (v : Z) : bool :=
  existsb (Z.eqb v) child.

(** [for (let i = a; i <= b; i++) child[i] = parent1[i]]; the positions
    are inside [parent1]. *)
Definition copy_segment (parent1 child : list Z) (a b : nat) : list Z :=
  fold_left (fun c i => set_nth c i (nth i parent1 (-1)%Z))
            (seq a (b + 1 - a)) child.

(** [while (childIdx !== a)]; the parents are chromosomes of one length,
    so the read of [parent2] is inside the array. *)
Fixpoint fill_loop (fuel size a : nat) (parent2 child : list Z)
    (childIdx parent2Idx : nat) : outcome (list Z) :=
  if childIdx =? a then Ok child
  else
    match fuel with
    | O => Diverges
    | S fuel' =>
        (v <- read parent2 parent2Idx ;;
         if includes child v
         then fill_loop fuel' size a parent2 child childIdx
                        ((parent2Idx + 1) mod size)
         else fill_loop fuel' size a parent2 (set_nth child childIdx v)
                        ((childIdx + 1) mod size)
                        ((parent2Idx + 1) mod size))%outcome
    end.

Definition orderCrossover (parent1 parent2 : list Z) : Rand (list Z) :=
  let size := length parent1 in
  (start <- random_below size ;;
   end_ <- random_below size ;;
   let (a, b) := if start <? end_ then (start, end_) else (end_, start) in
   let child := copy_segment parent1 (repeat (-1)%Z size) a b in
   let childIdx := (b + 1) mod size in
   let parent2Idx := (b + 1) mod size in
   lift (fill_loop size size a parent2 child childIdx parent2Idx))%rand.

Definition mutate (route : list Z) : Rand (list Z) :=
  (i <- random_below (length route) ;;
   j <- random_below (length route) ;;
   ret (swap route i j))%rand.

(** One round of [for (let i = 0; i < populationSize; i++)] in a generation. *)
Definition breed (fitness : list number) (population : list (list Z))
    (populationSize : nat) : Rand (list Z) :=
  (idx1 <- random_below populationSize ;;
   idx2 <- random_below populationSize ;;
   parent1 <- lift (tournament fitness population idx1 idx2) ;;
   idx3 <- random_below populationSize ;;
   idx4 <- random_below populationSize ;;
   parent2 <- lift (tournament fitness population idx3 idx4) ;;
   child <- orderCrossover parent1 parent2 ;;
   r <- Math_random ;;
   if (r <? Fin (1 / 10))%js then mutate child else ret child)%rand.

Fixpoint breed_all (fitness : list number) (population : list (list Z))
    (populationSize count : nat) : Rand (list (list Z)) :=
  match count with
  | O => ret []
  | S count' =>
      (child <- breed fitness population populationSize ;;
       rest <- breed_all fitness population populationSize count' ;;
       ret (child :: rest))%rand
  end.

(** [for (let gen = 0; gen < generations; gen++)], on the number of
    generations that remain. *)
Fixpoint evolve (xs : list Stop) (populationSize generations : nat)
    (population : list (list Z)) : Rand (list (list Z)) :=
  match generations with
  | O => ret population
  | S generations' =>
      (fitness <- lift (mapM (route_fitness xs) population) ;;
       newPopulation <- breed_all fitness population populationSize populationSize ;;
       evolve xs populationSize generations' newPopulation)%rand
  end.

(** [fitness.indexOf(v)] *)
Fixpoint indexOf_from (xs : list number) (v : number) (p : nat) : Z :=
  match xs with
  | [] => (-1)%Z
  | x :: rest => if eqb x v then Z.of_nat p else indexOf_from rest v (S p)
  end.

Definition indexOf (xs : list number) (v : number) : Z := indexOf_from xs v 0.

(** The end of [geneticAlgorithm], from [// Return best solution] on. *)
Definition best_solution (xs : list Stop) (population : list (list Z))
  : outcome OptimizationResult :=
  (fitness <- mapM (route_distance xs) population ;;
   let bestIdx := indexOf fitness (Math_min fitness) in
   bestRoute <- match get population bestIdx with
                | Some r => Ok r
                | None => TypeError
                end ;;
   optimizedStops <- map_stops xs bestRoute ;;
   let distance := calculateRouteDistance optimizedStops in
   nn <- nearestNeighbor xs ;;
   let nnDistance := calculateRouteDistance (stops nn) in
   Ok {| stops := optimizedStops; distance := distance;
         improvement := (((nnDistance - distance) / nnDistance) * Fin 100)%js |})%outcome.

Definition geneticAlgorithm (xs : list Stop) (populationSize generations : nat)
  : Rand OptimizationResult :=
  if length xs <? 4 then lift (nearestNeighbor xs)
  else
    (population <- initial_population (length xs) populationSize ;;
     population' <- evolve xs populationSize generations population ;;
     lift (best_solution xs population'))%rand.

(** ** Comparator *)

(** [(a, b) => a.distance - b.distance] *)
Definition by_distance (a b : OptimizationResult) : number :=
  (distance a - distance b)%js.

(** [Array.prototype.sort]: a stable sort; [x] goes before the first
    element that the comparator puts strictly after it. *)
Fixpoint sort_insert {A : Type} (cmp : A -> A -> number) (x : A) (sorted : list A) : list A :=
  match sorted with
  | [] => [x]
  | y :: rest =>
      if (cmp y x >? Fin 0)%js then x :: y :: rest
      else y :: sort_insert cmp x rest
  end.

Definition Array_sort {A : Type} (cmp : A -> A -> number) (xs : list A) : list A :=
  fold_left (fun sorted x => sort_insert cmp x sorted) xs [].

Definition compareAlgorithms (xs : list Stop) : Rand (list OptimizationResult) :=
  (nn <- lift (nearestNeighbor xs) ;;
   opt2 <- lift (twoOpt xs 100) ;;
   ga <- geneticAlgorithm xs 50 100 ;;
   ret (Array_sort by_distance [opt2; ga; nn]))%rand.

End GeneticSearch.

(** ** The application

    [client/src/App.tsx]: the data of the component [App], the part of
    its state that its event handlers read and write, and the handlers
    that call the engine.  A handler is a function of the state; it gives
    the next state and the notifications it raises. *)

(** [Math.round(x)]: the nearest integer, the larger one on a tie. *)
Definition Math_round (x : number) : number :=
  match x with
  | Fin r => Fin (IZR (Zfloor (r + 1 / 2)))
  | _ => x
  end.

Module App.

Record DeliveryStop : Type := mkDeliveryStop {
  id : string;
  name : string;
  address : string;
  lat : number;
  lng : number;
  sequence : option nat;
  borough : option string
}.

Record RouteResult : Type := mkRouteResult {
  stops : list DeliveryStop;
  distance : number;
  duration : number;
  algorithm : string;
  efficiency : number
}.

End App.

Module State.

(** The state variables of [App] that the handlers use. *)
Record AppState : Type := mkAppState {
  stops : list App.DeliveryStop;
  selectedStopId : option string;
  routeResults : list App.RouteResult;
  isCalculating : bool;
  selectedAlgorithm : string
}.

End State.

(** The notifications of [toast]; the distance that the message of a
    computed route quotes is kept as a number. *)
Inductive toast : Type :=
| toast_error : string -> toast
| toast_info : string -> toast
| toast_success : string -> toast
| toast_route_optimized : number -> toast.

(** [stops.map(s => ({ id: s.id, lat: s.lat, lng: s.lng }))] *)
Definition algorithmStops (ds : list App.DeliveryStop) : list Stop :=
  map (fun s => mkStop (App.id s) (App.lat s) (App.lng s)) ds.

(** [stops.find(stop => stop.id === s.id)] *)
Definition find_original (ds : list App.DeliveryStop) (s : Stop) : option App.DeliveryStop :=
  find (fun stop => String.eqb (App.id stop) (id s)) ds.

(** [{ ...original, sequence: idx + 1 }].  The identifiers of a tour are
    identifiers of [stops], so [find] gives a stop; the other case stands
    for the object that has no other property than [sequence], whose
    coordinates read as [NaN] in arithmetic. *)
Definition sequenced (original : option App.DeliveryStop) (idx : nat) : App.DeliveryStop :=
  match original with
  | Some o =>
      App.mkDeliveryStop (App.id o) (App.name o) (App.address o) (App.lat o) (App.lng o)
                         (Some (idx + 1)) (App.borough o)
  | None =>
      App.mkDeliveryStop EmptyString EmptyString EmptyString NaN NaN (Some (idx + 1)) None
  end.

(** [xs.map((x, idx) => f(x, idx))], from the index [idx] on. *)
Fixpoint map_index {A B : Type} (f : A -> nat -> B) (xs : list A) (idx : nat) : list B :=
  match xs with
  | [] => []
  | x :: rest => f x idx :: map_index f rest (S idx)
  end.

(** [optimizedStops.map((s, idx) => ...)], back to the stops of the state. *)
Definition resultStops (ds : list App.DeliveryStop) (optimizedStops : list Stop)
  : list App.DeliveryStop :=
  map_index (fun s idx => sequenced (find_original ds s) idx) optimizedStops 0.

Definition no_delivery_stop : App.DeliveryStop :=
  App.mkDeliveryStop EmptyString EmptyString EmptyString NaN NaN None None.

(** The loop [for (let i = 0; i < resultStops.length; i++)], whose body
    is the haversine formula of [calculateDistance] written out. *)
Definition totalDistance (rs : list App.DeliveryStop) : number :=
  fold_left
    (fun total i =>
       let current := nth i rs no_delivery_stop in
       let next := nth ((i + 1) mod length rs) rs no_delivery_stop in
       (total + calculateDistance (App.lat current) (App.lng current)
                                  (App.lat next) (App.lng next))%js)
    (seq 0 (length rs)) (Fin 0).

Section Handlers.

Variable rnd : RandomSource.

(** The choice of the algorithm in [handleCalculateRoute]. *)
Definition selected_tour (selectedAlgorithm : string) (xs : list Stop) : Rand (list Stop) :=
  if String.eqb selectedAlgorithm "nearest-neighbor" then
    (result <- lift (nearestNeighbor xs) ;; ret (stops result))%rand
  else if String.eqb selectedAlgorithm "2-opt" then
    (result <- lift (twoOpt xs 100) ;; ret (stops result))%rand
  else if String.eqb selectedAlgorithm "genetic" then
    (result <- geneticAlgorithm rnd xs 50 100 ;; ret (stops result))%rand
  else
    (result <- lift (nearestNeighbor xs) ;; ret (stops result))%rand.

(** The choice of the algorithm in [handleCompareAlgorithms]. *)
Definition compared_tour (algo : string) (xs : list Stop) : Rand (list Stop) :=
  if String.eqb algo "nearest-neighbor" then
    (result <- lift (nearestNeighbor xs) ;; ret (stops result))%rand
  else if String.eqb algo "2-opt" then
    (result <- lift (twoOpt xs 100) ;; ret (stops result))%rand
  else
    (result <- geneticAlgorithm rnd xs 50 100 ;; ret (stops result))%rand.

(** From [// Map back to DeliveryStop format] to the [RouteResult]. *)
Definition route_result (ds : list App.DeliveryStop) (algorithmName : string)
    (optimizedStops : list Stop) : Rand App.RouteResult :=
  let rs := resultStops ds optimizedStops in
  let total := totalDistance rs in
  (r <- Math_random rnd ;;
   ret {| App.stops := rs;
          App.distance := total;
          App.duration := Math_round (total * Fin 3)%js;
          App.algorithm := algorithmName;
          App.efficiency := (Fin 0.85 + r * Fin 0.15)%js |})%rand.

Definition handleRemoveStop (i : string) (st : State.AppState)
  : State.AppState * list toast :=
  ({| State.stops := filter (fun s => negb (String.eqb (App.id s) i)) (State.stops st);
      State.selectedStopId := None;
      State.routeResults := State.routeResults st;
      State.isCalculating := State.isCalculating st;
      State.selectedAlgorithm := State.selectedAlgorithm st |},
   [toast_info "Stop removed"]).

Definition handleClearAll (st : State.AppState) : State.AppState * list toast :=
  ({| State.stops := [];
      State.selectedStopId := None;
      State.routeResults := [];
      State.isCalculating := State.isCalculating st;
      State.selectedAlgorithm := State.selectedAlgorithm st |},
   [toast_info "All stops cleared"]).

(** The stops that [handleLoadExample] loads. *)
Definition examples : list App.DeliveryStop :=
  [ App.mkDeliveryStop "1" "Post Office" "421 8th Ave, Manhattan"
      (Fin 40.7505) (Fin (-73.9934)) None (Some "Manhattan"%string);
    App.mkDeliveryStop "2" "Coffee Shop" "Williamsburg, Brooklyn"
      (Fin 40.7081) (Fin (-73.9565)) None (Some "Brooklyn"%string);
    App.mkDeliveryStop "3" "Retail Store" "Times Square, Manhattan"
      (Fin 40.7580) (Fin (-73.9855)) None (Some "Manhattan"%string);
    App.mkDeliveryStop "4" "Distribution Center" "Long Island City, Queens"
      (Fin 40.7505) (Fin (-73.9776)) None (Some "Queens"%string);
    App.mkDeliveryStop "5" "Restaurant" "Park Slope, Brooklyn"
      (Fin 40.6629) (Fin (-73.9776)) None (Some "Brooklyn"%string) ].

(** The [try] block runs on the numbers drawn from call [k] on; an
    exception goes to the [catch] block, and [finally] resets
    [isCalculating]. *)
Definition handleCalculateRoute (st : State.AppState) (k : nat)
  : outcome (State.AppState * list toast) :=
  if length (State.stops st) <? 2 then
    Ok (st, [toast_error "Add at least 2 delivery stops"])
  else
    let attempt :=
      (optimizedStops <- selected_tour (State.selectedAlgorithm st)
                                       (algorithmStops (State.stops st)) ;;
       route_result (State.stops st) (State.selectedAlgorithm st) optimizedStops)%rand in
    match attempt k with
    | Ok (result, _) =>
        Ok ({| State.stops := State.stops st;
               State.selectedStopId := State.selectedStopId st;
               State.routeResults := [result];
               State.isCalculating := false;
               State.selectedAlgorithm := State.selectedAlgorithm st |},
            [toast_route_optimized (App.distance result)])
    | TypeError =>
        Ok ({| State.stops := State.stops st;
               State.selectedStopId := State.selectedStopId st;
               State.routeResults := State.routeResults st;
               State.isCalculating := false;
               State.selectedAlgorithm := State.selectedAlgorithm st |},
            [toast_error "Failed to calculate route"])
    | Diverges => Diverges
    end.

(** [for (const algo of algorithms)], with [results.push]. *)
Fixpoint compare_loop (ds : list App.DeliveryStop) (algorithms : list string)
    (results : list App.RouteResult) : Rand (list App.RouteResult) :=
  match algorithms with
  | [] => ret results
  | algo :: rest =>
      (optimizedStops <- compared_tour algo (algorithmStops ds) ;;
       result <- route_result ds algo optimizedStops ;;
       compare_loop ds rest (results ++ [result]))%rand
  end.

(** [(a, b) => a.distance - b.distance] on route results. *)
Definition by_route_distance (a b : App.RouteResult) : number :=
  (App.distance a - App.distance b)%js.

Definition handleCompareAlgorithms (st : State.AppState) (k : nat)
  : outcome (State.AppState * list toast) :=
  if length (State.stops st) <? 2 then
    Ok (st, [toast_error "Add at least 2 delivery stops"])
  else
    let algorithms := ["nearest-neighbor"; "2-opt"; "genetic"]%string in
    match compare_loop (State.stops st) algorithms [] k with
    | Ok (results, _) =>
        Ok ({| State.stops := State.stops st;
               State.selectedStopId := State.selectedStopId st;
               State.routeResults := Array_sort by_route_distance results;
               State.isCalculating := false;
               State.selectedAlgorithm := State.selectedAlgorithm st |},
            [toast_success "Compared 3 algorithms"])
    | TypeError =>
        Ok ({| State.stops := State.stops st;
               State.selectedStopId := State.selectedStopId st;
               State.routeResults := State.routeResults st;
               State.isCalculating := false;
               State.selectedAlgorithm := State.selectedAlgorithm st |},
            [toast_error "Failed to compare algorithms"])
    | Diverges => Diverges
    end.

End Handlers.

(** ** Boroughs

    [detectBorough], declared with the same body in
    [client/src/components/MapContainer.tsx] and in
    [client/src/components/LeafletMap.tsx]. *)
Definition detectBorough (lat lng : number) : string :=
  if (lat >? Fin 40.8)%js && (lng <? Fin (-73.7))%js then "Bronx"
  else if (lat <? Fin 40.6)%js && (lng <? Fin (-74.0))%js then "Staten Island"
  else if (lat <? Fin 40.65)%js && (lng >? Fin (-73.95))%js then "Brooklyn"
  else if (lat >? Fin 40.75)%js && (lng >? Fin (-73.8))%js then "Queens"
  else "Manhattan".

(** ** The engine on binary64 numbers

    The distance model and the nearest-neighbour builder a second time,
    on the doubles of the machine: every operation rounds to the nearest
    double, as IEEE-754 has it, and [Math.sin], [Math.cos] and
    [Math.atan2] are the routines of fdlibm ([s_sin.c], [s_cos.c],
    [k_sin.c], [k_cos.c], [e_rem_pio2.c], [k_rem_pio2.c], [s_atan.c],
    [e_atan2.c]), from which the JavaScript engines take them.  The
    functions of this module are evaluated on given stops, and the
    nearest-neighbour builder is also followed on every list of stops;
    the other statements about every input are made on the numbers of
    [JS]. *)

Module Binary64.

Import Floats.

Local Open Scope float_scope.

Definition number : Type := float.

(** *** The words of a double *)

Definition sign_bit (x : number) : bool :=
  match Prim2SF x with
  | S754_zero s | S754_infinity s | S754_finite s _ _ => s
  | S754_nan => false
  end.

(** The exponent field and the fraction field of a double. *)
Definition fields (x : number) : Z * Z :=
  match Prim2SF x with
  | S754_zero _ => (0, 0)%Z
  | S754_infinity _ => (2047, 0)%Z
  | S754_nan => (2047, 2 ^ 51)%Z
  | S754_finite _ m e =>
      if (2 ^ 52 <=? Z.pos m)%Z then (e + 1075, Z.pos m - 2 ^ 52)%Z
      else (0, Z.pos m)%Z
  end.

(** The high word of a double without its sign bit, and its low word. *)
Definition high_word (x : number) : Z :=
  let (e, f) := fields x in (e * 2 ^ 20 + f / 2 ^ 32)%Z.

Definition low_word (x : number) : Z :=
  (snd (fields x) mod 2 ^ 32)%Z.

(** [INSERT_WORDS] for a high word without sign bit, below the one of
    [Infinity]. *)
Definition insert_words (high low : Z) : number :=
  let e := (high / 2 ^ 20)%Z in
  let f := ((high mod 2 ^ 20) * 2 ^ 32 + low)%Z in
  if (e =? 0)%Z then
    match f with
    | Zpos p => SF2Prim (S754_finite false p (-1074))
    | _ => 0
    end
  else SF2Prim (S754_finite false (Z.to_pos (2 ^ 52 + f)) (e - 1075)).

(** The conversion of a double to an integer, towards zero, and back. *)
Definition to_int (x : number) : Z :=
  match Prim2SF x with
  | S754_finite s m e =>
      let v := (if 0 <=? e then Z.pos m * 2 ^ e else Z.pos m / 2 ^ (- e))%Z in
      if s then (- v)%Z else v
  | _ => 0%Z
  end.

Definition of_int (n : Z) : number :=
  if (n <? 0)%Z then - of_uint63 (Uint63.of_Z (- n)) else of_uint63 (Uint63.of_Z n).

Definition scalbn (x : number) (n : Z) : number := Z.ldexp x n.

(** *** Sine and cosine *)

Definition S1 : number := -0x1.5555555555549p-3.
Definition S2 : number := 0x1.111111110f8a6p-7.
Definition S3 : number := -0x1.a01a019c161d5p-13.
Definition S4 : number := 0x1.71de357b1fe7dp-19.
Definition S5 : number := -0x1.ae5e68a2b9cebp-26.
Definition S6 : number := 0x1.5d93a5acfd57cp-33.

Definition kernel_sin (x y : number) (iy : bool) : number :=
  if (high_word x <? 0x3e400000)%Z then x
  else
    let z := x * x in
    let v := z * x in
    let r := S2 + z * (S3 + z * (S4 + z * (S5 + z * S6))) in
    if iy then x - ((z * (0.5 * y - v * r) - y) - v * S1)
    else x + v * (S1 + z * r).

Definition C1 : number := 0x1.555555555554cp-5.
Definition C2 : number := -0x1.6c16c16c15177p-10.
Definition C3 : number := 0x1.a01a019cb159p-16.
Definition C4 : number := -0x1.27e4f809c52adp-22.
Definition C5 : number := 0x1.1ee9ebdb4b1c4p-29.
Definition C6 : number := -0x1.8fae9be8838d4p-37.

Definition kernel_cos (x y : number) : number :=
  let ix := high_word x in
  if (ix <? 0x3e400000)%Z then 1
  else
    let z := x * x in
    let r := z * (C1 + z * (C2 + z * (C3 + z * (C4 + z * (C5 + z * C6))))) in
    if (ix <? 0x3FD33333)%Z then 1 - (0.5 * z - (z * r - x * y))
    else
      let qx := if (0x3fe90000 <? ix)%Z then 0.28125
                else insert_words (ix - 0x00200000) 0 in
      let hz := 0.5 * z - qx in
      let a := 1 - qx in
      a - (hz - (z * r - x * y)).

Definition invpio2 : number := 0x1.45f306dc9c883p-1.
Definition pio2_1 : number := 0x1.921fb544p+0.
Definition pio2_1t : number := 0x1.0b4611a626331p-34.
Definition pio2_2 : number := 0x1.0b4611a6p-34.
Definition pio2_2t : number := 0x1.3198a2e037073p-69.
Definition pio2_3 : number := 0x1.3198a2ep-69.
Definition pio2_3t : number := 0x1.b839a252049c1p-104.

Definition two24 : number := 0x1p+24.
Definition twon24 : number := 0x1p-24.

Definition npio2_hw : list Z :=
  [ 0x3FF921FB; 0x400921FB; 0x4012D97C; 0x401921FB; 0x401F6A7A; 0x4022D97C;
    0x4025FDBB; 0x402921FB; 0x402C463A; 0x402F6A7A; 0x4031475C; 0x4032D97C;
    0x40346B9C; 0x4035FDBB; 0x40378FDB; 0x403921FB; 0x403AB41B; 0x403C463A;
    0x403DD85A; 0x403F6A7A; 0x40407E4C; 0x4041475C; 0x4042106C; 0x4042D97C;
    0x4043A28C; 0x40446B9C; 0x404534AC; 0x4045FDBB; 0x4046C6CB; 0x40478FDB;
    0x404858EB; 0x404921FB ]%Z.

Definition two_over_pi : list Z :=
  [ 0xA2F983; 0x6E4E44; 0x1529FC; 0x2757D1; 0xF534DD; 0xC0DB62; 0x95993C;
    0x439041; 0xFE5163; 0xABDEBB; 0xC561B7; 0x246E3A; 0x424DD2; 0xE00649;
    0x2EEA09; 0xD1921C; 0xFE1DEB; 0x1CB129; 0xA73EE8; 0x8235F5; 0x2EBB44;
    0x84E99C; 0x7026B4; 0x5F7E41; 0x3991D6; 0x398353; 0x39F49C; 0x845F8B;
    0xBDF928; 0x3B1FF8; 0x97FFDE; 0x05980F; 0xEF2F11; 0x8B5A0A; 0x6D1F6D;
    0x367ECF; 0x27CB09; 0xB74F46; 0x3F669E; 0x5FEA2D; 0x7527BA; 0xC7EBE5;
    0xF17B3D; 0x0739F7; 0x8A5292; 0xEA6BFB; 0x5FB11F; 0x8D5D08; 0x560330;
    0x46FC7B; 0x6BABF0; 0xCFBC20; 0x9AF436; 0x1DA9E3; 0x91615E; 0xE61B08;
    0x659985; 0x5F14A0; 0x68408D; 0xFFD880; 0x4D7327; 0x310606; 0x1556CA;
    0x73A8C9; 0x60E27B; 0xC08C6B ]%Z.

Definition PIo2 : list number :=
  [ 0x1.921fb4p+0; 0x1.4442dp-24; 0x1.846988p-48; 0x1.8cc516p-72;
    0x1.01b838p-96; 0x1.a25204p-120; 0x1.382228p-145; 0x1.9f31dp-169 ].

(** [iq[p] = v] *)
Fixpoint store (iq : list Z) (p : nat) (v : Z) : list Z :=
  match iq, p with
  | [], _ => []
  | _ :: rest, O => v :: rest
  | w :: rest, S p' => w :: store rest p' v
  end.

Section KernelRemPio2.

(** [__kernel_rem_pio2(x, y, e0, nx, 2, two_over_pi)]: [jk = jp = 4]. *)
Variable x : list number.
Variables e0 nx : Z.

Let jk : nat := 4.
Let jx : Z := (nx - 1)%Z.
Let jv : Z := Z.max 0 (Z.quot (e0 - 3) 24).

Definition f (i : Z) : number :=
  let j := (jv - jx + i)%Z in
  if (j <? 0)%Z then 0 else of_int (nth (Z.to_nat j) two_over_pi 0%Z).

Definition q (i : nat) : number :=
  fold_left (fun fw j => fw + nth j x 0 * f (jx + Z.of_nat i - Z.of_nat j))
            (seq 0 (Z.to_nat (jx + 1))) 0.

(** [for (i = 0, j = jz, z = q[jz]; j > 0; i++, j--)] *)
Fixpoint distill (j : nat) (z : number) (iq : list Z) : number * list Z :=
  match j with
  | O => (z, iq)
  | S j' =>
      let fw := of_int (to_int (twon24 * z)) in
      distill j' (q j' + fw) (iq ++ [to_int (z - two24 * fw)])
  end.

(** [for (i = 0; i < jz; i++)], computing [1 - q]. *)
Fixpoint complement (iq : list Z) (carry : bool) : list Z * bool :=
  match iq with
  | [] => ([], carry)
  | j :: rest =>
      if carry then
        let (rest', c) := complement rest true in ((0xffffff - j)%Z :: rest', c)
      else if (j =? 0)%Z then
        let (rest', c) := complement rest false in (j :: rest', c)
      else
        let (rest', c) := complement rest true in ((0x1000000 - j)%Z :: rest', c)
  end.

(** [for (k = 1; iq[jk - k] == 0; k++)] *)
Fixpoint terms_needed (fuel : nat) (iq : list Z) (k : nat) : nat :=
  match fuel with
  | O => k
  | S fuel' =>
      if (nth (jk - k) iq 0 =? 0)%Z then terms_needed fuel' iq (S k) else k
  end.

(** [while (iq[jz] == 0) { jz--; q0 -= 24; }] *)
Fixpoint chop (jz : nat) (q0 : Z) (iq : list Z) : nat * Z :=
  if (nth jz iq 0 =? 0)%Z then
    match jz with
    | O => (jz, q0)
    | S jz' => chop jz' (q0 - 24)%Z iq
    end
  else (jz, q0).

(** [for (i = jz; i >= 0; i--) { q[i] = fw * (double)iq[i]; fw *= twon24; }] *)
Fixpoint chunks (i : nat) (fw : number) (iq : list Z) : list number :=
  match i with
  | O => [fw * of_int (nth 0 iq 0%Z)]
  | S i' => chunks i' (fw * twon24) iq ++ [fw * of_int (nth i iq 0%Z)]
  end.

(** The part of [__kernel_rem_pio2] from the label [recompute] on. *)
Fixpoint recompute (fuel : nat) (jz : nat) : Z * number * number :=
  let q0 := (e0 - 24 * (jv + 1))%Z in
  let (z, iq) := distill jz (q jz) [] in
  let z := scalbn z q0 in
  let z := z - 8 * of_int (to_int (z * 0.125)) in
  let n := to_int z in
  let z := z - of_int n in
  let top := nth (jz - 1) iq 0%Z in
  let '(n, iq, ih) :=
    if (0 <? q0)%Z then
      let i := Z.shiftr top (24 - q0) in
      let top' := (top - Z.shiftl i (24 - q0))%Z in
      ((n + i)%Z, store iq (jz - 1) top', Z.shiftr top' (23 - q0))
    else if (q0 =? 0)%Z then (n, iq, Z.shiftr top 23)
    else if 0.5 <=? z then (n, iq, 2%Z)
    else (n, iq, 0%Z) in
  let '(n, iq, z) :=
    if (0 <? ih)%Z then
      let (iq, carry) := complement iq false in
      let top := nth (jz - 1) iq 0%Z in
      let iq :=
        if (q0 =? 1)%Z then store iq (jz - 1) (Z.land top 0x7fffff)
        else if (q0 =? 2)%Z then store iq (jz - 1) (Z.land top 0x3fffff)
        else iq in
      let z :=
        if (ih =? 2)%Z then
          let z := 1 - z in
          if carry then z - scalbn 1 q0 else z
        else z in
      ((n + 1)%Z, iq, z)
    else (n, iq, z) in
  let again :=
    (z =? 0) && forallb (fun v => (v =? 0)%Z) (skipn jk iq) in
  match again, fuel with
  | true, S fuel' => recompute fuel' (jz + terms_needed (length iq) iq 1)
  | _, _ =>
      let '(jz, q0, iq) :=
        if z =? 0 then
          let (jz', q0') := chop (jz - 1) (q0 - 24)%Z iq in (jz', q0', iq)
        else
          let z := scalbn z (- q0) in
          if two24 <=? z then
            let fw := of_int (to_int (twon24 * z)) in
            (S jz, (q0 + 24)%Z, firstn jz iq ++ [to_int (z - two24 * fw); to_int fw])
          else (jz, q0, firstn jz iq ++ [to_int z]) in
      let qs := chunks jz (scalbn 1 q0) iq in
      let fq :=
        map (fun i =>
               fold_left (fun fw k => fw + nth k PIo2 0 * nth (i + k) qs 0)
                         (seq 0 (S (Nat.min jk (jz - i)))) 0)
            (rev (seq 0 (S jz))) in
      let fw := fold_left (fun fw i => fw + nth i fq 0) (rev (seq 0 (S jz))) 0 in
      let y0 := if (ih =? 0)%Z then fw else - fw in
      let fw := fold_left (fun fw i => fw + nth i fq 0) (seq 1 jz) (nth 0 fq 0 - fw) in
      let y1 := if (ih =? 0)%Z then fw else - fw in
      (Z.land n 7, y0, y1)
  end.

Definition kernel_rem_pio2 : Z * number * number := recompute 16 jk.

End KernelRemPio2.

(** [__ieee754_rem_pio2(x, y)]: the multiple of [PI / 2] nearest to [x]
    and the remainder [y[0] + y[1]]. *)
Definition rem_pio2 (x : number) : Z * number * number :=
  let ix := high_word x in
  let negative := sign_bit x in
  if (ix <=? 0x3fe921fb)%Z then (0%Z, x, 0)
  else if (ix <? 0x4002d97c)%Z then
    if negative then
      let z := x + pio2_1 in
      if negb (ix =? 0x3ff921fb)%Z then
        let y0 := z + pio2_1t in
        ((-1)%Z, y0, (z - y0) + pio2_1t)
      else
        let z := z + pio2_2 in
        let y0 := z + pio2_2t in
        ((-1)%Z, y0, (z - y0) + pio2_2t)
    else
      let z := x - pio2_1 in
      if negb (ix =? 0x3ff921fb)%Z then
        let y0 := z - pio2_1t in
        (1%Z, y0, (z - y0) - pio2_1t)
      else
        let z := z - pio2_2 in
        let y0 := z - pio2_2t in
        (1%Z, y0, (z - y0) - pio2_2t)
  else if (ix <=? 0x413921fb)%Z then
    let t := abs x in
    let n := to_int (t * invpio2 + 0.5) in
    let fn := of_int n in
    let r := t - fn * pio2_1 in
    let w := fn * pio2_1t in
    let '(r, w, y0) :=
      if (n <? 32)%Z && negb (ix =? nth (Z.to_nat (n - 1)) npio2_hw 0)%Z
      then (r, w, r - w)
      else
        let j := Z.shiftr ix 20 in
        let y0 := r - w in
        let i := (j - Z.land (Z.shiftr (high_word y0) 20) 0x7ff)%Z in
        if (16 <? i)%Z then
          let t := r in
          let w := fn * pio2_2 in
          let r := t - w in
          let w := fn * pio2_2t - ((t - r) - w) in
          let y0 := r - w in
          let i := (j - Z.land (Z.shiftr (high_word y0) 20) 0x7ff)%Z in
          if (49 <? i)%Z then
            let t := r in
            let w := fn * pio2_3 in
            let r := t - w in
            let w := fn * pio2_3t - ((t - r) - w) in
            (r, w, r - w)
          else (r, w, y0)
        else (r, w, y0) in
    let y1 := (r - y0) - w in
    if negative then ((- n)%Z, - y0, - y1) else (n, y0, y1)
  else if (0x7ff00000 <=? ix)%Z then (0%Z, x - x, x - x)
  else
    let e0 := (Z.shiftr ix 20 - 1046)%Z in
    let z := insert_words (ix - Z.shiftl e0 20) (low_word x) in
    let tx0 := of_int (to_int z) in
    let z := (z - tx0) * two24 in
    let tx1 := of_int (to_int z) in
    let tx2 := (z - tx1) * two24 in
    let nx := if negb (tx2 =? 0) then 3%Z else if negb (tx1 =? 0) then 2%Z else 1%Z in
    let '(n, y0, y1) := kernel_rem_pio2 [tx0; tx1; tx2] e0 nx in
    if negative then ((- n)%Z, - y0, - y1) else (n, y0, y1).

Definition Math_sin (x : number) : number :=
  let ix := high_word x in
  if (ix <=? 0x3fe921fb)%Z then kernel_sin x 0 false
  else if (0x7ff00000 <=? ix)%Z then x - x
  else
    let '(n, y0, y1) := rem_pio2 x in
    match Z.land n 3 with
    | 0%Z => kernel_sin y0 y1 true
    | 1%Z => kernel_cos y0 y1
    | 2%Z => - kernel_sin y0 y1 true
    | _ => - kernel_cos y0 y1
    end.

Definition Math_cos (x : number) : number :=
  let ix := high_word x in
  if (ix <=? 0x3fe921fb)%Z then kernel_cos x 0
  else if (0x7ff00000 <=? ix)%Z then x - x
  else
    let '(n, y0, y1) := rem_pio2 x in
    match Z.land n 3 with
    | 0%Z => kernel_cos y0 y1
    | 1%Z => - kernel_sin y0 y1 true
    | 2%Z => - kernel_cos y0 y1
    | _ => kernel_sin y0 y1 true
    end.

(** *** Arctangent *)

Definition atanhi : list number :=
  [ 0x1.dac670561bb4fp-2; 0x1.921fb54442d18p-1; 0x1.f730bd281f69bp-1;
    0x1.921fb54442d18p+0 ].

Definition atanlo : list number :=
  [ 0x1.a2b7f222f65e2p-56; 0x1.1a62633145c07p-55; 0x1.007887af0cbbdp-56;
    0x1.1a62633145c07p-54 ].

Definition aT : list number :=
  [ 0x1.555555555550dp-2; -0x1.999999998ebc4p-3; 0x1.24924920083ffp-3;
    -0x1.c71c6fe231671p-4; 0x1.745cdc54c206ep-4; -0x1.3b0f2af749a6dp-4;
    0x1.10d66a0d03d51p-4; -0x1.dde2d52defd9ap-5; 0x1.97b4b24760debp-5;
    -0x1.2b4442c6a6c2fp-5; 0x1.0ad3ae322da11p-6 ].

Definition atan (x : number) : number :=
  let ix := high_word x in
  let negative := sign_bit x in
  if (0x44100000 <=? ix)%Z then
    if (0x7ff00000 <? ix)%Z || ((ix =? 0x7ff00000)%Z && negb (low_word x =? 0)%Z)
    then x + x
    else if negative then - nth 3 atanhi 0 - nth 3 atanlo 0
    else nth 3 atanhi 0 + nth 3 atanlo 0
  else if (ix <? 0x3e200000)%Z then x
  else
    let '(id, x) :=
      if (ix <? 0x3fdc0000)%Z then (None, x)
      else
        let x := abs x in
        if (ix <? 0x3ff30000)%Z then
          if (ix <? 0x3fe60000)%Z then (Some 0%nat, (2 * x - 1) / (2 + x))
          else (Some 1%nat, (x - 1) / (x + 1))
        else
          if (ix <? 0x40038000)%Z then (Some 2%nat, (x - 1.5) / (1 + 1.5 * x))
          else (Some 3%nat, -1 / x) in
    let z := x * x in
    let w := z * z in
    let a i := nth i aT 0 in
    let s1 := z * (a 0%nat + w * (a 2%nat + w * (a 4%nat + w * (a 6%nat +
                     w * (a 8%nat + w * a 10%nat))))) in
    let s2 := w * (a 1%nat + w * (a 3%nat + w * (a 5%nat + w * (a 7%nat + w * a 9%nat)))) in
    match id with
    | None => x - x * (s1 + s2)
    | Some id =>
        let z := nth id atanhi 0 - ((x * (s1 + s2) - nth id atanlo 0) - x) in
        if negative then - z else z
    end.

Definition tiny : number := 0x1.56e1fc2f8f359p-997.
Definition pi_o_4 : number := 0x1.921fb54442d18p-1.
Definition pi_o_2 : number := 0x1.921fb54442d18p+0.
Definition pi : number := 0x1.921fb54442d18p+1.
Definition pi_lo : number := 0x1.1a62633145c07p-53.

Definition is_nan (x : number) : bool := negb (x =? x).

(** [x < y] *)
Definition lt (x y : number) : bool := x <? y.

Definition Math_atan2 (y x : number) : number :=
  let ix := high_word x in
  let iy := high_word y in
  (* [m = 2 * sign(x) + sign(y)] *)
  let sx := sign_bit x in
  let sy := sign_bit y in
  if is_nan x || is_nan y then x + y
  else if negb sx && (ix =? 0x3ff00000)%Z && (low_word x =? 0)%Z then atan y
  else if (iy =? 0)%Z && (low_word y =? 0)%Z then
    if sx then (if sy then - pi - tiny else pi + tiny) else y
  else if (ix =? 0)%Z && (low_word x =? 0)%Z then
    if sy then - pi_o_2 - tiny else pi_o_2 + tiny
  else if (ix =? 0x7ff00000)%Z then
    if (iy =? 0x7ff00000)%Z then
      match sx, sy with
      | false, false => pi_o_4 + tiny
      | false, true => - pi_o_4 - tiny
      | true, false => 3 * pi_o_4 + tiny
      | true, true => -3 * pi_o_4 - tiny
      end
    else
      match sx, sy with
      | false, false => 0
      | false, true => -0
      | true, false => pi + tiny
      | true, true => - pi - tiny
      end
  else if (iy =? 0x7ff00000)%Z then
    if sy then - pi_o_2 - tiny else pi_o_2 + tiny
  else
    let k := Z.shiftr (iy - ix) 20 in
    let '(z, sx) :=
      if (60 <? k)%Z then (pi_o_2 + 0.5 * pi_lo, false)
      else if sx && (k <? -60)%Z then (0, sx)
      else (atan (abs (y / x)), sx) in
    match sx, sy with
    | false, false => z
    | false, true => - z
    | true, false => pi - (z - pi_lo)
    | true, true => (z - pi_lo) - pi
    end.

Definition Math_sqrt (x : number) : number := PrimFloat.sqrt x.

Definition Math_PI : number := 0x1.921fb54442d18p+1.

(** *** The distance model and nearest neighbour *)

Definition calculateDistance (lat1 lng1 lat2 lng2 : number) : number :=
  let R := 6371 in
  let dLat := ((lat2 - lat1) * Math_PI) / 180 in
  let dLng := ((lng2 - lng1) * Math_PI) / 180 in
  let a :=
    Math_sin (dLat / 2) * Math_sin (dLat / 2) +
    Math_cos ((lat1 * Math_PI) / 180) *
      Math_cos ((lat2 * Math_PI) / 180) *
      Math_sin (dLng / 2) *
      Math_sin (dLng / 2) in
  let c := 2 * Math_atan2 (Math_sqrt a) (Math_sqrt (1 - a)) in
  R * c.

Record Stop : Type := mkStop { id : string; lat : number; lng : number }.

Record OptimizationResult : Type := mkResult {
  stops : list Stop;
  distance : number;
  improvement : number
}.

Definition dist (p q : Stop) : number :=
  calculateDistance (lat p) (lng p) (lat q) (lng q).

Fixpoint legs (total : number) (xs : list Stop) : number :=
  match xs with
  | p :: (q :: _) as rest => legs (total + dist p q) rest
  | _ => total
  end.

Definition calculateRouteDistance (xs : list Stop) : number :=
  match xs with
  | first :: _ :: _ =>
      let total := legs 0 xs in
      total + dist (last xs first) first
  | _ => 0
  end.

Definition stop_at (xs : list Stop) (i : Z) : outcome Stop :=
  match get xs i with
  | Some s => Ok s
  | None => TypeError
  end.

Fixpoint map_stops (xs : list Stop) (route : list Z) : outcome (list Stop) :=
  match route with
  | [] => Ok []
  | i :: rest =>
      (s <- stop_at xs i ;;
       ss <- map_stops xs rest ;;
       Ok (s :: ss))%outcome
  end.

Definition nn_visit (xs : list Stop) (current : Z)
    (st : Z * number) (idx : Z) : outcome (Z * number) :=
  (c <- stop_at xs current ;;
   s <- stop_at xs idx ;;
   let d := dist c s in
   if d <? snd st then Ok (idx, d) else Ok st)%outcome.

Fixpoint nn_scan (xs : list Stop) (current : Z)
    (unvisited : list Z) (st : Z * number) : outcome (Z * number) :=
  match unvisited with
  | [] => Ok st
  | idx :: rest =>
      (st' <- nn_visit xs current st idx ;;
       nn_scan xs current rest st')%outcome
  end.

Fixpoint nn_loop (fuel : nat) (xs : list Stop)
    (route unvisited : list Z) : outcome (list Z) :=
  match unvisited with
  | [] => Ok route
  | _ :: _ =>
      match fuel with
      | O => Diverges
      | S fuel' =>
          let current := last route 0%Z in
          (st <- nn_scan xs current unvisited ((-1)%Z, infinity) ;;
           let nearest := fst st in
           nn_loop fuel' xs (route ++ [nearest])
                   (remove Z.eq_dec nearest unvisited))%outcome
      end
  end.

Definition nearestNeighbor (xs : list Stop) : outcome OptimizationResult :=
  if (length xs <? 2)%nat then
    Ok {| stops := xs; distance := 0; improvement := 0 |}
  else
    (let unvisited := remove Z.eq_dec 0%Z (indices (length xs)) in
     route <- nn_loop (length xs) xs [0%Z] unvisited ;;
     optimizedStops <- map_stops xs route ;;
     let distance := calculateRouteDistance optimizedStops in
     Ok {| stops := optimizedStops; distance := distance;
           improvement := 0 |})%outcome.

(** Every distance that [calculateDistance] gives between two stops of
    [xs] is below [Infinity]: it is not [NaN], and it passes the test
    [dist < minDist] of a scan that has met no stop yet. *)
Definition below_Infinity (xs : list Stop) : Prop :=
  forall p q, In p xs -> In q xs -> (dist p q <? infinity) = true.

(** *** Sample inputs *)

(** Two stops at opposite points of the globe. *)
Definition antipodes : list Stop :=
  [ mkStop "a" 8 0; mkStop "b" (-8) 180 ].

(** Two other stops at opposite points of the globe. *)
Definition antipodes_58 : list Stop :=
  [ mkStop "a" 58 0; mkStop "b" (-58) 180 ].

(** The stops of [antipodes], and a third one on the equator. *)
Definition detour : list Stop :=
  [ mkStop "a" 8 0; mkStop "b" (-8) 180; mkStop "c" 0 0 ].

(** Four stops on the meridian of longitude 0, at latitudes 0, 3, 1 and 2. *)
Definition meridian : list Stop :=
  [ mkStop "a" 0 0; mkStop "b" 3 0; mkStop "c" 1 0; mkStop "d" 2 0 ].

(** Two stops on the meridian of longitude 0, one on the equator and one
    a hair to the north of it. *)
Definition neighbours : list Stop :=
  [ mkStop "a" 0 0; mkStop "b" 0x1p-600 0 ].

Definition is_zero (x : number) : bool := x =? 0.

End Binary64.

(** ** Notions used by the statements *)

(** A number other than [NaN], [Infinity] and [-Infinity]. *)
Definition finite (x : number) : bool :=
  match x with Fin _ => true | _ => false end.

(** A stop whose coordinates are finite numbers. *)
Definition finite_stop (s : Stop) : bool := finite (lat s) && finite (lng s).

Definition to_R (x : number) : R :=
  match x with Fin r => r | _ => 0%R end.

(** An index into an array of [n] elements. *)
Definition valid (n : nat) (i : Z) : Prop := (0 <= i < Z.of_nat n)%Z.

Definition no_stop : Stop := mkStop EmptyString NaN NaN.

(** [xs[i]] for a valid [i]. *)
Definition the_stop (xs : list Stop) (i : Z) : Stop := nth (Z.to_nat i) xs no_stop.

(** A list of stops with finite coordinates. *)
Definition all_finite (xs : list Stop) : bool := forallb finite_stop xs.

(** A stop on the globe: a latitude from -90 to 90 and a longitude from
    -180 to 180. *)
Definition in_range (s : Stop) : Prop :=
  exists la lo, lat s = Fin la /\ lng s = Fin lo /\
                (-90 <= la <= 90)%R /\ (-180 <= lo <= 180)%R.

(** Stops on the globe that are near one another: any two of them are at
    most a quarter turn, 90 degrees, apart in latitude and in longitude.
    Between two such stops the term [a] of the haversine formula is at
    most 3/4; two stops at opposite points of the globe, for which the
    rounding of the doubles can carry it above 1, are not near one
    another. *)
Definition nearby (xs : list Stop) : Prop :=
  Forall in_range xs /\
  forall p q, In p xs -> In q xs ->
    (Rabs (to_R (lat p) - to_R (lat q)) <= 90)%R /\
    (Rabs (to_R (lng p) - to_R (lng q)) <= 90)%R.

(** The scan of [unvisited.forEach] for a distance [d] from the current
    stop to each index. *)
Definition nn_pick (d : Z -> number) (unvisited : list Z) (st : Z * number)
  : Z * number :=
  fold_left (fun st idx => if lt (d idx) (snd st) then (idx, d idx) else st)
            unvisited st.

(** A computation that draws random numbers returns, whatever the number
    of calls made before it, with a value that satisfies [P]. *)
Definition returns {A : Type} (m : Rand A) (P : A -> Prop) : Prop :=
  forall k, exists a k', m k = Ok (a, k') /\ P a.

(** In [orderCrossover], position [p] of the child is still [-1] when the
    cursor [childIdx] is at [c]: the cursor runs from [b + 1] to the end
    of the array, then from [0] to [a]. *)
Definition hole (n a b c p : nat) : Prop :=
  (b < c /\ (c <= p < n \/ p < a)) \/ (c <= a /\ c <= p < a).

(** The state of the filling loop of [orderCrossover] after [t] reads of
    [parent2], for the cut [a <= b] of chromosomes of length [n]. *)
Definition fill_inv (n a b : nat) (parent2 child : list Z) (c t : nat) : Prop :=
  length child = n /\
  (b < c < n \/ c <= a) /\
  (forall p, p < n -> (nth p child (-1)%Z = (-1)%Z <-> hole n a b c p)) /\
  (forall p, p < n -> nth p child (-1)%Z = (-1)%Z \/ valid n (nth p child (-1)%Z)) /\
  (forall p q, p < n -> q < n -> nth p child (-1)%Z <> (-1)%Z ->
               nth p child (-1)%Z = nth q child (-1)%Z -> p = q) /\
  (forall v, valid n v -> ~ In v child ->
             exists k, t <= k < n /\ nth (((b + 1) mod n + k) mod n) parent2 (-1)%Z = v).

(** A chromosome: a permutation of the indices of the stops. *)
Definition chromosome (n : nat) (route : list Z) : Prop :=
  Permutation route (indices n).

(** The distance of the tour that a chromosome selects. *)
Definition tour_distance (xs : list Stop) (route : list Z) : number :=
  calculateRouteDistance (map (the_stop xs) route).

(** [a] is not farther than [b], both distances being finite. *)
Definition le_distance (a b : OptimizationResult) : Prop :=
  exists x y, distance a = Fin x /\ distance b = Fin y /\ (x <= y)%R.

(** The legs between consecutive stops of a path, in order. *)
Fixpoint consecutive (xs : list Stop) : list number :=
  match xs with
  | p :: (q :: _) as rest => dist p q :: consecutive rest
  | _ => []
  end.

(** The legs of the closed tour: the consecutive legs, then the leg back
    to the first stop. *)
Definition cyclic_legs (xs : list Stop) : list number :=
  match xs with
  | [] => []
  | first :: _ => consecutive (xs ++ [first])
  end.

Definition sum_numbers (ds : list number) : number := fold_right add (Fin 0) ds.

(** The sum of numbers as a real number, in exact arithmetic. *)
Definition exact_sum (ds : list number) : R := fold_right Rplus 0%R (map to_R ds).

(** The term [Math.sin(d / 2) * Math.sin(d / 2)] for [d = (v * PI) / 180]. *)
Definition half_sin_sq (v : number) : number :=
  let d := div (mul v Math_PI) (Fin 180) in
  mul (Math_sin (div d (Fin 2))) (Math_sin (div d (Fin 2))).

(** The haversine [a] of two points given in degrees. *)
Definition hav (la1 lo1 la2 lo2 : R) : R :=
  (sin ((la2 + - la1) * PI / 180 / 2) * sin ((la2 + - la1) * PI / 180 / 2) +
   cos (la1 * PI / 180) * cos (la2 * PI / 180) *
     sin ((lo2 + - lo1) * PI / 180 / 2) * sin ((lo2 + - lo1) * PI / 180 / 2))%R.

(** The tour [tour] visits the stops of [input], each one once. *)
Definition same_points (tour input : list Stop) : Prop :=
  Permutation tour input /\
  length tour = length input /\
  Permutation (map id tour) (map id input).

(** Stops that all lie at the coordinates [(la, lo)]. *)
Definition coincident (la lo : R) (xs : list Stop) : Prop :=
  Forall (fun s => lat s = Fin la /\ lng s = Fin lo) xs.


(** The length of a path as a real number: the sum of its legs. *)
Definition path (xs : list Stop) : R :=
  fold_right Rplus 0%R (map to_R (consecutive xs)).

(** Kilometres per degree along a meridian or along the equator. *)
Definition km_per_degree : R := (6371 * (PI / 180))%R.

(** In [route], each element that follows another is not strictly farther
    from it, by [d], than any element that comes later in [route] or lies
    in [tail]. *)
Definition greedy {A : Type} (d : A -> A -> number) (route tail : list A) : Prop :=
  forall pre c n post, route = pre ++ c :: n :: post ->
    forall y, In y (post ++ tail) -> lt (d c y) (d c n) = false.

(** The test [newDist < currentDist] of [twoOpt] at the positions [i] and
    [j] of [route]. *)
Definition improving (xs : list Stop) (route : list Z) (i j : nat) : bool :=
  let a := the_stop xs (nth i route 0%Z) in
  let b := the_stop xs (nth (i + 1) route 0%Z) in
  let c := the_stop xs (nth j route 0%Z) in
  let d := the_stop xs (nth ((j + 1) mod length route) route 0%Z) in
  lt (add (dist a c) (dist b d)) (add (dist a b) (dist c d)).

(** No pair of positions that the double loop of [twoOpt] visits passes
    the test. *)
Definition two_opt_optimal (xs : list Stop) (route : list Z) : Prop :=
  forall i j, i + 2 <= j -> j < length route -> improving xs route i j = false.

(** [n] passes of the double loop of [twoOpt] lead from [route] to
    [route'], each of them with an exchange. *)
Fixpoint improving_passes (xs : list Stop) (n : nat) (route route' : list Z) : Prop :=
  match n with
  | O => route' = route
  | S n' =>
      exists mid, twoOpt_pass xs route = Ok (mid, true) /\
                  improving_passes xs n' mid route'
  end.

(** The array [l] read from position [s] on, around its end. *)
Definition rotate {A : Type} (s : nat) (l : list A) : list A := skipn s l ++ firstn s l.

(** [parent1[a..b]], the genes that [orderCrossover] copies. *)
Definition segment (parent1 : list Z) (a b : nat) : list Z :=
  firstn (b + 1 - a) (skipn a parent1).

(** The state of the filling loop of [orderCrossover] after [t] reads of
    [parent2] and [w] writes, read from the position after the segment:
    the genes of [parent2] read so far that are not in the segment, the
    positions still to fill, then the segment. *)
Definition fill_order (n a b : nat) (parent1 parent2 child : list Z) (c t : nat) : Prop :=
  let s := (b + 1) mod n in
  let seg := segment parent1 a b in
  let m := n - length seg in
  let ws := filter (fun v => negb (includes seg v)) (firstn t (rotate s parent2)) in
  exists w, length ws = w /\ w <= m /\ c = (s + w) mod n /\
            rotate s child = ws ++ repeat (-1)%Z (m - w) ++ seg.

(** The stop that the engine receives for a delivery stop. *)
Definition toStop (s : App.DeliveryStop) : Stop :=
  mkStop (App.id s) (App.lat s) (App.lng s).

(** The engine function that [handleCalculateRoute] calls for the name of
    an algorithm: [nearestNeighbor] for every name other than ['2-opt']
    and ['genetic']. *)
Definition chosen_engine (rnd : RandomSource) (algorithmName : string) (xs : list Stop)
  : Rand OptimizationResult :=
  if String.eqb algorithmName "2-opt" then lift (twoOpt xs 100)
  else if String.eqb algorithmName "genetic" then geneticAlgorithm rnd xs 50 100
  else lift (nearestNeighbor xs).

(** A tour with its stops numbered from 1 in the field [sequence]. *)
Definition numbered (tour : list App.DeliveryStop) : list App.DeliveryStop :=
  map_index (fun o idx => sequenced (Some o) idx) tour 0.

(** The route result that the handlers build from the result [r] of the
    engine: the stops of [tour] numbered, the distance of [r], three
    minutes for each kilometre, and an efficiency from 0.85 to 1. *)
Definition route_of (ds tour : list App.DeliveryStop) (algorithmName : string)
    (r : OptimizationResult) (result : App.RouteResult) : Prop :=
  Permutation tour ds /\
  stops r = algorithmStops tour /\
  App.stops result = numbered tour /\
  App.distance result = distance r /\
  (exists d, distance r = Fin d /\ (0 <= d)%R) /\
  App.duration result = Math_round (mul (distance r) (Fin 3)) /\
  App.algorithm result = algorithmName /\
  exists e, App.efficiency result = Fin e /\ (0.85 <= e <= 1)%R.

(** [a] is not farther than [b], both distances being finite. *)
Definition le_route_distance (a b : App.RouteResult) : Prop :=
  exists x y, App.distance a = Fin x /\ App.distance b = Fin y /\ (x <= y)%R.

(** The improvement of a result against a baseline distance [dn] that is
    not 0: a number, at most 100, positive exactly when the tour is
    shorter than the baseline and negative exactly when it is longer. *)
Definition improvement_against (dn : R) (r : OptimizationResult) : Prop :=
  exists d p, distance r = Fin d /\ improvement r = Fin p /\
              (p <= 100)%R /\
              ((0 < p)%R <-> (d < dn)%R) /\ ((p < 0)%R <-> (dn < d)%R).

(** ** Sample inputs *)

(** A random source whose every draw is [0]. *)
Definition zero_source : RandomSource :=
  {| draw := fun _ => 0%R; draw_range := fun _ => conj (Rle_refl 0%R) Rlt_0_1 |}.

(** A random source whose draws are 0, 1/4, 1/2, 3/4, 0, 1/4 and so on. *)
Definition quarter_source : RandomSource :=
  {| draw := fun k => (INR (k mod 4) / 4)%R;
     draw_range :=
       ltac:(intros k;
             assert (H : k mod 4 < 4) by (apply Nat.mod_upper_bound; discriminate);
             apply lt_INR in H; pose proof (pos_INR (k mod 4));
             replace (INR 4) with 4%R in H by (simpl; lra); lra) |}.

(** Four stops on the corners of a one-degree square. *)
Definition square : list Stop :=
  [ mkStop "a"%string (Fin 0) (Fin 0); mkStop "b"%string (Fin 0) (Fin 1);
    mkStop "c"%string (Fin 1) (Fin 1); mkStop "d"%string (Fin 1) (Fin 0) ].


(** Four stops at the same coordinates. *)
Definition depot : list Stop :=
  [ mkStop "a"%string (Fin 40) (Fin (-74)); mkStop "b"%string (Fin 40) (Fin (-74));
    mkStop "c"%string (Fin 40) (Fin (-74)); mkStop "d"%string (Fin 40) (Fin (-74)) ].

(** Four stops on the meridian of longitude 0, at latitudes 0, 3, 1 and 2. *)
Definition meridian : list Stop :=
  [ mkStop "a"%string (Fin 0) (Fin 0); mkStop "b"%string (Fin 3) (Fin 0);
    mkStop "c"%string (Fin 1) (Fin 0); mkStop "d"%string (Fin 2) (Fin 0) ].

(** Four stops on the meridian of longitude 0, the second and the third
    at the same distance from the first, one on either side. *)
Definition straddle : list Stop :=
  [ mkStop "a"%string (Fin 0) (Fin 0); mkStop "b"%string (Fin 1) (Fin 0);
    mkStop "c"%string (Fin (-1)) (Fin 0); mkStop "d"%string (Fin 2) (Fin 0) ].

(** Two chromosomes over four stops, one the reverse of the other. *)
Definition forward : list Z := [0; 1; 2; 3]%Z.
Definition backward : list Z := [3; 2; 1; 0]%Z.

(** The chromosome of a tour that crosses itself on the stops of
    [square]. *)
Definition crossed : list Z := [0; 2; 1; 3]%Z.

(** Two stops, the first one without a latitude. *)
Definition uncharted : list Stop :=
  [ mkStop "a"%string NaN (Fin 0); mkStop "b"%string (Fin 0) (Fin 0) ].

(** The state of the application after [handleLoadExample], with the
    2-opt algorithm selected. *)
Definition example_state : State.AppState :=
  {| State.stops := examples;
     State.selectedStopId := None;
     State.routeResults := [];
     State.isCalculating := false;
     State.selectedAlgorithm := "2-opt" |}.

(** A state with two stops, one of them without a latitude. *)
Definition uncharted_state : State.AppState :=
  {| State.stops :=
       [ App.mkDeliveryStop "a" "A" "nowhere" NaN (Fin 0) None None;
         App.mkDeliveryStop "b" "B" "somewhere" (Fin 0) (Fin 0) None None ];
     State.selectedStopId := None;
     State.routeResults := [];
     State.isCalculating := false;
     State.selectedAlgorithm := "genetic" |}.

(** * Properties *)

Unset Implicit Arguments.

(** ** Numbers *)

Section NumberFacts.

Local Open Scope R_scope.

Lemma Rltb_true (x y : R) : x < y -> Rltb x y = true.
Proof. intros H. unfold Rltb. destruct (Rlt_dec x y); [reflexivity | contradiction]. Qed.

Lemma Rltb_false (x y : R) : y <= x -> Rltb x y = false.
Proof. intros H. unfold Rltb. destruct (Rlt_dec x y); [lra | reflexivity]. Qed.

Lemma Rltb_iff (x y : R) : Rltb x y = true <-> x < y.
Proof.
  unfold Rltb. destruct (Rlt_dec x y); split; intros; try assumption;
    try reflexivity; try discriminate; contradiction.
Qed.

Lemma Rltb_iff_false (x y : R) : Rltb x y = false <-> y <= x.
Proof.
  unfold Rltb. destruct (Rlt_dec x y); split; intros; try lra;
    try reflexivity; discriminate.
Qed.

Lemma Reqb_true (x y : R) : x = y -> Reqb x y = true.
Proof. intros H. unfold Reqb. destruct (Req_dec_T x y); [reflexivity | contradiction]. Qed.

Lemma Reqb_false (x y : R) : x <> y -> Reqb x y = false.
Proof. intros H. unfold Reqb. destruct (Req_dec_T x y); [contradiction | reflexivity]. Qed.

Lemma Reqb_iff (x y : R) : Reqb x y = true <-> x = y.
Proof.
  unfold Reqb. destruct (Req_dec_T x y); split; intros; try assumption;
    try reflexivity; try discriminate; contradiction.
Qed.

Lemma div_Fin (x y : R) : y <> 0 -> div (Fin x) (Fin y) = Fin (x / y).
Proof. intros H. simpl. rewrite (Reqb_false _ _ H). reflexivity. Qed.

Lemma sqrt_Fin (x : R) : 0 <= x -> Math_sqrt (Fin x) = Fin (sqrt x).
Proof. intros H. simpl. rewrite (Rltb_false _ _ H). reflexivity. Qed.

Lemma add_comm (x y : number) : add x y = add y x.
Proof.
  destruct x as [| s | a], y as [| t | b]; simpl; try reflexivity.
  - destruct s, t; reflexivity.
  - f_equal. lra.
Qed.

Lemma add_assoc (x y z : number) : add x (add y z) = add (add x y) z.
Proof.
  destruct x as [| s | a], y as [| t | b], z as [| u | c]; simpl;
    try reflexivity;
    try (destruct s; try destruct t; try destruct u; reflexivity);
    try (destruct t; try destruct u; reflexivity).
  f_equal. lra.
Qed.

Lemma add_zero_l (x : number) : add (Fin 0) x = x.
Proof. destruct x; simpl; try reflexivity. f_equal. lra. Qed.

Lemma neg_involutive (x : number) : neg (neg x) = x.
Proof.
  destruct x as [| s | a]; simpl; try reflexivity.
  - now rewrite negb_involutive.
  - f_equal. lra.
Qed.

Lemma sub_swap (x y : number) : sub x y = neg (sub y x).
Proof.
  destruct x as [| s | a], y as [| t | b]; simpl; try reflexivity.
  - destruct s, t; reflexivity.
  - now rewrite negb_involutive.
  - f_equal. lra.
Qed.

End NumberFacts.

(** ** The haversine distance *)

Section Haversine.

Local Open Scope R_scope.

Lemma mul_comm (x y : number) : mul x y = mul y x.
Proof.
  destruct x as [| s | a], y as [| t | b]; simpl; try reflexivity.
  - now rewrite xorb_comm.
  - f_equal. lra.
Qed.

Lemma Reqb_opp (r : R) : Reqb (- r) 0 = Reqb r 0.
Proof.
  unfold Reqb. destruct (Req_dec_T (- r) 0), (Req_dec_T r 0); try reflexivity; lra.
Qed.

Lemma Rneg_opp (r : R) : r <> 0 -> Rneg (- r) = negb (Rneg r).
Proof.
  intros H. unfold Rneg, Rltb.
  destruct (Rlt_dec (- r) 0), (Rlt_dec r 0); try reflexivity; lra.
Qed.

Lemma mul_neg_l (x y : number) : mul (neg x) y = neg (mul x y).
Proof.
  destruct x as [| s | a], y as [| t | b]; simpl; try reflexivity.
  - now destruct s, t.
  - destruct (Reqb b 0); [reflexivity | now destruct s, (Rneg b)].
  - rewrite Reqb_opp. destruct (Reqb a 0) eqn:E; [reflexivity |].
    rewrite Rneg_opp.
    + now destruct t, (Rneg a).
    + intros ->. now rewrite Reqb_true in E.
  - f_equal. lra.
Qed.

Lemma mul_neg_neg (x : number) : mul (neg x) (neg x) = mul x x.
Proof.
  rewrite mul_neg_l, (mul_comm x (neg x)), mul_neg_l. apply neg_involutive.
Qed.

Lemma div_neg_l (x : number) (b : R) : b <> 0 -> div (neg x) (Fin b) = neg (div x (Fin b)).
Proof.
  intros Hb. destruct x as [| s | a]; simpl; try reflexivity.
  - now destruct s, (Rneg b).
  - rewrite (Reqb_false _ _ Hb). simpl. f_equal. unfold Rdiv. ring.
Qed.

Lemma sin_neg_js (x : number) : Math_sin (neg x) = neg (Math_sin x).
Proof. destruct x; simpl; try reflexivity. now rewrite sin_neg. Qed.

Lemma half_sin_sq_neg (v : number) : half_sin_sq (neg v) = half_sin_sq v.
Proof.
  unfold half_sin_sq. cbv zeta.
  rewrite mul_neg_l, !div_neg_l, sin_neg_js by lra.
  apply mul_neg_neg.
Qed.

Lemma mul_assoc_sq (c s : number) (t : number) :
  mul s s = mul t t -> s = neg t \/ s = t -> mul (mul c s) s = mul (mul c t) t.
Proof.
  intros _ [-> | ->]; [| reflexivity].
  rewrite (mul_comm c (neg t)), mul_neg_l, mul_neg_l, (mul_comm _ (neg t)), mul_neg_l.
  rewrite neg_involutive, (mul_comm t c), (mul_comm t (mul c t)). reflexivity.
Qed.

Lemma calculateDistance_sym (lat1 lng1 lat2 lng2 : number) :
  calculateDistance lat1 lng1 lat2 lng2 = calculateDistance lat2 lng2 lat1 lng1.
Proof.
  unfold calculateDistance. cbv zeta.
  change (mul (Math_sin (div (div (mul (sub lat2 lat1) Math_PI) (Fin 180)) (Fin 2)))
              (Math_sin (div (div (mul (sub lat2 lat1) Math_PI) (Fin 180)) (Fin 2))))
    with (half_sin_sq (sub lat2 lat1)).
  change (mul (Math_sin (div (div (mul (sub lat1 lat2) Math_PI) (Fin 180)) (Fin 2)))
              (Math_sin (div (div (mul (sub lat1 lat2) Math_PI) (Fin 180)) (Fin 2))))
    with (half_sin_sq (sub lat1 lat2)).
  rewrite (sub_swap lat1 lat2), half_sin_sq_neg.
  rewrite (mul_comm (Math_cos (div (mul lat2 Math_PI) (Fin 180)))
                    (Math_cos (div (mul lat1 Math_PI) (Fin 180)))).
  rewrite (mul_assoc_sq
             (mul (Math_cos (div (mul lat1 Math_PI) (Fin 180)))
                  (Math_cos (div (mul lat2 Math_PI) (Fin 180))))
             (Math_sin (div (div (mul (sub lng1 lng2) Math_PI) (Fin 180)) (Fin 2)))
             (Math_sin (div (div (mul (sub lng2 lng1) Math_PI) (Fin 180)) (Fin 2)))).
  - reflexivity.
  - rewrite (sub_swap lng1 lng2), mul_neg_l, !div_neg_l, sin_neg_js by lra.
    apply mul_neg_neg.
  - left. rewrite (sub_swap lng1 lng2), mul_neg_l, !div_neg_l, sin_neg_js by lra.
    reflexivity.
Qed.

Lemma hav_range (la1 lo1 la2 lo2 : R) : 0 <= hav la1 lo1 la2 lo2 <= 1.
Proof.
  unfold hav.
  set (x := (la2 + - la1) * PI / 180 / 2).
  set (y := (lo2 + - lo1) * PI / 180 / 2).
  set (p1 := la1 * PI / 180). set (p2 := la2 * PI / 180).
  assert (H2x : 2 * x = p2 - p1) by (unfold x, p1, p2; lra).
  pose proof (cos_2a_sin x) as Hx. rewrite H2x, cos_minus in Hx.
  pose proof (cos_2a_sin y) as Hy.
  pose proof (COS_bound (2 * y)) as [Hc1 Hc2].
  pose proof (sin2_cos2 p1) as H1. pose proof (sin2_cos2 p2) as H2.
  unfold Rsqr in H1, H2.
  set (s1 := sin p1) in *. set (c1 := cos p1) in *.
  set (s2 := sin p2) in *. set (c2 := cos p2) in *.
  set (C := cos (2 * y)) in *.
  set (sx := sin x) in *. set (sy := sin y) in *.
  assert (Hsy : sy * sy = (1 - C) / 2) by lra.
  assert (Hsx : sx * sx = (1 - (c2 * c1 + s2 * s1)) / 2) by lra.
  assert (Ha : sx * sx + c1 * c2 * sy * sy = (1 - (s1 * s2 + c1 * c2 * C)) / 2).
  { replace (c1 * c2 * sy * sy) with (c1 * c2 * (sy * sy)) by ring.
    rewrite Hsx, Hsy. field. }
  rewrite Ha.
  assert (Hup : s1 * s2 + c1 * c2 * C <= 1).
  { pose proof (Rle_0_sqr (s1 - s2)) as Q1. pose proof (Rle_0_sqr (c1 - C * c2)) as Q2.
    unfold Rsqr in Q1, Q2.
    assert (HC : 0 <= 1 - C * C) by nra.
    assert (Hcc : 0 <= c2 * c2) by nra.
    pose proof (Rmult_le_pos _ _ HC Hcc). nra. }
  assert (Hlo : -1 <= s1 * s2 + c1 * c2 * C).
  { pose proof (Rle_0_sqr (s1 + s2)) as Q1. pose proof (Rle_0_sqr (c1 + C * c2)) as Q2.
    unfold Rsqr in Q1, Q2.
    assert (HC : 0 <= 1 - C * C) by nra.
    assert (Hcc : 0 <= c2 * c2) by nra.
    pose proof (Rmult_le_pos _ _ HC Hcc). nra. }
  lra.
Qed.

Lemma calculateDistance_Fin (la1 lo1 la2 lo2 : R) :
  calculateDistance (Fin la1) (Fin lo1) (Fin la2) (Fin lo2) =
  Fin (6371 * (2 * Ratan2 (sqrt (hav la1 lo1 la2 lo2))
                          (sqrt (1 + - hav la1 lo1 la2 lo2)))).
Proof.
  pose proof (hav_range la1 lo1 la2 lo2) as [H0 H1].
  unfold calculateDistance. cbv zeta.
  unfold sub, Math_PI. cbn [neg add mul].
  rewrite !div_Fin by lra. cbn [Math_sin Math_cos mul add neg].
  fold (hav la1 lo1 la2 lo2).
  rewrite !sqrt_Fin by lra. reflexivity.
Qed.

Lemma Ratan2_nonneg (y x : R) : 0 <= y -> 0 <= x -> 0 <= Ratan2 y x.
Proof.
  intros Hy Hx. unfold Ratan2.
  destruct (Rltb 0 x) eqn:E.
  - apply Rltb_iff in E.
    assert (0 <= y / x) by (apply Rle_mult_inv_pos; lra).
    destruct (Req_dec (y / x) 0) as [-> | Hne].
    + rewrite atan_0. lra.
    + rewrite <- atan_0. left. apply atan_increasing. lra.
  - rewrite (Rltb_false x 0) by lra.
    pose proof PI_RGT_0.
    destruct (Rltb 0 y); [lra |]. rewrite (Rltb_false y 0) by lra. lra.
Qed.

(** The distance of two points with finite coordinates is a non-negative
    real number. *)
Lemma calculateDistance_finite (la1 lo1 la2 lo2 : R) :
  exists d, calculateDistance (Fin la1) (Fin lo1) (Fin la2) (Fin lo2) = Fin d /\ 0 <= d.
Proof.
  pose proof (hav_range la1 lo1 la2 lo2) as [H0 H1].
  eexists. split; [apply calculateDistance_Fin |].
  assert (0 <= Ratan2 (sqrt (hav la1 lo1 la2 lo2)) (sqrt (1 + - hav la1 lo1 la2 lo2)))
    by (apply Ratan2_nonneg; apply sqrt_pos).
  lra.
Qed.

Lemma hav_same (la lo : R) : hav la lo la lo = 0.
Proof.
  unfold hav. replace ((la + - la) * PI / 180 / 2) with 0 by lra.
  replace ((lo + - lo) * PI / 180 / 2) with 0 by lra.
  rewrite sin_0. ring.
Qed.

Lemma calculateDistance_same (la lo : R) :
  calculateDistance (Fin la) (Fin lo) (Fin la) (Fin lo) = Fin 0.
Proof.
  rewrite calculateDistance_Fin, hav_same.
  replace (1 + - 0) with 1 by lra. rewrite sqrt_0, sqrt_1.
  unfold Ratan2. rewrite (Rltb_true 0 1) by lra.
  replace (0 / 1) with 0 by lra. rewrite atan_0. f_equal. lra.
Qed.

Lemma Rabs_bounds (x b : R) : Rabs x <= b -> - b <= x <= b.
Proof. unfold Rabs. destruct (Rcase_abs x); lra. Qed.

Lemma sin_sq_eighth (x : R) : Rabs x <= PI / 4 -> sin x * sin x <= 1 / 2.
Proof.
  intros H. apply Rabs_bounds in H.
  assert (C : 0 <= cos (2 * x)) by (apply cos_ge_0; lra).
  rewrite cos_2a_sin in C. lra.
Qed.

Lemma cos_cos_bound (u v : R) :
  cos u * cos v <= 1 - sin ((v - u) / 2) * sin ((v - u) / 2).
Proof.
  pose proof (cos_plus u v) as Hp. pose proof (cos_minus u v) as Hm.
  assert (E : cos u * cos v = (cos (u - v) + cos (u + v)) / 2) by lra.
  assert (E2 : cos (u - v) = 1 - 2 * sin ((v - u) / 2) * sin ((v - u) / 2)).
  { rewrite <- cos_2a_sin. rewrite <- (cos_neg (u - v)). f_equal. lra. }
  pose proof (COS_bound (u + v)) as [_ B]. lra.
Qed.

(** Two points at most a quarter turn apart in latitude and in longitude
    have a haversine term of at most 3/4. *)
Lemma hav_quarter (la1 lo1 la2 lo2 : R) :
  Rabs (la1 - la2) <= 90 -> Rabs (lo1 - lo2) <= 90 ->
  hav la1 lo1 la2 lo2 <= 3 / 4.
Proof.
  intros Hla Hlo. unfold hav.
  set (x := (la2 + - la1) * PI / 180 / 2).
  set (y := (lo2 + - lo1) * PI / 180 / 2).
  pose proof PI_RGT_0 as Hpi.
  apply Rabs_bounds in Hla. apply Rabs_bounds in Hlo.
  assert (Hx : sin x * sin x <= 1 / 2).
  { apply sin_sq_eighth. apply Rabs_le. unfold x. split; nra. }
  assert (Hy : sin y * sin y <= 1 / 2).
  { apply sin_sq_eighth. apply Rabs_le. unfold y. split; nra. }
  assert (Hy0 : 0 <= sin y * sin y) by nra.
  assert (Hx0 : 0 <= sin x * sin x) by nra.
  pose proof (cos_cos_bound (la1 * PI / 180) (la2 * PI / 180)) as Hc.
  replace ((la2 * PI / 180 - la1 * PI / 180) / 2) with x in Hc by (unfold x; lra).
  rewrite Rmult_assoc.
  nra.
Qed.

End Haversine.

(** ** Arrays *)

Section ArrayFacts.

Lemma length_indices (n : nat) : length (indices n) = n.
Proof. unfold indices. now rewrite length_map, length_seq. Qed.

Lemma In_indices (n : nat) (i : Z) : In i (indices n) <-> valid n i.
Proof.
  unfold indices, valid. rewrite in_map_iff. split.
  - intros [k [<- Hk]]. apply in_seq in Hk. lia.
  - intros H. exists (Z.to_nat i). split; [lia | apply in_seq; lia].
Qed.

Lemma NoDup_indices (n : nat) : NoDup (indices n).
Proof.
  unfold indices. apply Finite.Injective_map_NoDup.
  - intros a b H. lia.
  - apply seq_NoDup.
Qed.

Lemma nth_error_indices (n p : nat) : p < n -> nth_error (indices n) p = Some (Z.of_nat p).
Proof.
  intros H. unfold indices. rewrite nth_error_map, nth_error_seq.
  destruct (Nat.ltb_spec p n); [reflexivity | lia].
Qed.

Lemma stop_at_valid (xs : list Stop) (i : Z) :
  valid (length xs) i -> stop_at xs i = Ok (the_stop xs i).
Proof.
  intros [H0 H1]. unfold stop_at, get, the_stop.
  destruct (Z.ltb_spec i 0); [lia |].
  destruct (nth_error xs (Z.to_nat i)) eqn:E.
  - now rewrite (nth_error_nth _ _ _ E).
  - apply nth_error_None in E. lia.
Qed.

Lemma stop_at_Ok (xs : list Stop) (i : Z) (s : Stop) :
  stop_at xs i = Ok s -> valid (length xs) i.
Proof.
  unfold stop_at, get, valid. destruct (Z.ltb_spec i 0); [discriminate |].
  destruct (nth_error xs (Z.to_nat i)) eqn:E; [| discriminate].
  intros _. assert (Z.to_nat i < length xs) by (apply nth_error_Some; congruence). lia.
Qed.

Lemma map_stops_valid (xs : list Stop) (route : list Z) :
  Forall (valid (length xs)) route ->
  map_stops xs route = Ok (map (the_stop xs) route).
Proof.
  induction 1 as [| i rest Hi _ IH]; simpl; [reflexivity |].
  now rewrite (stop_at_valid _ _ Hi), IH.
Qed.

Lemma map_the_stop_indices (xs : list Stop) :
  map (the_stop xs) (indices (length xs)) = xs.
Proof.
  apply nth_ext with (d := the_stop xs 0%Z) (d' := no_stop).
  - now rewrite length_map, length_indices.
  - intros k Hk. rewrite length_map, length_indices in Hk.
    rewrite (map_nth (the_stop xs)). unfold indices.
    change 0%Z with (Z.of_nat 0). rewrite map_nth, seq_nth by assumption.
    unfold the_stop. now rewrite Nat2Z.id.
Qed.

Lemma Forall_valid_perm (n : nat) (route : list Z) :
  Permutation route (indices n) -> Forall (valid n) route.
Proof.
  intros H. apply Forall_forall. intros i Hi. apply In_indices.
  now apply (Permutation_in _ H).
Qed.

(** A route that is a permutation of the indices selects a permutation of
    the stops. *)
Lemma map_stops_perm (xs : list Stop) (route : list Z) :
  Permutation route (indices (length xs)) ->
  map_stops xs route = Ok (map (the_stop xs) route) /\
  Permutation (map (the_stop xs) route) xs.
Proof.
  intros H. split.
  - apply map_stops_valid. now apply Forall_valid_perm.
  - rewrite <- (map_the_stop_indices xs) at 2. now apply Permutation_map.
Qed.

Lemma length_set_nth {A : Type} (xs : list A) (p : nat) (v : A) :
  length (set_nth xs p v) = length xs.
Proof.
  revert p. induction xs as [| x rest IH]; intros [| q]; simpl; auto.
Qed.

Lemma nth_error_set_nth_eq {A : Type} (xs : list A) (p : nat) (v : A) :
  p < length xs -> nth_error (set_nth xs p v) p = Some v.
Proof.
  revert p. induction xs as [| x rest IH]; intros [| q] H; simpl in *; try lia; auto.
  apply IH. lia.
Qed.

Lemma nth_error_set_nth_neq {A : Type} (xs : list A) (p q : nat) (v : A) :
  p <> q -> nth_error (set_nth xs p v) q = nth_error xs q.
Proof.
  revert p q. induction xs as [| x rest IH]; intros [| p] [| q] H; simpl; auto; try lia.
Qed.

(** Writing at a position replaces one element, up to the order. *)
Lemma set_nth_perm {A : Type} (xs : list A) (p : nat) (x : A) :
  nth_error xs p = Some x ->
  exists rest, Permutation xs (x :: rest) /\
               forall v, Permutation (set_nth xs p v) (v :: rest).
Proof.
  revert p. induction xs as [| y ys IH]; intros [| q] H; simpl in H; try discriminate.
  - injection H as ->. exists ys. split; [reflexivity | intros v; reflexivity].
  - destruct (IH _ H) as [rest [P1 P2]]. exists (y :: rest). split.
    + rewrite P1. apply perm_swap.
    + intros v. simpl. rewrite (P2 v). apply perm_swap.
Qed.

Lemma length_swap {A : Type} (xs : list A) (i j : nat) :
  length (swap xs i j) = length xs.
Proof.
  unfold swap. destruct (nth_error xs i), (nth_error xs j); auto.
  now rewrite !length_set_nth.
Qed.

Lemma swap_perm {A : Type} (xs : list A) (i j : nat) : Permutation (swap xs i j) xs.
Proof.
  unfold swap.
  destruct (nth_error xs i) as [x |] eqn:Ei; [| reflexivity].
  destruct (nth_error xs j) as [y |] eqn:Ej; [| reflexivity].
  assert (Hj : nth_error (set_nth xs i y) j = Some y).
  { destruct (Nat.eq_dec i j) as [<- | Hne].
    - apply nth_error_set_nth_eq. apply nth_error_Some. congruence.
    - now rewrite nth_error_set_nth_neq. }
  destruct (set_nth_perm _ _ _ Ei) as [r [P1 P2]].
  destruct (set_nth_perm _ _ _ Hj) as [r' [P1' P2']].
  rewrite (P2' x), P1. apply perm_skip.
  apply Permutation_cons_inv with (a := y).
  now rewrite <- P1', (P2 y).
Qed.

End ArrayFacts.

(** ** The distance of a route *)

Section RouteDistance.

Lemma dist_sym (p q : Stop) : dist p q = dist q p.
Proof. apply calculateDistance_sym. Qed.

Lemma legs_fold (xs : list Stop) (total : number) :
  legs total xs = fold_left add (consecutive xs) total.
Proof.
  revert total. induction xs as [| p rest IH]; intros total; [reflexivity |].
  destruct rest as [| q rest']; [reflexivity |].
  change (legs total (p :: q :: rest')) with (legs (add total (dist p q)) (q :: rest')).
  rewrite IH. reflexivity.
Qed.

Lemma sum_numbers_cons (d : number) (ds : list number) :
  sum_numbers (d :: ds) = add d (sum_numbers ds).
Proof. reflexivity. Qed.

Lemma add_zero_r (x : number) : add x (Fin 0) = x.
Proof. rewrite add_comm. apply add_zero_l. Qed.

Lemma fold_left_add (ds : list number) (a : number) :
  fold_left add ds a = add a (sum_numbers ds).
Proof.
  revert a. induction ds as [| d rest IH]; intros a.
  - change (add a (sum_numbers [])) with (add a (Fin 0)). now rewrite add_zero_r.
  - change (fold_left add (d :: rest) a) with (fold_left add rest (add a d)).
    rewrite IH, sum_numbers_cons. now rewrite add_assoc.
Qed.

Lemma sum_numbers_app (ds es : list number) :
  sum_numbers (ds ++ es) = add (sum_numbers ds) (sum_numbers es).
Proof.
  induction ds as [| d rest IH].
  - change (sum_numbers []) with (Fin 0). now rewrite add_zero_l.
  - change ((d :: rest) ++ es) with (d :: (rest ++ es)).
    now rewrite !sum_numbers_cons, IH, add_assoc.
Qed.

Lemma sum_numbers_perm (ds es : list number) :
  Permutation ds es -> sum_numbers ds = sum_numbers es.
Proof.
  induction 1 as [| d l l' _ IH | d e l | l l' l'' _ IH1 _ IH2].
  - reflexivity.
  - now rewrite !sum_numbers_cons, IH.
  - rewrite !sum_numbers_cons, !add_assoc. now rewrite (add_comm e d).
  - now rewrite IH1.
Qed.

Lemma consecutive_app (l1 : list Stop) (y : Stop) (r : list Stop) :
  consecutive (l1 ++ y :: r) = consecutive (l1 ++ [y]) ++ consecutive (y :: r).
Proof.
  induction l1 as [| p rest IH]; [reflexivity |].
  destruct rest as [| q rest'].
  - reflexivity.
  - change (consecutive ((p :: q :: rest') ++ y :: r))
      with (dist p q :: consecutive ((q :: rest') ++ y :: r)).
    rewrite IH. reflexivity.
Qed.

Lemma consecutive_snoc (l : list Stop) (p q : Stop) :
  consecutive (l ++ [p; q]) = consecutive (l ++ [p]) ++ [dist p q].
Proof. now rewrite consecutive_app. Qed.

Lemma calculateRouteDistance_cyclic (xs : list Stop) :
  2 <= length xs -> calculateRouteDistance xs = sum_numbers (cyclic_legs xs).
Proof.
  destruct xs as [| first [| second rest]]; simpl length; try lia. intros _.
  unfold calculateRouteDistance, cyclic_legs.
  rewrite legs_fold, fold_left_add, add_zero_l.
  set (xs := first :: second :: rest).
  assert (Hl : xs = removelast xs ++ [last xs first])
    by (apply app_removelast_last; discriminate).
  set (z := last xs first) in *. set (l := removelast xs) in *.
  replace (xs ++ [first]) with (l ++ [z; first])
    by (rewrite Hl, <- app_assoc; reflexivity).
  rewrite consecutive_snoc, <- Hl, sum_numbers_app. f_equal.
  change (sum_numbers [dist z first]) with (add (dist z first) (Fin 0)).
  now rewrite add_zero_r.
Qed.

Lemma cyclic_legs_rotate (l1 l2 : list Stop) :
  Permutation (cyclic_legs (l2 ++ l1)) (cyclic_legs (l1 ++ l2)).
Proof.
  destruct l1 as [| x1 r1]; [now rewrite app_nil_r |].
  destruct l2 as [| x2 r2]; [now rewrite app_nil_r |].
  change (cyclic_legs ((x2 :: r2) ++ x1 :: r1))
    with (consecutive (((x2 :: r2) ++ x1 :: r1) ++ [x2])).
  change (cyclic_legs ((x1 :: r1) ++ x2 :: r2))
    with (consecutive (((x1 :: r1) ++ x2 :: r2) ++ [x1])).
  rewrite <- !app_assoc.
  change ((x1 :: r1) ++ [x2]) with (x1 :: (r1 ++ [x2])).
  change ((x2 :: r2) ++ [x1]) with (x2 :: (r2 ++ [x1])).
  rewrite (consecutive_app (x2 :: r2) x1 (r1 ++ [x2])).
  rewrite (consecutive_app (x1 :: r1) x2 (r2 ++ [x1])).
  apply Permutation_app_comm.
Qed.

Lemma calculateRouteDistance_rotate (l1 l2 : list Stop) :
  calculateRouteDistance (l2 ++ l1) = calculateRouteDistance (l1 ++ l2).
Proof.
  destruct (Nat.lt_ge_cases (length (l1 ++ l2)) 2) as [Hlt | Hge].
  - destruct l1 as [| x1 [| y1 r1]], l2 as [| x2 [| y2 r2]];
      simpl in Hlt; try lia; reflexivity.
  - rewrite !calculateRouteDistance_cyclic.
    + apply sum_numbers_perm, cyclic_legs_rotate.
    + assumption.
    + rewrite length_app in *. lia.
Qed.

Lemma consecutive_rev (xs : list Stop) :
  consecutive (rev xs) = rev (consecutive xs).
Proof.
  induction xs as [| p rest IH]; [reflexivity |].
  destruct rest as [| q rest']; [reflexivity |].
  change (consecutive (p :: q :: rest')) with (dist p q :: consecutive (q :: rest')).
  simpl rev at 1. simpl rev in IH.
  rewrite <- app_assoc. simpl app.
  rewrite consecutive_snoc, IH. simpl rev. now rewrite (dist_sym q p).
Qed.

Lemma calculateRouteDistance_rev (xs : list Stop) :
  calculateRouteDistance (rev xs) = calculateRouteDistance xs.
Proof.
  destruct xs as [| x l]; [reflexivity |].
  simpl rev. rewrite (calculateRouteDistance_rotate [x] (rev l)). simpl app.
  destruct l as [| y l']; [reflexivity |].
  rewrite !calculateRouteDistance_cyclic.
  - apply sum_numbers_perm. unfold cyclic_legs.
    replace ((x :: rev (y :: l')) ++ [x]) with (rev ((x :: y :: l') ++ [x])).
    + rewrite consecutive_rev. symmetry. apply Permutation_rev.
    + rewrite rev_app_distr. simpl. reflexivity.
  - simpl. lia.
  - simpl. rewrite length_app, length_rev. simpl. lia.
Qed.

End RouteDistance.

(** ** Stops with finite coordinates *)

Section FiniteStops.

Local Open Scope R_scope.

Lemma finite_Fin (x : number) : finite x = true -> exists r, x = Fin r.
Proof. destruct x; try discriminate. intros _. eexists; reflexivity. Qed.

Lemma dist_finite (p q : Stop) :
  finite_stop p = true -> finite_stop q = true ->
  exists d, dist p q = Fin d /\ 0 <= d.
Proof.
  unfold finite_stop, dist. intros Hp Hq.
  apply andb_prop in Hp as [Hp1 Hp2]. apply andb_prop in Hq as [Hq1 Hq2].
  destruct (finite_Fin _ Hp1) as [a ->]. destruct (finite_Fin _ Hp2) as [b ->].
  destruct (finite_Fin _ Hq1) as [c ->]. destruct (finite_Fin _ Hq2) as [e ->].
  apply calculateDistance_finite.
Qed.

Lemma all_finite_forall (xs : list Stop) :
  all_finite xs = true <-> forall s, In s xs -> finite_stop s = true.
Proof. apply forallb_forall. Qed.

Lemma all_finite_perm (xs ys : list Stop) :
  Permutation xs ys -> all_finite ys = true -> all_finite xs = true.
Proof.
  intros P H. apply all_finite_forall. intros s Hs.
  apply (proj1 (all_finite_forall ys) H). now apply (Permutation_in _ P).
Qed.

Lemma the_stop_finite (xs : list Stop) (i : Z) :
  all_finite xs = true -> valid (length xs) i -> finite_stop (the_stop xs i) = true.
Proof.
  intros H [H0 H1]. apply (proj1 (all_finite_forall xs) H).
  unfold the_stop. apply nth_In. lia.
Qed.

Lemma consecutive_finite (xs : list Stop) :
  all_finite xs = true ->
  exists rs, consecutive xs = map Fin rs /\ Forall (fun r => 0 <= r) rs.
Proof.
  induction xs as [| p rest IH]; intros H.
  - exists []. split; [reflexivity | constructor].
  - destruct rest as [| q rest'].
    + exists []. split; [reflexivity | constructor].
    + simpl in H. apply andb_prop in H as [Hp Hrest].
      destruct (IH Hrest) as [rs [E F]].
      simpl in Hrest. apply andb_prop in Hrest as [Hq _].
      destruct (dist_finite p q Hp Hq) as [d [Ed Hd]].
      exists (d :: rs). split.
      * change (consecutive (p :: q :: rest')) with (dist p q :: consecutive (q :: rest')).
        now rewrite Ed, E.
      * now constructor.
Qed.

Lemma cyclic_legs_finite (xs : list Stop) :
  all_finite xs = true ->
  exists rs, cyclic_legs xs = map Fin rs /\ Forall (fun r => 0 <= r) rs.
Proof.
  intros H. destruct xs as [| first rest].
  - exists []. split; [reflexivity | constructor].
  - unfold cyclic_legs. apply consecutive_finite.
    unfold all_finite in *. rewrite forallb_app, H. simpl in *.
    apply andb_prop in H as [-> _]. reflexivity.
Qed.

Lemma sum_numbers_Fin (rs : list R) :
  sum_numbers (map Fin rs) = Fin (fold_right Rplus 0 rs).
Proof.
  induction rs as [| r rest IH]; [reflexivity |].
  simpl map. rewrite sum_numbers_cons, IH. reflexivity.
Qed.

Lemma sum_nonneg (rs : list R) :
  Forall (fun r => 0 <= r) rs -> 0 <= fold_right Rplus 0 rs.
Proof. induction 1; simpl; lra. Qed.

Lemma sum_zero_iff (rs : list R) :
  Forall (fun r => 0 <= r) rs ->
  (fold_right Rplus 0 rs = 0 <-> Forall (fun r => r = 0) rs).
Proof.
  induction 1 as [| r rest Hr Hrest IH]; simpl.
  - split; [constructor | reflexivity].
  - pose proof (sum_nonneg _ Hrest). split.
    + intros E. constructor; [lra |]. apply IH. lra.
    + intros F. inversion F; subst. apply IH in H3. lra.
Qed.

(** The distance of a route through stops with finite coordinates is a
    non-negative real number. *)
Lemma calculateRouteDistance_finite (xs : list Stop) :
  all_finite xs = true ->
  exists d, calculateRouteDistance xs = Fin d /\ 0 <= d.
Proof.
  intros H. destruct (Nat.lt_ge_cases (length xs) 2) as [Hlt | Hge].
  - exists 0. split; [| lra].
    destruct xs as [| a [| b rest]]; simpl in Hlt; try lia; reflexivity.
  - rewrite (calculateRouteDistance_cyclic _ Hge).
    destruct (cyclic_legs_finite _ H) as [rs [-> F]].
    rewrite sum_numbers_Fin. eexists; split; [reflexivity | now apply sum_nonneg].
Qed.

Lemma calculateRouteDistance_short (xs : list Stop) :
  (length xs < 2)%nat -> calculateRouteDistance xs = Fin 0.
Proof.
  destruct xs as [| a [| b rest]]; simpl; intros; try lia; reflexivity.
Qed.

(** A route has distance zero exactly when it has fewer than two stops or
    every leg of the closed tour has length zero. *)
Lemma calculateRouteDistance_zero_iff (xs : list Stop) :
  all_finite xs = true ->
  (calculateRouteDistance xs = Fin 0 <->
   (length xs < 2)%nat \/ Forall (fun leg => leg = Fin 0) (cyclic_legs xs)).
Proof.
  intros H. destruct (Nat.lt_ge_cases (length xs) 2) as [Hlt | Hge].
  - split; [now left | intros _; now apply calculateRouteDistance_short].
  - rewrite (calculateRouteDistance_cyclic _ Hge).
    destruct (cyclic_legs_finite _ H) as [rs [-> F]].
    rewrite sum_numbers_Fin. split.
    + intros E. right. injection E as E. apply (sum_zero_iff _ F) in E.
      apply Forall_map. eapply Forall_impl; [| exact E].
      intros r ->. reflexivity.
    + intros [Hlt | Z]; [lia |]. f_equal. apply (sum_zero_iff _ F).
      apply Forall_map in Z. eapply Forall_impl; [| exact Z].
      intros r E. now injection E.
Qed.

End FiniteStops.

(** ** Nearest neighbour *)

Section NearestNeighbor.

Lemma lt_trans (x y z : number) : lt x y = true -> lt y z = true -> lt x z = true.
Proof.
  destruct x as [| [] | a], y as [| [] | b], z as [| [] | c]; simpl;
    try congruence.
  rewrite !Rltb_iff. intros. lra.
Qed.

(** A finite number below [m] is below every finite number that is not
    below [m]. *)
Lemma lt_of_not_lt (x y m : number) :
  finite y = true -> lt x m = true -> lt y m = false -> lt x y = true.
Proof.
  destruct y as [| | b]; try discriminate. intros _.
  destruct x as [| [] | a], m as [| [] | c]; simpl; try congruence.
  rewrite !Rltb_iff, Rltb_iff_false. intros. lra.
Qed.

Lemma nn_scan_pure (xs : list Stop) (current : Z) (unvisited : list Z) (st : Z * number) :
  valid (length xs) current ->
  Forall (valid (length xs)) unvisited ->
  nn_scan xs current unvisited st =
  Ok (nn_pick (fun idx => dist (the_stop xs current) (the_stop xs idx)) unvisited st).
Proof.
  intros Hc F. revert st. induction F as [| idx rest Hi _ IH]; intros st.
  - reflexivity.
  - simpl. unfold nn_visit.
    rewrite (stop_at_valid _ _ Hc), (stop_at_valid _ _ Hi). simpl.
    destruct (lt (dist (the_stop xs current) (the_stop xs idx)) (snd st));
      simpl; apply IH.
Qed.

Lemma nn_pick_cons (d : Z -> number) (x : Z) (l : list Z) (st : Z * number) :
  nn_pick d (x :: l) st =
  nn_pick d l (if lt (d x) (snd st) then (x, d x) else st).
Proof. reflexivity. Qed.

(** The scan keeps the start value when no candidate is below it, and
    otherwise stops on the first candidate of minimal distance: every
    candidate before it is strictly farther, no candidate after it is
    strictly nearer. *)
Lemma nn_pick_spec (d : Z -> number) (l : list Z) (n0 : Z) (m0 : number) :
  (forall y, In y l -> finite (d y) = true) ->
  (nn_pick d l (n0, m0) = (n0, m0) /\ forall y, In y l -> lt (d y) m0 = false) \/
  (exists l1 l2 n,
      l = l1 ++ n :: l2 /\ nn_pick d l (n0, m0) = (n, d n) /\
      lt (d n) m0 = true /\
      (forall y, In y l1 -> lt (d n) (d y) = true) /\
      (forall y, In y l2 -> lt (d y) (d n) = false)).
Proof.
  revert n0 m0. induction l as [| x l' IH]; intros n0 m0 Hfin.
  - left. split; [reflexivity | intros y []].
  - assert (Hfin' : forall y, In y l' -> finite (d y) = true)
      by (intros y Hy; apply Hfin; now right).
    rewrite nn_pick_cons. simpl snd.
    destruct (lt (d x) m0) eqn:E.
    + right. destruct (IH x (d x) Hfin') as [[E1 A] | [l1 [l2 [n [El [E1 [Hlt [B1 B2]]]]]]]].
      * exists [], l', x. split; [reflexivity |]. split; [exact E1 |].
        split; [exact E |]. split; [intros y [] | exact A].
      * exists (x :: l1), l2, n. split; [now rewrite El |]. split; [exact E1 |].
        split; [apply (lt_trans _ _ _ Hlt E) |]. split; [| exact B2].
        intros y [<- | Hy]; [exact Hlt | now apply B1].
    + destruct (IH n0 m0 Hfin') as [[E1 A] | [l1 [l2 [n [El [E1 [Hlt [B1 B2]]]]]]]].
      * left. split; [exact E1 |]. intros y [<- | Hy]; [exact E | now apply A].
      * right. exists (x :: l1), l2, n. split; [now rewrite El |]. split; [exact E1 |].
        split; [exact Hlt |]. split; [| exact B2].
        intros y [<- | Hy]; [| now apply B1].
        apply (lt_of_not_lt _ _ m0); auto. apply Hfin. now left.
Qed.

Lemma lt_Fin_Infinity (x : number) : finite x = true -> lt x Infinity = true.
Proof. destruct x; try discriminate. reflexivity. Qed.

(** From the start value [(-1, Infinity)] the scan of a non-empty set of
    candidates at finite distances selects one of them. *)
Lemma nn_pick_first_min (d : Z -> number) (l : list Z) :
  l <> [] ->
  (forall y, In y l -> finite (d y) = true) ->
  exists l1 l2 n,
    l = l1 ++ n :: l2 /\ nn_pick d l ((-1)%Z, Infinity) = (n, d n) /\
    (forall y, In y l1 -> lt (d n) (d y) = true) /\
    (forall y, In y l2 -> lt (d y) (d n) = false).
Proof.
  intros Hne Hfin.
  destruct (nn_pick_spec d l (-1)%Z Infinity Hfin)
    as [[_ A] | [l1 [l2 [n [El [E1 [_ [B1 B2]]]]]]]].
  - destruct l as [| x l']; [congruence |].
    assert (lt (d x) Infinity = true) by (apply lt_Fin_Infinity, Hfin; now left).
    rewrite A in H by now left. discriminate.
  - exists l1, l2, n. auto.
Qed.

Lemma remove_perm (x : Z) (l : list Z) :
  NoDup l -> In x l -> Permutation l (x :: remove Z.eq_dec x l).
Proof.
  induction 1 as [| y l' Hy Hnd IH]; intros Hin; [destruct Hin |].
  simpl. destruct (Z.eq_dec x y) as [-> | Hne].
  - now rewrite notin_remove.
  - destruct Hin as [-> | Hin]; [congruence |].
    rewrite (IH Hin) at 1. apply perm_swap.
Qed.

Lemma nn_loop_step (xs : list Stop) (fuel : nat) (route : list Z) (u : Z) (us : list Z) :
  nn_loop (S fuel) xs route (u :: us) =
  bind (nn_scan xs (last route 0%Z) (u :: us) ((-1)%Z, Infinity))
       (fun st => nn_loop fuel xs (route ++ [fst st])
                          (remove Z.eq_dec (fst st) (u :: us))).
Proof. reflexivity. Qed.

Lemma nn_loop_ok (xs : list Stop) (fuel : nat) (route unvisited : list Z) :
  all_finite xs = true ->
  length unvisited <= fuel ->
  route <> [] ->
  Permutation (route ++ unvisited) (indices (length xs)) ->
  exists rest, nn_loop fuel xs route unvisited = Ok (route ++ rest) /\
               Permutation (route ++ rest) (indices (length xs)).
Proof.
  intros Hfin. revert route unvisited.
  induction fuel as [| fuel IH]; intros route unvisited Hlen Hne P.
  - destruct unvisited; [| simpl in Hlen; lia].
    exists []. now rewrite app_nil_r in *.
  - destruct unvisited as [| u us].
    + exists []. now rewrite app_nil_r in *.
    + rewrite nn_loop_step.
      remember (u :: us) as unvisited eqn:Eu.
      assert (V := Forall_valid_perm _ _ P). apply Forall_app in V as [Vr Vu].
      assert (Hcur : valid (length xs) (last route 0%Z)).
      { apply (proj1 (Forall_forall _ _) Vr).
        destruct (exists_last Hne) as [r' [z ->]]. rewrite last_last.
        apply in_or_app. right. now left. }
      rewrite (nn_scan_pure _ _ _ _ Hcur Vu). simpl bind.
      destruct (nn_pick_first_min
                  (fun idx => dist (the_stop xs (last route 0%Z)) (the_stop xs idx))
                  unvisited) as [l1 [l2 [n [El [E1 _]]]]].
      * rewrite Eu. discriminate.
      * intros y Hy.
        destruct (dist_finite (the_stop xs (last route 0%Z)) (the_stop xs y)) as [d [-> _]];
          [apply the_stop_finite; auto | apply the_stop_finite; auto | reflexivity].
        apply (proj1 (Forall_forall _ _) Vu). exact Hy.
      * rewrite E1. simpl fst.
        assert (Hin : In n unvisited) by (rewrite El; apply in_or_app; right; now left).
        assert (Hnd : NoDup unvisited).
        { assert (N : NoDup (route ++ unvisited))
            by (apply (Permutation_NoDup (Permutation_sym P)), NoDup_indices).
          apply NoDup_app_remove_l in N. exact N. }
        pose proof (remove_perm n unvisited Hnd Hin) as Pr.
        destruct (IH (route ++ [n]) (remove Z.eq_dec n unvisited)) as [rest [E2 P2]].
        -- apply Permutation_length in Pr. simpl in Pr. lia.
        -- destruct route; discriminate.
        -- rewrite <- app_assoc. simpl. rewrite <- Pr. exact P.
        -- exists (n :: rest). rewrite <- app_assoc in E2, P2. simpl in E2, P2.
           split; assumption.
Qed.

(** On stops with finite coordinates [nearestNeighbor] returns, and its
    tour is a permutation of the input that starts with the first stop. *)
Lemma nearestNeighbor_ok (xs : list Stop) :
  all_finite xs = true ->
  exists r, nearestNeighbor xs = Ok r /\
            Permutation (stops r) xs /\
            distance r = calculateRouteDistance (stops r) /\
            improvement r = Fin 0.
Proof.
  intros Hfin. unfold nearestNeighbor.
  destruct (Nat.ltb_spec (length xs) 2) as [Hlt | Hge].
  - eexists. split; [reflexivity |]. simpl. repeat split; auto.
    now rewrite calculateRouteDistance_short.
  - assert (H0 : In 0%Z (indices (length xs))) by (apply In_indices; unfold valid; lia).
    pose proof (remove_perm 0%Z _ (NoDup_indices (length xs)) H0) as Pr.
    destruct (nn_loop_ok xs (length xs) [0%Z] (remove Z.eq_dec 0%Z (indices (length xs))))
      as [rest [E P]]; auto.
    + apply Permutation_length in Pr. rewrite length_indices in Pr. simpl in Pr. lia.
    + discriminate.
    + simpl. now rewrite <- Pr.
    + rewrite E. cbn [bind].
      destruct (map_stops_perm xs _ P) as [E2 P2]. rewrite E2. cbn [bind].
      eexists. split; [reflexivity |]. simpl. repeat split; auto.
Qed.

End NearestNeighbor.

(** ** 2-opt *)

Section TwoOpt.

Lemma reverse_loop_perm (fuel : nat) (route : list Z) (left right : nat) :
  Permutation (reverse_loop fuel route left right) route.
Proof.
  revert route left right. induction fuel as [| fuel IH]; intros route left right; simpl.
  - reflexivity.
  - destruct (left <? right); [| reflexivity].
    rewrite IH. apply swap_perm.
Qed.

(** The fuel [j - i] of [reverse_segment] is never exhausted: one more
    round changes nothing. *)
Lemma reverse_loop_fuel (fuel : nat) (route : list Z) (left right : nat) :
  right - left <= fuel ->
  reverse_loop (S fuel) route left right = reverse_loop fuel route left right.
Proof.
  revert route left right. induction fuel as [| fuel IH]; intros route left right H.
  - simpl. destruct (Nat.ltb_spec left right); [lia | reflexivity].
  - change (reverse_loop (S (S fuel)) route left right)
      with (if left <? right
            then reverse_loop (S fuel) (swap route left right) (left + 1) (right - 1)
            else route).
    change (reverse_loop (S fuel) route left right)
      with (if left <? right
            then reverse_loop fuel (swap route left right) (left + 1) (right - 1)
            else route).
    destruct (left <? right); [| reflexivity]. apply IH. lia.
Qed.

Lemma reverse_segment_perm (route : list Z) (i j : nat) :
  Permutation (reverse_segment route i j) route.
Proof. apply reverse_loop_perm. Qed.

Lemma read_ok (n : nat) (route : list Z) (p : nat) :
  Permutation route (indices n) -> p < n ->
  exists v, read route p = Ok v /\ valid n v.
Proof.
  intros P Hp. unfold read.
  assert (Hlen : length route = n)
    by (rewrite (Permutation_length P); apply length_indices).
  destruct (nth_error route p) as [v |] eqn:E.
  - exists v. split; [reflexivity |].
    apply (proj1 (Forall_forall _ _) (Forall_valid_perm _ _ P)).
    eapply nth_error_In; eauto.
  - apply nth_error_None in E. lia.
Qed.

Lemma for_each_inv {S : Type} (Inv : S -> Prop) (ps : list nat)
    (body : S -> nat -> outcome S) (st : S) :
  (forall st p, In p ps -> Inv st -> exists st', body st p = Ok st' /\ Inv st') ->
  Inv st ->
  exists st', for_each ps body st = Ok st' /\ Inv st'.
Proof.
  revert st. induction ps as [| p rest IH]; intros st Hbody Hinv; simpl.
  - now exists st.
  - destruct (Hbody st p (or_introl eq_refl) Hinv) as [st1 [E1 I1]].
    rewrite E1. simpl. apply IH; [| exact I1].
    intros st2 q Hq. apply Hbody. now right.
Qed.

Lemma twoOpt_visit_ok (xs : list Stop) (i j : nat) (st : list Z * bool) :
  Permutation (fst st) (indices (length xs)) ->
  i + 1 < length xs -> j < length xs ->
  exists st', twoOpt_visit xs i st j = Ok st' /\
              Permutation (fst st') (indices (length xs)).
Proof.
  intros P Hi Hj. unfold twoOpt_visit.
  assert (Hlen : length (fst st) = length xs)
    by (rewrite (Permutation_length P); apply length_indices).
  destruct (read_ok _ _ i P) as [a [-> Va]]; [lia |].
  destruct (read_ok _ _ (i + 1) P) as [b [-> Vb]]; [lia |].
  destruct (read_ok _ _ j P) as [c [-> Vc]]; [lia |].
  destruct (read_ok _ _ ((j + 1) mod length (fst st)) P) as [d [-> Vd]].
  { rewrite Hlen. apply Nat.mod_upper_bound. lia. }
  cbn [bind].
  rewrite (stop_at_valid _ _ Va), (stop_at_valid _ _ Vb),
    (stop_at_valid _ _ Vc), (stop_at_valid _ _ Vd). cbn [bind].
  match goal with |- context [if ?c then _ else _] => destruct c end.
  - eexists. split; [reflexivity |]. simpl. rewrite reverse_segment_perm. exact P.
  - exists st. split; [reflexivity | exact P].
Qed.

Lemma twoOpt_inner_ok (xs : list Stop) (i : nat) (st : list Z * bool) :
  Permutation (fst st) (indices (length xs)) ->
  i + 2 < length xs ->
  exists st', twoOpt_inner xs st i = Ok st' /\
              Permutation (fst st') (indices (length xs)).
Proof.
  intros P Hi. unfold twoOpt_inner.
  assert (Hlen : length (fst st) = length xs)
    by (rewrite (Permutation_length P); apply length_indices).
  apply for_each_inv with (Inv := fun st => Permutation (fst st) (indices (length xs))).
  - intros st1 j Hj P1. apply in_seq in Hj. apply twoOpt_visit_ok; auto; lia.
  - exact P.
Qed.

Lemma twoOpt_pass_ok (xs : list Stop) (route : list Z) :
  Permutation route (indices (length xs)) ->
  exists st', twoOpt_pass xs route = Ok st' /\
              Permutation (fst st') (indices (length xs)).
Proof.
  intros P. unfold twoOpt_pass.
  assert (Hlen : length route = length xs)
    by (rewrite (Permutation_length P); apply length_indices).
  apply for_each_inv with (Inv := fun st => Permutation (fst st) (indices (length xs))).
  - intros st1 i Hi P1. apply in_seq in Hi. apply twoOpt_inner_ok; auto. lia.
  - exact P.
Qed.

Lemma twoOpt_while_ok (xs : list Stop) (remaining : nat) (route : list Z) (improved : bool) :
  Permutation route (indices (length xs)) ->
  exists route', twoOpt_while remaining xs route improved = Ok route' /\
                 Permutation route' (indices (length xs)).
Proof.
  revert route improved. induction remaining as [| k IH]; intros route improved P; simpl.
  - now exists route.
  - destruct improved; [| now exists route].
    destruct (twoOpt_pass_ok xs route P) as [st [-> P1]]. cbn [bind].
    now apply IH.
Qed.

(** On stops with finite coordinates [twoOpt] returns, its tour is a
    permutation of the input and its improvement is measured against the
    nearest-neighbour tour. *)
Lemma twoOpt_ok (xs : list Stop) (maxIterations : nat) :
  all_finite xs = true ->
  exists r nn, twoOpt xs maxIterations = Ok r /\
            nearestNeighbor xs = Ok nn /\
            Permutation (stops r) xs /\
            distance r = calculateRouteDistance (stops r) /\
            (length xs < 4 -> r = nn) /\
            (4 <= length xs ->
             improvement r =
             mul (div (sub (distance nn) (distance r)) (distance nn)) (Fin 100)).
Proof.
  intros Hfin. unfold twoOpt.
  destruct (nearestNeighbor_ok xs Hfin) as [nn [Enn [Pnn [Dnn Inn]]]].
  destruct (Nat.ltb_spec (length xs) 4) as [Hlt | Hge].
  - exists nn, nn. repeat split; auto. lia.
  - rewrite Enn. cbn [bind].
    rewrite (Permutation_length Pnn).
    destruct (twoOpt_while_ok xs maxIterations (indices (length xs)) true)
      as [route' [-> P]]; [reflexivity |]. cbn [bind].
    destruct (map_stops_perm xs _ P) as [-> P2]. cbn [bind].
    eexists. exists nn. split; [reflexivity |]. simpl. repeat split; auto; try lia.
    intros _. now rewrite Dnn.
Qed.

End TwoOpt.

(** ** Order crossover *)

Section Crossover.

Lemma nth_set_nth_eq {A : Type} (xs : list A) (p : nat) (v d : A) :
  p < length xs -> nth p (set_nth xs p v) d = v.
Proof.
  intros H. apply nth_error_nth. now apply nth_error_set_nth_eq.
Qed.

Lemma nth_set_nth_neq {A : Type} (xs : list A) (p q : nat) (v d : A) :
  p <> q -> nth q (set_nth xs p v) d = nth q xs d.
Proof.
  revert p q. induction xs as [| x rest IH]; intros [| p] [| q] H; simpl; auto; try lia.
Qed.

Lemma includes_In (child : list Z) (v : Z) : includes child v = true <-> In v child.
Proof.
  unfold includes. rewrite existsb_exists. split.
  - intros [x [Hx E]]. apply Z.eqb_eq in E. now subst.
  - intros H. exists v. split; [exact H | apply Z.eqb_refl].
Qed.

Lemma fold_set_nth (f : nat -> Z) (ps : list nat) (child : list Z) (q : nat) :
  length (fold_left (fun c i => set_nth c i (f i)) ps child) = length child /\
  (q < length child ->
   nth q (fold_left (fun c i => set_nth c i (f i)) ps child) (-1)%Z =
   if existsb (Nat.eqb q) ps then f q else nth q child (-1)%Z).
Proof.
  revert child. induction ps as [| p rest IH]; intros child; simpl.
  - split; reflexivity.
  - destruct (IH (set_nth child p (f p))) as [L N]. rewrite length_set_nth in *.
    split; [exact L |]. intros Hq. rewrite (N Hq).
    destruct (Nat.eqb_spec q p) as [-> | Hne]; simpl.
    + rewrite nth_set_nth_eq by assumption. now destruct (existsb _ rest).
    + rewrite nth_set_nth_neq by congruence. reflexivity.
Qed.

Lemma copy_segment_spec (parent1 child : list Z) (a b q : nat) :
  length (copy_segment parent1 child a b) = length child /\
  (q < length child ->
   nth q (copy_segment parent1 child a b) (-1)%Z =
   if (a <=? q) && (q <=? b) then nth q parent1 (-1)%Z else nth q child (-1)%Z).
Proof.
  unfold copy_segment.
  destruct (fold_set_nth (fun i => nth i parent1 (-1)%Z) (seq a (b + 1 - a)) child q)
    as [L N].
  split; [exact L |]. intros Hq. rewrite (N Hq).
  destruct (existsb (Nat.eqb q) (seq a (b + 1 - a))) eqn:E.
  - apply existsb_exists in E as [x [Hx Ex]]. apply Nat.eqb_eq in Ex. subst x.
    apply in_seq in Hx.
    destruct (Nat.leb_spec a q), (Nat.leb_spec q b); simpl; try reflexivity; lia.
  - destruct (Nat.leb_spec a q), (Nat.leb_spec q b); simpl; try reflexivity.
    assert (existsb (Nat.eqb q) (seq a (b + 1 - a)) = true); [| congruence].
    apply existsb_exists. exists q. split; [apply in_seq; lia | apply Nat.eqb_refl].
Qed.

Variables (n a b : nat) (parent1 parent2 : list Z).
Hypothesis Hab : a <= b.
Hypothesis Hbn : b < n.
Hypothesis Hp1 : Permutation parent1 (indices n).
Hypothesis Hp2 : Permutation parent2 (indices n).

Lemma perm_length (l : list Z) : Permutation l (indices n) -> length l = n.
Proof. intros P. rewrite (Permutation_length P). apply length_indices. Qed.

Lemma perm_nth_valid (l : list Z) (p : nat) :
  Permutation l (indices n) -> p < n -> valid n (nth p l (-1)%Z).
Proof.
  intros P Hp. apply In_indices. apply (Permutation_in _ P).
  apply nth_In. now rewrite (perm_length _ P).
Qed.

Lemma valid_not_hole (v : Z) : valid n v -> v <> (-1)%Z.
Proof. unfold valid. lia. Qed.

Lemma fill_inv_done (child : list Z) (t : nat) :
  fill_inv n a b parent2 child a t -> Permutation child (indices n).
Proof.
  intros [L [_ [H [V [I _]]]]].
  assert (Hfull : forall p, p < n -> nth p child (-1)%Z <> (-1)%Z).
  { intros p Hp E. apply (H p Hp) in E. unfold hole in E. lia. }
  apply NoDup_Permutation_bis.
  - apply (NoDup_nth child (-1)%Z). rewrite L. intros p q Hp Hq E.
    apply I; auto.
  - rewrite length_indices. lia.
  - intros v Hv. destruct (In_nth _ _ (-1)%Z Hv) as [p [Hp <-]]. rewrite L in Hp.
    apply In_indices. destruct (V p Hp) as [E | E]; [| exact E].
    now apply Hfull in E.
Qed.

Lemma fill_inv_progress (child : list Z) (c t : nat) :
  fill_inv n a b parent2 child c t -> c <> a -> t < n.
Proof.
  intros [L [C [H [_ [_ M]]]]] Hca.
  destruct (Nat.lt_ge_cases t n) as [Hlt | Hge]; [exact Hlt | exfalso].
  assert (Hc : c < n) by lia.
  assert (Hhole : nth c child (-1)%Z = (-1)%Z).
  { apply (H c Hc). unfold hole. lia. }
  assert (Ec : nth_error child c = Some (-1)%Z).
  { rewrite <- Hhole. apply nth_error_nth'. lia. }
  destruct (set_nth_perm _ _ _ Ec) as [r [P _]].
  assert (Hincl : incl (indices n) r).
  { intros v Hv. apply In_indices in Hv.
    destruct (in_dec Z.eq_dec v child) as [Hin | Hnin].
    - apply (Permutation_in _ P) in Hin. destruct Hin as [E | Hin]; [| exact Hin].
      pose proof (valid_not_hole _ Hv). congruence.
    - destruct (M v Hv Hnin) as [k [Hk _]]. lia. }
  pose proof (NoDup_incl_length (NoDup_indices n) Hincl) as Hle.
  rewrite length_indices in Hle. apply Permutation_length in P. simpl in P. lia.
Qed.

Lemma next_read (t : nat) :
  0 < n -> (((b + 1) mod n + t) mod n + 1) mod n = ((b + 1) mod n + (t + 1)) mod n.
Proof.
  intros Hn. rewrite Nat.Div0.add_mod_idemp_l by lia. f_equal. lia.
Qed.

Lemma fill_inv_skip (child : list Z) (c t : nat) :
  fill_inv n a b parent2 child c t ->
  In (nth (((b + 1) mod n + t) mod n) parent2 (-1)%Z) child ->
  fill_inv n a b parent2 child c (t + 1).
Proof.
  intros [L [C [H [V [I M]]]]] Hin. repeat split; auto; try apply H; try lia.
  intros v Hv Hnin. destruct (M v Hv Hnin) as [k [Hk E]].
  exists k. split; [| exact E].
  destruct (Nat.eq_dec k t) as [-> | Hne]; [| lia].
  rewrite E in Hin. contradiction.
Qed.

Lemma fill_inv_write (child : list Z) (c t : nat) :
  fill_inv n a b parent2 child c t -> c <> a -> t < n ->
  ~ In (nth (((b + 1) mod n + t) mod n) parent2 (-1)%Z) child ->
  fill_inv n a b parent2 (set_nth child c (nth (((b + 1) mod n + t) mod n) parent2 (-1)%Z))
           ((c + 1) mod n) (t + 1).
Proof.
  intros [L [C [H [V [I M]]]]] Hca Ht Hnin.
  set (v := nth (((b + 1) mod n + t) mod n) parent2 (-1)%Z) in *.
  assert (Hc : c < n) by lia.
  assert (Hv : valid n v).
  { apply perm_nth_valid; [exact Hp2 | apply Nat.mod_upper_bound; lia]. }
  assert (Hv1 := valid_not_hole _ Hv).
  assert (Hnext : (c + 1 < n /\ (c + 1) mod n = c + 1) \/ (c + 1 = n /\ (c + 1) mod n = 0)).
  { destruct (Nat.eq_dec (c + 1) n) as [E | E].
    - right. split; [exact E |]. rewrite E. apply Nat.Div0.mod_same.
    - left. split; [lia |]. apply Nat.mod_small. lia. }
  assert (Hnth : forall p, p < n ->
            nth p (set_nth child c v) (-1)%Z = if p =? c then v else nth p child (-1)%Z).
  { intros p Hp. destruct (Nat.eqb_spec p c) as [-> | Hne].
    - apply nth_set_nth_eq. lia.
    - apply nth_set_nth_neq. congruence. }
  assert (Hold : forall p, p < n -> nth p child (-1)%Z <> (-1)%Z -> In (nth p child (-1)%Z) child).
  { intros p Hp _. apply nth_In. lia. }
  split; [now rewrite length_set_nth |].
  split; [lia |].
  split; [| split; [| split]].
  - intros p Hp. rewrite (Hnth p Hp).
    destruct (Nat.eqb_spec p c) as [-> | Hne].
    + split; [congruence |]. unfold hole. lia.
    + rewrite (H p Hp). unfold hole. lia.
  - intros p Hp. rewrite (Hnth p Hp).
    destruct (Nat.eqb_spec p c); [now right | now apply V].
  - intros p q Hp Hq. rewrite (Hnth p Hp), (Hnth q Hq).
    destruct (Nat.eqb_spec p c) as [-> | Hpc], (Nat.eqb_spec q c) as [-> | Hqc];
      intros Hne E; auto.
    + exfalso. apply Hnin. rewrite E. apply nth_In. lia.
    + exfalso. apply Hnin. rewrite <- E. apply nth_In. lia.
  - intros w Hw Hwn.
    assert (Hwv : w <> v).
    { intros ->. apply Hwn.
      assert (Hin : In (nth c (set_nth child c v) (-1)%Z) (set_nth child c v))
        by (apply nth_In; rewrite length_set_nth; lia).
      now rewrite nth_set_nth_eq in Hin by lia. }
    assert (Hwc : ~ In w child).
    { intros Hin. apply Hwn. destruct (In_nth _ _ (-1)%Z Hin) as [p [Hp E]].
      rewrite L in Hp.
      assert (Hpc : c <> p).
      { intros ->. assert (nth p child (-1)%Z = (-1)%Z) by (apply (H p Hp); unfold hole; lia).
        pose proof (valid_not_hole _ Hw). congruence. }
      assert (Hin' : In (nth p (set_nth child c v) (-1)%Z) (set_nth child c v))
        by (apply nth_In; rewrite length_set_nth; lia).
      rewrite nth_set_nth_neq in Hin' by exact Hpc. now rewrite E in Hin'. }
    destruct (M w Hw Hwc) as [k [Hk E]]. exists k. split; [| exact E].
    destruct (Nat.eq_dec k t) as [-> | Hne]; [| lia].
    unfold v in Hwv. congruence.
Qed.

Lemma fill_loop_eq (fuel size a0 : nat) (p2 child : list Z) (c pi : nat) :
  fill_loop fuel size a0 p2 child c pi =
  if c =? a0 then Ok child
  else match fuel with
       | O => Diverges
       | S fuel' =>
           bind (read p2 pi)
                (fun v => if includes child v
                          then fill_loop fuel' size a0 p2 child c ((pi + 1) mod size)
                          else fill_loop fuel' size a0 p2 (set_nth child c v)
                                         ((c + 1) mod size) ((pi + 1) mod size))
       end.
Proof. destruct fuel; reflexivity. Qed.

Lemma fill_loop_ok (fuel t : nat) (child : list Z) (c : nat) :
  fuel + t = n -> fill_inv n a b parent2 child c t ->
  exists child', fill_loop fuel n a parent2 child c (((b + 1) mod n + t) mod n) = Ok child' /\
                 Permutation child' (indices n).
Proof.
  revert t child c. induction fuel as [| fuel IH]; intros t child c Hf Hinv;
    rewrite fill_loop_eq; destruct (Nat.eqb_spec c a) as [-> | Hca].
  - exists child. split; [reflexivity | now apply (fill_inv_done _ t)].
  - pose proof (fill_inv_progress _ _ _ Hinv Hca). lia.
  - exists child. split; [reflexivity | now apply (fill_inv_done _ t)].
  - pose proof (fill_inv_progress _ _ _ Hinv Hca) as Ht.
    unfold read.
    assert (Hr : ((b + 1) mod n + t) mod n < length parent2).
    { rewrite (perm_length _ Hp2). apply Nat.mod_upper_bound. lia. }
    rewrite (nth_error_nth' parent2 (-1)%Z Hr). cbn [bind].
    rewrite next_read by lia.
    destruct (includes child _) eqn:E.
    + apply IH; [lia |]. apply fill_inv_skip; auto. now apply includes_In.
    + apply IH; [lia |]. apply fill_inv_write; auto.
      intros Hin. apply includes_In in Hin. congruence.
Qed.

Lemma fill_inv_init :
  fill_inv n a b parent2 (copy_segment parent1 (repeat (-1)%Z n) a b) ((b + 1) mod n) 0.
Proof.
  set (child := copy_segment parent1 (repeat (-1)%Z n) a b).
  assert (Hnth : forall p, p < n ->
            nth p child (-1)%Z =
            if (a <=? p) && (p <=? b) then nth p parent1 (-1)%Z else (-1)%Z).
  { intros p Hp. unfold child.
    destruct (copy_segment_spec parent1 (repeat (-1)%Z n) a b p) as [_ N].
    rewrite N by (rewrite repeat_length; exact Hp).
    destruct ((a <=? p) && (p <=? b)); [reflexivity |]. apply nth_repeat. }
  assert (Hc : (b + 1 < n /\ (b + 1) mod n = b + 1) \/ (b + 1 = n /\ (b + 1) mod n = 0)).
  { destruct (Nat.eq_dec (b + 1) n) as [E | E].
    - right. split; [exact E |]. rewrite E. apply Nat.Div0.mod_same.
    - left. split; [lia |]. apply Nat.mod_small. lia. }
  assert (Hseg : forall p, p < n -> a <= p <= b -> valid n (nth p parent1 (-1)%Z))
    by (intros p Hp _; now apply perm_nth_valid).
  split; [| split; [| split; [| split; [| split]]]].
  - unfold child. destruct (copy_segment_spec parent1 (repeat (-1)%Z n) a b 0) as [-> _].
    apply repeat_length.
  - lia.
  - intros p Hp. rewrite (Hnth p Hp).
    destruct (Nat.leb_spec a p), (Nat.leb_spec p b); simpl; unfold hole;
      try (split; [intros _; lia | reflexivity]).
    split; [| lia]. intros E. exfalso.
    assert (Hv : valid n (nth p parent1 (-1)%Z)) by (apply Hseg; lia).
    apply valid_not_hole in Hv. congruence.
  - intros p Hp. rewrite (Hnth p Hp).
    destruct (Nat.leb_spec a p), (Nat.leb_spec p b); simpl; auto;
      right; apply Hseg; lia.
  - intros p q Hp Hq. rewrite (Hnth p Hp), (Hnth q Hq).
    destruct (Nat.leb_spec a p), (Nat.leb_spec p b); simpl; try congruence.
    intros Hne. destruct (Nat.leb_spec a q), (Nat.leb_spec q b); simpl; try congruence.
    assert (Hnd : NoDup parent1)
      by (apply (Permutation_NoDup (Permutation_sym Hp1)), NoDup_indices).
    apply (proj1 (NoDup_nth parent1 (-1)%Z) Hnd); rewrite (perm_length _ Hp1); lia.
  - intros v Hv _.
    assert (Hin : In v parent2)
      by (apply (Permutation_in _ (Permutation_sym Hp2)); now apply In_indices).
    destruct (In_nth _ _ (-1)%Z Hin) as [j [Hj E]]. rewrite (perm_length _ Hp2) in Hj.
    set (s := (b + 1) mod n).
    assert (Hs : s < n) by (apply Nat.mod_upper_bound; lia).
    exists ((j + n - s) mod n). split.
    + split; [lia | apply Nat.mod_upper_bound; lia].
    + rewrite Nat.Div0.add_mod_idemp_r by lia.
      replace (s + (j + n - s)) with (j + 1 * n) by lia.
      rewrite Nat.Div0.mod_add, Nat.mod_small by lia. exact E.
Qed.

(** Order crossover of two chromosomes, cut at [a <= b], fills the child
    within one round over [parent2], and the child is a chromosome. *)
Lemma crossover_fill_ok :
  exists child,
    fill_loop n n a parent2 (copy_segment parent1 (repeat (-1)%Z n) a b)
              ((b + 1) mod n) ((b + 1) mod n) = Ok child /\
    Permutation child (indices n).
Proof.
  pose proof (fill_loop_ok n 0 _ _ (Nat.add_0_r n) fill_inv_init) as H.
  rewrite Nat.add_0_r, Nat.Div0.mod_mod in H. exact H.
Qed.

End Crossover.

(** ** Genetic search *)

Section GeneticFacts.

Variable rnd : RandomSource.

Lemma returns_ret {A : Type} (a : A) (P : A -> Prop) : P a -> returns (ret a) P.
Proof. intros H k. exists a, k. now split. Qed.

Lemma returns_bind {A B : Type} (m : Rand A) (f : A -> Rand B)
    (P : A -> Prop) (Q : B -> Prop) :
  returns m P -> (forall a, P a -> returns (f a) Q) -> returns (bindR m f) Q.
Proof.
  intros Hm Hf k. destruct (Hm k) as [a [k1 [E Pa]]].
  destruct (Hf a Pa k1) as [c [k2 [E2 Qc]]].
  exists c, k2. unfold bindR. rewrite E. now split.
Qed.

Lemma returns_lift {A : Type} (m : outcome A) (a : A) (P : A -> Prop) :
  m = Ok a -> P a -> returns (lift m) P.
Proof. intros -> H k. exists a, k. now split. Qed.

Lemma returns_weaken {A : Type} (m : Rand A) (P Q : A -> Prop) :
  returns m P -> (forall a, P a -> Q a) -> returns m Q.
Proof.
  intros Hm HPQ k. destruct (Hm k) as [a [k1 [E Pa]]]. exists a, k1. auto.
Qed.

Lemma Math_random_range :
  returns (Math_random rnd) (fun x => exists r, x = Fin r /\ (0 <= r < 1)%R).
Proof.
  intros k. exists (Fin (draw rnd k)), (S k). split; [reflexivity |].
  exists (draw rnd k). split; [reflexivity | apply draw_range].
Qed.

Lemma floor_below (r : R) (n : nat) :
  (0 <= r < 1)%R -> 0 < n -> Z.to_nat (Zfloor (r * INR n)) < n.
Proof.
  intros [H0 H1] Hn.
  assert (Hpos : (0 < INR n)%R) by (apply lt_0_INR; exact Hn).
  pose proof (Zfloor_bound (r * INR n)) as [Hlo Hhi].
  assert (Hx0 : (0 <= r * INR n)%R) by (apply Rmult_le_pos; lra).
  assert (Hx1 : (r * INR n < INR n)%R) by nra.
  assert (Hf0 : (0 <= Zfloor (r * INR n))%Z).
  { assert (H : (0 < Zfloor (r * INR n) + 1)%Z).
    { apply lt_IZR. rewrite plus_IZR. simpl. lra. }
    lia. }
  assert (Hf1 : (Zfloor (r * INR n) < Z.of_nat n)%Z).
  { apply lt_IZR. rewrite <- INR_IZR_INZ. lra. }
  lia.
Qed.

Lemma random_below_lt (n : nat) :
  0 < n -> returns (random_below rnd n) (fun i => i < n).
Proof.
  intros Hn. unfold random_below.
  apply returns_bind with (P := fun x => exists r, x = Fin r /\ (0 <= r < 1)%R).
  - apply Math_random_range.
  - intros x [r [-> Hr]]. apply returns_ret. simpl. now apply floor_below.
Qed.

Lemma random_below_returns (n : nat) : returns (random_below rnd n) (fun _ => True).
Proof.
  unfold random_below.
  apply returns_bind with (P := fun _ => True).
  - eapply returns_weaken; [apply Math_random_range | auto].
  - intros x _. now apply returns_ret.
Qed.

Lemma shuffle_loop_perm (j : nat) (route : list Z) :
  returns (shuffle_loop rnd j route) (fun r => Permutation r route).
Proof.
  revert route. induction j as [| j IH]; intros route; simpl.
  - now apply returns_ret.
  - apply returns_bind with (P := fun _ => True); [apply random_below_returns |].
    intros k _. eapply returns_weaken; [apply IH |].
    intros r P. simpl in P. rewrite P. apply swap_perm.
Qed.

Lemma shuffled_chromosome (n : nat) : returns (shuffled rnd n) (chromosome n).
Proof. apply shuffle_loop_perm. Qed.

Lemma initial_population_ok (n count : nat) :
  returns (initial_population rnd n count)
          (fun population => length population = count /\
                             Forall (chromosome n) population).
Proof.
  induction count as [| count IH]; simpl.
  - apply returns_ret. split; [reflexivity | constructor].
  - eapply returns_bind; [apply shuffled_chromosome |].
    intros route Hr. eapply returns_bind; [apply IH |].
    intros rest [L F]. apply returns_ret. simpl. split; [lia | now constructor].
Qed.

Lemma orderCrossover_ok (n : nat) (parent1 parent2 : list Z) :
  0 < n -> chromosome n parent1 -> chromosome n parent2 ->
  returns (orderCrossover rnd parent1 parent2) (chromosome n).
Proof.
  intros Hn H1 H2. unfold orderCrossover.
  rewrite (perm_length n _ H1).
  eapply returns_bind; [apply (random_below_lt n Hn) |].
  intros start Hs. eapply returns_bind; [apply (random_below_lt n Hn) |].
  intros end_ He. cbv beta.
  destruct (start <? end_) eqn:E.
  - apply Nat.ltb_lt in E.
    destruct (crossover_fill_ok n start end_ parent1 parent2) as [child [Ec Pc]];
      auto; try lia.
    eapply returns_lift; eauto.
  - apply Nat.ltb_ge in E.
    destruct (crossover_fill_ok n end_ start parent1 parent2) as [child [Ec Pc]];
      auto; try lia.
    eapply returns_lift; eauto.
Qed.

Lemma mutate_ok (n : nat) (route : list Z) :
  chromosome n route -> returns (mutate rnd route) (chromosome n).
Proof.
  intros H. unfold mutate.
  apply returns_bind with (P := fun _ => True); [apply random_below_returns |].
  intros i _. apply returns_bind with (P := fun _ => True); [apply random_below_returns |].
  intros j _. apply returns_ret. unfold chromosome. rewrite swap_perm. exact H.
Qed.

(** The tournament returns the first candidate when its fitness is
    strictly greater, and the second candidate otherwise. *)
Lemma tournament_eq (fitness : list number) (population : list (list Z))
    (idx1 idx2 : nat) (c1 c2 : list Z) :
  nth_error population idx1 = Some c1 ->
  nth_error population idx2 = Some c2 ->
  tournament fitness population idx1 idx2 =
  Ok (if gt (nth idx1 fitness NaN) (nth idx2 fitness NaN) then c1 else c2).
Proof.
  intros E1 E2. unfold tournament.
  destruct (gt (nth idx1 fitness NaN) (nth idx2 fitness NaN)).
  - now rewrite E1.
  - now rewrite E2.
Qed.

Lemma tournament_ok (fitness : list number) (population : list (list Z))
    (idx1 idx2 : nat) :
  idx1 < length population -> idx2 < length population ->
  exists parent, tournament fitness population idx1 idx2 = Ok parent /\
                 In parent population.
Proof.
  intros H1 H2.
  destruct (nth_error population idx1) as [c1 |] eqn:E1;
    [| apply nth_error_None in E1; lia].
  destruct (nth_error population idx2) as [c2 |] eqn:E2;
    [| apply nth_error_None in E2; lia].
  rewrite (tournament_eq _ _ _ _ _ _ E1 E2).
  eexists. split; [reflexivity |].
  destruct (gt _ _); eapply nth_error_In; eauto.
Qed.

Lemma breed_ok (n : nat) (fitness : list number) (population : list (list Z)) :
  0 < n -> 0 < length population -> Forall (chromosome n) population ->
  returns (breed rnd fitness population (length population)) (chromosome n).
Proof.
  intros Hn Hp F. unfold breed.
  eapply returns_bind; [apply (random_below_lt _ Hp) |]. intros idx1 H1.
  eapply returns_bind; [apply (random_below_lt _ Hp) |]. intros idx2 H2.
  destruct (tournament_ok fitness population idx1 idx2 H1 H2) as [p1 [E1 I1]].
  apply returns_bind with (P := fun parent => In parent population);
    [apply returns_lift with (a := p1); [exact E1 | exact I1] |]. intros parent1 Hp1.
  eapply returns_bind; [apply (random_below_lt _ Hp) |]. intros idx3 H3.
  eapply returns_bind; [apply (random_below_lt _ Hp) |]. intros idx4 H4.
  destruct (tournament_ok fitness population idx3 idx4 H3 H4) as [p2 [E2 I2]].
  apply returns_bind with (P := fun parent => In parent population);
    [apply returns_lift with (a := p2); [exact E2 | exact I2] |]. intros parent2 Hp2.
  assert (C1 : chromosome n parent1) by (apply (proj1 (Forall_forall _ _) F); exact Hp1).
  assert (C2 : chromosome n parent2) by (apply (proj1 (Forall_forall _ _) F); exact Hp2).
  eapply returns_bind; [apply (orderCrossover_ok n _ _ Hn C1 C2) |]. intros child Hc.
  apply returns_bind with (P := fun _ => True).
  - eapply returns_weaken; [apply Math_random_range | auto].
  - intros r _. destruct (lt r (Fin (1 / 10))).
    + now apply mutate_ok.
    + now apply returns_ret.
Qed.

Lemma breed_all_ok (n : nat) (fitness : list number) (population : list (list Z))
    (count : nat) :
  0 < n -> 0 < length population -> Forall (chromosome n) population ->
  returns (breed_all rnd fitness population (length population) count)
          (fun children => length children = count /\ Forall (chromosome n) children).
Proof.
  intros Hn Hp F. induction count as [| count IH]; simpl.
  - apply returns_ret. split; [reflexivity | constructor].
  - eapply returns_bind; [apply (breed_ok n _ _ Hn Hp F) |]. intros child Hc.
    eapply returns_bind; [apply IH |]. intros rest [L Fr].
    apply returns_ret. simpl. split; [lia | now constructor].
Qed.

Lemma route_distance_chromosome (xs : list Stop) (route : list Z) :
  chromosome (length xs) route ->
  route_distance xs route = Ok (calculateRouteDistance (map (the_stop xs) route)).
Proof.
  intros H. unfold route_distance.
  destruct (map_stops_perm xs route H) as [-> _]. reflexivity.
Qed.

Lemma mapM_ok {A B : Type} (f : A -> outcome B) (g : A -> B) (l : list A) :
  Forall (fun x => f x = Ok (g x)) l -> mapM f l = Ok (map g l).
Proof.
  induction 1 as [| x rest Hx _ IH]; simpl; [reflexivity |].
  now rewrite Hx, IH.
Qed.

Lemma evolve_ok (xs : list Stop) (generations : nat) (population : list (list Z)) :
  0 < length xs -> 0 < length population ->
  Forall (chromosome (length xs)) population ->
  returns (evolve rnd xs (length population) generations population)
          (fun population' => length population' = length population /\
                              Forall (chromosome (length xs)) population').
Proof.
  intros Hn. revert population.
  induction generations as [| g IH]; intros population Hp F; simpl.
  - apply returns_ret. now split.
  - assert (Efit : mapM (route_fitness xs) population =
                   Ok (map (fun route =>
                              div (Fin 1)
                                  (add (calculateRouteDistance (map (the_stop xs) route))
                                       (Fin (1 / 10)))) population)).
    { apply mapM_ok. eapply Forall_impl; [| exact F].
      intros route Hr. unfold route_fitness.
      now rewrite (route_distance_chromosome xs route Hr). }
    apply returns_bind with (P := fun _ => True);
      [eapply returns_lift; [exact Efit | exact I] |].
    intros fitness _.
    eapply returns_bind; [apply (breed_all_ok _ _ _ (length population) Hn Hp F) |].
    intros newPopulation [L Fn].
    rewrite <- L at 1. eapply returns_weaken.
    + apply IH; [lia | exact Fn].
    + intros population' [L' F']. split; [lia | exact F'].
Qed.

End GeneticFacts.

(** ** The best chromosome of a population *)

Section BestSolution.

Local Open Scope R_scope.

Lemma min2_Fin (a b : R) :
  exists m, min2 (Fin a) (Fin b) = Fin m /\ (m = a \/ m = b) /\ m <= a /\ m <= b.
Proof.
  unfold min2. simpl lt. destruct (Rltb b a) eqn:E.
  - apply Rltb_iff in E. exists b. repeat split; auto; lra.
  - apply Rltb_iff_false in E. exists a. repeat split; auto; lra.
Qed.

Lemma fold_min2_Fin (rs : list R) (m0 : R) :
  exists m, fold_left min2 (map Fin rs) (Fin m0) = Fin m /\
            (m = m0 \/ In m rs) /\ m <= m0 /\ Forall (fun r => m <= r) rs.
Proof.
  revert m0. induction rs as [| r rest IH]; intros m0.
  - exists m0. repeat split; auto; try lra.
  - destruct (min2_Fin m0 r) as [m1 [E1 [O1 [L1 L2]]]].
    destruct (IH m1) as [m [E [O [L F]]]].
    exists m. cbn [map fold_left]. rewrite E1, E. split; [reflexivity |]. split; [| split].
    + destruct O as [-> | Hin]; [| now right; right].
      destruct O1 as [-> | ->]; [now left | now right; left].
    + lra.
    + constructor; [lra | exact F].
Qed.

Lemma Math_min_Fin (rs : list R) :
  rs <> [] ->
  exists m, Math_min (map Fin rs) = Fin m /\ In m rs /\ Forall (fun r => m <= r) rs.
Proof.
  destruct rs as [| r rest]; [congruence | intros _].
  unfold Math_min. simpl.
  destruct (fold_min2_Fin rest r) as [m [E [O [L F]]]].
  exists m. rewrite E. split; [reflexivity |]. split.
  - destruct O as [-> | Hin]; [now left | now right].
  - now constructor.
Qed.

Lemma indexOf_from_Fin (rs : list R) (m : R) (p : nat) :
  In m rs ->
  exists i, indexOf_from (map Fin rs) (Fin m) p = Z.of_nat (p + i) /\
            nth_error rs i = Some m /\
            forall j r, (j < i)%nat -> nth_error rs j = Some r -> r <> m.
Proof.
  revert p. induction rs as [| r rest IH]; intros p Hin; [destruct Hin |].
  simpl. destruct (Reqb r m) eqn:E.
  - apply Reqb_iff in E. subst r. exists 0%nat.
    rewrite Nat.add_0_r. repeat split; auto. intros j r Hj. lia.
  - assert (Hne : r <> m) by (intros ->; now rewrite Reqb_true in E).
    destruct Hin as [-> | Hin]; [congruence |].
    destruct (IH (S p) Hin) as [i [Ei [Ni Fi]]].
    exists (S i). replace (p + S i)%nat with (S p + i)%nat by lia.
    repeat split; auto.
    intros [| j] r' Hj Hr'; simpl in Hr'.
    + now injection Hr' as <-.
    + apply (Fi j r'); [lia | exact Hr'].
Qed.

Lemma tour_distance_finite (xs : list Stop) (route : list Z) :
  all_finite xs = true -> chromosome (length xs) route ->
  exists d, tour_distance xs route = Fin d /\ 0 <= d.
Proof.
  intros Hfin Hc. apply calculateRouteDistance_finite.
  apply (all_finite_perm _ xs); [| exact Hfin].
  now apply map_stops_perm.
Qed.

Lemma tour_distances_Fin (xs : list Stop) (population : list (list Z)) :
  all_finite xs = true -> Forall (chromosome (length xs)) population ->
  map (tour_distance xs) population =
  map Fin (map (fun route => to_R (tour_distance xs route)) population).
Proof.
  intros Hfin F. rewrite map_map. apply map_ext_in. intros route Hr.
  destruct (tour_distance_finite xs route Hfin) as [d [-> _]]; [| reflexivity].
  apply (proj1 (Forall_forall _ _) F). exact Hr.
Qed.

(** The end of [geneticAlgorithm] selects the first chromosome of minimal
    tour distance in the population. *)
Lemma best_solution_ok (xs : list Stop) (population : list (list Z)) :
  all_finite xs = true -> population <> [] ->
  Forall (chromosome (length xs)) population ->
  exists r i best nn,
    best_solution xs population = Ok r /\
    nth_error population i = Some best /\
    stops r = map (the_stop xs) best /\
    distance r = tour_distance xs best /\
    (forall c, In c population -> lt (tour_distance xs c) (distance r) = false) /\
    (forall j c, (j < i)%nat -> nth_error population j = Some c ->
                 lt (distance r) (tour_distance xs c) = true) /\
    nearestNeighbor xs = Ok nn /\
    improvement r =
      mul (div (sub (distance nn) (distance r)) (distance nn)) (Fin 100).
Proof.
  intros Hfin Hne F. unfold best_solution.
  assert (Efit : mapM (route_distance xs) population = Ok (map (tour_distance xs) population)).
  { apply mapM_ok. eapply Forall_impl; [| exact F].
    intros route Hr. now apply route_distance_chromosome. }
  rewrite Efit. cbn [bind].
  rewrite (tour_distances_Fin xs population Hfin F).
  set (rs := map (fun route => to_R (tour_distance xs route)) population).
  assert (Hrs : rs <> []) by (unfold rs; destruct population; [congruence | discriminate]).
  destruct (Math_min_Fin rs Hrs) as [m [-> [Hin Hmin]]].
  destruct (indexOf_from_Fin rs m 0 Hin) as [i [Ei [Ni Fi]]].
  unfold indexOf. rewrite Ei. simpl Nat.add.
  unfold get. destruct (Z.ltb_spec (Z.of_nat i) 0); [lia |]. rewrite Nat2Z.id.
  unfold rs in Ni. rewrite nth_error_map in Ni.
  destruct (nth_error population i) as [best |] eqn:Eb; [| discriminate].
  simpl in Ni. injection Ni as Em. cbn [bind].
  assert (Cb : chromosome (length xs) best).
  { apply (proj1 (Forall_forall _ _) F). eapply nth_error_In; eauto. }
  destruct (map_stops_perm xs best Cb) as [-> Pb]. cbn [bind].
  destruct (nearestNeighbor_ok xs Hfin) as [nn [-> [Pnn [Dnn Inn]]]]. cbn [bind].
  destruct (tour_distance_finite xs best Hfin Cb) as [d [Ed Hd]].
  fold (tour_distance xs best). rewrite Ed in Em. simpl in Em. subst d.
  eexists. exists i, best, nn. split; [reflexivity |]. simpl.
  split; [exact Eb |]. split; [reflexivity |]. split; [reflexivity |].
  split; [| split; [| split; [reflexivity |]]].
  - intros c Hc.
    destruct (tour_distance_finite xs c Hfin) as [dc [Edc Hdc]];
      [apply (proj1 (Forall_forall _ _) F); exact Hc |].
    rewrite Ed, Edc. simpl. apply Rltb_iff_false.
    apply (proj1 (Forall_forall _ _) Hmin). unfold rs.
    apply in_map_iff. exists c. rewrite Edc. split; [reflexivity | exact Hc].
  - intros j c Hj Hc.
    destruct (tour_distance_finite xs c Hfin) as [dc [Edc Hdc]];
      [apply (proj1 (Forall_forall _ _) F); eapply nth_error_In; eauto |].
    rewrite Ed, Edc. simpl. apply Rltb_iff.
    assert (Hle : m <= dc).
    { apply (proj1 (Forall_forall _ _) Hmin). unfold rs.
      apply in_map_iff. exists c. rewrite Edc. split; [reflexivity |].
      eapply nth_error_In; eauto. }
    assert (Hneq : dc <> m).
    { apply (Fi j dc Hj). unfold rs. rewrite nth_error_map, Hc. simpl. now rewrite Edc. }
    lra.
  - now rewrite Dnn.
Qed.

End BestSolution.

(** ** The genetic search as a whole *)

Section GeneticAlgorithm.

Variable rnd : RandomSource.

Lemma geneticAlgorithm_small (xs : list Stop) (populationSize generations : nat) :
  length xs < 4 ->
  geneticAlgorithm rnd xs populationSize generations = lift (nearestNeighbor xs).
Proof.
  intros H. unfold geneticAlgorithm.
  destruct (Nat.ltb_spec (length xs) 4); [reflexivity | lia].
Qed.

Lemma geneticAlgorithm_large (xs : list Stop) (populationSize generations : nat) :
  4 <= length xs ->
  geneticAlgorithm rnd xs populationSize generations =
  bindR (initial_population rnd (length xs) populationSize)
        (fun population =>
           bindR (evolve rnd xs populationSize generations population)
                 (fun population' => lift (best_solution xs population'))).
Proof.
  intros H. unfold geneticAlgorithm.
  destruct (Nat.ltb_spec (length xs) 4); [lia | reflexivity].
Qed.

(** With an empty population the final selection reads
    [population[-1]], and [geneticAlgorithm] throws. *)
Lemma evolve_empty (xs : list Stop) (generations k : nat) :
  evolve rnd xs 0 generations [] k = Ok ([], k).
Proof.
  induction generations as [| g IH]; [reflexivity |].
  simpl. unfold bindR, lift. simpl. exact IH.
Qed.

Lemma geneticAlgorithm_empty_population (xs : list Stop) (generations k : nat) :
  4 <= length xs -> geneticAlgorithm rnd xs 0 generations k = TypeError.
Proof.
  intros H. rewrite (geneticAlgorithm_large xs 0 generations H).
  unfold bindR. simpl initial_population. unfold ret at 1.
  rewrite evolve_empty. reflexivity.
Qed.

(** On stops with finite coordinates and with a population that is not
    empty, [geneticAlgorithm] returns, its tour is a permutation of the
    input, its distance is the distance of that tour and its improvement
    is measured against the nearest-neighbour tour. *)
Lemma geneticAlgorithm_ok (xs : list Stop) (populationSize generations : nat) :
  all_finite xs = true -> 0 < populationSize ->
  returns (geneticAlgorithm rnd xs populationSize generations)
          (fun r => Permutation (stops r) xs /\
                    distance r = calculateRouteDistance (stops r) /\
                    exists nn, nearestNeighbor xs = Ok nn /\
                               (length xs < 4 -> r = nn) /\
                               (4 <= length xs ->
                                improvement r =
                                mul (div (sub (distance nn) (distance r)) (distance nn))
                                    (Fin 100))).
Proof.
  intros Hfin Hp.
  destruct (Nat.lt_ge_cases (length xs) 4) as [Hlt | Hge].
  - rewrite (geneticAlgorithm_small xs _ _ Hlt).
    destruct (nearestNeighbor_ok xs Hfin) as [nn [E [P [D _]]]].
    apply returns_lift with (a := nn); auto.
    split; [exact P |]. split; [exact D |]. exists nn. repeat split; auto. lia.
  - rewrite (geneticAlgorithm_large xs _ _ Hge).
    eapply returns_bind; [apply initial_population_ok |].
    intros population [L F]. cbv beta. rewrite <- L.
    eapply returns_bind; [apply evolve_ok; [lia | lia | exact F] |].
    intros population' [L' F']. cbv beta.
    destruct (best_solution_ok xs population' Hfin) as
      [r [i [best [nn [E [Eb [Es [Ed [_ [_ [Enn Ei]]]]]]]]]]]; auto.
    { destruct population'; [simpl in L'; lia | discriminate]. }
    apply returns_lift with (a := r); auto. split; [| split].
    + rewrite Es. apply map_stops_perm.
      apply (proj1 (Forall_forall _ _) F'). eapply nth_error_In; eauto.
    + rewrite Ed, Es. reflexivity.
    + exists nn. repeat split; auto. lia.
Qed.

End GeneticAlgorithm.

(** ** The comparator *)

Section Comparator.

Local Open Scope R_scope.

Lemma le_distance_trans (a b c : OptimizationResult) :
  le_distance a b -> le_distance b c -> le_distance a c.
Proof.
  intros [x [y [Ex [Ey H1]]]] [y' [z [Ey' [Ez H2]]]].
  rewrite Ey in Ey'. injection Ey' as <-.
  exists x, z. repeat split; auto. lra.
Qed.

Lemma by_distance_gt (a b : OptimizationResult) (x y : R) :
  distance a = Fin x -> distance b = Fin y ->
  gt (by_distance a b) (Fin 0) = Rltb y x.
Proof.
  intros Ea Eb. unfold by_distance, gt. rewrite Ea, Eb. simpl.
  unfold Rltb. destruct (Rlt_dec 0 (x + - y)), (Rlt_dec y x); try reflexivity; lra.
Qed.

Lemma sort_insert_ok (x : OptimizationResult) (sorted : list OptimizationResult) :
  finite (distance x) = true ->
  Forall (fun r => finite (distance r) = true) sorted ->
  StronglySorted le_distance sorted ->
  StronglySorted le_distance (sort_insert by_distance x sorted) /\
  Permutation (sort_insert by_distance x sorted) (x :: sorted).
Proof.
  intros Hx HF HS. destruct (finite_Fin _ Hx) as [dx Ex].
  induction sorted as [| y rest IH]; cbn [sort_insert].
  - split; [repeat constructor | reflexivity].
  - inversion HF as [| ? ? Hy HF']; subst. inversion HS as [| ? ? HS' Hall]; subst.
    destruct (finite_Fin _ Hy) as [dy Ey].
    rewrite (by_distance_gt y x dy dx Ey Ex).
    destruct (Rltb dx dy) eqn:E.
    + apply Rltb_iff in E. split; [| reflexivity].
      assert (Hxy : le_distance x y) by (exists dx, dy; repeat split; auto; lra).
      constructor; [exact HS |]. constructor; [exact Hxy |].
      eapply Forall_impl; [| exact Hall]. intros z Hz.
      now apply (le_distance_trans x y z).
    + apply Rltb_iff_false in E. destruct (IH HF' HS') as [S1 P1]. split.
      * constructor; [exact S1 |].
        assert (Hyx : le_distance y x) by (exists dy, dx; repeat split; auto).
        apply Forall_forall. intros z Hz.
        apply (Permutation_in _ P1) in Hz. destruct Hz as [<- | Hz]; [exact Hyx |].
        apply (proj1 (Forall_forall _ _) Hall). exact Hz.
      * rewrite P1. apply perm_swap.
Qed.

Lemma Array_sort_ok (xs : list OptimizationResult) :
  Forall (fun r => finite (distance r) = true) xs ->
  StronglySorted le_distance (Array_sort by_distance xs) /\
  Permutation (Array_sort by_distance xs) xs.
Proof.
  unfold Array_sort. intros HF.
  assert (G : forall acc,
             Forall (fun r => finite (distance r) = true) acc ->
             StronglySorted le_distance acc ->
             StronglySorted le_distance
               (fold_left (fun sorted x => sort_insert by_distance x sorted) xs acc) /\
             Permutation
               (fold_left (fun sorted x => sort_insert by_distance x sorted) xs acc)
               (acc ++ xs)).
  { induction HF as [| x rest Hx HF IH]; intros acc Ha Sa; simpl.
    - rewrite app_nil_r. now split.
    - destruct (sort_insert_ok x acc Hx Ha Sa) as [S1 P1].
      destruct (IH (sort_insert by_distance x acc)) as [S2 P2]; auto.
      + apply (Permutation_Forall (Permutation_sym P1)). now constructor.
      + split; [exact S2 |]. rewrite P2, P1. apply Permutation_middle. }
  destruct (G []) as [S P]; auto; constructor.
Qed.

End Comparator.

Section ComparatorRun.

Variable rnd : RandomSource.

Lemma finite_distance_of_tour (xs : list Stop) (r : OptimizationResult) :
  all_finite xs = true -> Permutation (stops r) xs ->
  distance r = calculateRouteDistance (stops r) ->
  exists d, distance r = Fin d /\ (0 <= d)%R.
Proof.
  intros Hfin P ->. apply calculateRouteDistance_finite.
  now apply (all_finite_perm _ xs).
Qed.

(** [compareAlgorithms] runs the three algorithms and returns their three
    results in ascending order of distance. *)
Lemma compareAlgorithms_ok (xs : list Stop) (k : nat) :
  all_finite xs = true ->
  exists nn opt2 ga k' results,
    nearestNeighbor xs = Ok nn /\
    twoOpt xs 100 = Ok opt2 /\
    geneticAlgorithm rnd xs 50 100 k = Ok (ga, k') /\
    compareAlgorithms rnd xs k = Ok (results, k') /\
    Permutation results [opt2; ga; nn] /\
    StronglySorted le_distance results /\
    Forall (fun r => Permutation (stops r) xs) results.
Proof.
  intros Hfin.
  destruct (twoOpt_ok xs 100 Hfin) as [opt2 [nn [E2 [En [P2 [D2 _]]]]]].
  destruct (nearestNeighbor_ok xs Hfin) as [nn' [En' [Pn [Dn _]]]].
  rewrite En in En'. injection En' as <-.
  destruct (geneticAlgorithm_ok rnd xs 50 100 Hfin) with (k := k)
    as [ga [k' [Eg [Pg [Dg _]]]]]; [lia |].
  assert (F : Forall (fun r => finite (distance r) = true) [opt2; ga; nn]).
  { repeat constructor.
    - destruct (finite_distance_of_tour xs opt2 Hfin P2 D2) as [d [-> _]]. reflexivity.
    - destruct (finite_distance_of_tour xs ga Hfin Pg Dg) as [d [-> _]]. reflexivity.
    - destruct (finite_distance_of_tour xs nn Hfin Pn Dn) as [d [-> _]]. reflexivity. }
  destruct (Array_sort_ok [opt2; ga; nn] F) as [S P].
  exists nn, opt2, ga, k', (Array_sort by_distance [opt2; ga; nn]).
  split; [exact En |]. split; [exact E2 |]. split; [exact Eg |].
  split; [| split; [exact P | split; [exact S |]]].
  - unfold compareAlgorithms, bindR, lift. rewrite En, E2, Eg. reflexivity.
  - apply (Permutation_Forall (Permutation_sym P)). repeat constructor; assumption.
Qed.

End ComparatorRun.

(** ** Stops at the same coordinates *)

Section Coincident.

Lemma coincident_finite (la lo : R) (xs : list Stop) :
  coincident la lo xs -> all_finite xs = true.
Proof.
  intros H. apply all_finite_forall. intros s Hs.
  destruct (proj1 (Forall_forall _ _) H s Hs) as [E1 E2].
  unfold finite_stop. now rewrite E1, E2.
Qed.

Lemma coincident_perm (la lo : R) (xs ys : list Stop) :
  Permutation xs ys -> coincident la lo ys -> coincident la lo xs.
Proof. intros P H. apply (Permutation_Forall (Permutation_sym P) H). Qed.

Lemma coincident_consecutive (la lo : R) (xs : list Stop) :
  coincident la lo xs -> Forall (fun leg => leg = Fin 0) (consecutive xs).
Proof.
  induction 1 as [| p rest [Hp1 Hp2] Hrest IH]; [constructor |].
  destruct rest as [| q rest']; [constructor |].
  change (consecutive (p :: q :: rest')) with (dist p q :: consecutive (q :: rest')).
  constructor; [| exact IH].
  inversion Hrest as [| ? ? [Hq1 Hq2] _]; subst.
  unfold dist. rewrite Hp1, Hp2, Hq1, Hq2. apply calculateDistance_same.
Qed.

(** A route through stops at the same coordinates has distance zero. *)
Lemma coincident_distance (la lo : R) (xs : list Stop) :
  coincident la lo xs -> calculateRouteDistance xs = Fin 0.
Proof.
  intros H. apply calculateRouteDistance_zero_iff; [now apply (coincident_finite la lo) |].
  right. destruct xs as [| first rest]; [constructor |].
  unfold cyclic_legs. apply (coincident_consecutive la lo).
  apply Forall_app. split; [exact H |]. constructor; [| constructor].
  now inversion H.
Qed.

(** The percentage of improvement against a baseline of distance zero. *)
Lemma improvement_zero_baseline :
  mul (div (sub (Fin 0) (Fin 0)) (Fin 0)) (Fin 100) = NaN.
Proof.
  unfold sub. cbn [neg add div].
  rewrite (Reqb_true 0 0) by reflexivity.
  rewrite (Reqb_true (0 + - 0) 0) by lra. reflexivity.
Qed.

End Coincident.

(** ** Termination of the nearest-neighbour loop *)

Section NearestNeighborTotal.

Lemma nn_visit_not_diverges (xs : list Stop) (current : Z) (st : Z * number) (idx : Z) :
  nn_visit xs current st idx <> Diverges.
Proof.
  unfold nn_visit, stop_at.
  destruct (get xs current); cbn [bind]; [| discriminate].
  destruct (get xs idx); cbn [bind]; [| discriminate].
  destruct (lt _ _); discriminate.
Qed.

Lemma nn_visit_fst (xs : list Stop) (current : Z) (st st' : Z * number) (idx : Z) :
  nn_visit xs current st idx = Ok st' -> fst st' = fst st \/ fst st' = idx.
Proof.
  unfold nn_visit, stop_at.
  destruct (get xs current); cbn [bind]; [| discriminate].
  destruct (get xs idx); cbn [bind]; [| discriminate].
  destruct (lt _ _); intros E; injection E as <-; auto.
Qed.

Lemma nn_scan_outcome (xs : list Stop) (current : Z) (unvisited : list Z) (st : Z * number) :
  nn_scan xs current unvisited st = TypeError \/
  exists st', nn_scan xs current unvisited st = Ok st' /\
              (fst st' = fst st \/ In (fst st') unvisited).
Proof.
  revert st. induction unvisited as [| idx rest IH]; intros st; simpl.
  - right. exists st. auto.
  - destruct (nn_visit xs current st idx) as [st1 | |] eqn:E; cbn [bind].
    + destruct (IH st1) as [T | [st' [E' O]]]; [now left | right].
      exists st'. split; [exact E' |].
      destruct O as [O | O]; [| now right; right].
      destruct (nn_visit_fst _ _ _ _ _ E) as [F | F]; rewrite O, F; auto.
    + now left.
    + now apply nn_visit_not_diverges in E.
Qed.

Lemma nn_scan_sentinel (xs : list Stop) (u : Z) (us : list Z) (st : Z * number) :
  nn_scan xs (-1)%Z (u :: us) st = TypeError.
Proof. reflexivity. Qed.

(** The loop of [nearestNeighbor] ends within one round per unvisited
    index and one more: a scan that selects no index stores [-1], and the
    next round throws on [stops[-1]]. *)
Lemma nn_loop_total (xs : list Stop) (fuel : nat) (route unvisited : list Z) :
  ~ In (-1)%Z unvisited -> length unvisited < fuel ->
  nn_loop fuel xs route unvisited <> Diverges.
Proof.
  revert route unvisited. induction fuel as [| fuel IH]; intros route unvisited Hm Hlen;
    [lia |].
  destruct unvisited as [| u us]; [discriminate |].
  rewrite nn_loop_step.
  destruct (nn_scan_outcome xs (last route 0%Z) (u :: us) ((-1)%Z, Infinity))
    as [-> | [st' [-> O]]]; [discriminate |]. cbn [bind].
  destruct O as [O | O].
  - simpl in O. rewrite O. rewrite notin_remove by exact Hm.
    destruct fuel as [| fuel']; [simpl in Hlen; lia |].
    rewrite nn_loop_step, last_last, nn_scan_sentinel. discriminate.
  - apply IH.
    + intros Hin. apply in_remove in Hin. now apply Hm.
    + pose proof (remove_length_lt Z.eq_dec (u :: us) (fst st') O). lia.
Qed.

Lemma map_stops_not_diverges (xs : list Stop) (route : list Z) :
  map_stops xs route <> Diverges.
Proof.
  induction route as [| i rest IH]; simpl; [discriminate |].
  unfold stop_at. destruct (get xs i); cbn [bind]; [| discriminate].
  destruct (map_stops xs rest); cbn [bind]; try discriminate. congruence.
Qed.

(** [nearestNeighbor] returns or throws on every input. *)
Lemma nearestNeighbor_total (xs : list Stop) : nearestNeighbor xs <> Diverges.
Proof.
  unfold nearestNeighbor. destruct (Nat.ltb_spec (length xs) 2); [discriminate |].
  assert (H0 : In 0%Z (indices (length xs))) by (apply In_indices; unfold valid; lia).
  destruct (nn_loop (length xs) xs [0%Z] (remove Z.eq_dec 0%Z (indices (length xs))))
    as [route | |] eqn:E; cbn [bind]; try discriminate.
  - destruct (map_stops xs route) eqn:E2; cbn [bind]; try discriminate.
    now apply map_stops_not_diverges in E2.
  - exfalso. revert E. apply nn_loop_total.
    + intros Hin. apply in_remove in Hin as [Hin _]. apply In_indices in Hin.
      unfold valid in Hin. lia.
    + pose proof (remove_length_lt Z.eq_dec (indices (length xs)) 0%Z H0) as Hl.
      rewrite length_indices in Hl. exact Hl.
Qed.

End NearestNeighborTotal.

(** ** Stops on one meridian *)

Section Meridian.

Local Open Scope R_scope.

Lemma km_per_degree_pos : 0 < km_per_degree.
Proof. unfold km_per_degree. pose proof PI_RGT_0. lra. Qed.

(** Along a meridian the haversine distance is proportional to the
    difference of the latitudes. *)
Lemma meridian_distance (la1 la2 lo : R) :
  0 <= la2 - la1 < 180 ->
  calculateDistance (Fin la1) (Fin lo) (Fin la2) (Fin lo) =
  Fin (km_per_degree * (la2 - la1)).
Proof.
  intros [H0 H1]. rewrite calculateDistance_Fin. f_equal.
  pose proof PI_RGT_0 as Hpi.
  set (x := (la2 + - la1) * PI / 180 / 2).
  assert (Hx0 : 0 <= x) by (unfold x; nra).
  assert (Hx1 : x < PI / 2) by (unfold x; nra).
  assert (Hhav : hav la1 lo la2 lo = sin x * sin x).
  { unfold hav. fold x. replace ((lo + - lo) * PI / 180 / 2) with 0 by lra.
    rewrite sin_0. ring. }
  assert (Hsin : 0 <= sin x) by (apply sin_ge_0; lra).
  assert (Hcos : 0 < cos x) by (apply cos_gt_0; lra).
  rewrite Hhav.
  replace (1 + - (sin x * sin x)) with (cos x * cos x)
    by (pose proof (sin2_cos2 x) as E; unfold Rsqr in E; lra).
  rewrite !sqrt_square by lra.
  unfold Ratan2. rewrite (Rltb_true 0 (cos x) Hcos).
  change (sin x / cos x) with (tan x). rewrite atan_tan by lra.
  unfold x, km_per_degree. field.
Qed.

Lemma dist_north (p q : Stop) (a b lo : R) :
  lat p = Fin a -> lng p = Fin lo -> lat q = Fin b -> lng q = Fin lo ->
  0 <= b - a < 180 -> dist p q = Fin (km_per_degree * (b - a)).
Proof.
  intros E1 E2 E3 E4 H. unfold dist. rewrite E1, E2, E3, E4.
  now apply meridian_distance.
Qed.

Lemma dist_south (p q : Stop) (a b lo : R) :
  lat p = Fin a -> lng p = Fin lo -> lat q = Fin b -> lng q = Fin lo ->
  0 <= a - b < 180 -> dist p q = Fin (km_per_degree * (a - b)).
Proof.
  intros E1 E2 E3 E4 H. rewrite dist_sym. now apply (dist_north q p b a lo).
Qed.

End Meridian.

(** ** A run on four stops of one meridian *)

Section MeridianRun.

Local Open Scope R_scope.

Lemma meridian_leg (i j : Z) (a b : R) :
  lat (the_stop meridian i) = Fin a -> lat (the_stop meridian j) = Fin b ->
  valid 4 i -> valid 4 j -> 0 <= a <= 3 -> 0 <= b <= 3 ->
  dist (the_stop meridian i) (the_stop meridian j) = Fin (km_per_degree * Rabs (b - a)).
Proof.
  intros Ea Eb Vi Vj Ha Hb.
  assert (L : forall k, valid 4 k -> lng (the_stop meridian k) = Fin 0).
  { intros k [K0 K1].
    assert (K : k = 0%Z \/ k = 1%Z \/ k = 2%Z \/ k = 3%Z) by lia.
    destruct K as [-> | [-> | [-> | ->]]]; reflexivity. }
  destruct (Rle_dec a b) as [Hle | Hgt].
  - rewrite Rabs_right by lra.
    apply (dist_north _ _ a b 0); auto; lra.
  - rewrite Rabs_left by lra. replace (- (b - a)) with (a - b) by lra.
    apply (dist_south _ _ a b 0); auto; lra.
Qed.

Lemma nn_pick_below (d : Z -> number) (x : Z) (l : list Z) (n0 : Z) (m0 : number) :
  lt (d x) m0 = true -> nn_pick d (x :: l) (n0, m0) = nn_pick d l (x, d x).
Proof. intros H. rewrite nn_pick_cons. cbn [snd]. now rewrite H. Qed.

Lemma nn_pick_not_below (d : Z -> number) (x : Z) (l : list Z) (n0 : Z) (m0 : number) :
  lt (d x) m0 = false -> nn_pick d (x :: l) (n0, m0) = nn_pick d l (n0, m0).
Proof. intros H. rewrite nn_pick_cons. cbn [snd]. now rewrite H. Qed.

Ltac meridian_legs :=
  repeat (erewrite meridian_leg by (first [reflexivity | unfold valid; lia | lra])).

Ltac meridian_order :=
  cbv beta; meridian_legs; cbn [lt add];
  first [reflexivity | apply Rltb_true | apply Rltb_false];
  pose proof km_per_degree_pos; unfold Rabs;
  repeat (match goal with |- context [Rcase_abs ?x] => destruct (Rcase_abs x) end);
  lra.

Ltac meridian_round :=
  rewrite nn_loop_step; cbn [last app];
  rewrite nn_scan_pure by (first [unfold valid; simpl; lia | repeat constructor; simpl; lia]);
  cbn [bind].

(** From latitude 0 the nearest-neighbour tour visits the latitudes in
    the order 0, 1, 2, 3. *)
Lemma nearestNeighbor_meridian :
  exists nn, nearestNeighbor meridian = Ok nn /\
             stops nn = map (the_stop meridian) [0; 2; 3; 1]%Z.
Proof.
  unfold nearestNeighbor.
  change (length meridian <? 2)%nat with false. cbv iota.
  change (length meridian) with 4%nat.
  replace (remove Z.eq_dec 0%Z (indices 4)) with [1; 2; 3]%Z by reflexivity.
  meridian_round.
  rewrite nn_pick_below by meridian_order.
  rewrite nn_pick_below by meridian_order.
  rewrite nn_pick_not_below by meridian_order.
  change (nn_pick _ [] ?st) with st. cbn [fst].
  replace (remove Z.eq_dec 2%Z [1; 2; 3]%Z) with [1; 3]%Z by reflexivity.
  meridian_round.
  rewrite nn_pick_below by meridian_order.
  rewrite nn_pick_below by meridian_order.
  change (nn_pick _ [] ?st) with st. cbn [fst].
  replace (remove Z.eq_dec 3%Z [1; 3]%Z) with [1]%Z by reflexivity.
  meridian_round.
  rewrite nn_pick_below by meridian_order.
  change (nn_pick _ [] ?st) with st. cbn [fst].
  replace (remove Z.eq_dec 1%Z [1]%Z) with (@nil Z) by reflexivity.
  cbn [nn_loop bind].
  rewrite map_stops_valid by (repeat constructor; unfold valid; simpl; lia).
  cbn [bind]. eexists. split; reflexivity.
Qed.

(** With an iteration cap of 0 the tour of [twoOpt] is the input order. *)
Lemma twoOpt_zero_iterations (xs : list Stop) :
  all_finite xs = true -> (4 <= length xs)%nat ->
  exists r, twoOpt xs 0 = Ok r /\ stops r = xs.
Proof.
  intros Hfin Hlen. unfold twoOpt.
  destruct (Nat.ltb_spec (length xs) 4); [lia |].
  destruct (nearestNeighbor_ok xs Hfin) as [nn [-> [P _]]]. cbn [bind twoOpt_while].
  rewrite (Permutation_length P).
  rewrite map_stops_valid by (apply Forall_valid_perm; reflexivity).
  cbn [bind]. rewrite map_the_stop_indices. eexists. split; reflexivity.
Qed.

(** C2, at the failing input.  The working tour of [twoOpt] is the input
    order, not the nearest-neighbour tour: on the four stops of [meridian]
    and with an iteration cap of 0, [twoOpt] returns the input order,
    which is strictly longer than the nearest-neighbour tour. *)
Theorem twoOpt_longer_than_nearestNeighbor :
  exists r nn,
    twoOpt meridian 0 = Ok r /\ nearestNeighbor meridian = Ok nn /\
    stops r = meridian /\
    stops nn = map (the_stop meridian) [0; 2; 3; 1]%Z /\
    lt (distance nn) (distance r) = true.
Proof.
  destruct nearestNeighbor_meridian as [nn [Enn Snn]].
  destruct (twoOpt_ok meridian 0 eq_refl) as [r [nn' [Er [Enn' [_ [Dr _]]]]]].
  destruct (twoOpt_zero_iterations meridian eq_refl) as [r' [Er' Sr]]; [simpl; lia |].
  rewrite Er in Er'. injection Er' as <-.
  destruct (nearestNeighbor_ok meridian eq_refl) as [nn'' [Enn'' [_ [Dnn _]]]].
  rewrite Enn in Enn''. injection Enn'' as <-.
  exists r, nn. repeat split; auto.
  assert (Sr' : stops r = map (the_stop meridian) [0; 1; 2; 3]%Z)
    by (rewrite Sr; reflexivity).
  rewrite Dr, Dnn, Sr', Snn.
  cbn [map calculateRouteDistance legs last].
  meridian_order.
Qed.

End MeridianRun.

(** ** 2-opt never lengthens its working tour

    In exact arithmetic an exchange that passes the test
    [newDist < currentDist] shortens the tour by the difference of the
    two sums; the lengths of this section are sums of real numbers. *)

Section TwoOptDescent.

Local Open Scope R_scope.

Lemma set_nth_app {A : Type} (P R : list A) (x v : A) :
  set_nth (P ++ x :: R) (length P) v = P ++ v :: R.
Proof. induction P as [| p P IH]; simpl; [reflexivity | now rewrite IH]. Qed.

Lemma nth_error_middle {A : Type} (P R : list A) (x : A) :
  nth_error (P ++ x :: R) (length P) = Some x.
Proof. induction P as [| p P IH]; simpl; [reflexivity | exact IH]. Qed.

Lemma swap_ends {A : Type} (P M S : list A) (x y : A) :
  swap (P ++ x :: M ++ y :: S) (length P) (length P + length M + 1) =
  P ++ y :: M ++ x :: S.
Proof.
  unfold swap. rewrite nth_error_middle.
  assert (E : (length P + length M + 1)%nat = length (P ++ x :: M))
    by (rewrite length_app; simpl; lia).
  rewrite E.
  replace (P ++ x :: M ++ y :: S) with ((P ++ x :: M) ++ y :: S) at 1
    by (rewrite <- app_assoc; reflexivity).
  rewrite nth_error_middle, set_nth_app.
  replace (length (P ++ x :: M)) with (length (P ++ y :: M))
    by (rewrite !length_app; reflexivity).
  replace (P ++ y :: M ++ y :: S) with ((P ++ y :: M) ++ y :: S)
    by (rewrite <- app_assoc; reflexivity).
  rewrite set_nth_app, <- app_assoc. reflexivity.
Qed.

(** The loop of swaps reverses the segment between its two cursors. *)
Lemma reverse_loop_spec (fuel : nat) (P M S : list Z) (left right : nat) :
  left = length P -> (right + 1 = left + length M)%nat -> (length M <= fuel)%nat ->
  reverse_loop fuel (P ++ M ++ S) left right = P ++ rev M ++ S.
Proof.
  revert P M S left right.
  induction fuel as [| fuel IH]; intros P M S left right Hl Hr Hf.
  - destruct M; [reflexivity | simpl in Hf; lia].
  - simpl. destruct (Nat.ltb_spec left right) as [Hlt | Hge].
    + destruct M as [| x M1]; [simpl in Hr; lia |].
      destruct (exists_last (l := M1)) as [M' [y ->]].
      { intros ->. simpl in Hr. lia. }
      simpl in Hr, Hf. rewrite length_app in Hr, Hf. simpl in Hr, Hf.
      replace (P ++ (x :: M' ++ [y]) ++ S) with (P ++ x :: M' ++ y :: S)
        by (simpl; rewrite <- app_assoc; reflexivity).
      replace right with (length P + length M' + 1)%nat by lia.
      rewrite Hl, swap_ends.
      replace (P ++ y :: M' ++ x :: S) with ((P ++ [y]) ++ M' ++ (x :: S))
        by (rewrite <- app_assoc; reflexivity).
      rewrite IH.
      * simpl. rewrite rev_app_distr. simpl. rewrite <- !app_assoc. reflexivity.
      * rewrite length_app. simpl. lia.
      * lia.
      * lia.
    + destruct M as [| x [| y M2]]; [reflexivity | reflexivity |].
      simpl in Hr. lia.
Qed.

(** The positions [i], [i + 1], [j] and the rest of a route. *)
Lemma route_split (route : list Z) (i j : nat) :
  (i + 2 <= j)%nat -> (j < length route)%nat ->
  exists P0 ra rb M0 rc S,
    route = P0 ++ ra :: rb :: M0 ++ rc :: S /\
    length P0 = i /\ length M0 = (j - i - 2)%nat.
Proof.
  intros Hij Hj.
  assert (E1 : route = firstn i route ++ skipn i route) by (symmetry; apply firstn_skipn).
  destruct (skipn i route) as [| ra R1] eqn:ER1.
  { assert (length (skipn i route) = 0%nat) by now rewrite ER1.
    rewrite length_skipn in H. lia. }
  assert (L1 : length (ra :: R1) = (length route - i)%nat)
    by (rewrite <- ER1; apply length_skipn).
  destruct R1 as [| rb R2]; [simpl in L1; lia |].
  assert (E2 : R2 = firstn (j - i - 2) R2 ++ skipn (j - i - 2) R2)
    by (symmetry; apply firstn_skipn).
  destruct (skipn (j - i - 2) R2) as [| rc S] eqn:ER3.
  { assert (length (skipn (j - i - 2) R2) = 0%nat) by now rewrite ER3.
    rewrite length_skipn in H. simpl in L1. lia. }
  exists (firstn i route), ra, rb, (firstn (j - i - 2) R2), rc, S.
  split; [| split].
  - rewrite <- E2. exact E1.
  - rewrite length_firstn. lia.
  - rewrite length_firstn. simpl in L1.
    assert (length R2 = (length route - i - 2)%nat) by lia. lia.
Qed.

Lemma reverse_segment_spec (P0 M0 S : list Z) (ra rb rc : Z) :
  reverse_segment (P0 ++ ra :: rb :: M0 ++ rc :: S)
                  (length P0) (length P0 + length M0 + 2) =
  (P0 ++ [ra]) ++ rev (rb :: M0 ++ [rc]) ++ S.
Proof.
  unfold reverse_segment.
  replace (P0 ++ ra :: rb :: M0 ++ rc :: S)
    with ((P0 ++ [ra]) ++ (rb :: M0 ++ [rc]) ++ S)
    by (rewrite <- !app_assoc; simpl; rewrite <- app_assoc; reflexivity).
  apply reverse_loop_spec.
  - rewrite length_app. simpl. lia.
  - simpl. rewrite length_app. simpl. lia.
  - simpl. rewrite length_app. simpl. lia.
Qed.

Lemma sum_app (l m : list R) :
  fold_right Rplus 0 (l ++ m) = fold_right Rplus 0 l + fold_right Rplus 0 m.
Proof. induction l as [| z l IH]; simpl; [lra | rewrite IH; lra]. Qed.

Lemma path_app (l1 : list Stop) (y : Stop) (r : list Stop) :
  path (l1 ++ y :: r) = path (l1 ++ [y]) + path (y :: r).
Proof. unfold path. now rewrite consecutive_app, map_app, sum_app. Qed.

Lemma path_single (p : Stop) : path [p] = 0.
Proof. reflexivity. Qed.

Lemma path_pair (p q : Stop) : path [p; q] = to_R (dist p q).
Proof. unfold path. simpl. lra. Qed.

Lemma path_snoc (l : list Stop) (p q : Stop) :
  path (l ++ [p; q]) = path (l ++ [p]) + to_R (dist p q).
Proof. now rewrite path_app, path_pair. Qed.

Lemma sum_rev (rs : list R) : fold_right Rplus 0 (rev rs) = fold_right Rplus 0 rs.
Proof.
  induction rs as [| r rs IH]; [reflexivity |].
  simpl. rewrite sum_app, IH. simpl. lra.
Qed.

Lemma path_rev (l : list Stop) : path (rev l) = path l.
Proof. unfold path. now rewrite consecutive_rev, map_rev, sum_rev. Qed.

Lemma sum_numbers_path (xs : list Stop) :
  all_finite xs = true -> sum_numbers (consecutive xs) = Fin (path xs).
Proof.
  intros H. destruct (consecutive_finite xs H) as [rs [E _]].
  unfold path. rewrite E, sum_numbers_Fin, map_map. simpl. now rewrite map_id.
Qed.

(** The distance of a closed tour that is cut into a segment [S1] and the
    rest [W], as the sum of the two paths and of the two legs that join
    them. *)
Lemma tour_as_two_paths (S1' W' : list Stop) (first last_ x a : Stop) :
  all_finite ((S1' ++ [last_]) ++ (W' ++ [a])) = true ->
  hd first (S1' ++ [last_]) = first ->
  hd x (W' ++ [a]) = x ->
  calculateRouteDistance ((S1' ++ [last_]) ++ (W' ++ [a])) =
  Fin (path (S1' ++ [last_]) + to_R (dist last_ x) + path (W' ++ [a]) + to_R (dist a first)).
Proof.
  intros Hfin Hf Hx.
  rewrite calculateRouteDistance_cyclic
    by (rewrite !length_app; simpl; lia).
  assert (Hc : cyclic_legs ((S1' ++ [last_]) ++ W' ++ [a]) =
               consecutive (((S1' ++ [last_]) ++ W' ++ [a]) ++ [first])).
  { unfold cyclic_legs. destruct S1' as [| s S2]; simpl in *; now subst. }
  rewrite Hc, sum_numbers_path.
  - f_equal.
    assert (EW : W' ++ [a] = x :: tl (W' ++ [a])).
    { destruct W' as [| w W2]; simpl in *; now subst. }
    replace (((S1' ++ [last_]) ++ W' ++ [a]) ++ [first])
      with ((S1' ++ [last_]) ++ x :: (tl (W' ++ [a]) ++ [first])).
    2: { rewrite <- !app_assoc. simpl. f_equal. f_equal.
         change (x :: tl (W' ++ [a]) ++ [first]) with ((x :: tl (W' ++ [a])) ++ [first]).
         rewrite <- EW, <- app_assoc. reflexivity. }
    rewrite path_app.
    replace ((S1' ++ [last_]) ++ [x]) with (S1' ++ [last_; x])
      by (rewrite <- app_assoc; reflexivity).
    rewrite path_snoc.
    change (x :: tl (W' ++ [a]) ++ [first]) with ((x :: tl (W' ++ [a])) ++ [first]).
    rewrite <- EW.
    replace ((W' ++ [a]) ++ [first]) with (W' ++ [a; first])
      by (rewrite <- app_assoc; reflexivity).
    rewrite path_snoc. lra.
  - unfold all_finite in *. rewrite forallb_app, Hfin. simpl.
    rewrite andb_true_r.
    rewrite !forallb_app in Hfin. simpl in Hfin.
    destruct S1' as [| s S2]; simpl in *; subst.
    + now destruct (finite_stop first).
    + now destruct (finite_stop first).
Qed.

Lemma all_finite_app (xs ys : list Stop) :
  all_finite (xs ++ ys) = all_finite xs && all_finite ys.
Proof. apply forallb_app. Qed.

(** A 2-opt exchange that lowers the sum of the two exchanged legs lowers
    the distance of the tour by as much. *)
Lemma exchange_shortens (A0 S0 B : list Stop) (a b c x : Stop) :
  all_finite ((A0 ++ [a]) ++ (b :: S0 ++ [c]) ++ B) = true ->
  hd x (B ++ A0 ++ [a]) = x ->
  lt (add (dist a c) (dist b x)) (add (dist a b) (dist c x)) = true ->
  exists d d',
    calculateRouteDistance ((A0 ++ [a]) ++ (b :: S0 ++ [c]) ++ B) = Fin d /\
    calculateRouteDistance ((A0 ++ [a]) ++ rev (b :: S0 ++ [c]) ++ B) = Fin d' /\
    d' < d.
Proof.
  intros Hfin Hx Hlt.
  assert (Hparts : all_finite (A0 ++ [a]) = true /\ all_finite (b :: S0 ++ [c]) = true /\
                   all_finite B = true).
  { rewrite !all_finite_app in Hfin.
    apply andb_prop in Hfin as [H1 H2]. apply andb_prop in H2 as [H2 H3].
    rewrite all_finite_app. auto. }
  destruct Hparts as [HA [HS HB]].
  assert (Hrev : all_finite (rev (b :: S0 ++ [c])) = true).
  { apply (all_finite_perm _ (b :: S0 ++ [c])); [| exact HS].
    symmetry. apply Permutation_rev. }
  assert (Fa : finite_stop a = true).
  { apply (proj1 (all_finite_forall _) HA). apply in_or_app. right. now left. }
  assert (Fb : finite_stop b = true)
    by (apply (proj1 (all_finite_forall _) HS); now left).
  assert (Fc : finite_stop c = true).
  { apply (proj1 (all_finite_forall _) HS). right. apply in_or_app. right. now left. }
  assert (Fx : finite_stop x = true).
  { rewrite <- Hx. destruct B as [| y B']; simpl.
    - destruct A0 as [| y A']; simpl; [exact Fa |].
      apply (proj1 (all_finite_forall _) HA). now left.
    - apply (proj1 (all_finite_forall _) HB). now left. }
  destruct (dist_finite a c Fa Fc) as [dac [Eac _]].
  destruct (dist_finite b x Fb Fx) as [dbx [Ebx _]].
  destruct (dist_finite a b Fa Fb) as [dab [Eab _]].
  destruct (dist_finite c x Fc Fx) as [dcx [Ecx _]].
  rewrite Eac, Ebx, Eab, Ecx in Hlt. simpl in Hlt. apply Rltb_iff in Hlt.
  (* the tour, rotated to start with the segment *)
  rewrite (calculateRouteDistance_rotate ((b :: S0 ++ [c]) ++ B) (A0 ++ [a])).
  rewrite (calculateRouteDistance_rotate (rev (b :: S0 ++ [c]) ++ B) (A0 ++ [a])).
  replace (((b :: S0 ++ [c]) ++ B) ++ A0 ++ [a])
    with (((b :: S0) ++ [c]) ++ ((B ++ A0) ++ [a]))
    by (simpl; rewrite <- !app_assoc; reflexivity).
  replace ((rev (b :: S0 ++ [c]) ++ B) ++ A0 ++ [a])
    with (((c :: rev S0) ++ [b]) ++ ((B ++ A0) ++ [a])).
  2: { simpl. rewrite rev_app_distr. simpl. rewrite <- !app_assoc. reflexivity. }
  assert (Hx' : hd x ((B ++ A0) ++ [a]) = x) by (rewrite <- app_assoc; exact Hx).
  rewrite (tour_as_two_paths (b :: S0) (B ++ A0) b c x a); auto.
  2: { rewrite all_finite_app. apply andb_true_intro. split; [exact HS |].
       rewrite <- app_assoc, all_finite_app. apply andb_true_intro. split; auto. }
  rewrite (tour_as_two_paths (c :: rev S0) (B ++ A0) c b x a); auto.
  2: { rewrite all_finite_app. apply andb_true_intro. split.
       - replace ((c :: rev S0) ++ [b]) with (rev (b :: S0 ++ [c])); [exact Hrev |].
         simpl. rewrite rev_app_distr. reflexivity.
       - rewrite <- app_assoc, all_finite_app. apply andb_true_intro. split; auto. }
  eexists. eexists. split; [reflexivity |]. split; [reflexivity |].
  replace ((c :: rev S0) ++ [b]) with (rev ((b :: S0) ++ [c]))
    by (simpl; rewrite rev_app_distr; reflexivity).
  rewrite path_rev.
  rewrite (dist_sym b x) in Ebx. rewrite Ecx, Eab, Eac. simpl to_R.
  rewrite (dist_sym b x), Ebx. simpl to_R. lra.
Qed.

Lemma read_split_b (P0 M0 S : list Z) (ra rb rc : Z) :
  nth_error (P0 ++ ra :: rb :: M0 ++ rc :: S) (length P0 + 1) = Some rb.
Proof.
  replace (P0 ++ ra :: rb :: M0 ++ rc :: S) with ((P0 ++ [ra]) ++ rb :: M0 ++ rc :: S)
    by (rewrite <- app_assoc; reflexivity).
  replace (length P0 + 1)%nat with (length (P0 ++ [ra]))
    by (rewrite length_app; reflexivity).
  apply nth_error_middle.
Qed.

Lemma read_split_c (P0 M0 S : list Z) (ra rb rc : Z) :
  nth_error (P0 ++ ra :: rb :: M0 ++ rc :: S) (length P0 + length M0 + 2) = Some rc.
Proof.
  replace (P0 ++ ra :: rb :: M0 ++ rc :: S) with ((P0 ++ ra :: rb :: M0) ++ rc :: S)
    by (rewrite <- app_assoc; reflexivity).
  replace (length P0 + length M0 + 2)%nat with (length (P0 ++ ra :: rb :: M0))
    by (rewrite length_app; simpl; lia).
  apply nth_error_middle.
Qed.

Lemma nth_error_wrap (P0 M0 S : list Z) (ra rb rc : Z) :
  nth_error (P0 ++ ra :: rb :: M0 ++ rc :: S)
            ((length P0 + length M0 + 2 + 1)
               mod length (P0 ++ ra :: rb :: M0 ++ rc :: S)) =
  Some (hd ra (S ++ P0 ++ [ra])).
Proof.
  assert (L : length (P0 ++ ra :: rb :: M0 ++ rc :: S) =
              (length P0 + length M0 + 3 + length S)%nat).
  { rewrite length_app. simpl. rewrite length_app. simpl. lia. }
  rewrite L. destruct S as [| s S'].
  - simpl length. replace (length P0 + length M0 + 3 + 0)%nat
      with (length P0 + length M0 + 2 + 1)%nat by lia.
    rewrite Nat.Div0.mod_same. destruct P0; reflexivity.
  - rewrite Nat.mod_small by (simpl; lia).
    replace (P0 ++ ra :: rb :: M0 ++ rc :: s :: S')
      with ((P0 ++ ra :: rb :: M0 ++ [rc]) ++ s :: S')
      by (rewrite <- app_assoc; simpl; rewrite <- app_assoc; reflexivity).
    replace (length P0 + length M0 + 2 + 1)%nat
      with (length (P0 ++ ra :: rb :: M0 ++ [rc])).
    + rewrite nth_error_middle. reflexivity.
    + rewrite length_app. simpl. rewrite length_app. simpl. lia.
Qed.

(** One round of the inner loop of [twoOpt] keeps the working tour a
    permutation of the indices and does not lengthen it. *)
Lemma twoOpt_visit_descent (xs : list Stop) (i j : nat) (st : list Z * bool) :
  all_finite xs = true ->
  Permutation (fst st) (indices (length xs)) ->
  (i + 2 <= j)%nat -> (j < length xs)%nat ->
  exists st', twoOpt_visit xs i st j = Ok st' /\
              Permutation (fst st') (indices (length xs)) /\
              to_R (tour_distance xs (fst st')) <= to_R (tour_distance xs (fst st)).
Proof.
  intros Hfin P Hij Hj.
  assert (Hlen : length (fst st) = length xs)
    by (rewrite (Permutation_length P); apply length_indices).
  destruct (route_split (fst st) i j Hij) as [P0 [ra [rb [M0 [rc [S [E [L0 LM]]]]]]]];
    [lia |].
  assert (V := Forall_valid_perm _ _ P). rewrite E in V.
  assert (Va : valid (length xs) ra).
  { apply (proj1 (Forall_forall _ _) V). apply in_or_app. right. now left. }
  assert (Vb : valid (length xs) rb).
  { apply (proj1 (Forall_forall _ _) V). apply in_or_app. right. right. now left. }
  assert (Vc : valid (length xs) rc).
  { apply (proj1 (Forall_forall _ _) V). apply in_or_app. right. right. right.
    apply in_or_app. right. now left. }
  assert (Vd : valid (length xs) (hd ra (S ++ P0 ++ [ra]))).
  { apply (proj1 (Forall_forall _ _) V).
    destruct S as [| s S']; simpl.
    - destruct P0 as [| p P0']; simpl; [now left | now left].
    - apply in_or_app. right. right. right. apply in_or_app. right. right. now left. }
  assert (Ei : i = length P0) by lia.
  assert (Ej : j = (length P0 + length M0 + 2)%nat) by lia.
  unfold twoOpt_visit, read. rewrite E, Ei, Ej.
  rewrite nth_error_middle, read_split_b, read_split_c. cbn [bind].
  rewrite nth_error_wrap. cbn [bind].
  rewrite (stop_at_valid _ _ Va), (stop_at_valid _ _ Vb),
    (stop_at_valid _ _ Vc), (stop_at_valid _ _ Vd). cbn [bind].
  set (a := the_stop xs ra). set (b := the_stop xs rb). set (c := the_stop xs rc).
  set (x := the_stop xs (hd ra (S ++ P0 ++ [ra]))).
  destruct (lt (add (dist a c) (dist b x)) (add (dist a b) (dist c x))) eqn:Hlt.
  - eexists. split; [reflexivity |]. cbn [fst].
    split; [rewrite reverse_segment_perm, <- E; exact P |].
    rewrite reverse_segment_spec. unfold tour_distance.
    assert (ET : map (the_stop xs) (P0 ++ ra :: rb :: M0 ++ rc :: S) =
                 (map (the_stop xs) P0 ++ [a]) ++ (b :: map (the_stop xs) M0 ++ [c]) ++
                 map (the_stop xs) S).
    { rewrite !map_app. cbn [map]. rewrite map_app. cbn [map].
      rewrite <- !app_assoc. simpl. rewrite <- app_assoc. reflexivity. }
    assert (ET' : map (the_stop xs) ((P0 ++ [ra]) ++ rev (rb :: M0 ++ [rc]) ++ S) =
                  (map (the_stop xs) P0 ++ [a]) ++
                  rev (b :: map (the_stop xs) M0 ++ [c]) ++ map (the_stop xs) S).
    { rewrite !map_app, map_rev. cbn [map]. rewrite map_app. reflexivity. }
    rewrite ET, ET'.
    destruct (exchange_shortens (map (the_stop xs) P0) (map (the_stop xs) M0)
                (map (the_stop xs) S) a b c x) as [d [d' [E1 [E2 Hd]]]].
    + apply (all_finite_perm _ xs); [| exact Hfin].
      rewrite <- ET. apply map_stops_perm. rewrite <- E. exact P.
    + unfold x, a. destruct S as [| s S']; [destruct P0 |]; reflexivity.
    + exact Hlt.
    + rewrite E1, E2. simpl. lra.
  - exists st. split; [reflexivity |]. split; [exact P |]. rewrite E. lra.
Qed.

Lemma twoOpt_pass_descent (xs : list Stop) (route : list Z) :
  all_finite xs = true ->
  Permutation route (indices (length xs)) ->
  exists st', twoOpt_pass xs route = Ok st' /\
              Permutation (fst st') (indices (length xs)) /\
              to_R (tour_distance xs (fst st')) <= to_R (tour_distance xs route).
Proof.
  intros Hfin P. unfold twoOpt_pass.
  assert (Hlen : length route = length xs)
    by (rewrite (Permutation_length P); apply length_indices).
  set (Inv := fun st : list Z * bool =>
                Permutation (fst st) (indices (length xs)) /\
                to_R (tour_distance xs (fst st)) <= to_R (tour_distance xs route)).
  destruct (for_each_inv Inv (seq 0 (length route - 2)) (twoOpt_inner xs) (route, false))
    as [st' [E [P' D']]].
  - intros st1 i Hi [P1 D1]. apply in_seq in Hi. unfold twoOpt_inner.
    assert (Hlen1 : length (fst st1) = length xs)
      by (rewrite (Permutation_length P1); apply length_indices).
    apply for_each_inv; [| split; assumption].
    intros st2 j Hj [P2 D2]. apply in_seq in Hj.
    destruct (twoOpt_visit_descent xs i j st2 Hfin P2) as [st3 [E3 [P3 D3]]]; try lia.
    exists st3. split; [exact E3 |]. split; [exact P3 | lra].
  - split; [exact P | simpl; lra].
  - exists st'. auto.
Qed.

Lemma twoOpt_while_descent (xs : list Stop) (remaining : nat) (route : list Z)
    (improved : bool) :
  all_finite xs = true ->
  Permutation route (indices (length xs)) ->
  exists route', twoOpt_while remaining xs route improved = Ok route' /\
                 Permutation route' (indices (length xs)) /\
                 to_R (tour_distance xs route') <= to_R (tour_distance xs route).
Proof.
  intros Hfin. revert route improved.
  induction remaining as [| k IH]; intros route improved P; simpl.
  - exists route. split; [reflexivity |]. split; [exact P | lra].
  - destruct improved; [| exists route; split; [reflexivity |]; split; [exact P | lra]].
    destruct (twoOpt_pass_descent xs route Hfin P) as [st [-> [P1 D1]]]. cbn [bind].
    destruct (IH (fst st) (snd st) P1) as [route' [E [P2 D2]]].
    exists route'. split; [exact E |]. split; [exact P2 | lra].
Qed.

(** What the loop of [twoOpt] guarantees: with 4 stops or more the tour
    it returns is not longer than the tour in the input order, the tour
    the loop starts from. *)
Lemma twoOpt_not_longer_than_input (xs : list Stop) (maxIterations : nat) :
  all_finite xs = true -> (4 <= length xs)%nat ->
  exists r d d0,
    twoOpt xs maxIterations = Ok r /\
    distance r = Fin d /\ calculateRouteDistance xs = Fin d0 /\ d <= d0.
Proof.
  intros Hfin Hlen. unfold twoOpt.
  destruct (Nat.ltb_spec (length xs) 4); [lia |].
  destruct (nearestNeighbor_ok xs Hfin) as [nn [-> [P _]]]. cbn [bind].
  rewrite (Permutation_length P).
  destruct (twoOpt_while_descent xs maxIterations (indices (length xs)) true Hfin)
    as [route' [-> [P' D']]]; [reflexivity |]. cbn [bind].
  destruct (map_stops_perm xs route' P') as [-> P2]. cbn [bind].
  unfold tour_distance in D'. rewrite map_the_stop_indices in D'.
  assert (F' : all_finite (map (the_stop xs) route') = true)
    by now apply (all_finite_perm _ xs).
  destruct (calculateRouteDistance_finite _ F') as [d [Ed _]].
  destruct (calculateRouteDistance_finite _ Hfin) as [d0 [Ed0 _]].
  rewrite Ed, Ed0 in D'. simpl in D'.
  eexists. exists d, d0. split; [reflexivity |]. simpl. auto.
Qed.
End TwoOptDescent.

(** ** Coordinates that are not finite *)

Section NonFinite.

Lemma sub_nonfinite_l (x y : number) : finite x = false -> finite (sub x y) = false.
Proof. destruct x as [| s | a], y as [| t | b]; simpl; try reflexivity; try discriminate.
  destruct s, t; reflexivity. Qed.

Lemma sub_nonfinite_r (x y : number) : finite y = false -> finite (sub x y) = false.
Proof. destruct x as [| s | a], y as [| t | b]; simpl; try reflexivity; try discriminate.
  destruct s, t; reflexivity. Qed.

Lemma mul_PI_nonfinite (x : number) : finite x = false -> finite (mul x Math_PI) = false.
Proof.
  destruct x as [| s | a]; simpl; try reflexivity; try discriminate.
  intros _. rewrite Reqb_false; [reflexivity |]. pose proof PI_RGT_0. lra.
Qed.

Lemma div_nonfinite (x : number) (b : R) : finite x = false -> finite (div x (Fin b)) = false.
Proof. destruct x as [| s | a]; simpl; try reflexivity; discriminate. Qed.

Lemma sin_nonfinite (x : number) : finite x = false -> Math_sin x = NaN.
Proof. destruct x; simpl; try reflexivity; discriminate. Qed.

Lemma cos_nonfinite (x : number) : finite x = false -> Math_cos x = NaN.
Proof. destruct x; simpl; try reflexivity; discriminate. Qed.

Lemma mul_NaN_r (x : number) : mul x NaN = NaN.
Proof. destruct x; reflexivity. Qed.

Lemma add_NaN_r (x : number) : add x NaN = NaN.
Proof. destruct x; reflexivity. Qed.

Lemma distance_of_NaN (x : number) :
  mul (Fin 6371) (mul (Fin 2) (Math_atan2 (Math_sqrt NaN) x)) = NaN.
Proof. reflexivity. Qed.

Lemma calculateDistance_nonfinite (lat1 lng1 lat2 lng2 : number) :
  finite lat1 && finite lng1 && finite lat2 && finite lng2 = false ->
  calculateDistance lat1 lng1 lat2 lng2 = NaN.
Proof.
  intros H. unfold calculateDistance. cbv zeta.
  match goal with
  | |- mul _ (mul _ (Math_atan2 (Math_sqrt ?a) _)) = _ =>
      assert (Ea : a = NaN); [| rewrite Ea; reflexivity]
  end.
  destruct (finite lat1) eqn:F1; [destruct (finite lng1) eqn:F2;
    [destruct (finite lat2) eqn:F3; [destruct (finite lng2) eqn:F4; [discriminate |] |] |] |].
  - rewrite (sin_nonfinite (div (div (mul (sub lng2 lng1) Math_PI) (Fin 180)) (Fin 2))).
    + now rewrite !mul_NaN_r, add_NaN_r.
    + now apply div_nonfinite, div_nonfinite, mul_PI_nonfinite, sub_nonfinite_l.
  - rewrite (cos_nonfinite (div (mul lat2 Math_PI) (Fin 180))).
    + now rewrite !mul_NaN_r, add_NaN_r.
    + now apply div_nonfinite, mul_PI_nonfinite.
  - rewrite (sin_nonfinite (div (div (mul (sub lng2 lng1) Math_PI) (Fin 180)) (Fin 2))).
    + now rewrite !mul_NaN_r, add_NaN_r.
    + now apply div_nonfinite, div_nonfinite, mul_PI_nonfinite, sub_nonfinite_r.
  - rewrite (cos_nonfinite (div (mul lat1 Math_PI) (Fin 180))).
    + cbn [mul]. now rewrite add_NaN_r.
    + now apply div_nonfinite, mul_PI_nonfinite.
Qed.

Lemma dist_nonfinite (p q : Stop) :
  finite_stop p = false \/ finite_stop q = false -> dist p q = NaN.
Proof.
  intros H. apply calculateDistance_nonfinite. unfold finite_stop in H.
  destruct H as [H | H].
  - rewrite H. reflexivity.
  - rewrite <- andb_assoc, H. apply andb_false_r.
Qed.

End NonFinite.

(** ** Nearest neighbour on coordinates that are not finite *)

Section NearestNeighborMore.

(** The scan without any assumption on the distances: the pair it ends on
    is the start value or a candidate whose distance is a number. *)
Lemma nn_pick_origin (d : Z -> number) (l : list Z) (n0 : Z) (m0 : number) :
  nn_pick d l (n0, m0) = (n0, m0) \/
  (In (fst (nn_pick d l (n0, m0))) l /\ d (fst (nn_pick d l (n0, m0))) <> NaN).
Proof.
  revert n0 m0. induction l as [| x l' IH]; intros n0 m0.
  - now left.
  - rewrite nn_pick_cons. cbn [snd].
    destruct (lt (d x) m0) eqn:E.
    + right. destruct (IH x (d x)) as [-> | [Hin Hd]].
      * cbn [fst]. split; [now left |]. intros En. rewrite En in E. discriminate.
      * split; [now right | exact Hd].
    + destruct (IH n0 m0) as [-> | [Hin Hd]]; [now left |].
      right. split; [now right | exact Hd].
Qed.

Lemma exists_nonfinite (xs : list Stop) :
  all_finite xs = false ->
  exists i, valid (length xs) i /\ finite_stop (the_stop xs i) = false.
Proof.
  induction xs as [| s xs IH]; [discriminate |].
  unfold all_finite. cbn [forallb]. intros H.
  destruct (finite_stop s) eqn:F.
  - destruct (IH H) as [i [[V0 V1] Hi]]. exists (i + 1)%Z. split.
    + unfold valid. cbn [length]. lia.
    + unfold the_stop in *. replace (Z.to_nat (i + 1)) with (S (Z.to_nat i)) by lia.
      exact Hi.
  - exists 0%Z. split; [unfold valid; cbn [length]; lia | exact F].
Qed.

Lemma nn_loop_nonfinite (xs : list Stop) (fuel : nat) (route unvisited : list Z) :
  length unvisited < fuel ->
  valid (length xs) (last route 0%Z) ->
  Forall (valid (length xs)) unvisited ->
  unvisited <> [] ->
  finite_stop (the_stop xs (last route 0%Z)) = false \/
    (exists u, In u unvisited /\ finite_stop (the_stop xs u) = false) ->
  nn_loop fuel xs route unvisited = TypeError.
Proof.
  revert route unvisited.
  induction fuel as [| fuel IH]; intros route unvisited Hlen Hcur Vu Hne Hbad; [lia |].
  destruct unvisited as [| u us]; [congruence |].
  rewrite nn_loop_step.
  remember (u :: us) as unvisited eqn:Eu.
  rewrite (nn_scan_pure _ _ _ _ Hcur Vu). cbn [bind].
  set (d := fun idx => dist (the_stop xs (last route 0%Z)) (the_stop xs idx)).
  destruct (nn_pick_origin d unvisited (-1)%Z Infinity) as [-> | [Hin Hd]].
  - cbn [fst]. rewrite notin_remove.
    + destruct fuel as [| fuel]; [rewrite Eu in Hlen; simpl in Hlen; lia |].
      rewrite Eu, nn_loop_step, last_last. reflexivity.
    + intros Hin. apply (proj1 (Forall_forall _ _) Vu) in Hin. unfold valid in Hin. lia.
  - set (n := fst (nn_pick d unvisited ((-1)%Z, Infinity))) in *.
    assert (Hgood : finite_stop (the_stop xs (last route 0%Z)) = true /\
                    finite_stop (the_stop xs n) = true).
    { split.
      - destruct (finite_stop (the_stop xs (last route 0%Z))) eqn:F; [reflexivity |].
        exfalso. apply Hd. apply dist_nonfinite. now left.
      - destruct (finite_stop (the_stop xs n)) eqn:F; [reflexivity |].
        exfalso. apply Hd. apply dist_nonfinite. now right. }
    destruct Hgood as [Gc Gn].
    destruct Hbad as [Hbad | [b [Hb Fb]]]; [congruence |].
    assert (Hbn : b <> n) by (intros ->; congruence).
    assert (Hb' : In b (remove Z.eq_dec n unvisited)) by (apply in_in_remove; auto).
    apply IH.
    + pose proof (remove_length_lt Z.eq_dec unvisited n Hin). lia.
    + rewrite last_last. apply (proj1 (Forall_forall _ _) Vu). exact Hin.
    + apply Forall_forall. intros y Hy. apply in_remove in Hy as [Hy _].
      apply (proj1 (Forall_forall _ _) Vu). exact Hy.
    + intros E. rewrite E in Hb'. destruct Hb'.
    + right. exists b. split; assumption.
Qed.

Lemma nearestNeighbor_nonfinite (xs : list Stop) :
  2 <= length xs -> all_finite xs = false -> nearestNeighbor xs = TypeError.
Proof.
  intros Hlen Hbad. unfold nearestNeighbor.
  destruct (Nat.ltb_spec (length xs) 2) as [Hlt | _]; [lia |].
  rewrite nn_loop_nonfinite; [reflexivity | | | | |].
  - assert (H0 : In 0%Z (indices (length xs))) by (apply In_indices; unfold valid; lia).
    pose proof (remove_length_lt Z.eq_dec _ _ H0) as L. rewrite length_indices in L. lia.
  - cbn [last]. unfold valid. lia.
  - apply Forall_forall. intros y Hy. apply in_remove in Hy as [Hy _].
    now apply In_indices.
  - assert (H1 : In 1%Z (remove Z.eq_dec 0%Z (indices (length xs)))).
    { apply in_in_remove; [lia |]. apply In_indices. unfold valid. lia. }
    intros E. rewrite E in H1. destruct H1.
  - destruct (exists_nonfinite xs Hbad) as [i [Vi Fi]]. cbn [last].
    destruct (Z.eq_dec i 0) as [-> | Hi]; [now left |].
    right. exists i. split; [| exact Fi].
    apply in_in_remove; [exact Hi |]. now apply In_indices.
Qed.

End NearestNeighborMore.

(** ** The genetic search on coordinates that are not finite *)

Section NonFiniteTours.

Variable rnd : RandomSource.

Lemma in_nonfinite (l : list Stop) :
  all_finite l = false -> exists l1 s l2, l = l1 ++ s :: l2 /\ finite_stop s = false.
Proof.
  induction l as [| p l IH]; [discriminate |].
  unfold all_finite. cbn [forallb]. intros H.
  destruct (finite_stop p) eqn:F.
  - destruct (IH H) as [l1 [s [l2 [-> Fs]]]]. now exists (p :: l1), s, l2.
  - now exists [], p, l.
Qed.

Lemma add_NaN_l (x : number) : add NaN x = NaN.
Proof. reflexivity. Qed.

Lemma calculateRouteDistance_nonfinite (l : list Stop) :
  2 <= length l -> all_finite l = false -> calculateRouteDistance l = NaN.
Proof.
  intros Hlen Hbad. destruct (in_nonfinite l Hbad) as [l1 [s [l2 [-> Fs]]]].
  rewrite <- calculateRouteDistance_rotate.
  rewrite calculateRouteDistance_cyclic
    by (rewrite !length_app in *; cbn [length] in *; lia).
  assert (exists q rest, ((s :: l2) ++ l1) ++ [s] = s :: q :: rest) as [q [rest E]].
  { destruct l2 as [| q l2]; cbn [app].
    - destruct l1 as [| q l1]; [cbn [length app] in Hlen; lia |]. now exists q, (l1 ++ [s]).
    - now exists q, ((l2 ++ l1) ++ [s]). }
  unfold cyclic_legs. cbn [app]. cbn [app] in E. rewrite E.
  cbn [consecutive]. rewrite sum_numbers_cons.
  rewrite (dist_nonfinite s q) by now left. reflexivity.
Qed.

Lemma fold_min2_NaN (l : list number) : fold_left min2 l NaN = NaN.
Proof. induction l as [| x l IH]; [reflexivity | exact IH]. Qed.

Lemma min2_NaN_r (x : number) : min2 x NaN = NaN.
Proof. destruct x; reflexivity. Qed.

Lemma indexOf_from_NaN (l : list number) (p : nat) : indexOf_from l NaN p = (-1)%Z.
Proof.
  revert p. induction l as [| x l IH]; intros p; [reflexivity |].
  cbn [indexOf_from]. replace (eqb x NaN) with false by (destruct x; reflexivity).
  apply IH.
Qed.

Lemma tour_distance_nonfinite (xs : list Stop) (route : list Z) :
  2 <= length xs -> all_finite xs = false -> chromosome (length xs) route ->
  tour_distance xs route = NaN.
Proof.
  intros Hlen Hbad Hc. unfold tour_distance.
  destruct (map_stops_perm xs route Hc) as [_ P].
  apply calculateRouteDistance_nonfinite.
  - now rewrite (Permutation_length P).
  - destruct (all_finite (map (the_stop xs) route)) eqn:F; [| reflexivity].
    rewrite (all_finite_perm _ _ (Permutation_sym P) F) in Hbad. discriminate.
Qed.

Lemma best_solution_nonfinite (xs : list Stop) (population : list (list Z)) :
  2 <= length xs -> all_finite xs = false ->
  Forall (chromosome (length xs)) population ->
  best_solution xs population = TypeError.
Proof.
  intros Hlen Hbad Hc. unfold best_solution.
  rewrite (mapM_ok (route_distance xs) (fun _ => NaN)).
  - cbn [bind].
    assert (E : Math_min (map (fun _ : list Z => NaN) population) = NaN \/
                map (fun _ : list Z => NaN) population = []).
    { destruct population as [| c cs]; [now right | left].
      unfold Math_min. cbn [map fold_left]. apply fold_min2_NaN. }
    destruct E as [-> | ->].
    + unfold indexOf. rewrite indexOf_from_NaN. reflexivity.
    + reflexivity.
  - apply Forall_forall. intros c Hin.
    pose proof (proj1 (Forall_forall _ _) Hc c Hin) as Cc.
    rewrite route_distance_chromosome by exact Cc.
    fold (tour_distance xs c). now rewrite tour_distance_nonfinite.
Qed.

Lemma geneticAlgorithm_nonfinite (xs : list Stop) (populationSize generations k : nat) :
  2 <= length xs -> all_finite xs = false ->
  geneticAlgorithm rnd xs populationSize generations k = TypeError.
Proof.
  intros Hlen Hbad.
  destruct (Nat.lt_ge_cases (length xs) 4) as [Hlt | Hge].
  - rewrite geneticAlgorithm_small by exact Hlt. unfold lift.
    now rewrite nearestNeighbor_nonfinite.
  - rewrite geneticAlgorithm_large by exact Hge. unfold bindR.
    destruct (initial_population_ok rnd (length xs) populationSize k)
      as [population [k' [-> [L F]]]].
    destruct populationSize as [| p].
    + destruct population; [| discriminate]. rewrite evolve_empty. reflexivity.
    + rewrite <- L.
      destruct (evolve_ok rnd xs generations population) with (k := k')
        as [population' [k'' [-> [_ F']]]]; [lia | lia | exact F |].
      unfold lift. now rewrite best_solution_nonfinite.
Qed.

End NonFiniteTours.

(** ** What the algorithms return, when they return *)

Section Returned.

Variable rnd : RandomSource.

Lemma nearby_finite (xs : list Stop) : nearby xs -> all_finite xs = true.
Proof.
  intros [H _]. apply all_finite_forall. intros s Hs.
  rewrite Forall_forall in H. destruct (H s Hs) as [la [lo [E1 [E2 _]]]].
  unfold finite_stop. now rewrite E1, E2.
Qed.

(** The distance of two stops that are near one another comes from a
    haversine term of at most 3/4. *)
Lemma nearby_distance (xs : list Stop) (p q : Stop) :
  nearby xs -> In p xs -> In q xs ->
  exists a, (0 <= a <= 3 / 4)%R /\
            dist p q = Fin (6371 * (2 * Ratan2 (sqrt a) (sqrt (1 + - a)))).
Proof.
  intros [Hr Hn] Hp Hq. rewrite Forall_forall in Hr.
  destruct (Hr p Hp) as [la1 [lo1 [E1 [E2 _]]]].
  destruct (Hr q Hq) as [la2 [lo2 [E3 [E4 _]]]].
  destruct (Hn p q Hp Hq) as [Hla Hlo]. rewrite E1, E2, E3, E4 in *. cbn [to_R] in *.
  exists (hav la1 lo1 la2 lo2). split.
  - split; [apply hav_range | now apply hav_quarter].
  - unfold dist. rewrite E1, E2, E3, E4. apply calculateDistance_Fin.
Qed.

Lemma twoOpt_nonfinite (xs : list Stop) (maxIterations : nat) :
  2 <= length xs -> all_finite xs = false -> twoOpt xs maxIterations = TypeError.
Proof.
  intros Hlen Hbad. unfold twoOpt.
  rewrite (nearestNeighbor_nonfinite xs Hlen Hbad).
  destruct (length xs <? 4); reflexivity.
Qed.

Lemma nearestNeighbor_short (xs : list Stop) :
  length xs < 2 ->
  nearestNeighbor xs = Ok {| stops := xs; distance := Fin 0; improvement := Fin 0 |}.
Proof.
  intros H. unfold nearestNeighbor.
  destruct (Nat.ltb_spec (length xs) 2); [reflexivity | lia].
Qed.

Lemma twoOpt_small (xs : list Stop) (maxIterations : nat) :
  length xs < 4 -> twoOpt xs maxIterations = nearestNeighbor xs.
Proof.
  intros H. unfold twoOpt. destruct (Nat.ltb_spec (length xs) 4); [reflexivity | lia].
Qed.

(** What [nearestNeighbor] returns, when it returns. *)
Lemma nearestNeighbor_returned (xs : list Stop) (r : OptimizationResult) :
  nearestNeighbor xs = Ok r ->
  Permutation (stops r) xs /\
  distance r = calculateRouteDistance (stops r) /\
  improvement r = Fin 0.
Proof.
  intros E. destruct (all_finite xs) eqn:Hfin.
  - destruct (nearestNeighbor_ok xs Hfin) as [r' [E' H]].
    rewrite E in E'. injection E' as <-. exact H.
  - destruct (Nat.ltb_spec (length xs) 2) as [Hs | Hl].
    + rewrite (nearestNeighbor_short xs Hs) in E. injection E as <-. cbn.
      now rewrite calculateRouteDistance_short.
    + rewrite nearestNeighbor_nonfinite in E by assumption. discriminate.
Qed.

(** [twoOpt] returns exactly when [nearestNeighbor] does. *)
Lemma twoOpt_returned (xs : list Stop) (maxIterations : nat) (r : OptimizationResult) :
  twoOpt xs maxIterations = Ok r ->
  exists nn, nearestNeighbor xs = Ok nn /\
             Permutation (stops r) xs /\
             distance r = calculateRouteDistance (stops r) /\
             (length xs < 4 -> r = nn) /\
             (4 <= length xs ->
              improvement r =
              mul (div (sub (distance nn) (distance r)) (distance nn)) (Fin 100)).
Proof.
  intros E. destruct (all_finite xs) eqn:Hfin.
  - destruct (twoOpt_ok xs maxIterations Hfin) as [r' [nn [E' H]]].
    rewrite E in E'. injection E' as <-. now exists nn.
  - destruct (Nat.ltb_spec (length xs) 2) as [Hs | Hl].
    + rewrite twoOpt_small in E by lia. exists r. split; [exact E |].
      destruct (nearestNeighbor_returned xs r E) as [P [D _]].
      repeat split; auto. lia.
    + rewrite twoOpt_nonfinite in E by assumption. discriminate.
Qed.

Lemma twoOpt_total (xs : list Stop) (maxIterations : nat) :
  twoOpt xs maxIterations <> Diverges.
Proof.
  destruct (all_finite xs) eqn:Hfin.
  - destruct (twoOpt_ok xs maxIterations Hfin) as [r [nn [-> _]]]. discriminate.
  - destruct (Nat.ltb_spec (length xs) 2) as [Hs | Hl].
    + rewrite twoOpt_small by lia. apply nearestNeighbor_total.
    + rewrite twoOpt_nonfinite by assumption. discriminate.
Qed.

(** What [geneticAlgorithm] returns, when it returns. *)
Lemma geneticAlgorithm_returned (xs : list Stop) (populationSize generations k k' : nat)
    (r : OptimizationResult) :
  geneticAlgorithm rnd xs populationSize generations k = Ok (r, k') ->
  Permutation (stops r) xs /\
  distance r = calculateRouteDistance (stops r) /\
  exists nn, nearestNeighbor xs = Ok nn /\
             (length xs < 4 -> r = nn) /\
             (4 <= length xs ->
              improvement r =
              mul (div (sub (distance nn) (distance r)) (distance nn)) (Fin 100)).
Proof.
  intros E.
  assert (Small : length xs < 4 ->
                  Permutation (stops r) xs /\
                  distance r = calculateRouteDistance (stops r) /\
                  exists nn, nearestNeighbor xs = Ok nn /\
                             (length xs < 4 -> r = nn) /\
                             (4 <= length xs ->
                              improvement r =
                              mul (div (sub (distance nn) (distance r)) (distance nn))
                                  (Fin 100))).
  { intros Hs. rewrite geneticAlgorithm_small in E by exact Hs. unfold lift in E.
    destruct (nearestNeighbor xs) as [nn | |] eqn:En; try discriminate.
    injection E as <- <-.
    destruct (nearestNeighbor_returned xs nn En) as [P [D _]].
    split; [exact P |]. split; [exact D |]. exists nn. repeat split; auto. lia. }
  destruct (Nat.ltb_spec (length xs) 4) as [Hs | Hl]; [now apply Small |].
  destruct (all_finite xs) eqn:Hfin.
  - destruct populationSize as [| p].
    + rewrite geneticAlgorithm_empty_population in E by exact Hl. discriminate.
    + destruct (geneticAlgorithm_ok rnd xs (S p) generations Hfin (Nat.lt_0_succ p) k)
        as [r' [k'' [E' H]]].
      rewrite E in E'. injection E' as <- <-. exact H.
  - rewrite geneticAlgorithm_nonfinite in E by (assumption || lia). discriminate.
Qed.

Lemma geneticAlgorithm_total (xs : list Stop) (populationSize generations k : nat) :
  geneticAlgorithm rnd xs populationSize generations k <> Diverges.
Proof.
  destruct (Nat.ltb_spec (length xs) 4) as [Hs | Hl].
  - rewrite geneticAlgorithm_small by exact Hs. unfold lift.
    pose proof (nearestNeighbor_total xs).
    destruct (nearestNeighbor xs); congruence.
  - destruct (all_finite xs) eqn:Hfin.
    + destruct populationSize as [| p].
      * rewrite geneticAlgorithm_empty_population by exact Hl. discriminate.
      * destruct (geneticAlgorithm_ok rnd xs (S p) generations Hfin (Nat.lt_0_succ p) k)
          as [r' [k'' [-> _]]]. discriminate.
    + rewrite geneticAlgorithm_nonfinite by (assumption || lia). discriminate.
Qed.

(** The three runs behind a result of [compareAlgorithms]. *)
Lemma compareAlgorithms_returned (xs : list Stop) (k k' : nat)
    (results : list OptimizationResult) :
  compareAlgorithms rnd xs k = Ok (results, k') ->
  exists nn opt2 ga,
    nearestNeighbor xs = Ok nn /\
    twoOpt xs 100 = Ok opt2 /\
    geneticAlgorithm rnd xs 50 100 k = Ok (ga, k') /\
    results = Array_sort by_distance [opt2; ga; nn].
Proof.
  unfold compareAlgorithms, bindR, lift, ret. intros E.
  destruct (nearestNeighbor xs) as [nn | |]; try discriminate.
  destruct (twoOpt xs 100) as [opt2 | |]; try discriminate.
  destruct (geneticAlgorithm rnd xs 50 100 k) as [[ga k1] | |]; try discriminate.
  injection E as <- <-. now exists nn, opt2, ga.
Qed.

Lemma compareAlgorithms_total (xs : list Stop) (k : nat) :
  compareAlgorithms rnd xs k <> Diverges.
Proof.
  unfold compareAlgorithms, bindR, lift, ret.
  pose proof (nearestNeighbor_total xs) as H1.
  pose proof (twoOpt_total xs 100) as H2.
  pose proof (geneticAlgorithm_total xs 50 100 k) as H3.
  destruct (nearestNeighbor xs); try congruence.
  destruct (twoOpt xs 100); try congruence.
  destruct (geneticAlgorithm rnd xs 50 100 k) as [[ga k1] | |]; congruence.
Qed.

(** [sort] keeps the elements, whatever the comparator answers. *)
Lemma sort_insert_perm {A : Type} (cmp : A -> A -> number) (x : A) (sorted : list A) :
  Permutation (sort_insert cmp x sorted) (x :: sorted).
Proof.
  induction sorted as [| y rest IH]; cbn [sort_insert]; [reflexivity |].
  destruct (gt (cmp y x) (Fin 0)); [reflexivity |].
  rewrite IH. apply perm_swap.
Qed.

Lemma Array_sort_perm {A : Type} (cmp : A -> A -> number) (xs : list A) :
  Permutation (Array_sort cmp xs) xs.
Proof.
  unfold Array_sort.
  assert (G : forall acc, Permutation (fold_left (fun sorted x => sort_insert cmp x sorted) xs acc)
                                      (acc ++ xs)).
  { induction xs as [| x rest IH]; intros acc; simpl.
    - now rewrite app_nil_r.
    - rewrite IH, sort_insert_perm. now rewrite <- Permutation_middle. }
  apply (G []).
Qed.

End Returned.

(** * The claims of the specification *)

Section Claims.

Variable rnd : RandomSource.

Lemma same_points_of_perm (tour input : list Stop) :
  Permutation tour input -> same_points tour input.
Proof.
  intros P. split; [exact P |]. split; [now apply Permutation_length |].
  now apply Permutation_map.
Qed.

(** C1.  Every tour that [nearestNeighbor], [twoOpt], [geneticAlgorithm]
    or [compareAlgorithms] returns is a permutation of the input: same
    length, same stops, same identifiers, each once.  No call runs for
    ever; they all return on stops of the globe that are near one another
    when the population is not empty. *)
Theorem tours_are_permutations (xs : list Stop)
    (maxIterations populationSize generations k : nat) :
  (forall r, nearestNeighbor xs = Ok r -> same_points (stops r) xs) /\
  (forall r, twoOpt xs maxIterations = Ok r -> same_points (stops r) xs) /\
  (forall r k', geneticAlgorithm rnd xs populationSize generations k = Ok (r, k') ->
                same_points (stops r) xs) /\
  (forall results k', compareAlgorithms rnd xs k = Ok (results, k') ->
                      Forall (fun r => same_points (stops r) xs) results) /\
  (nearestNeighbor xs <> Diverges /\
   twoOpt xs maxIterations <> Diverges /\
   geneticAlgorithm rnd xs populationSize generations k <> Diverges /\
   compareAlgorithms rnd xs k <> Diverges) /\
  (nearby xs -> 0 < populationSize ->
   (exists r, nearestNeighbor xs = Ok r) /\
   (exists r, twoOpt xs maxIterations = Ok r) /\
   (exists r k', geneticAlgorithm rnd xs populationSize generations k = Ok (r, k')) /\
   (exists results k', compareAlgorithms rnd xs k = Ok (results, k'))).
Proof.
  split; [| split; [| split; [| split; [| split]]]].
  - intros r E. apply same_points_of_perm. now apply nearestNeighbor_returned.
  - intros r E. apply same_points_of_perm.
    now destruct (twoOpt_returned xs maxIterations r E) as [nn [_ [P _]]].
  - intros r k' E. apply same_points_of_perm.
    now destruct (geneticAlgorithm_returned rnd xs _ _ _ _ r E) as [P _].
  - intros results k' E.
    destruct (compareAlgorithms_returned rnd xs k k' results E)
      as [nn [opt2 [ga [E1 [E2 [E3 ->]]]]]].
    apply Forall_forall. intros r Hr.
    apply (Permutation_in _ (Array_sort_perm by_distance _)) in Hr.
    apply same_points_of_perm.
    destruct Hr as [<- | [<- | [<- | []]]].
    + now destruct (twoOpt_returned xs 100 _ E2) as [nn' [_ [P _]]].
    + now destruct (geneticAlgorithm_returned rnd xs _ _ _ _ _ E3) as [P _].
    + now apply nearestNeighbor_returned.
  - split; [apply nearestNeighbor_total |]. split; [apply twoOpt_total |].
    split; [apply geneticAlgorithm_total | apply compareAlgorithms_total].
  - intros Hd Hp. pose proof (nearby_finite xs Hd) as Hfin.
    split; [| split; [| split]].
    + destruct (nearestNeighbor_ok xs Hfin) as [r [E _]]. now exists r.
    + destruct (twoOpt_ok xs maxIterations Hfin) as [r [nn [E _]]]. now exists r.
    + destruct (geneticAlgorithm_ok rnd xs populationSize generations Hfin Hp k)
        as [r [k' [E _]]]. now exists r, k'.
    + destruct (compareAlgorithms_ok rnd xs k Hfin)
        as [nn [opt2 [ga [k' [results [_ [_ [_ [E _]]]]]]]]].
      now exists results, k'.
Qed.

(** C3.  What [compareAlgorithms] returns is a list of exactly three
    results, those of [twoOpt], [geneticAlgorithm] and [nearestNeighbor],
    in ascending order of distance when the three distances are numbers.
    The call never runs for ever, and it returns such a list on stops of
    the globe that are near one another. *)
Theorem compare_returns_three_sorted (xs : list Stop) (k : nat) :
  (forall results k',
      compareAlgorithms rnd xs k = Ok (results, k') ->
      exists nn opt2 ga,
        nearestNeighbor xs = Ok nn /\
        twoOpt xs 100 = Ok opt2 /\
        geneticAlgorithm rnd xs 50 100 k = Ok (ga, k') /\
        length results = 3 /\
        Permutation results [opt2; ga; nn] /\
        (Forall (fun r => finite (distance r) = true) results ->
         StronglySorted le_distance results)) /\
  compareAlgorithms rnd xs k <> Diverges /\
  (nearby xs ->
   exists results k',
     compareAlgorithms rnd xs k = Ok (results, k') /\
     length results = 3 /\
     StronglySorted le_distance results).
Proof.
  split; [| split].
  - intros results k' E.
    destruct (compareAlgorithms_returned rnd xs k k' results E)
      as [nn [opt2 [ga [E1 [E2 [E3 ->]]]]]].
    exists nn, opt2, ga. split; [exact E1 |]. split; [exact E2 |]. split; [exact E3 |].
    pose proof (Array_sort_perm by_distance [opt2; ga; nn]) as P.
    split; [now rewrite (Permutation_length P) |]. split; [exact P |].
    intros F. apply Array_sort_ok.
    apply Forall_forall. intros r Hr. rewrite Forall_forall in F. apply F.
    now apply (Permutation_in _ (Permutation_sym P)).
  - apply compareAlgorithms_total.
  - intros Hd. pose proof (nearby_finite xs Hd) as Hfin.
    destruct (compareAlgorithms_ok rnd xs k Hfin)
      as [nn [opt2 [ga [k' [results [_ [_ [_ [E [P [S _]]]]]]]]]]].
    exists results, k'. split; [exact E |]. split; [| exact S].
    now rewrite (Permutation_length P).
Qed.

(** C4, at the failing inputs.  Two stops at opposite points of the
    globe, with coordinates in range: with the rounding of the doubles
    the term [a] of the haversine formula exceeds 1, the square root of
    [1 - a] is [NaN] and so is the distance between the two stops; the
    scan of [nearestNeighbor] selects no stop, [current] becomes [-1],
    and the read of [stops[-1].lat] in the next round throws. *)
Theorem near_antipodal_stops_throw :
  Binary64.is_nan (Binary64.calculateRouteDistance Binary64.antipodes) = true /\
  Binary64.nearestNeighbor Binary64.antipodes = TypeError /\
  Binary64.is_nan (Binary64.calculateRouteDistance Binary64.antipodes_58) = true /\
  Binary64.nearestNeighbor Binary64.antipodes_58 = TypeError.
Proof.
  repeat split; vm_compute; reflexivity.
Qed.




Lemma lt_irrefl (x : number) : lt x x = false.
Proof.
  destruct x as [| [] | a]; simpl; try reflexivity. apply Rltb_false. lra.
Qed.

(** C6, as amended.  The scan of [nearestNeighbor] is a fold over the
    unvisited indices that replaces its running minimum on a strict
    comparison only; whatever the distances [d], as long as they are
    numbers, such a fold from [(-1, Infinity)] selects the first index of
    minimal distance in the order of the scan.  The tournament keeps its
    first candidate only when the fitness of that candidate is strictly
    greater, so on a tie the second candidate wins. *)
Theorem tie_breaking (xs : list Stop) (current : Z) (unvisited : list Z)
    (d : Z -> number) (fitness : list number) (population : list (list Z))
    (idx1 idx2 : nat) (c1 c2 : list Z) :
  valid (length xs) current -> Forall (valid (length xs)) unvisited ->
  unvisited <> [] ->
  (forall y, In y unvisited -> finite (d y) = true) ->
  nth_error population idx1 = Some c1 -> nth_error population idx2 = Some c2 ->
  (forall st,
      nn_scan xs current unvisited st =
      Ok (nn_pick (fun idx => dist (the_stop xs current) (the_stop xs idx)) unvisited st)) /\
  (exists before after nearest,
      unvisited = before ++ nearest :: after /\
      nn_pick d unvisited ((-1)%Z, Infinity) = (nearest, d nearest) /\
      (forall y, In y before -> lt (d nearest) (d y) = true) /\
      (forall y, In y after -> lt (d y) (d nearest) = false)) /\
  tournament fitness population idx1 idx2 =
    Ok (if gt (nth idx1 fitness NaN) (nth idx2 fitness NaN) then c1 else c2) /\
  (nth idx1 fitness NaN = nth idx2 fitness NaN ->
   tournament fitness population idx1 idx2 = Ok c2).
Proof.
  intros Hc Hu Hne Hd E1 E2. split; [| split; [| split]].
  - intros st. now apply nn_scan_pure.
  - destruct (nn_pick_first_min d unvisited Hne Hd) as [l1 [l2 [n [El [Ep [B1 B2]]]]]].
    exists l1, l2, n. auto.
  - now apply tournament_eq.
  - intros Etie. rewrite (tournament_eq _ _ _ _ _ _ E1 E2).
    unfold gt. now rewrite Etie, lt_irrefl.
Qed.

Lemma exact_sum_perm (ds es : list number) :
  Permutation ds es -> exact_sum ds = exact_sum es.
Proof.
  unfold exact_sum. induction 1; simpl; try lra.
Qed.

Lemma cyclic_legs_rev (xs : list Stop) :
  Permutation (cyclic_legs (rev xs)) (cyclic_legs xs).
Proof.
  destruct xs as [| a l]; [reflexivity |].
  change (cyclic_legs (a :: l)) with (consecutive ((a :: l) ++ [a])).
  transitivity (consecutive (rev ((a :: l) ++ [a]))).
  - rewrite rev_app_distr. cbn [rev app].
    destruct (rev l) as [| b m].
    + reflexivity.
    + change (cyclic_legs ((b :: m) ++ [a])) with (consecutive (((b :: m) ++ [a]) ++ [b])).
      rewrite <- app_assoc. cbn [app].
      change (b :: m ++ [a; b]) with ((b :: m) ++ [a; b]).
      rewrite consecutive_snoc.
      change (consecutive (a :: b :: m ++ [a]))
        with (dist a b :: consecutive ((b :: m) ++ [a])).
      apply Permutation_sym, Permutation_cons_append.
  - rewrite consecutive_rev. apply Permutation_sym, Permutation_rev.
Qed.

(** The distance of a route of 2 stops or more is the sum of the legs of
    the closed tour, added from left to right. *)
Lemma calculateRouteDistance_fold (xs : list Stop) :
  2 <= length xs ->
  calculateRouteDistance xs = fold_left add (cyclic_legs xs) (Fin 0).
Proof.
  destruct xs as [| first [| second rest]]; simpl length; try lia. intros _.
  unfold calculateRouteDistance, cyclic_legs. cbv zeta. rewrite legs_fold.
  set (xs := first :: second :: rest).
  assert (Hl : xs = removelast xs ++ [last xs first])
    by (apply app_removelast_last; discriminate).
  set (z := last xs first) in *. set (l := removelast xs) in *.
  replace (xs ++ [first]) with (l ++ [z; first])
    by (rewrite Hl, <- app_assoc; reflexivity).
  rewrite consecutive_snoc, <- Hl, fold_left_app. reflexivity.
Qed.

(** C7, as amended.  The distance that [calculateRouteDistance] computes
    for 2 stops or more is the sum of the legs of the closed tour, added
    in the order of the sequence.  A rotation of the sequence, and the
    reversed sequence, have the same legs, in another order: the sum of
    the legs in exact arithmetic is the same. *)
Theorem route_distance_rotation_reversal (xs : list Stop) (k : nat) :
  (2 <= length xs ->
   calculateRouteDistance xs = fold_left add (cyclic_legs xs) (Fin 0)) /\
  Permutation (cyclic_legs (rotate k xs)) (cyclic_legs xs) /\
  Permutation (cyclic_legs (rev xs)) (cyclic_legs xs) /\
  exact_sum (cyclic_legs (rotate k xs)) = exact_sum (cyclic_legs xs) /\
  exact_sum (cyclic_legs (rev xs)) = exact_sum (cyclic_legs xs).
Proof.
  assert (P1 : Permutation (cyclic_legs (rotate k xs)) (cyclic_legs xs)).
  { unfold rotate. rewrite cyclic_legs_rotate. now rewrite firstn_skipn. }
  pose proof (cyclic_legs_rev xs) as P2.
  split; [apply calculateRouteDistance_fold |].
  split; [exact P1 |]. split; [exact P2 |].
  split; now apply exact_sum_perm.
Qed.

(** C8.  [nearestNeighbor] is a function of the list of stops alone: it
    draws no random number, it always returns or throws, and two runs on
    one input have one outcome. *)
Theorem nearestNeighbor_deterministic (xs : list Stop)
    (o1 o2 : outcome OptimizationResult) :
  nearestNeighbor xs = o1 -> nearestNeighbor xs = o2 ->
  o1 = o2 /\ o1 <> Diverges.
Proof.
  intros <- <-. split; [reflexivity | apply nearestNeighbor_total].
Qed.

(** C9.  With at least 4 stops and no generation, what
    [geneticAlgorithm] returns is the tour of the first chromosome of
    minimal tour distance in the initial random population, with the
    improvement measured against the nearest-neighbour tour.  The call
    never runs for ever, and it returns on stops of the globe that are
    near one another when the population is not empty. *)
Theorem genetic_zero_generations (xs : list Stop) (populationSize k : nat) :
  4 <= length xs ->
  exists population k',
    initial_population rnd (length xs) populationSize k = Ok (population, k') /\
    (forall r k'',
        geneticAlgorithm rnd xs populationSize 0 k = Ok (r, k'') ->
        k'' = k' /\
        exists i best nn,
          nth_error population i = Some best /\
          stops r = map (the_stop xs) best /\
          distance r = tour_distance xs best /\
          (forall c, In c population -> lt (tour_distance xs c) (distance r) = false) /\
          (forall j c, j < i -> nth_error population j = Some c ->
                       lt (distance r) (tour_distance xs c) = true) /\
          nearestNeighbor xs = Ok nn /\
          improvement r =
            mul (div (sub (distance nn) (distance r)) (distance nn)) (Fin 100)) /\
    geneticAlgorithm rnd xs populationSize 0 k <> Diverges /\
    (nearby xs -> 0 < populationSize ->
     exists r, geneticAlgorithm rnd xs populationSize 0 k = Ok (r, k')).
Proof.
  intros Hlen.
  destruct (initial_population_ok rnd (length xs) populationSize k)
    as [population [k' [Ei [L F]]]].
  exists population, k'. split; [exact Ei |].
  assert (Run : all_finite xs = true -> 0 < populationSize ->
                exists r i best nn,
                  geneticAlgorithm rnd xs populationSize 0 k = Ok (r, k') /\
                  nth_error population i = Some best /\
                  stops r = map (the_stop xs) best /\
                  distance r = tour_distance xs best /\
                  (forall c, In c population ->
                             lt (tour_distance xs c) (distance r) = false) /\
                  (forall j c, j < i -> nth_error population j = Some c ->
                               lt (distance r) (tour_distance xs c) = true) /\
                  nearestNeighbor xs = Ok nn /\
                  improvement r =
                    mul (div (sub (distance nn) (distance r)) (distance nn)) (Fin 100)).
  { intros Hfin Hp.
    destruct (best_solution_ok xs population Hfin)
      as [r [i [best [nn [E [Eb [Es [Ed [Hmin [Hfirst [Enn Eimp]]]]]]]]]]]; auto.
    { destruct population; [simpl in L; lia | discriminate]. }
    exists r, i, best, nn. split; [| repeat split; auto].
    rewrite (geneticAlgorithm_large rnd xs _ _ Hlen).
    unfold bindR. rewrite Ei. cbn [evolve ret]. unfold lift. now rewrite E. }
  split; [| split].
  - intros r k'' E. destruct (all_finite xs) eqn:Hfin.
    + destruct populationSize as [| p].
      * rewrite geneticAlgorithm_empty_population in E by exact Hlen. discriminate.
      * destruct (Run eq_refl (Nat.lt_0_succ p)) as [r' [i [best [nn [E' H]]]]].
        rewrite E in E'. injection E' as -> ->. split; [reflexivity |].
        now exists i, best, nn.
    + rewrite geneticAlgorithm_nonfinite in E by (assumption || lia). discriminate.
  - apply geneticAlgorithm_total.
  - intros Hd Hp.
    destruct (Run (nearby_finite xs Hd) Hp) as [r [i [best [nn [E _]]]]].
    now exists r.
Qed.

(** C10.  The improvement of [twoOpt] and of [geneticAlgorithm] is a
    quotient by the nearest-neighbour distance: on 4 stops or more that
    all lie at the same coordinates that distance is 0 and the reported
    improvement is [NaN], not 0. *)
Theorem improvement_undefined_on_coincident (la lo : R) (xs : list Stop)
    (maxIterations populationSize generations : nat) :
  coincident la lo xs -> 4 <= length xs -> 0 < populationSize ->
  (exists r nn,
      twoOpt xs maxIterations = Ok r /\ nearestNeighbor xs = Ok nn /\
      distance nn = Fin 0 /\ improvement r = NaN) /\
  returns (geneticAlgorithm rnd xs populationSize generations)
          (fun r => exists nn,
               nearestNeighbor xs = Ok nn /\ distance nn = Fin 0 /\
               improvement r = NaN).
Proof.
  intros Hco Hlen Hp.
  pose proof (coincident_finite la lo xs Hco) as Hfin.
  assert (Hzero : forall r, Permutation (stops r) xs ->
                            distance r = calculateRouteDistance (stops r) ->
                            distance r = Fin 0).
  { intros r P ->. apply (coincident_distance la lo).
    now apply (coincident_perm la lo _ xs). }
  destruct (nearestNeighbor_ok xs Hfin) as [nn [Enn [Pnn [Dnn _]]]].
  pose proof (Hzero nn Pnn Dnn) as Znn.
  split.
  - destruct (twoOpt_ok xs maxIterations Hfin) as [r [nn' [E [Enn' [P [D [_ I]]]]]]].
    rewrite Enn in Enn'. injection Enn' as <-.
    exists r, nn. repeat split; auto.
    rewrite (I Hlen), Znn, (Hzero r P D). apply improvement_zero_baseline.
  - eapply returns_weaken; [apply (geneticAlgorithm_ok rnd xs _ _ Hfin Hp) |].
    intros r [P [D [nn' [Enn' [_ I]]]]].
    rewrite Enn in Enn'. injection Enn' as <-.
    exists nn. repeat split; auto.
    rewrite (I Hlen), Znn, (Hzero r P D). apply improvement_zero_baseline.
Qed.

End Claims.

(** * The claims on sample inputs *)

(** Given stops are near one another. *)
Ltac nearby_stops :=
  split;
  [ repeat constructor; eexists _, _;
    (split; [reflexivity | split; [reflexivity | split; lra]])
  | let p := fresh "p" in let q := fresh "q" in
    let Hp := fresh "Hp" in let Hq := fresh "Hq" in
    intros p q Hp Hq; cbn in Hp, Hq;
    repeat (destruct Hp as [<- | Hp]); try contradiction;
    repeat (destruct Hq as [<- | Hq]); try contradiction;
    cbn [lat lng to_R]; split; apply Rabs_le; lra ].

Section Instances.

(** C1 on the four corners of a square. *)
Lemma tours_are_permutations_witness :
  nearby square /\ 0 < 50 /\
  (exists r, nearestNeighbor square = Ok r /\ same_points (stops r) square) /\
  (exists r, twoOpt square 100 = Ok r /\ same_points (stops r) square) /\
  (exists r k', geneticAlgorithm quarter_source square 50 100 0 = Ok (r, k') /\
                same_points (stops r) square) /\
  (exists results k',
      compareAlgorithms quarter_source square 0 = Ok (results, k') /\
      Forall (fun r => same_points (stops r) square) results).
Proof.
  assert (Hd : nearby square)
    by nearby_stops.
  assert (Hp : 0 < 50) by lia.
  split; [exact Hd | split; [exact Hp |]].
  destruct (tours_are_permutations quarter_source square 100 50 100 0)
    as [Pn [Pt [Pg [Pc [_ R]]]]].
  destruct (R Hd Hp) as [[r1 E1] [[r2 E2] [[r3 [k3 E3]] [rs [k4 E4]]]]].
  split; [exists r1; split; [exact E1 | exact (Pn r1 E1)] |].
  split; [exists r2; split; [exact E2 | exact (Pt r2 E2)] |].
  split; [exists r3, k3; split; [exact E3 | exact (Pg r3 k3 E3)] |].
  exists rs, k4. split; [exact E4 | exact (Pc rs k4 E4)].
Defined.

(** C3 on the five example stops of the application. *)
Lemma compare_returns_three_sorted_witness :
  nearby (algorithmStops examples) /\
  exists results k',
    compareAlgorithms quarter_source (algorithmStops examples) 0 = Ok (results, k') /\
    length results = 3 /\
    StronglySorted le_distance results.
Proof.
  assert (Hd : nearby (algorithmStops examples))
    by nearby_stops.
  split; [exact Hd |].
  exact (proj2 (proj2 (compare_returns_three_sorted quarter_source
                         (algorithmStops examples) 0)) Hd).
Defined.


(** On doubles the distance that [nearestNeighbor] reports is not always
    a number: on three stops, two of which are at opposite points of the
    globe, the tour closes with the leg between these two, whose distance
    is [NaN], and so is the total. *)
Lemma detour_distance_is_NaN :
  exists r, Binary64.nearestNeighbor Binary64.detour = Ok r /\
            map Binary64.id (Binary64.stops r) = ["a"; "c"; "b"]%string /\
            Binary64.is_nan (Binary64.distance r) = true.
Proof.
  eexists. split; [vm_compute; reflexivity |]. split; reflexivity.
Qed.

(** On doubles two stops that are not at the same coordinates can be at
    distance 0: the latitudes of the stops of [neighbours] differ by less
    than the doubles resolve in the square of a sine, every leg of the
    tour is 0, and so is the total. *)
Lemma close_stops_distance_zero :
  exists r, Binary64.nearestNeighbor Binary64.neighbours = Ok r /\
            map Binary64.id (Binary64.stops r) = ["a"; "b"]%string /\
            map (fun s => Binary64.is_zero (Binary64.lat s)) (Binary64.stops r) =
              [true; false] /\
            Binary64.is_zero (Binary64.distance r) = true.
Proof.
  eexists. split; [vm_compute; reflexivity |]. split; [reflexivity |].
  split; vm_compute; reflexivity.
Qed.


(** C6 as stated fails on the tournament: two candidates of equal fitness
    are drawn, and the second one is kept. *)
Lemma tournament_tie_keeps_second :
  nth 0 [Fin 1; Fin 1] NaN = nth 1 [Fin 1; Fin 1] NaN /\
  tournament [Fin 1; Fin 1] [forward; backward] 0 1 = Ok backward /\
  tournament [Fin 1; Fin 1] [forward; backward] 0 1 <> Ok forward.
Proof.
  assert (E : tournament [Fin 1; Fin 1] [forward; backward] 0 1 = Ok backward).
  { unfold tournament. cbn [nth gt lt]. rewrite (Rltb_false 1 1) by lra. reflexivity. }
  split; [reflexivity | split; [exact E |]].
  rewrite E. discriminate.
Qed.

Lemma straddle_distances :
  dist (the_stop straddle 0) (the_stop straddle 1) = Fin km_per_degree /\
  dist (the_stop straddle 0) (the_stop straddle 2) = Fin km_per_degree /\
  dist (the_stop straddle 0) (the_stop straddle 3) = Fin (km_per_degree * 2).
Proof.
  split; [| split].
  - rewrite (dist_north _ _ 0 1 0) by (reflexivity || lra). f_equal. lra.
  - rewrite (dist_south _ _ 0 (-1) 0) by (reflexivity || lra). f_equal. lra.
  - rewrite (dist_north _ _ 0 2 0) by (reflexivity || lra). f_equal. lra.
Qed.

(** C6, as amended, on a scan that meets a tie, the first scan over the
    stops of [straddle], whose second and third stop are at the same
    distance from the first: the second stop is selected.  The tournament
    is between two chromosomes of equal fitness. *)
Lemma tie_breaking_witness :
  let d := fun idx => dist (the_stop straddle 0) (the_stop straddle idx) in
  valid (length straddle) 0 /\ Forall (valid (length straddle)) [1; 2; 3]%Z /\
  [1; 2; 3]%Z <> [] /\
  (forall y, In y [1; 2; 3]%Z -> finite (d y) = true) /\
  nth_error [forward; backward] 0 = Some forward /\
  nth_error [forward; backward] 1 = Some backward /\
  d 1%Z = d 2%Z /\
  (exists before after nearest,
      [1; 2; 3]%Z = before ++ nearest :: after /\
      nn_scan straddle 0 [1; 2; 3]%Z ((-1)%Z, Infinity) = Ok (nearest, d nearest) /\
      (forall y, In y before -> lt (d nearest) (d y) = true) /\
      (forall y, In y after -> lt (d y) (d nearest) = false)) /\
  tournament [Fin 1; Fin 1] [forward; backward] 0 1 =
    Ok (if gt (nth 0 [Fin 1; Fin 1] NaN) (nth 1 [Fin 1; Fin 1] NaN)
        then forward else backward) /\
  (nth 0 [Fin 1; Fin 1] NaN = nth 1 [Fin 1; Fin 1] NaN ->
   tournament [Fin 1; Fin 1] [forward; backward] 0 1 = Ok backward).
Proof.
  intros d.
  assert (V0 : valid (length straddle) 0) by (unfold valid; simpl; lia).
  assert (V : Forall (valid (length straddle)) [1; 2; 3]%Z)
    by (repeat constructor; simpl; lia).
  assert (N : [1; 2; 3]%Z <> []) by discriminate.
  destruct straddle_distances as [D1 [D2 D3]].
  assert (F : forall y, In y [1; 2; 3]%Z -> finite (d y) = true).
  { intros y [<- | [<- | [<- | []]]]; unfold d;
      [rewrite D1 | rewrite D2 | rewrite D3]; reflexivity. }
  assert (T : d 1%Z = d 2%Z) by (unfold d; now rewrite D1, D2).
  split; [exact V0 |]. split; [exact V |]. split; [exact N |]. split; [exact F |].
  split; [reflexivity |]. split; [reflexivity |]. split; [exact T |].
  destruct (tie_breaking straddle 0 [1; 2; 3]%Z d [Fin 1; Fin 1] [forward; backward] 0 1
              forward backward V0 V N F eq_refl eq_refl)
    as [Hs [[before [after [nearest [E [Ep [B1 B2]]]]]] [Ht Hq]]].
  split; [| split; [exact Ht | exact Hq]].
  exists before, after, nearest. split; [exact E |]. split; [| split; [exact B1 | exact B2]].
  rewrite Hs. fold d. now rewrite Ep.
Defined.

(** C7 as stated fails on the four stops of [meridian]: the code adds
    the legs in the order of the sequence and rounds each sum, and the
    total of the sequence rotated by one stop is larger than the total of
    the sequence itself. *)
Lemma rotation_changes_the_total :
  Binary64.lt (Binary64.calculateRouteDistance Binary64.meridian)
              (Binary64.calculateRouteDistance (rotate 1 Binary64.meridian)) = true.
Proof. vm_compute. reflexivity. Qed.

(** C7, as amended, on the four stops of [meridian], rotated by one
    stop. *)
Lemma route_distance_rotation_reversal_witness :
  2 <= length meridian /\
  calculateRouteDistance meridian = fold_left add (cyclic_legs meridian) (Fin 0) /\
  Permutation (cyclic_legs (rotate 1 meridian)) (cyclic_legs meridian) /\
  Permutation (cyclic_legs (rev meridian)) (cyclic_legs meridian) /\
  exact_sum (cyclic_legs (rotate 1 meridian)) = exact_sum (cyclic_legs meridian) /\
  exact_sum (cyclic_legs (rev meridian)) = exact_sum (cyclic_legs meridian).
Proof.
  assert (H2 : 2 <= length meridian) by (simpl; lia).
  split; [exact H2 |].
  destruct (route_distance_rotation_reversal meridian 1) as [F R].
  split; [exact (F H2) | exact R].
Defined.

(** C8 on the stops of [meridian]. *)
Lemma nearestNeighbor_deterministic_witness :
  nearestNeighbor meridian = nearestNeighbor meridian /\
  nearestNeighbor meridian <> Diverges.
Proof.
  exact (nearestNeighbor_deterministic meridian (nearestNeighbor meridian)
           (nearestNeighbor meridian) eq_refl eq_refl).
Defined.

(** C9 on the four corners of a square, with a population of four. *)
Lemma genetic_zero_generations_witness :
  4 <= length square /\ nearby square /\ 0 < 4 /\
  exists population k' r i best nn,
    initial_population quarter_source (length square) 4 0 = Ok (population, k') /\
    geneticAlgorithm quarter_source square 4 0 0 = Ok (r, k') /\
    nth_error population i = Some best /\
    stops r = map (the_stop square) best /\
    distance r = tour_distance square best /\
    (forall c, In c population -> lt (tour_distance square c) (distance r) = false) /\
    (forall j c, j < i -> nth_error population j = Some c ->
                 lt (distance r) (tour_distance square c) = true) /\
    nearestNeighbor square = Ok nn /\
    improvement r =
      mul (div (sub (distance nn) (distance r)) (distance nn)) (Fin 100).
Proof.
  assert (H4 : 4 <= length square) by (simpl; lia).
  assert (Hd : nearby square)
    by nearby_stops.
  assert (H2 : 0 < 4) by lia.
  split; [exact H4 | split; [exact Hd | split; [exact H2 |]]].
  destruct (genetic_zero_generations quarter_source square 4 0 H4)
    as [population [k' [Ei [Hr [_ Hex]]]]].
  destruct (Hex Hd H2) as [r E].
  destruct (Hr r k' E) as [_ [i [best [nn H]]]].
  exists population, k', r, i, best, nn. split; [exact Ei |]. split; [exact E | exact H].
Defined.

(** C10 on four stops at the same coordinates. *)
Lemma improvement_undefined_on_coincident_witness :
  coincident 40 (-74) depot /\ 4 <= length depot /\ 0 < 50 /\
  ((exists r nn,
       twoOpt depot 100 = Ok r /\ nearestNeighbor depot = Ok nn /\
       distance nn = Fin 0 /\ improvement r = NaN) /\
   returns (geneticAlgorithm zero_source depot 50 100)
           (fun r => exists nn,
                nearestNeighbor depot = Ok nn /\ distance nn = Fin 0 /\
                improvement r = NaN)).
Proof.
  assert (Hco : coincident 40 (-74) depot) by (repeat constructor).
  assert (H4 : 4 <= length depot) by (simpl; lia).
  assert (Hp : 0 < 50) by lia.
  split; [exact Hco | split; [exact H4 | split; [exact Hp |]]].
  exact (improvement_undefined_on_coincident zero_source 40 (-74) depot 100 50 100
           Hco H4 Hp).
Defined.

End Instances.

(** * Further properties

    Properties of the engine and of the application beyond the claims of
    the specification. *)

(** ** The haversine distance: bounds, arcs and longitudes *)

Section HaversineMore.

Local Open Scope R_scope.

Lemma Ratan2_quadrant (y x : R) : 0 <= y -> 0 <= x -> Ratan2 y x <= PI / 2.
Proof.
  intros Hy Hx. unfold Ratan2. pose proof PI_RGT_0 as Hpi.
  destruct (Rltb 0 x) eqn:E.
  - pose proof (atan_bound (y / x)). lra.
  - rewrite (Rltb_false x 0) by lra.
    destruct (Rltb 0 y); [lra |]. rewrite (Rltb_false y 0) by lra. lra.
Qed.

(** The angle that [Math.atan2] recovers from a haversine [sin x * sin x]. *)
Lemma Ratan2_arc (x : R) :
  0 <= x <= PI / 2 ->
  Ratan2 (sqrt (sin x * sin x)) (sqrt (1 + - (sin x * sin x))) = x.
Proof.
  intros [H0 H1]. pose proof PI_RGT_0 as Hpi.
  assert (Hsin : 0 <= sin x) by (apply sin_ge_0; lra).
  replace (1 + - (sin x * sin x)) with (cos x * cos x)
    by (pose proof (sin2_cos2 x) as E; unfold Rsqr in E; lra).
  destruct (Rle_lt_or_eq_dec _ _ H1) as [Hlt | ->].
  - assert (Hcos : 0 < cos x) by (apply cos_gt_0; lra).
    rewrite !sqrt_square by lra.
    unfold Ratan2. rewrite (Rltb_true 0 (cos x) Hcos).
    change (sin x / cos x) with (tan x). apply atan_tan. lra.
  - rewrite cos_PI2, sin_PI2. rewrite Rmult_0_l, Rmult_1_l, sqrt_0, sqrt_1.
    unfold Ratan2. rewrite (Rltb_false 0 0), (Rltb_true 0 1) by lra. reflexivity.
Qed.

Lemma meridian_arc (la1 la2 lo : R) :
  0 <= la2 - la1 <= 180 ->
  calculateDistance (Fin la1) (Fin lo) (Fin la2) (Fin lo) =
  Fin (km_per_degree * (la2 - la1)).
Proof.
  intros [H0 H1]. rewrite calculateDistance_Fin. f_equal.
  pose proof PI_RGT_0 as Hpi.
  set (x := (la2 + - la1) * PI / 180 / 2).
  assert (Hx : 0 <= x <= PI / 2) by (unfold x; split; nra).
  assert (Hhav : hav la1 lo la2 lo = sin x * sin x).
  { unfold hav. fold x. replace ((lo + - lo) * PI / 180 / 2) with 0 by lra.
    rewrite sin_0. ring. }
  rewrite Hhav, (Ratan2_arc x Hx). unfold x, km_per_degree. field.
Qed.

Lemma equator_arc (lo1 lo2 : R) :
  0 <= lo2 - lo1 <= 180 ->
  calculateDistance (Fin 0) (Fin lo1) (Fin 0) (Fin lo2) =
  Fin (km_per_degree * (lo2 - lo1)).
Proof.
  intros [H0 H1]. rewrite calculateDistance_Fin. f_equal.
  pose proof PI_RGT_0 as Hpi.
  set (x := (lo2 + - lo1) * PI / 180 / 2).
  assert (Hx : 0 <= x <= PI / 2) by (unfold x; split; nra).
  assert (Hhav : hav 0 lo1 0 lo2 = sin x * sin x).
  { unfold hav. fold x. replace ((0 + - 0) * PI / 180 / 2) with 0 by lra.
    replace (0 * PI / 180) with 0 by lra.
    rewrite sin_0, cos_0. ring. }
  rewrite Hhav, (Ratan2_arc x Hx). unfold x, km_per_degree. field.
Qed.

(** X1.  [calculateDistance] is symmetric in its two points, for all
    numbers, [NaN] and the infinities included. *)
Theorem haversine_symmetric (lat1 lng1 lat2 lng2 : number) :
  calculateDistance lat1 lng1 lat2 lng2 = calculateDistance lat2 lng2 lat1 lng1.
Proof. apply calculateDistance_sym. Qed.

Lemma calculateDistance_range (la1 lo1 la2 lo2 : R) :
  exists d, calculateDistance (Fin la1) (Fin lo1) (Fin la2) (Fin lo2) = Fin d /\
            0 <= d <= 6371 * PI.
Proof.
  pose proof (hav_range la1 lo1 la2 lo2) as [H0 H1].
  eexists. split; [apply calculateDistance_Fin |].
  pose proof (Ratan2_nonneg _ _ (sqrt_pos (hav la1 lo1 la2 lo2))
                (sqrt_pos (1 + - hav la1 lo1 la2 lo2))).
  pose proof (Ratan2_quadrant _ _ (sqrt_pos (hav la1 lo1 la2 lo2))
                (sqrt_pos (1 + - hav la1 lo1 la2 lo2))).
  lra.
Qed.

(** X2.  [calculateDistance] never gives a negative number or an
    infinity: its result is [NaN] or a number from 0 to half the
    circumference of the sphere, [6371 * PI]; it is 0 from a point of the
    globe to itself. *)
Theorem haversine_range (lat1 lng1 lat2 lng2 : number) (la lo : R) :
  (calculateDistance lat1 lng1 lat2 lng2 = NaN \/
   exists d, calculateDistance lat1 lng1 lat2 lng2 = Fin d /\ 0 <= d <= 6371 * PI) /\
  (-90 <= la <= 90 -> -180 <= lo <= 180 ->
   calculateDistance (Fin la) (Fin lo) (Fin la) (Fin lo) = Fin 0).
Proof.
  split.
  - destruct (finite lat1 && finite lng1 && finite lat2 && finite lng2) eqn:F.
    + apply andb_prop in F as [F F4]. apply andb_prop in F as [F F3].
      apply andb_prop in F as [F1 F2].
      destruct (finite_Fin _ F1) as [la1 ->]. destruct (finite_Fin _ F2) as [lo1 ->].
      destruct (finite_Fin _ F3) as [la2 ->]. destruct (finite_Fin _ F4) as [lo2 ->].
      right. apply calculateDistance_range.
    + left. now apply calculateDistance_nonfinite.
  - intros _ _. apply calculateDistance_same.
Qed.

(** X3.  Along a meridian, and along the equator, [calculateDistance] is
    the arc length: 6371 * PI / 180 kilometres for each degree between
    the two points, up to the 180 degrees of two antipodal points. *)
Theorem haversine_arc_length (a b lo : R) :
  Rabs (b - a) <= 180 ->
  calculateDistance (Fin a) (Fin lo) (Fin b) (Fin lo) =
    Fin (km_per_degree * Rabs (b - a)) /\
  calculateDistance (Fin 0) (Fin a) (Fin 0) (Fin b) =
    Fin (km_per_degree * Rabs (b - a)).
Proof.
  intros H. unfold Rabs in *. destruct (Rcase_abs (b - a)) as [Hneg | Hpos].
  - split.
    + rewrite calculateDistance_sym, (meridian_arc b a lo) by lra. f_equal. ring.
    + rewrite calculateDistance_sym, (equator_arc b a) by lra. f_equal. ring.
  - split; [apply meridian_arc | apply equator_arc]; lra.
Qed.

Lemma hav_shift (la1 lo1 la2 lo2 s : R) :
  hav la1 (lo1 + s) la2 (lo2 + s) = hav la1 lo1 la2 lo2.
Proof.
  unfold hav. replace (lo2 + s + - (lo1 + s)) with (lo2 + - lo1) by lra. reflexivity.
Qed.

Lemma hav_wrap (la1 lo1 la2 lo2 : R) :
  hav la1 lo1 la2 (lo2 + 360) = hav la1 lo1 la2 lo2.
Proof.
  unfold hav.
  replace ((lo2 + 360 + - lo1) * PI / 180 / 2) with ((lo2 + - lo1) * PI / 180 / 2 + PI)
    by field.
  rewrite neg_sin. ring.
Qed.

(** X4.  [calculateDistance] reads the two longitudes through their
    difference and through the square of the sine of half of it: moving
    both points by one angle of longitude, or one point by a full turn of
    360 degrees, leaves the distance the same. *)
Theorem haversine_longitude_invariance (la1 lo1 la2 lo2 s : R) :
  calculateDistance (Fin la1) (Fin (lo1 + s)) (Fin la2) (Fin (lo2 + s)) =
    calculateDistance (Fin la1) (Fin lo1) (Fin la2) (Fin lo2) /\
  calculateDistance (Fin la1) (Fin lo1) (Fin la2) (Fin (lo2 + 360)) =
    calculateDistance (Fin la1) (Fin lo1) (Fin la2) (Fin lo2).
Proof.
  split; rewrite !calculateDistance_Fin; [now rewrite hav_shift | now rewrite hav_wrap].
Qed.

End HaversineMore.

(** ** The greedy choice of nearest neighbour *)

Section NearestNeighborGreedy.

Lemma lt_asym (x y : number) : lt x y = true -> lt y x = false.
Proof.
  destruct x as [| [] | a], y as [| [] | b]; simpl; try reflexivity; try discriminate.
  intros H. apply Rltb_iff in H. apply Rltb_false. lra.
Qed.

Lemma greedy_snoc {A : Type} (d : A -> A -> number) (route : list A) (c n : A)
    (unvisited unvisited' : list A) :
  greedy d (route ++ [c]) unvisited ->
  In n unvisited ->
  (forall y, In y unvisited' -> In y unvisited) ->
  (forall y, In y unvisited' -> lt (d c y) (d c n) = false) ->
  greedy d ((route ++ [c]) ++ [n]) unvisited'.
Proof.
  intros G Hn Hsub Hmin pre c0 n0 post.
  induction post as [| z post' _] using rev_ind; intros E y Hy.
  - replace (pre ++ [c0; n0]) with ((pre ++ [c0]) ++ [n0]) in E
      by now rewrite <- app_assoc.
    apply app_inj_tail in E as [E1 <-]. apply app_inj_tail in E1 as [_ <-].
    apply Hmin. exact Hy.
  - replace (pre ++ c0 :: n0 :: post' ++ [z]) with ((pre ++ c0 :: n0 :: post') ++ [z]) in E
      by (rewrite <- app_assoc; reflexivity).
    apply app_inj_tail in E as [E1 <-].
    apply (G pre c0 n0 post' E1).
    rewrite <- app_assoc in Hy.
    apply in_app_or in Hy as [Hy | Hy]; apply in_or_app; [now left | right].
    cbn [app] in Hy. destruct Hy as [<- | Hy]; [exact Hn | now apply Hsub].
Qed.

Lemma greedy_single {A : Type} (d : A -> A -> number) (c : A) (tail : list A) :
  greedy d [c] tail.
Proof.
  intros pre c0 n0 post E. apply (f_equal (@length A)) in E.
  rewrite length_app in E. cbn [length] in E. lia.
Qed.

Lemma greedy_map {A B : Type} (f : A -> B) (d : B -> B -> number) (route : list A) :
  greedy (fun i j => d (f i) (f j)) route [] -> greedy d (map f route) [].
Proof.
  intros G pre c n post E y Hy.
  apply map_eq_app in E as [pre' [rest [-> [_ E]]]].
  apply map_eq_cons in E as [c' [rest' [-> [<- E]]]].
  apply map_eq_cons in E as [n' [post' [-> [<- <-]]]].
  rewrite app_nil_r in Hy. apply in_map_iff in Hy as [y' [<- Hy']].
  apply (G pre' c' n' post' eq_refl). rewrite app_nil_r. exact Hy'.
Qed.

Lemma nn_loop_greedy (xs : list Stop) (fuel : nat) (route unvisited : list Z) :
  all_finite xs = true ->
  length unvisited <= fuel ->
  route <> [] ->
  Permutation (route ++ unvisited) (indices (length xs)) ->
  greedy (fun i j => dist (the_stop xs i) (the_stop xs j)) route unvisited ->
  exists rest, nn_loop fuel xs route unvisited = Ok (route ++ rest) /\
               Permutation (route ++ rest) (indices (length xs)) /\
               greedy (fun i j => dist (the_stop xs i) (the_stop xs j)) (route ++ rest) [].
Proof.
  intros Hfin. revert route unvisited.
  induction fuel as [| fuel IH]; intros route unvisited Hlen Hne P G.
  - destruct unvisited; [| simpl in Hlen; lia].
    exists []. now rewrite app_nil_r in *.
  - destruct unvisited as [| u us].
    + exists []. now rewrite app_nil_r in *.
    + rewrite nn_loop_step.
      remember (u :: us) as unvisited eqn:Eu.
      assert (V := Forall_valid_perm _ _ P). apply Forall_app in V as [Vr Vu].
      destruct (exists_last Hne) as [r' [c Er]].
      assert (Hcur : valid (length xs) (last route 0%Z)).
      { apply (proj1 (Forall_forall _ _) Vr). rewrite Er, last_last.
        apply in_or_app. right. now left. }
      rewrite (nn_scan_pure _ _ _ _ Hcur Vu). simpl bind.
      assert (Ec : last route 0%Z = c) by (rewrite Er; apply last_last).
      rewrite Ec in *.
      assert (Hd : forall y, In y unvisited ->
                   finite (dist (the_stop xs c) (the_stop xs y)) = true).
      { intros y Hy.
        destruct (dist_finite (the_stop xs c) (the_stop xs y)) as [d [-> _]];
          [apply the_stop_finite; auto | apply the_stop_finite; auto | reflexivity].
        apply (proj1 (Forall_forall _ _) Vu). exact Hy. }
      destruct (nn_pick_first_min
                  (fun idx => dist (the_stop xs c) (the_stop xs idx))
                  unvisited) as [l1 [l2 [n [El [E1 [B1 B2]]]]]];
        [rewrite Eu; discriminate | exact Hd |].
      rewrite E1. simpl fst.
      assert (Hin : In n unvisited) by (rewrite El; apply in_or_app; right; now left).
      assert (Hnd : NoDup unvisited).
      { assert (N : NoDup (route ++ unvisited))
          by (apply (Permutation_NoDup (Permutation_sym P)), NoDup_indices).
        apply NoDup_app_remove_l in N. exact N. }
      pose proof (remove_perm n unvisited Hnd Hin) as Pr.
      destruct (IH (route ++ [n]) (remove Z.eq_dec n unvisited)) as [rest [E2 [P2 G2]]].
      * apply Permutation_length in Pr. simpl in Pr. lia.
      * destruct route; discriminate.
      * rewrite <- app_assoc. simpl. rewrite <- Pr. exact P.
      * rewrite Er. apply greedy_snoc with (unvisited := unvisited).
        -- now rewrite <- Er.
        -- exact Hin.
        -- intros y Hy. now apply in_remove in Hy as [Hy _].
        -- intros y Hy. apply in_remove in Hy as [Hy Hne'].
           rewrite El in Hy. apply in_app_or in Hy as [Hy | [Hy | Hy]].
           ++ apply lt_asym. now apply B1.
           ++ congruence.
           ++ now apply B2.
      * exists (n :: rest). rewrite <- app_assoc in E2, P2, G2. simpl in E2, P2, G2.
        repeat split; assumption.
Qed.

Lemma nearestNeighbor_greedy_tour (xs : list Stop) :
  all_finite xs = true ->
  exists r, nearestNeighbor xs = Ok r /\
            hd_error (stops r) = hd_error xs /\
            greedy dist (stops r) [].
Proof.
  intros Hfin. unfold nearestNeighbor.
  destruct (Nat.ltb_spec (length xs) 2) as [Hlt | Hge].
  - eexists. split; [reflexivity |]. cbn [stops]. split; [reflexivity |].
    intros pre c n post E. rewrite E, length_app in Hlt. cbn [length] in Hlt. lia.
  - assert (H0 : In 0%Z (indices (length xs))) by (apply In_indices; unfold valid; lia).
    pose proof (remove_perm 0%Z _ (NoDup_indices (length xs)) H0) as Pr.
    destruct (nn_loop_greedy xs (length xs) [0%Z] (remove Z.eq_dec 0%Z (indices (length xs))))
      as [rest [E [P G]]]; auto.
    + apply Permutation_length in Pr. rewrite length_indices in Pr. simpl in Pr. lia.
    + discriminate.
    + simpl. now rewrite <- Pr.
    + apply greedy_single.
    + rewrite E. cbn [bind].
      destruct (map_stops_perm xs _ P) as [E2 P2]. rewrite E2. cbn [bind].
      eexists. split; [reflexivity |]. cbn [stops]. split.
      * cbn [app map hd_error]. unfold the_stop. cbn [Z.to_nat].
        destruct xs; [simpl in Hge; lia | reflexivity].
      * now apply greedy_map.
Qed.

End NearestNeighborGreedy.

(** ** What a pass of 2-opt decides *)

Section TwoOptMore.

Local Open Scope R_scope.

Lemma read_nth (route : list Z) (p : nat) :
  (p < length route)%nat -> read route p = Ok (nth p route 0%Z).
Proof.
  intros H. unfold read. now rewrite (nth_error_nth' route 0%Z H).
Qed.

Lemma nth_valid (n : nat) (route : list Z) (p : nat) :
  Permutation route (indices n) -> (p < length route)%nat -> valid n (nth p route 0%Z).
Proof.
  intros P H. apply (proj1 (Forall_forall _ _) (Forall_valid_perm _ _ P)).
  now apply nth_In.
Qed.

(** One round of the inner loop, on a working tour that is a permutation
    of the indices. *)
Lemma twoOpt_visit_eq (xs : list Stop) (i j : nat) (st : list Z * bool) :
  Permutation (fst st) (indices (length xs)) ->
  (i + 2 <= j)%nat -> (j < length xs)%nat ->
  twoOpt_visit xs i st j =
  Ok (if improving xs (fst st) i j then (reverse_segment (fst st) i j, true) else st).
Proof.
  intros P Hij Hj.
  assert (Hlen : length (fst st) = length xs)
    by (rewrite (Permutation_length P); apply length_indices).
  assert (Hm : ((j + 1) mod length (fst st) < length (fst st))%nat)
    by (apply Nat.mod_upper_bound; lia).
  unfold twoOpt_visit.
  rewrite !read_nth by lia. cbn [bind].
  rewrite !stop_at_valid by (apply nth_valid; [exact P | lia]). cbn [bind].
  unfold improving. cbv zeta.
  now destruct (lt _ _).
Qed.

(** A [for] loop whose invariant mentions the positions already visited. *)
Lemma for_each_steps {S : Type} (Inv : list nat -> S -> Prop) (ps : list nat)
    (body : S -> nat -> outcome S) (st : S) (done : list nat) :
  (forall st p done', In p ps -> Inv done' st ->
                      exists st', body st p = Ok st' /\ Inv (done' ++ [p]) st') ->
  Inv done st ->
  exists st', for_each ps body st = Ok st' /\ Inv (done ++ ps) st'.
Proof.
  revert st done. induction ps as [| p ps IH]; intros st done Hstep H0.
  - exists st. rewrite app_nil_r. now split.
  - destruct (Hstep st p done) as [st1 [E1 H1]]; [now left | exact H0 |].
    destruct (IH st1 (done ++ [p])) as [st2 [E2 H2]].
    + intros st' q done' Hq. apply Hstep. now right.
    + exact H1.
    + exists st2. simpl. rewrite E1. cbn [bind]. split; [exact E2 |].
      now rewrite <- app_assoc in H2.
Qed.

(** The state of a pass of [twoOpt] over [route]: as long as [improved]
    is false the working tour is [route] and no pair visited so far has
    passed the test. *)
Lemma twoOpt_pass_verdict (xs : list Stop) (route : list Z) :
  Permutation route (indices (length xs)) ->
  exists route' improved,
    twoOpt_pass xs route = Ok (route', improved) /\
    Permutation route' (indices (length xs)) /\
    (improved = false -> route' = route /\ two_opt_optimal xs route).
Proof.
  intros P. unfold twoOpt_pass.
  assert (Hlen : length route = length xs)
    by (rewrite (Permutation_length P); apply length_indices).
  set (visited := fun (seen : list nat) (cur : option nat) (seenj : list nat) =>
         forall i j, (i + 2 <= j)%nat -> (j < length route)%nat ->
                     In i seen \/ (cur = Some i /\ In j seenj) ->
                     improving xs route i j = false).
  set (Inv := fun (cur : option nat) (seenj seen : list nat) (st : list Z * bool) =>
         Permutation (fst st) (indices (length xs)) /\
         (snd st = false -> fst st = route /\ visited seen cur seenj)).
  destruct (for_each_steps (Inv None []) (seq 0 (length route - 2)) (twoOpt_inner xs)
              (route, false) [])
    as [[route' improved] [E [P' Hf]]].
  - intros st1 i seen Hi [P1 Hf1]. apply in_seq in Hi. unfold twoOpt_inner.
    assert (Hlen1 : length (fst st1) = length xs)
      by (rewrite (Permutation_length P1); apply length_indices).
    destruct (for_each_steps (fun seenj => Inv (Some i) seenj seen)
                (seq (i + 2) (length (fst st1) - (i + 2))) (twoOpt_visit xs i) st1 [])
      as [st2 [E2 [P2 Hf2]]].
    + intros st2 j seenj Hj [P2 Hf2]. apply in_seq in Hj.
      rewrite (twoOpt_visit_eq xs i j st2 P2) by lia.
      eexists. split; [reflexivity |].
      destruct (improving xs (fst st2) i j) eqn:Himp; unfold Inv.
      * cbn [fst snd]. split; [| discriminate].
        rewrite reverse_segment_perm. exact P2.
      * split; [exact P2 |].
        intros F2. destruct (Hf2 F2) as [Er Hv]. split; [exact Er |].
        intros i' j' Hij' Hj' [Hseen | [Hc Hin]].
        -- apply Hv; auto.
        -- injection Hc as <-. apply in_app_or in Hin as [Hin | [<- | []]].
           ++ apply Hv; auto.
           ++ now rewrite <- Er.
    + split; [exact P1 |].
      intros F1. destruct (Hf1 F1) as [Er Hv]. split; [exact Er |].
      intros i' j' Hij' Hj' [Hseen | [_ []]]. apply Hv; auto.
    + exists st2. split; [exact E2 |]. split; [exact P2 |].
      intros F2. destruct (Hf2 F2) as [Er Hv]. split; [exact Er |].
      intros i' j' Hij' Hj' [Hseen | [Hc _]]; [| discriminate].
      apply in_app_or in Hseen as [Hseen | [<- | []]].
      * apply Hv; auto.
      * apply Hv; auto. right. split; [reflexivity |].
        cbn [app]. apply in_seq. lia.
  - split; [exact P |].
    intros _. split; [reflexivity |]. intros i j _ _ [[] | [Hc _]]. discriminate.
  - exists route', improved. split; [exact E |]. split; [exact P' |].
    cbn [fst snd] in *.
    intros F. destruct (Hf F) as [Er Hv]. split; [exact Er |].
    intros i j Hij Hj. apply Hv; auto. left. cbn [app]. apply in_seq. lia.
Qed.

Lemma twoOpt_pass_optimal (xs : list Stop) (route : list Z) :
  Permutation route (indices (length xs)) ->
  two_opt_optimal xs route -> twoOpt_pass xs route = Ok (route, false).
Proof.
  intros P Hopt. unfold twoOpt_pass.
  assert (Hlen : length route = length xs)
    by (rewrite (Permutation_length P); apply length_indices).
  destruct (for_each_inv (fun st => st = (route, false)) (seq 0 (length route - 2))
              (twoOpt_inner xs) (route, false)) as [st' [E ->]]; [| reflexivity | exact E].
  intros st i Hi ->. apply in_seq in Hi. unfold twoOpt_inner. cbn [fst].
  apply for_each_inv; [| reflexivity].
  intros st j Hj ->. apply in_seq in Hj.
  rewrite (twoOpt_visit_eq xs i j (route, false) P) by lia. cbn [fst].
  rewrite Hopt by lia. now exists (route, false).
Qed.

Lemma twoOpt_while_stopped (xs : list Stop) (remaining : nat) (route : list Z) :
  twoOpt_while remaining xs route false = Ok route.
Proof. destruct remaining; reflexivity. Qed.

Lemma twoOpt_while_optimal (xs : list Stop) (remaining : nat) (route : list Z) :
  Permutation route (indices (length xs)) ->
  two_opt_optimal xs route -> twoOpt_while remaining xs route true = Ok route.
Proof.
  intros P Hopt. destruct remaining as [| k]; [reflexivity |].
  cbn [twoOpt_while]. rewrite (twoOpt_pass_optimal xs route P Hopt). cbn [bind fst snd].
  apply twoOpt_while_stopped.
Qed.

(** The loop of [twoOpt] ends on a tour that no pair of positions
    improves, unless the cap stopped it: then every pass that the cap
    allowed made an exchange. *)
Lemma twoOpt_while_dichotomy (xs : list Stop) (remaining : nat) (route : list Z) :
  Permutation route (indices (length xs)) ->
  exists route',
    twoOpt_while remaining xs route true = Ok route' /\
    Permutation route' (indices (length xs)) /\
    (two_opt_optimal xs route' \/ improving_passes xs remaining route route').
Proof.
  revert route. induction remaining as [| k IH]; intros route P.
  - exists route. split; [reflexivity |]. split; [exact P |]. right. reflexivity.
  - destruct (twoOpt_pass_verdict xs route P) as [r1 [f1 [E1 [P1 Hf]]]].
    destruct f1.
    + destruct (IH r1 P1) as [r2 [E2 [P2 H2]]].
      exists r2. split; [| split; [exact P2 |]].
      * change (twoOpt_while (S k) xs route true)
          with (bind (twoOpt_pass xs route)
                     (fun st => twoOpt_while k xs (fst st) (snd st))).
        rewrite E1. exact E2.
      * destruct H2 as [H2 | H2]; [now left | right].
        cbn [improving_passes]. now exists r1.
    + destruct (Hf eq_refl) as [-> Hopt].
      exists route. split; [| split; [exact P | now left]].
      now apply twoOpt_while_optimal.
Qed.

End TwoOptMore.

(** ** Random positions, shuffles and mutation *)

Section GeneticMore.

Variable rnd : RandomSource.

Lemma random_below_draw (n k : nat) :
  exists i, random_below rnd n k = Ok (i, S k) /\ (0 < n -> i < n).
Proof.
  unfold random_below, bindR, Math_random, ret. eexists. split; [reflexivity |].
  intros Hn. cbn [mul floor_position]. apply floor_below; [apply draw_range | exact Hn].
Qed.

Lemma shuffle_loop_draws (j : nat) (route : list Z) (k : nat) :
  exists r, shuffle_loop rnd j route k = Ok (r, k + j) /\ Permutation r route.
Proof.
  revert route k. induction j as [| j IH]; intros route k.
  - exists route. cbn [shuffle_loop]. unfold ret. now rewrite Nat.add_0_r.
  - cbn [shuffle_loop]. unfold bindR.
    destruct (random_below_draw (S j + 1) k) as [i [-> _]].
    destruct (IH (swap route (S j) i) (S k)) as [r [-> P]].
    exists r. split; [f_equal; f_equal; lia |]. rewrite P. apply swap_perm.
Qed.

Lemma initial_population_draws (n count k : nat) :
  exists population,
    initial_population rnd n count k = Ok (population, k + count * (n - 1)) /\
    length population = count /\ Forall (chromosome n) population.
Proof.
  revert k. induction count as [| count IH]; intros k.
  - exists []. cbn [initial_population]. unfold ret. rewrite Nat.add_0_r.
    split; [reflexivity |]. split; [reflexivity | constructor].
  - cbn [initial_population]. unfold bindR, shuffled.
    destruct (shuffle_loop_draws (length (indices n) - 1) (indices n) k) as [r [-> P]].
    destruct (IH (k + (length (indices n) - 1))) as [rest [-> [L F]]].
    exists (r :: rest). unfold ret. rewrite length_indices. split; [f_equal; f_equal; lia |].
    split; [cbn [length]; lia | now constructor].
Qed.

Lemma nth_error_swap (route : list Z) (i j p : nat) :
  i < length route -> j < length route ->
  nth_error (swap route i j) p =
  if p =? j then nth_error route i
  else if p =? i then nth_error route j
  else nth_error route p.
Proof.
  intros Hi Hj. unfold swap.
  destruct (nth_error route i) as [x |] eqn:Ei; [| apply nth_error_None in Ei; lia].
  destruct (nth_error route j) as [y |] eqn:Ej; [| apply nth_error_None in Ej; lia].
  destruct (Nat.eqb_spec p j) as [-> | Hpj].
  - apply nth_error_set_nth_eq. now rewrite length_set_nth.
  - rewrite nth_error_set_nth_neq by congruence.
    destruct (Nat.eqb_spec p i) as [-> | Hpi].
    + now apply nth_error_set_nth_eq.
    + now rewrite nth_error_set_nth_neq by congruence.
Qed.

Lemma mutate_swap (route : list Z) (k : nat) :
  0 < length route ->
  exists i j,
    random_below rnd (length route) k = Ok (i, S k) /\
    random_below rnd (length route) (S k) = Ok (j, S (S k)) /\
    i < length route /\ j < length route /\
    mutate rnd route k = Ok (swap route i j, S (S k)).
Proof.
  intros Hn.
  destruct (random_below_draw (length route) k) as [i [Ei Hi]].
  destruct (random_below_draw (length route) (S k)) as [j [Ej Hj]].
  exists i, j. split; [exact Ei |]. split; [exact Ej |].
  split; [auto |]. split; [auto |].
  unfold mutate, bindR. rewrite Ei, Ej. reflexivity.
Qed.

Local Open Scope R_scope.

Lemma fitness_order (d1 d2 : R) :
  0 <= d1 -> 0 <= d2 ->
  gt (div (Fin 1) (add (Fin d1) (Fin (1 / 10)))) (div (Fin 1) (add (Fin d2) (Fin (1 / 10)))) =
  lt (Fin d1) (Fin d2).
Proof.
  intros H1 H2. cbn [add]. rewrite !div_Fin by lra. unfold gt. cbn [lt].
  destruct (Rlt_dec d1 d2) as [H | H].
  - rewrite (Rltb_true d1 d2 H). apply Rltb_true.
    unfold Rdiv. rewrite !Rmult_1_l. apply Rinv_lt_contravar; [| lra].
    apply Rmult_lt_0_compat; lra.
  - rewrite (Rltb_false d1 d2) by lra. apply Rltb_false.
    unfold Rdiv. rewrite !Rmult_1_l. apply Rinv_le_contravar; lra.
Qed.

End GeneticMore.

(** ** The order of the genes after a crossover *)

Section CrossoverOrder.

Lemma mod_wrap (x n : nat) : x < 2 * n -> x mod n = if x <? n then x else x - n.
Proof.
  intros H. destruct (Nat.ltb_spec x n) as [Hlt | Hge].
  - now apply Nat.mod_small.
  - replace x with ((x - n) + 1 * n) at 1 by lia.
    rewrite Nat.Div0.mod_add. apply Nat.mod_small. lia.
Qed.

Lemma length_rotate {A : Type} (s : nat) (l : list A) : length (rotate s l) = length l.
Proof.
  unfold rotate. rewrite length_app, length_skipn, length_firstn. lia.
Qed.

Lemma rotate_perm {A : Type} (s : nat) (l : list A) : Permutation (rotate s l) l.
Proof.
  unfold rotate. rewrite Permutation_app_comm. now rewrite firstn_skipn.
Qed.

Lemma nth_rotate {A : Type} (s k : nat) (l : list A) (d : A) :
  s < length l -> k < length l ->
  nth k (rotate s l) d = nth ((s + k) mod length l) l d.
Proof.
  intros Hs Hk. unfold rotate. rewrite mod_wrap by lia.
  destruct (Nat.ltb_spec (s + k) (length l)) as [Hlt | Hge].
  - rewrite app_nth1 by (rewrite length_skipn; lia). apply nth_skipn.
  - rewrite app_nth2 by (rewrite length_skipn; lia). rewrite length_skipn.
    rewrite nth_firstn.
    destruct (Nat.ltb_spec (k - (length l - s)) s); [f_equal; lia | lia].
Qed.

Lemma rotate_set_nth {A : Type} (s w : nat) (l : list A) (v : A) :
  s < length l -> w < length l ->
  rotate s (set_nth l ((s + w) mod length l) v) = set_nth (rotate s l) w v.
Proof.
  intros Hs Hw.
  assert (Hpos : (s + w) mod length l < length l) by (apply Nat.mod_upper_bound; lia).
  apply nth_ext with (d := v) (d' := v).
  - now rewrite length_rotate, !length_set_nth, length_rotate.
  - rewrite length_rotate, length_set_nth. intros k Hk.
    rewrite nth_rotate by (rewrite length_set_nth; lia). rewrite length_set_nth.
    destruct (Nat.eq_dec k w) as [-> | Hne].
    + rewrite !nth_set_nth_eq; auto. now rewrite length_rotate.
    + rewrite !nth_set_nth_neq; [now rewrite nth_rotate | congruence |].
      rewrite !mod_wrap by lia.
      destruct (Nat.ltb_spec (s + w) (length l)), (Nat.ltb_spec (s + k) (length l)); lia.
Qed.

Lemma firstn_snoc {A : Type} (t : nat) (l : list A) (d : A) :
  t < length l -> firstn (S t) l = firstn t l ++ [nth t l d].
Proof.
  revert t. induction l as [| x l IH]; intros t H; [simpl in H; lia |].
  destruct t as [| t]; [reflexivity |].
  cbn [firstn nth app]. f_equal. apply IH. simpl in H. lia.
Qed.

Variables (n a b : nat) (parent1 parent2 : list Z).
Hypothesis Hab : a <= b.
Hypothesis Hbn : b < n.
Hypothesis Hp1 : Permutation parent1 (indices n).
Hypothesis Hp2 : Permutation parent2 (indices n).

Let s := (b + 1) mod n.
Let seg := segment parent1 a b.
Let m := n - length seg.
Let outside := fun v : Z => negb (includes seg v).

Lemma length_segment : length seg = b + 1 - a.
Proof.
  unfold seg, segment. rewrite length_firstn, length_skipn, (perm_length n _ Hp1). lia.
Qed.

Lemma start_cases : (b + 1 < n /\ s = b + 1) \/ (b + 1 = n /\ s = 0).
Proof.
  unfold s. destruct (Nat.eq_dec (b + 1) n) as [E | E].
  - right. split; [exact E |]. rewrite E. apply Nat.Div0.mod_same.
  - left. split; [lia |]. apply Nat.mod_small. lia.
Qed.

Lemma cursor_done : (s + m) mod n = a.
Proof.
  unfold m. rewrite length_segment.
  destruct start_cases as [[H E] | [H E]]; rewrite E, mod_wrap by lia;
    match goal with |- context [?x <? n] => destruct (Nat.ltb_spec x n) end; lia.
Qed.

Lemma initial_child :
  copy_segment parent1 (repeat (-1)%Z n) a b =
  repeat (-1)%Z a ++ seg ++ repeat (-1)%Z (n - (b + 1)).
Proof.
  pose proof length_segment as Ls.
  apply nth_ext with (d := (-1)%Z) (d' := (-1)%Z).
  - destruct (copy_segment_spec parent1 (repeat (-1)%Z n) a b 0) as [-> _].
    rewrite !length_app, !repeat_length, Ls. lia.
  - destruct (copy_segment_spec parent1 (repeat (-1)%Z n) a b 0) as [-> _].
    rewrite repeat_length. intros q Hq.
    destruct (copy_segment_spec parent1 (repeat (-1)%Z n) a b q) as [_ N].
    rewrite N by now rewrite repeat_length.
    destruct (Nat.leb_spec a q) as [Haq | Haq]; cbn [andb].
    + rewrite app_nth2 by (rewrite repeat_length; lia). rewrite repeat_length.
      destruct (Nat.leb_spec q b) as [Hqb | Hqb].
      * rewrite app_nth1 by lia. unfold seg, segment.
        rewrite nth_firstn. destruct (Nat.ltb_spec (q - a) (b + 1 - a)); [| lia].
        rewrite nth_skipn. f_equal. lia.
      * rewrite app_nth2 by lia. now rewrite !nth_repeat.
    + rewrite app_nth1 by (rewrite repeat_length; lia). now rewrite !nth_repeat.
Qed.

Lemma fill_order_init :
  fill_order n a b parent1 parent2 (copy_segment parent1 (repeat (-1)%Z n) a b) s 0.
Proof.
  pose proof length_segment as Ls.
  unfold fill_order. cbv zeta. fold s seg m. exists 0.
  cbn [firstn filter length app]. rewrite Nat.add_0_r, Nat.sub_0_r.
  split; [reflexivity |]. split; [lia |]. split; [unfold s; now rewrite Nat.Div0.mod_mod |].
  rewrite initial_child. unfold rotate, m. rewrite Ls.
  destruct start_cases as [[H E] | [H E]]; rewrite E.
  - rewrite skipn_app, firstn_app, repeat_length.
    rewrite (skipn_all2 (repeat (-1)%Z a)) by (rewrite repeat_length; lia).
    rewrite (firstn_all2 (repeat (-1)%Z a)) by (rewrite repeat_length; lia).
    rewrite skipn_app, firstn_app, Ls.
    rewrite (skipn_all2 seg) by lia. rewrite (firstn_all2 seg) by lia.
    replace (b + 1 - a - (b + 1 - a)) with 0 by lia.
    cbn [skipn firstn app]. rewrite app_nil_r.
    replace (n - (b + 1 - a)) with (n - (b + 1) + a) by lia.
    rewrite repeat_app. now rewrite <- app_assoc.
  - cbn [skipn firstn]. rewrite app_nil_r.
    replace (n - (b + 1)) with 0 by lia. cbn [repeat]. rewrite app_nil_r.
    f_equal. f_equal. lia.
Qed.


Lemma NoDup_rotate2 : NoDup (rotate s parent2).
Proof.
  apply (Permutation_NoDup (Permutation_sym (rotate_perm s parent2))).
  apply (Permutation_NoDup (Permutation_sym Hp2)), NoDup_indices.
Qed.

Lemma start_lt : 0 < n -> s < n.
Proof. intros H. unfold s. apply Nat.mod_upper_bound. lia. Qed.

Lemma read_rotate2 (t : nat) :
  t < n -> nth ((s + t) mod n) parent2 (-1)%Z = nth t (rotate s parent2) (-1)%Z.
Proof.
  intros Ht. pose proof (perm_length n _ Hp2) as L2.
  rewrite nth_rotate;
    [now rewrite L2 | rewrite L2; apply start_lt; lia | rewrite L2; exact Ht].
Qed.

Lemma nth_not_in_firstn {A : Type} (l : list A) (t : nat) (d : A) :
  NoDup l -> t < length l -> ~ In (nth t l d) (firstn t l).
Proof.
  intros Hnd Ht Hin. apply (In_nth _ _ d) in Hin as [k [Hk E]].
  rewrite length_firstn in Hk. rewrite nth_firstn in E.
  destruct (Nat.ltb_spec k t); [| lia].
  apply (proj1 (NoDup_nth l d) Hnd) in E; lia.
Qed.

Lemma includes_child (child : list Z) (c t : nat) :
  fill_order n a b parent1 parent2 child c t -> t < n ->
  includes child (nth ((s + t) mod n) parent2 (-1)%Z) =
  includes seg (nth ((s + t) mod n) parent2 (-1)%Z).
Proof.
  intros [w [Lw [Hw [Ec Er]]]] Ht. fold s seg m in Lw, Hw, Ec, Er.
  set (v := nth ((s + t) mod n) parent2 (-1)%Z).
  assert (Hv : valid n v).
  { apply perm_nth_valid; [exact Hp2 | apply Nat.mod_upper_bound; lia]. }
  apply eq_true_iff_eq. rewrite !includes_In. split.
  - intros Hin. apply (Permutation_in _ (Permutation_sym (rotate_perm s child))) in Hin.
    rewrite Er in Hin. apply in_app_or in Hin as [Hin | Hin].
    + exfalso. apply filter_In in Hin as [Hin _].
      unfold v in Hin. rewrite read_rotate2 in Hin by exact Ht.
      revert Hin. apply nth_not_in_firstn; [apply NoDup_rotate2 |].
      now rewrite length_rotate, (perm_length n _ Hp2).
    + apply in_app_or in Hin as [Hin | Hin]; [| exact Hin].
      apply repeat_spec in Hin. unfold valid in Hv. lia.
  - intros Hin. apply (Permutation_in _ (rotate_perm s child)).
    rewrite Er. apply in_or_app. right. apply in_or_app. now right.
Qed.

Lemma fill_order_skip (child : list Z) (c t : nat) :
  fill_order n a b parent1 parent2 child c t -> t < n ->
  includes seg (nth ((s + t) mod n) parent2 (-1)%Z) = true ->
  fill_order n a b parent1 parent2 child c (t + 1).
Proof.
  intros [w [Lw [Hw [Ec Er]]]] Ht Hin. fold s seg m in Lw, Hw, Ec, Er.
  unfold fill_order. cbv zeta. fold s seg m. exists w.
  replace (t + 1) with (S t) by lia.
  rewrite (firstn_snoc t _ (-1)%Z)
    by now rewrite length_rotate, (perm_length n _ Hp2).
  rewrite filter_app. cbn [filter]. rewrite <- read_rotate2 by exact Ht.
  rewrite Hin. cbn [negb]. rewrite app_nil_r. auto.
Qed.

Lemma fill_order_write (child : list Z) (c t : nat) :
  fill_order n a b parent1 parent2 child c t -> length child = n ->
  c <> a -> t < n ->
  includes seg (nth ((s + t) mod n) parent2 (-1)%Z) = false ->
  fill_order n a b parent1 parent2
             (set_nth child c (nth ((s + t) mod n) parent2 (-1)%Z))
             ((c + 1) mod n) (t + 1).
Proof.
  intros [w [Lw [Hw [Ec Er]]]] Lc Hca Ht Hin. fold s seg m in Lw, Hw, Ec, Er.
  set (v := nth ((s + t) mod n) parent2 (-1)%Z) in *.
  assert (Hwm : w < m).
  { destruct (Nat.eq_dec w m) as [E | E]; [| lia].
    exfalso. apply Hca. rewrite Ec, E. apply cursor_done. }
  assert (Hmn : m <= n) by (unfold m; lia).
  unfold fill_order. cbv zeta. fold s seg m. exists (S w).
  replace (t + 1) with (S t) by lia.
  rewrite (firstn_snoc t _ (-1)%Z)
    by now rewrite length_rotate, (perm_length n _ Hp2).
  rewrite filter_app. cbn [filter]. rewrite <- read_rotate2 by exact Ht. fold v.
  rewrite Hin. cbn [negb].
  split; [rewrite length_app; cbn [length]; lia |]. split; [lia |]. split.
  - rewrite Ec. rewrite Nat.Div0.add_mod_idemp_l. f_equal. lia.
  - rewrite Ec. rewrite <- Lc at 1.
    rewrite rotate_set_nth; [| rewrite Lc; apply start_lt; lia | rewrite Lc; lia].
    rewrite Er. replace (m - w) with (S (m - S w)) by lia. cbn [repeat app].
    rewrite <- Lw at 2. rewrite set_nth_app. now rewrite <- app_assoc.
Qed.

Lemma fill_loop_order (fuel t : nat) (child : list Z) (c : nat) :
  fuel + t = n -> fill_inv n a b parent2 child c t ->
  fill_order n a b parent1 parent2 child c t ->
  exists child' t',
    fill_loop fuel n a parent2 child c ((s + t) mod n) = Ok child' /\
    Permutation child' (indices n) /\
    fill_order n a b parent1 parent2 child' a t'.
Proof.
  revert t child c. induction fuel as [| fuel IH]; intros t child c Hf Hinv Hord;
    rewrite fill_loop_eq; destruct (Nat.eqb_spec c a) as [-> | Hca].
  - exists child, t. split; [reflexivity |].
    split; [now apply (fill_inv_done n a b parent2 Hab Hbn _ t) | exact Hord].
  - pose proof (fill_inv_progress n a b parent2 Hab Hbn _ _ _ Hinv Hca). lia.
  - exists child, t. split; [reflexivity |].
    split; [now apply (fill_inv_done n a b parent2 Hab Hbn _ t) | exact Hord].
  - pose proof (fill_inv_progress n a b parent2 Hab Hbn _ _ _ Hinv Hca) as Ht.
    unfold read.
    assert (Hr : (s + t) mod n < length parent2).
    { rewrite (perm_length n _ Hp2). apply Nat.mod_upper_bound. lia. }
    rewrite (nth_error_nth' parent2 (-1)%Z Hr). cbn [bind].
    assert (Hnx : ((s + t) mod n + 1) mod n = (s + (t + 1)) mod n)
      by (apply (next_read n a b Hab Hbn); lia).
    rewrite Hnx. pose proof (includes_child child c t Hord Ht) as Hic.
    destruct (includes child (nth ((s + t) mod n) parent2 (-1)%Z)) eqn:E;
      symmetry in Hic.
    + apply IH; [lia | |].
      * apply (fill_inv_skip n a b parent2 Hab Hbn); auto.
        now apply includes_In.
      * now apply fill_order_skip.
    + apply IH; [lia | |].
      * apply (fill_inv_write n a b parent2 Hab Hbn Hp2); auto.
        intros Hin. apply includes_In in Hin.
        change (includes child (nth ((s + t) mod n) parent2 (-1)%Z) = true) in Hin.
        congruence.
      * apply fill_order_write; auto. now destruct Hinv.
Qed.

Lemma NoDup_disjoint {A : Type} (l1 l2 : list A) (v : A) :
  NoDup (l1 ++ l2) -> In v l1 -> In v l2 -> False.
Proof.
  intros Hnd H1 H2. apply in_split in H2 as [x [y ->]].
  rewrite app_assoc in Hnd. apply NoDup_remove_2 in Hnd.
  apply Hnd. apply in_or_app. left. apply in_or_app. now left.
Qed.

Lemma filter_none {A : Type} (f : A -> bool) (l : list A) :
  (forall v, In v l -> f v = false) -> filter f l = [].
Proof.
  induction l as [| x l IH]; intros H; [reflexivity |].
  cbn [filter]. rewrite (H x) by now left. apply IH. intros v Hv. apply H. now right.
Qed.

(** Order crossover of two chromosomes, cut at [a <= b]: read from the
    position after the cut, the child is the genes of [parent2] that are
    not in the segment, in the order [parent2] has them from that
    position on, followed by the segment of [parent1]. *)
Lemma crossover_order :
  exists child,
    fill_loop n n a parent2 (copy_segment parent1 (repeat (-1)%Z n) a b) s s = Ok child /\
    Permutation child (indices n) /\
    rotate s child = filter outside (rotate s parent2) ++ seg.
Proof.
  destruct (fill_loop_order n 0 _ s (Nat.add_0_r n)
              (fill_inv_init n a b parent1 parent2 Hab Hbn Hp1 Hp2) fill_order_init)
    as [child [t [E [P [w [Lw [Hw [Ec Er]]]]]]]].
  fold s seg m in Lw, Hw, Ec, Er.
  rewrite Nat.add_0_r in E. unfold s in E at 2. rewrite Nat.Div0.mod_mod in E. fold s in E.
  exists child. split; [exact E |]. split; [exact P |].
  assert (Hfull : m - w = 0).
  { destruct (m - w) as [| k] eqn:Ek; [reflexivity | exfalso].
    assert (Hin : In (-1)%Z child).
    { apply (Permutation_in _ (rotate_perm s child)). rewrite Er.
      apply in_or_app. right. now left. }
    apply (Permutation_in _ P), In_indices in Hin. unfold valid in Hin. lia. }
  rewrite Hfull in Er. cbn [repeat app] in Er. rewrite Er. f_equal.
  rewrite <- (firstn_skipn t (rotate s parent2)) at 2.
  rewrite filter_app, (filter_none outside (skipn t (rotate s parent2))).
  - now rewrite app_nil_r.
  - intros v Hv. unfold outside.
    assert (Hnd : NoDup (firstn t (rotate s parent2) ++ skipn t (rotate s parent2)))
      by (rewrite firstn_skipn; apply NoDup_rotate2).
    assert (Hin : In v child).
    { apply (Permutation_in _ (Permutation_sym P)).
      apply (Permutation_in _ Hp2), (Permutation_in _ (rotate_perm s parent2)).
      rewrite <- (firstn_skipn t (rotate s parent2)). apply in_or_app. now right. }
    apply (Permutation_in _ (Permutation_sym (rotate_perm s child))) in Hin.
    rewrite Er in Hin. apply in_app_or in Hin as [Hin | Hin].
    + exfalso. apply filter_In in Hin as [Hin _].
      apply (NoDup_disjoint _ _ v Hnd); assumption.
    + apply includes_In in Hin. now rewrite Hin.
Qed.

End CrossoverOrder.

(** ** The child of a crossover *)

Section CrossoverResult.

Variable rnd : RandomSource.

Lemma app_tail_eq {A : Type} (l1 l2 r1 r2 : list A) :
  l1 ++ r1 = l2 ++ r2 -> length r1 = length r2 -> r1 = r2.
Proof.
  intros E L.
  assert (L' : length l1 = length l2).
  { apply (f_equal (@length A)) in E. rewrite !length_app in E. lia. }
  apply (f_equal (skipn (length l1))) in E.
  rewrite skipn_app, skipn_all, Nat.sub_diag in E. rewrite L' in E.
  rewrite skipn_app, skipn_all, Nat.sub_diag in E. exact E.
Qed.

Lemma rotate_ends_with_segment (n a b : nat) (child : list Z) :
  a <= b -> b < n -> length child = n ->
  exists front, rotate ((b + 1) mod n) child = front ++ segment child a b.
Proof.
  intros Hab Hbn L.
  assert (Hseg : segment child a b = skipn a (firstn (b + 1) child))
    by (unfold segment; now rewrite skipn_firstn_comm).
  assert (Hfront : firstn (b + 1) child = firstn a child ++ segment child a b).
  { rewrite Hseg. rewrite <- (firstn_skipn a (firstn (b + 1) child)) at 1.
    rewrite firstn_firstn. now replace (Nat.min a (b + 1)) with a by lia. }
  destruct (Nat.eq_dec (b + 1) n) as [E | E].
  - rewrite E, Nat.Div0.mod_same. unfold rotate. cbn [skipn firstn]. rewrite app_nil_r.
    exists (firstn a child). rewrite <- Hfront, E, <- L. now rewrite firstn_all.
  - rewrite Nat.mod_small by lia. unfold rotate.
    exists (skipn (b + 1) child ++ firstn a child). now rewrite <- app_assoc, <- Hfront.
Qed.

Lemma crossover_keeps_segment (n a b : nat) (parent1 child front : list Z) :
  a <= b -> b < n -> length parent1 = n -> length child = n ->
  rotate ((b + 1) mod n) child = front ++ segment parent1 a b ->
  segment child a b = segment parent1 a b.
Proof.
  intros Hab Hbn L1 Lc E.
  destruct (rotate_ends_with_segment n a b child Hab Hbn Lc) as [front' E'].
  rewrite E' in E. apply app_tail_eq in E; [exact E |].
  unfold segment. rewrite !length_firstn, !length_skipn. lia.
Qed.

(** [orderCrossover] on two chromosomes of [n] genes: the child is a
    chromosome, it has the genes of [parent1] between the two cut
    positions, and the other genes in the order of [parent2]. *)
(** [orderCrossover] on the two positions that it draws. *)
Lemma orderCrossover_cut (n : nat) (parent1 parent2 : list Z) (k : nat) :
  0 < n -> chromosome n parent1 -> chromosome n parent2 ->
  exists start end_ child,
    random_below rnd n k = Ok (start, S k) /\
    random_below rnd n (S k) = Ok (end_, S (S k)) /\
    orderCrossover rnd parent1 parent2 k = Ok (child, S (S k)) /\
    chromosome n child /\
    let a := Nat.min start end_ in
    let b := Nat.max start end_ in
    a <= b < n /\
    segment child a b = segment parent1 a b /\
    rotate ((b + 1) mod n) child =
    filter (fun v => negb (includes (segment parent1 a b) v))
           (rotate ((b + 1) mod n) parent2) ++ segment parent1 a b.
Proof.
  intros Hn H1 H2.
  destruct (random_below_draw rnd n k) as [start [Es Hs]].
  destruct (random_below_draw rnd n (S k)) as [end_ [Ee He]].
  specialize (Hs Hn). specialize (He Hn).
  exists start, end_.
  assert (Hcut : forall a b, a <= b -> b < n ->
            (if start <? end_ then (start, end_) else (end_, start)) = (a, b) ->
            exists child,
              orderCrossover rnd parent1 parent2 k = Ok (child, S (S k)) /\
              chromosome n child /\
              segment child a b = segment parent1 a b /\
              rotate ((b + 1) mod n) child =
              filter (fun v => negb (includes (segment parent1 a b) v))
                     (rotate ((b + 1) mod n) parent2) ++ segment parent1 a b).
  { intros a b Hab Hbn Ecut.
    destruct (crossover_order n a b parent1 parent2 Hab Hbn H1 H2) as [child [Ec [Pc Er]]].
    exists child. split; [| split; [exact Pc | split; [| exact Er]]].
    - unfold orderCrossover, bindR. rewrite (perm_length n _ H1), Es, Ee, Ecut.
      unfold lift. now rewrite Ec.
    - eapply (crossover_keeps_segment n a b parent1 child); eauto.
      + apply (perm_length n _ H1).
      + apply (perm_length n _ Pc). }
  destruct (start <? end_) eqn:E.
  - apply Nat.ltb_lt in E.
    destruct (Hcut start end_) as [child [Ec [Pc [Sg Er]]]]; [lia | lia | reflexivity |].
    exists child. split; [exact Es |]. split; [exact Ee |]. split; [exact Ec |].
    split; [exact Pc |]. cbv zeta.
    rewrite Nat.min_l, Nat.max_r by lia. split; [lia |]. now split.
  - apply Nat.ltb_ge in E.
    destruct (Hcut end_ start) as [child [Ec [Pc [Sg Er]]]]; [lia | lia | reflexivity |].
    exists child. split; [exact Es |]. split; [exact Ee |]. split; [exact Ec |].
    split; [exact Pc |]. cbv zeta.
    rewrite Nat.min_r, Nat.max_l by lia. split; [lia |]. now split.
Qed.

End CrossoverResult.

(** ** The route result of the application *)

Section AppFacts.

Variable rnd : RandomSource.

Lemma length_map_index {A B : Type} (f : A -> nat -> B) (xs : list A) (idx : nat) :
  length (map_index f xs idx) = length xs.
Proof.
  revert idx. induction xs as [| x xs IH]; intros idx; simpl; [reflexivity | now rewrite IH].
Qed.

Lemma map_map_index {A B C : Type} (g : B -> C) (f : A -> nat -> B) (xs : list A) (idx : nat) :
  map g (map_index f xs idx) = map_index (fun x i => g (f x i)) xs idx.
Proof.
  revert idx. induction xs as [| x xs IH]; intros idx; simpl; [reflexivity | now rewrite IH].
Qed.

Lemma map_index_ext {A B : Type} (f g : A -> nat -> B) (xs : list A) (idx : nat) :
  (forall x i, In x xs -> f x i = g x i) -> map_index f xs idx = map_index g xs idx.
Proof.
  revert idx. induction xs as [| x xs IH]; intros idx H; simpl; [reflexivity |].
  rewrite H by now left. f_equal. apply IH. intros y i Hy. apply H. now right.
Qed.

Lemma map_index_const {A B : Type} (f : A -> B) (xs : list A) (idx : nat) :
  map_index (fun x _ => f x) xs idx = map f xs.
Proof.
  revert idx. induction xs as [| x xs IH]; intros idx; simpl; [reflexivity | now rewrite IH].
Qed.

(** With identifiers that are all different, [find] gives back the stop
    whose identifier it is given. *)
Lemma find_original_ok (ds : list App.DeliveryStop) (o : App.DeliveryStop) :
  NoDup (map App.id ds) -> In o ds -> find_original ds (toStop o) = Some o.
Proof.
  unfold find_original. cbn [toStop id].
  induction ds as [| d ds IH]; intros Hnd Hin; [destruct Hin |].
  cbn [find map] in *. inversion Hnd as [| x l Hx Hnd']; subst.
  destruct Hin as [-> | Hin].
  - now rewrite String.eqb_refl.
  - destruct (String.eqb_spec (App.id d) (App.id o)) as [E | E].
    + exfalso. apply Hx. rewrite E. now apply in_map.
    + now apply IH.
Qed.

Lemma toStop_sequenced (o : App.DeliveryStop) (idx : nat) :
  toStop (sequenced (Some o) idx) = toStop o.
Proof. reflexivity. Qed.

Lemma algorithmStops_resultStops (ds tour : list App.DeliveryStop) :
  NoDup (map App.id ds) -> (forall o, In o tour -> In o ds) ->
  resultStops ds (algorithmStops tour) =
    map_index (fun o idx => sequenced (Some o) idx) tour 0 /\
  algorithmStops (resultStops ds (algorithmStops tour)) = algorithmStops tour.
Proof.
  intros Hnd Hsub.
  assert (E : resultStops ds (algorithmStops tour) =
              map_index (fun o idx => sequenced (Some o) idx) tour 0).
  { unfold resultStops, algorithmStops. generalize 0.
    induction tour as [| o tour IH]; intros idx; [reflexivity |].
    cbn [map map_index]. fold (toStop o).
    rewrite (find_original_ok ds o Hnd) by (apply Hsub; now left).
    f_equal. apply IH. intros x Hx. apply Hsub. now right. }
  split; [exact E |]. rewrite E. unfold algorithmStops.
  rewrite map_map_index. apply (map_index_const toStop).
Qed.

Lemma length_consecutive (l : list Stop) : length (consecutive l) = length l - 1.
Proof.
  induction l as [| p [| q l] IH]; [reflexivity | reflexivity |].
  cbn [consecutive length] in *. rewrite IH. lia.
Qed.

Lemma nth_consecutive (l : list Stop) (i : nat) (d : Stop) :
  i + 1 < length l ->
  nth i (consecutive l) NaN = dist (nth i l d) (nth (i + 1) l d).
Proof.
  revert i. induction l as [| p [| q l] IH]; intros i H; cbn [length] in H; try lia.
  destruct i as [| i]; [reflexivity |].
  cbn [consecutive]. cbn [nth]. rewrite IH by (cbn [length]; lia).
  reflexivity.
Qed.

Lemma length_cyclic_legs (xs : list Stop) : length (cyclic_legs xs) = length xs.
Proof.
  destruct xs as [| first rest]; [reflexivity |].
  unfold cyclic_legs. rewrite length_consecutive, length_app. cbn [length]. lia.
Qed.

Lemma nth_cyclic_legs (xs : list Stop) (i : nat) :
  i < length xs ->
  nth i (cyclic_legs xs) NaN =
  dist (nth i xs no_stop) (nth ((i + 1) mod length xs) xs no_stop).
Proof.
  intros Hi. destruct xs as [| first rest]; [simpl in Hi; lia |].
  unfold cyclic_legs. set (xs := first :: rest) in *.
  rewrite (nth_consecutive _ i no_stop) by (rewrite length_app; cbn [length]; lia).
  rewrite app_nth1 by exact Hi. f_equal.
  rewrite mod_wrap by lia. destruct (Nat.ltb_spec (i + 1) (length xs)) as [H | H].
  - now rewrite app_nth1 by lia.
  - rewrite app_nth2 by lia. replace (i + 1 - length xs) with 0 by lia. reflexivity.
Qed.

(** The distance that the handlers add up is the distance of the engine
    for the same stops, on 2 stops or more. *)
Lemma totalDistance_engine (rs : list App.DeliveryStop) :
  2 <= length rs -> totalDistance rs = calculateRouteDistance (algorithmStops rs).
Proof.
  intros Hlen. unfold totalDistance.
  assert (Lx : length (algorithmStops rs) = length rs)
    by (unfold algorithmStops; apply length_map).
  rewrite calculateRouteDistance_cyclic by lia.
  set (g := fun i => dist (nth i (algorithmStops rs) no_stop)
                          (nth ((i + 1) mod length rs) (algorithmStops rs) no_stop)).
  transitivity (fold_left add (map g (seq 0 (length rs))) (Fin 0)).
  - generalize (Fin 0). generalize (seq 0 (length rs)).
    intros l. induction l as [| i l IH]; intros a; [reflexivity |].
    cbn [fold_left map]. rewrite <- IH. f_equal. f_equal. unfold g, dist.
    change (algorithmStops rs) with (map toStop rs).
    change no_stop with (toStop no_delivery_stop).
    now rewrite (map_nth toStop rs no_delivery_stop i),
      (map_nth toStop rs no_delivery_stop ((i + 1) mod length rs)).
  - rewrite fold_left_add, add_zero_l. f_equal.
    apply nth_ext with (d := NaN) (d' := NaN).
    + now rewrite length_map, length_seq, length_cyclic_legs.
    + rewrite length_map, length_seq. intros i Hi.
      rewrite (nth_indep _ NaN (g 0)) by now rewrite length_map, length_seq.
      rewrite map_nth, seq_nth by exact Hi. cbn [Nat.add]. unfold g.
      rewrite nth_cyclic_legs by lia. now rewrite Lx.
Qed.


Lemma selected_tour_engine (algorithmName : string) (xs : list Stop) :
  selected_tour rnd algorithmName xs =
  bindR (chosen_engine rnd algorithmName xs) (fun result => ret (stops result)).
Proof.
  unfold selected_tour, chosen_engine.
  destruct (String.eqb_spec algorithmName "nearest-neighbor") as [-> | _];
    [reflexivity |].
  destruct (String.eqb algorithmName "2-opt"); [reflexivity |].
  destruct (String.eqb algorithmName "genetic"); reflexivity.
Qed.

Lemma chosen_engine_ok (algorithmName : string) (xs : list Stop) :
  all_finite xs = true ->
  returns (chosen_engine rnd algorithmName xs)
          (fun r => Permutation (stops r) xs /\
                    distance r = calculateRouteDistance (stops r)).
Proof.
  intros Hfin. unfold chosen_engine.
  destruct (String.eqb algorithmName "2-opt");
    [| destruct (String.eqb algorithmName "genetic")].
  - destruct (twoOpt_ok xs 100 Hfin) as [r [nn [E [_ [P [D _]]]]]].
    now apply returns_lift with (a := r).
  - eapply returns_weaken; [apply (geneticAlgorithm_ok rnd xs 50 100 Hfin); lia |].
    intros r [P [D _]]. now split.
  - destruct (nearestNeighbor_ok xs Hfin) as [r [E [P [D _]]]].
    now apply returns_lift with (a := r).
Qed.

Lemma efficiency_range (k : nat) :
  exists e, add (Fin 0.85) (mul (Fin (draw rnd k)) (Fin 0.15)) = Fin e /\
            (0.85 <= e <= 1)%R.
Proof.
  eexists. split; [reflexivity |]. pose proof (draw_range rnd k). lra.
Qed.

(** The route result of a tour that the engine returned for the stops of
    the state, whose identifiers are all different. *)
Lemma route_result_ok (ds : list App.DeliveryStop) (algorithmName : string)
    (r : OptimizationResult) (k : nat) :
  2 <= length ds -> NoDup (map App.id ds) ->
  all_finite (algorithmStops ds) = true ->
  Permutation (stops r) (algorithmStops ds) ->
  distance r = calculateRouteDistance (stops r) ->
  exists result tour,
    route_result rnd ds algorithmName (stops r) k = Ok (result, S k) /\
    route_of ds tour algorithmName r result.
Proof.
  intros Hlen Hnd Hfin P D.
  destruct (Permutation_map_inv _ _ P) as [tour [Et Pt]].
  fold (algorithmStops tour) in Et.
  assert (Hsub : forall o, In o tour -> In o ds)
    by (intros o Ho; apply (Permutation_in _ (Permutation_sym Pt)); exact Ho).
  destruct (algorithmStops_resultStops ds tour Hnd Hsub) as [E1 E2].
  assert (Ltour : length tour = length ds)
    by (symmetry; apply Permutation_length; exact Pt).
  assert (Ed : totalDistance (resultStops ds (stops r)) = distance r).
  { rewrite Et, totalDistance_engine.
    - now rewrite E2, D, Et.
    - rewrite E1. unfold numbered. rewrite length_map_index. lia. }
  destruct (finite_distance_of_tour (algorithmStops ds) r Hfin P D) as [d [Efin Hd]].
  destruct (efficiency_range k) as [e [Ee He]].
  unfold route_result, bindR, Math_random, ret. cbv zeta.
  eexists. exists tour. split; [reflexivity |].
  unfold route_of. cbn [App.stops App.distance App.duration App.algorithm App.efficiency].
  rewrite Ed. split; [now apply Permutation_sym |]. split; [exact Et |].
  split; [now rewrite Et |]. split; [reflexivity |]. split; [now exists d |].
  split; [reflexivity |]. split; [reflexivity |]. now exists e.
Qed.

Lemma handleCalculateRoute_ok (st : State.AppState) (k : nat) :
  2 <= length (State.stops st) ->
  NoDup (map App.id (State.stops st)) ->
  all_finite (algorithmStops (State.stops st)) = true ->
  exists r k' result tour,
    chosen_engine rnd (State.selectedAlgorithm st) (algorithmStops (State.stops st)) k =
      Ok (r, k') /\
    handleCalculateRoute rnd st k =
      Ok ({| State.stops := State.stops st;
             State.selectedStopId := State.selectedStopId st;
             State.routeResults := [result];
             State.isCalculating := false;
             State.selectedAlgorithm := State.selectedAlgorithm st |},
          [toast_route_optimized (App.distance result)]) /\
    route_of (State.stops st) tour (State.selectedAlgorithm st) r result.
Proof.
  intros Hlen Hnd Hfin.
  destruct (chosen_engine_ok (State.selectedAlgorithm st) _ Hfin k)
    as [r [k' [Er [P D]]]].
  destruct (route_result_ok (State.stops st) (State.selectedAlgorithm st) r k'
              Hlen Hnd Hfin P D) as [result [tour [Eres Hres]]].
  exists r, k', result, tour. split; [exact Er |]. split; [| exact Hres].
  unfold handleCalculateRoute.
  destruct (Nat.ltb_spec (length (State.stops st)) 2) as [H | _]; [lia |].
  cbv zeta. rewrite selected_tour_engine. unfold bindR. rewrite Er. unfold ret.
  now rewrite Eres.
Qed.

End AppFacts.

(** ** Sorting by a finite key *)

Section SortByKey.

Local Open Scope R_scope.

Variable A : Type.
Variable key : A -> number.

Let cmp := fun a b : A => sub (key a) (key b).
Let le_key := fun a b : A => exists x y, key a = Fin x /\ key b = Fin y /\ x <= y.

Lemma sort_insert_by_key (x : A) (sorted : list A) :
  finite (key x) = true ->
  Forall (fun r => finite (key r) = true) sorted ->
  StronglySorted le_key sorted ->
  StronglySorted le_key (sort_insert cmp x sorted) /\
  Permutation (sort_insert cmp x sorted) (x :: sorted).
Proof.
  intros Hx HF HS. destruct (finite_Fin _ Hx) as [dx Ex].
  induction sorted as [| y rest IH]; cbn [sort_insert].
  - split; [repeat constructor | reflexivity].
  - inversion HF as [| ? ? Hy HF']; subst. inversion HS as [| ? ? HS' Hall]; subst.
    destruct (finite_Fin _ Hy) as [dy Ey].
    assert (Egt : gt (cmp y x) (Fin 0) = Rltb dx dy).
    { unfold cmp, gt. rewrite Ey, Ex. simpl.
      unfold Rltb. destruct (Rlt_dec 0 (dy + - dx)), (Rlt_dec dx dy); try reflexivity; lra. }
    rewrite Egt.
    destruct (Rltb dx dy) eqn:E.
    + apply Rltb_iff in E. split; [| reflexivity].
      assert (Hxy : le_key x y) by (exists dx, dy; repeat split; auto; lra).
      constructor; [exact HS |]. constructor; [exact Hxy |].
      eapply Forall_impl; [| exact Hall]. intros z [y' [dz [Ey' [Ez Hyz]]]].
      rewrite Ey in Ey'. injection Ey' as <-.
      exists dx, dz. repeat split; auto. lra.
    + apply Rltb_iff_false in E. destruct (IH HF' HS') as [S1 P1]. split.
      * constructor; [exact S1 |].
        assert (Hyx : le_key y x) by (exists dy, dx; repeat split; auto).
        apply Forall_forall. intros z Hz.
        apply (Permutation_in _ P1) in Hz. destruct Hz as [<- | Hz]; [exact Hyx |].
        apply (proj1 (Forall_forall _ _) Hall). exact Hz.
      * rewrite P1. apply perm_swap.
Qed.

Lemma Array_sort_by_key (xs : list A) :
  Forall (fun r => finite (key r) = true) xs ->
  StronglySorted le_key (Array_sort cmp xs) /\
  Permutation (Array_sort cmp xs) xs.
Proof.
  unfold Array_sort. intros HF.
  assert (G : forall acc,
             Forall (fun r => finite (key r) = true) acc ->
             StronglySorted le_key acc ->
             StronglySorted le_key
               (fold_left (fun sorted x => sort_insert cmp x sorted) xs acc) /\
             Permutation
               (fold_left (fun sorted x => sort_insert cmp x sorted) xs acc)
               (acc ++ xs)).
  { induction HF as [| x rest Hx HF IH]; intros acc Ha Sa; simpl.
    - rewrite app_nil_r. now split.
    - destruct (sort_insert_by_key x acc Hx Ha Sa) as [S1 P1].
      destruct (IH (sort_insert cmp x acc)) as [S2 P2]; auto.
      + apply (Permutation_Forall (Permutation_sym P1)). now constructor.
      + split; [exact S2 |]. rewrite P2, P1. apply Permutation_middle. }
  destruct (G []) as [S P]; auto; constructor.
Qed.

End SortByKey.

(** ** The handlers of the application *)

Section AppRuns.

Variable rnd : RandomSource.

Lemma chosen_engine_nonfinite (algorithmName : string) (xs : list Stop) (k : nat) :
  2 <= length xs -> all_finite xs = false ->
  chosen_engine rnd algorithmName xs k = TypeError.
Proof.
  intros Hlen Hbad. unfold chosen_engine.
  destruct (String.eqb algorithmName "2-opt");
    [| destruct (String.eqb algorithmName "genetic")].
  - unfold lift. now rewrite twoOpt_nonfinite.
  - now apply geneticAlgorithm_nonfinite.
  - unfold lift. now rewrite nearestNeighbor_nonfinite.
Qed.

Lemma length_algorithmStops (ds : list App.DeliveryStop) :
  length (algorithmStops ds) = length ds.
Proof. apply length_map. Qed.

Lemma handleCalculateRoute_failed (st : State.AppState) (k : nat) :
  2 <= length (State.stops st) ->
  all_finite (algorithmStops (State.stops st)) = false ->
  handleCalculateRoute rnd st k =
  Ok ({| State.stops := State.stops st;
         State.selectedStopId := State.selectedStopId st;
         State.routeResults := State.routeResults st;
         State.isCalculating := false;
         State.selectedAlgorithm := State.selectedAlgorithm st |},
      [toast_error "Failed to calculate route"]).
Proof.
  intros Hlen Hbad. unfold handleCalculateRoute.
  destruct (Nat.ltb_spec (length (State.stops st)) 2) as [H | _]; [lia |].
  cbv zeta. rewrite selected_tour_engine. unfold bindR.
  rewrite chosen_engine_nonfinite; [reflexivity | now rewrite length_algorithmStops | exact Hbad].
Qed.

Lemma handleCompareAlgorithms_failed (st : State.AppState) (k : nat) :
  2 <= length (State.stops st) ->
  all_finite (algorithmStops (State.stops st)) = false ->
  handleCompareAlgorithms rnd st k =
  Ok ({| State.stops := State.stops st;
         State.selectedStopId := State.selectedStopId st;
         State.routeResults := State.routeResults st;
         State.isCalculating := false;
         State.selectedAlgorithm := State.selectedAlgorithm st |},
      [toast_error "Failed to compare algorithms"]).
Proof.
  intros Hlen Hbad. unfold handleCompareAlgorithms.
  destruct (Nat.ltb_spec (length (State.stops st)) 2) as [H | _]; [lia |].
  cbv zeta. cbn [compare_loop]. unfold bindR at 1.
  unfold compared_tour. cbn [String.eqb Ascii.eqb Bool.eqb]. unfold bindR, lift.
  rewrite nearestNeighbor_nonfinite; [reflexivity | now rewrite length_algorithmStops | exact Hbad].
Qed.

Lemma handleCompareAlgorithms_ok (st : State.AppState) (k : nat) :
  2 <= length (State.stops st) ->
  NoDup (map App.id (State.stops st)) ->
  all_finite (algorithmStops (State.stops st)) = true ->
  let ds := State.stops st in
  let xs := algorithmStops ds in
  exists nn opt2 ga k' r1 r2 r3 t1 t2 t3 sorted,
    nearestNeighbor xs = Ok nn /\
    twoOpt xs 100 = Ok opt2 /\
    geneticAlgorithm rnd xs 50 100 (S (S k)) = Ok (ga, k') /\
    route_of ds t1 "nearest-neighbor" nn r1 /\
    route_of ds t2 "2-opt" opt2 r2 /\
    route_of ds t3 "genetic" ga r3 /\
    handleCompareAlgorithms rnd st k =
      Ok ({| State.stops := ds;
             State.selectedStopId := State.selectedStopId st;
             State.routeResults := sorted;
             State.isCalculating := false;
             State.selectedAlgorithm := State.selectedAlgorithm st |},
          [toast_success "Compared 3 algorithms"]) /\
    Permutation sorted [r1; r2; r3] /\
    StronglySorted le_route_distance sorted.
Proof.
  intros Hlen Hnd Hfin ds xs.
  destruct (twoOpt_ok xs 100 Hfin) as [opt2 [nn [E2 [En [P2 [D2 _]]]]]].
  destruct (nearestNeighbor_ok xs Hfin) as [nn' [En' [Pn [Dn _]]]].
  rewrite En in En'. injection En' as <-.
  destruct (geneticAlgorithm_ok rnd xs 50 100 Hfin) with (k := S (S k))
    as [ga [k' [Eg [Pg [Dg _]]]]]; [lia |].
  destruct (route_result_ok rnd ds "nearest-neighbor" nn k Hlen Hnd Hfin Pn Dn)
    as [r1 [t1 [Er1 H1]]].
  destruct (route_result_ok rnd ds "2-opt" opt2 (S k) Hlen Hnd Hfin P2 D2)
    as [r2 [t2 [Er2 H2]]].
  destruct (route_result_ok rnd ds "genetic" ga k' Hlen Hnd Hfin Pg Dg)
    as [r3 [t3 [Er3 H3]]].
  assert (F : Forall (fun r => finite (App.distance r) = true) [r1; r2; r3]).
  { repeat constructor.
    - destruct H1 as [_ [_ [_ [-> [[d [-> _]] _]]]]]. reflexivity.
    - destruct H2 as [_ [_ [_ [-> [[d [-> _]] _]]]]]. reflexivity.
    - destruct H3 as [_ [_ [_ [-> [[d [-> _]] _]]]]]. reflexivity. }
  destruct (Array_sort_by_key App.RouteResult App.distance [r1; r2; r3] F) as [S P].
  exists nn, opt2, ga, k', r1, r2, r3, t1, t2, t3, (Array_sort by_route_distance [r1; r2; r3]).
  split; [exact En |]. split; [exact E2 |]. split; [exact Eg |].
  split; [exact H1 |]. split; [exact H2 |]. split; [exact H3 |].
  split; [| split; [exact P | exact S]].
  unfold handleCompareAlgorithms.
  destruct (Nat.ltb_spec (length (State.stops st)) 2) as [H | _]; [lia |].
  cbv zeta. cbn [compare_loop]. unfold compared_tour.
  cbn [String.eqb Ascii.eqb Bool.eqb]. fold ds xs.
  unfold bindR, lift, ret. rewrite En, Er1, E2, Er2, Eg, Er3. reflexivity.
Qed.

Lemma map_id_numbered (tour : list App.DeliveryStop) :
  map App.id (numbered tour) = map App.id tour.
Proof.
  unfold numbered. rewrite map_map_index.
  apply (map_index_const (fun o => App.id o)).
Qed.

End AppRuns.

(** ** The regions of the boroughs *)

Section Boroughs.

Local Open Scope R_scope.

Lemma gt_Fin (x y : R) : gt (Fin x) (Fin y) = Rltb y x.
Proof. reflexivity. Qed.

Lemma lt_Fin (x y : R) : lt (Fin x) (Fin y) = Rltb x y.
Proof. reflexivity. Qed.

Lemma detectBorough_regions (la lo : R) :
  detectBorough (Fin la) (Fin lo) =
  (if Rlt_dec 40.8 la then
     if Rlt_dec lo (-73.7) then "Bronx"
     else if Rlt_dec (-73.8) lo then "Queens" else "Manhattan"
   else if Rlt_dec la 40.6 then
     if Rlt_dec lo (-74.0) then "Staten Island"
     else if Rlt_dec (-73.95) lo then "Brooklyn" else "Manhattan"
   else if Rlt_dec la 40.65 then
     if Rlt_dec (-73.95) lo then "Brooklyn" else "Manhattan"
   else if Rlt_dec 40.75 la then
     if Rlt_dec (-73.8) lo then "Queens" else "Manhattan"
   else "Manhattan")%string.
Proof.
  unfold detectBorough. rewrite !gt_Fin, !lt_Fin. unfold Rltb.
  repeat (destruct (Rlt_dec _ _)); cbn [andb]; try reflexivity; exfalso; lra.
Qed.

End Boroughs.

(** ** Nearest neighbour on doubles

    The nearest-neighbour builder of [Binary64], for every list of
    stops.  The proofs use no property of the arithmetic of the doubles
    beyond the outcome of the comparisons. *)

Section NearestNeighborOnDoubles.

Lemma stop_at_valid_on_doubles (xs : list Binary64.Stop) (i : Z) (d : Binary64.Stop) :
  valid (length xs) i -> Binary64.stop_at xs i = Ok (nth (Z.to_nat i) xs d).
Proof.
  intros [H0 H1]. unfold Binary64.stop_at, get.
  destruct (Z.ltb_spec i 0); [lia |].
  destruct (nth_error xs (Z.to_nat i)) eqn:E.
  - now rewrite (nth_error_nth _ _ _ E).
  - apply nth_error_None in E. lia.
Qed.

Lemma stop_at_In_on_doubles (xs : list Binary64.Stop) (i : Z) (s : Binary64.Stop) :
  Binary64.stop_at xs i = Ok s -> In s xs.
Proof.
  unfold Binary64.stop_at, get. destruct (i <? 0)%Z; [discriminate |].
  destruct (nth_error xs (Z.to_nat i)) eqn:E; [| discriminate].
  intros H. injection H as <-. now apply nth_error_In in E.
Qed.

Lemma map_stops_valid_on_doubles (xs : list Binary64.Stop) (route : list Z) (d : Binary64.Stop) :
  Forall (valid (length xs)) route ->
  Binary64.map_stops xs route = Ok (map (fun i => nth (Z.to_nat i) xs d) route).
Proof.
  induction 1 as [| i rest Hi _ IH]; simpl; [reflexivity |].
  now rewrite (stop_at_valid_on_doubles _ _ d Hi), IH.
Qed.

Lemma map_indices_on_doubles (xs : list Binary64.Stop) (d : Binary64.Stop) :
  map (fun i => nth (Z.to_nat i) xs d) (indices (length xs)) = xs.
Proof.
  apply nth_ext with (d := d) (d' := d).
  - now rewrite length_map, length_indices.
  - intros k Hk. rewrite length_map, length_indices in Hk.
    rewrite (nth_indep _ d (nth (Z.to_nat 0) xs d)) by (now rewrite length_map, length_indices).
    rewrite (map_nth (fun i => nth (Z.to_nat i) xs d)). unfold indices.
    change 0%Z with (Z.of_nat 0). rewrite map_nth, seq_nth by assumption.
    now rewrite Nat2Z.id.
Qed.

Lemma map_stops_perm_on_doubles (xs : list Binary64.Stop) (route : list Z) :
  Permutation route (indices (length xs)) ->
  exists ss, Binary64.map_stops xs route = Ok ss /\ Permutation ss xs.
Proof.
  intros P. destruct xs as [| d rest].
  - apply Permutation_sym, Permutation_nil in P. subst route.
    exists []. split; reflexivity.
  - eexists. split.
    + apply (map_stops_valid_on_doubles _ _ d). now apply Forall_valid_perm.
    + apply Permutation_trans
        with (map (fun i => nth (Z.to_nat i) (d :: rest) d) (indices (length (d :: rest)))).
      * now apply Permutation_map.
      * now rewrite map_indices_on_doubles.
Qed.

Lemma nn_visit_not_diverges_on_doubles (xs : list Binary64.Stop) (current : Z)
    (st : Z * Binary64.number) (idx : Z) :
  Binary64.nn_visit xs current st idx <> Diverges.
Proof.
  unfold Binary64.nn_visit, Binary64.stop_at.
  destruct (get xs current); cbn [bind]; [| discriminate].
  destruct (get xs idx); cbn [bind]; [| discriminate].
  destruct (PrimFloat.ltb _ _); discriminate.
Qed.

Lemma nn_visit_fst_on_doubles (xs : list Binary64.Stop) (current : Z)
    (st st' : Z * Binary64.number) (idx : Z) :
  Binary64.nn_visit xs current st idx = Ok st' -> fst st' = fst st \/ fst st' = idx.
Proof.
  unfold Binary64.nn_visit, Binary64.stop_at.
  destruct (get xs current); cbn [bind]; [| discriminate].
  destruct (get xs idx); cbn [bind]; [| discriminate].
  destruct (PrimFloat.ltb _ _); intros E; injection E as <-; auto.
Qed.

Lemma nn_scan_outcome_on_doubles (xs : list Binary64.Stop) (current : Z) (unvisited : list Z)
    (st : Z * Binary64.number) :
  Binary64.nn_scan xs current unvisited st = TypeError \/
  exists st', Binary64.nn_scan xs current unvisited st = Ok st' /\
              (fst st' = fst st \/ In (fst st') unvisited).
Proof.
  revert st. induction unvisited as [| idx rest IH]; intros st; simpl.
  - right. exists st. auto.
  - destruct (Binary64.nn_visit xs current st idx) as [st1 | |] eqn:E; cbn [bind].
    + destruct (IH st1) as [T | [st' [E' O]]]; [now left | right].
      exists st'. split; [exact E' |].
      destruct O as [O | O]; [| now right; right].
      destruct (nn_visit_fst_on_doubles _ _ _ _ _ E) as [F | F]; rewrite O, F; auto.
    + now left.
    + now apply nn_visit_not_diverges_on_doubles in E.
Qed.

Lemma nn_scan_sentinel_on_doubles (xs : list Binary64.Stop) (u : Z) (us : list Z)
    (st : Z * Binary64.number) :
  Binary64.nn_scan xs (-1)%Z (u :: us) st = TypeError.
Proof. reflexivity. Qed.

Lemma nn_loop_step_on_doubles (xs : list Binary64.Stop) (fuel : nat) (route : list Z) (u : Z)
    (us : list Z) :
  Binary64.nn_loop (S fuel) xs route (u :: us) =
  bind (Binary64.nn_scan xs (last route 0%Z) (u :: us) ((-1)%Z, PrimFloat.infinity))
       (fun st => Binary64.nn_loop fuel xs (route ++ [fst st])
                                   (remove Z.eq_dec (fst st) (u :: us))).
Proof. reflexivity. Qed.

Lemma nn_loop_total_on_doubles (xs : list Binary64.Stop) (fuel : nat) (route unvisited : list Z) :
  ~ In (-1)%Z unvisited -> length unvisited < fuel ->
  Binary64.nn_loop fuel xs route unvisited <> Diverges.
Proof.
  revert route unvisited. induction fuel as [| fuel IH]; intros route unvisited Hm Hlen;
    [lia |].
  destruct unvisited as [| u us]; [discriminate |].
  rewrite nn_loop_step_on_doubles.
  destruct (nn_scan_outcome_on_doubles xs (last route 0%Z) (u :: us) ((-1)%Z, PrimFloat.infinity))
    as [-> | [st' [-> O]]]; [discriminate |]. cbn [bind].
  destruct O as [O | O].
  - simpl in O. rewrite O. rewrite notin_remove by exact Hm.
    destruct fuel as [| fuel']; [simpl in Hlen; lia |].
    rewrite nn_loop_step_on_doubles, last_last, nn_scan_sentinel_on_doubles. discriminate.
  - apply IH.
    + intros Hin. apply in_remove in Hin. now apply Hm.
    + pose proof (remove_length_lt Z.eq_dec (u :: us) (fst st') O). lia.
Qed.

Lemma map_stops_not_diverges_on_doubles (xs : list Binary64.Stop) (route : list Z) :
  Binary64.map_stops xs route <> Diverges.
Proof.
  induction route as [| i rest IH]; simpl; [discriminate |].
  unfold Binary64.stop_at. destruct (get xs i); cbn [bind]; [| discriminate].
  destruct (Binary64.map_stops xs rest); cbn [bind]; try discriminate. congruence.
Qed.

Lemma nearestNeighbor_total_on_doubles (xs : list Binary64.Stop) :
  Binary64.nearestNeighbor xs <> Diverges.
Proof.
  unfold Binary64.nearestNeighbor. destruct (Nat.ltb_spec (length xs) 2); [discriminate |].
  assert (H0 : In 0%Z (indices (length xs))) by (apply In_indices; unfold valid; lia).
  destruct (Binary64.nn_loop (length xs) xs [0%Z] (remove Z.eq_dec 0%Z (indices (length xs))))
    as [route | |] eqn:E; cbn [bind]; try discriminate.
  - destruct (Binary64.map_stops xs route) eqn:E2; cbn [bind]; try discriminate.
    now apply map_stops_not_diverges_on_doubles in E2.
  - exfalso. revert E. apply nn_loop_total_on_doubles.
    + intros Hin. apply in_remove in Hin as [Hin _]. apply In_indices in Hin.
      unfold valid in Hin. lia.
    + pose proof (remove_length_lt Z.eq_dec (indices (length xs)) 0%Z H0) as Hl.
      rewrite length_indices in Hl. exact Hl.
Qed.

(** What the loop returns, when it returns. *)
Lemma nn_loop_returned_on_doubles (xs : list Binary64.Stop) (fuel : nat)
    (route unvisited route' : list Z) :
  Permutation (route ++ unvisited) (indices (length xs)) ->
  Binary64.nn_loop fuel xs route unvisited = Ok route' ->
  Permutation route' (indices (length xs)).
Proof.
  revert route unvisited. induction fuel as [| fuel IH]; intros route unvisited P E.
  - destruct unvisited; [| discriminate]. simpl in E. injection E as <-.
    now rewrite app_nil_r in P.
  - destruct unvisited as [| u us].
    + simpl in E. injection E as <-. now rewrite app_nil_r in P.
    + rewrite nn_loop_step_on_doubles in E.
      remember (u :: us) as unvisited eqn:Eu.
      assert (V := Forall_valid_perm _ _ P). apply Forall_app in V as [Vr Vu].
      assert (Hm : ~ In (-1)%Z unvisited).
      { intros Hin. apply (proj1 (Forall_forall _ _) Vu) in Hin. unfold valid in Hin. lia. }
      destruct (nn_scan_outcome_on_doubles xs (last route 0%Z) unvisited ((-1)%Z, PrimFloat.infinity))
        as [T | [st' [Es O]]]; [rewrite T in E; discriminate |].
      rewrite Es in E. cbn [bind] in E. destruct O as [O | O].
      * exfalso. simpl in O. rewrite O in E. rewrite notin_remove in E by exact Hm.
        destruct fuel as [| fuel']; [rewrite Eu in E; discriminate |].
        rewrite Eu, nn_loop_step_on_doubles, last_last, nn_scan_sentinel_on_doubles in E. discriminate.
      * assert (Hnd : NoDup unvisited).
        { assert (N : NoDup (route ++ unvisited))
            by (apply (Permutation_NoDup (Permutation_sym P)), NoDup_indices).
          apply NoDup_app_remove_l in N. exact N. }
        pose proof (remove_perm (fst st') unvisited Hnd O) as Pr.
        apply (IH (route ++ [fst st']) (remove Z.eq_dec (fst st') unvisited)); [| exact E].
        rewrite <- app_assoc. simpl. rewrite <- Pr. exact P.
Qed.

Lemma nn_scan_valid_on_doubles (xs : list Binary64.Stop) (current : Z) (unvisited : list Z)
    (st : Z * Binary64.number) :
  valid (length xs) current -> Forall (valid (length xs)) unvisited ->
  exists st', Binary64.nn_scan xs current unvisited st = Ok st' /\
              (fst st' = fst st \/ In (fst st') unvisited).
Proof.
  intros Hc Hu. revert st. induction Hu as [| idx rest Hi _ IH]; intros st.
  - exists st. split; [reflexivity | now left].
  - destruct xs as [| d xs']; [unfold valid in Hc; simpl in Hc; lia |].
    cbn [Binary64.nn_scan]. unfold Binary64.nn_visit.
    rewrite (stop_at_valid_on_doubles _ _ d Hc), (stop_at_valid_on_doubles _ _ d Hi). cbn [bind].
    destruct (PrimFloat.ltb _ _); cbn [bind].
    + destruct (IH (idx, Binary64.dist (nth (Z.to_nat current) (d :: xs') d)
                                       (nth (Z.to_nat idx) (d :: xs') d)))
        as [st' [E O]].
      exists st'. split; [exact E |]. right. cbn [fst] in O.
      destruct O as [-> | O]; [now left | now right].
    + destruct (IH st) as [st' [E O]]. exists st'. split; [exact E |].
      destruct O as [O | O]; [now left | now right; right].
Qed.

Lemma nn_scan_pick_on_doubles (xs : list Binary64.Stop) (current : Z) (unvisited : list Z) :
  Binary64.below_Infinity xs ->
  valid (length xs) current -> Forall (valid (length xs)) unvisited -> unvisited <> [] ->
  exists st', Binary64.nn_scan xs current unvisited ((-1)%Z, PrimFloat.infinity) = Ok st' /\
              In (fst st') unvisited.
Proof.
  intros Hd Hc Hu Hne. destruct unvisited as [| idx rest]; [congruence |].
  inversion Hu as [| ? ? Hi Hr]; subst.
  destruct xs as [| d xs']; [unfold valid in Hc; simpl in Hc; lia |].
  cbn [Binary64.nn_scan]. unfold Binary64.nn_visit.
  rewrite (stop_at_valid_on_doubles _ _ d Hc), (stop_at_valid_on_doubles _ _ d Hi). cbn [bind snd].
  assert (L : PrimFloat.ltb (Binary64.dist (nth (Z.to_nat current) (d :: xs') d)
                                           (nth (Z.to_nat idx) (d :: xs') d))
                            PrimFloat.infinity = true).
  { apply Hd; apply nth_In; unfold valid in *; lia. }
  rewrite L. cbn [bind].
  destruct (nn_scan_valid_on_doubles (d :: xs') current rest
              (idx, Binary64.dist (nth (Z.to_nat current) (d :: xs') d)
                                  (nth (Z.to_nat idx) (d :: xs') d)) Hc Hr)
    as [st' [E O]].
  exists st'. split; [exact E |]. cbn [fst] in O.
  destruct O as [-> | O]; [now left | now right].
Qed.

Lemma nn_loop_ok_on_doubles (xs : list Binary64.Stop) (fuel : nat) (route unvisited : list Z) :
  Binary64.below_Infinity xs ->
  length unvisited <= fuel ->
  route <> [] ->
  Permutation (route ++ unvisited) (indices (length xs)) ->
  exists route', Binary64.nn_loop fuel xs route unvisited = Ok route'.
Proof.
  intros Hd. revert route unvisited.
  induction fuel as [| fuel IH]; intros route unvisited Hlen Hne P.
  - destruct unvisited; [| simpl in Hlen; lia]. now exists route.
  - destruct unvisited as [| u us]; [now exists route |].
    rewrite nn_loop_step_on_doubles.
    remember (u :: us) as unvisited eqn:Eu.
    assert (V := Forall_valid_perm _ _ P). apply Forall_app in V as [Vr Vu].
    assert (Hcur : valid (length xs) (last route 0%Z)).
    { apply (proj1 (Forall_forall _ _) Vr).
      destruct (exists_last Hne) as [r' [z ->]]. rewrite last_last.
      apply in_or_app. right. now left. }
    destruct (nn_scan_pick_on_doubles xs (last route 0%Z) unvisited Hd Hcur Vu) as [st' [E Hin]];
      [rewrite Eu; discriminate |].
    rewrite E. cbn [bind].
    assert (Hnd : NoDup unvisited).
    { assert (N : NoDup (route ++ unvisited))
        by (apply (Permutation_NoDup (Permutation_sym P)), NoDup_indices).
      apply NoDup_app_remove_l in N. exact N. }
    pose proof (remove_perm (fst st') unvisited Hnd Hin) as Pr.
    apply IH.
    + apply Permutation_length in Pr. simpl in Pr. lia.
    + destruct route; discriminate.
    + rewrite <- app_assoc. simpl. rewrite <- Pr. exact P.
Qed.

(** X27.  On doubles, for every list of stops: the tour that
    [nearestNeighbor] returns is a permutation of the input, the call
    never runs for ever, and it returns when every distance that
    [calculateDistance] computes between two stops of the input is below
    [Infinity]. *)
Theorem nearestNeighbor_on_doubles (xs : list Binary64.Stop) :
  (forall r, Binary64.nearestNeighbor xs = Ok r -> Permutation (Binary64.stops r) xs) /\
  Binary64.nearestNeighbor xs <> Diverges /\
  (Binary64.below_Infinity xs -> exists r, Binary64.nearestNeighbor xs = Ok r).
Proof.
  assert (H0 : 2 <= length xs -> In 0%Z (indices (length xs)))
    by (intros; apply In_indices; unfold valid; lia).
  assert (P0 : 2 <= length xs ->
               Permutation ([0%Z] ++ remove Z.eq_dec 0%Z (indices (length xs)))
                           (indices (length xs))).
  { intros H. simpl.
    now rewrite <- (remove_perm 0%Z _ (NoDup_indices (length xs)) (H0 H)). }
  split; [| split].
  - intros r. unfold Binary64.nearestNeighbor.
    destruct (Nat.ltb_spec (length xs) 2) as [Hlt | Hge].
    + intros E. injection E as <-. reflexivity.
    + destruct (Binary64.nn_loop (length xs) xs [0%Z] _) as [route | |] eqn:El;
        cbn [bind]; try discriminate.
      pose proof (nn_loop_returned_on_doubles xs _ _ _ _ (P0 Hge) El) as Pr.
      destruct (map_stops_perm_on_doubles xs route Pr) as [ss [Em Ps]]. rewrite Em. cbn [bind].
      intros E. injection E as <-. exact Ps.
  - apply nearestNeighbor_total_on_doubles.
  - intros Hd. unfold Binary64.nearestNeighbor.
    destruct (Nat.ltb_spec (length xs) 2) as [Hlt | Hge]; [eexists; reflexivity |].
    destruct (nn_loop_ok_on_doubles xs (length xs) [0%Z] (remove Z.eq_dec 0%Z (indices (length xs))) Hd)
      as [route El].
    + pose proof (remove_length_lt Z.eq_dec (indices (length xs)) 0%Z (H0 Hge)) as Hl.
      rewrite length_indices in Hl. lia.
    + discriminate.
    + exact (P0 Hge).
    + rewrite El. cbn [bind].
      pose proof (nn_loop_returned_on_doubles xs _ _ _ _ (P0 Hge) El) as Pr.
      destruct (map_stops_perm_on_doubles xs route Pr) as [ss [Em Ps]]. rewrite Em. cbn [bind].
      eexists. reflexivity.
Qed.

End NearestNeighborOnDoubles.

(** * Further properties of the engine *)

Section EngineProperties.

Variable rnd : RandomSource.

Local Open Scope R_scope.

(** X5.  A coordinate that is [NaN] or infinite makes [calculateDistance]
    return [NaN], and the distance of a route of 2 stops or more is [NaN]
    as soon as one of its stops has such a coordinate. *)
Theorem distance_of_non_finite (lat1 lng1 lat2 lng2 : number) (xs : list Stop) :
  (finite lat1 && finite lng1 && finite lat2 && finite lng2 = false ->
   calculateDistance lat1 lng1 lat2 lng2 = NaN) /\
  ((2 <= length xs)%nat -> all_finite xs = false -> calculateRouteDistance xs = NaN).
Proof.
  split; [apply calculateDistance_nonfinite | apply calculateRouteDistance_nonfinite].
Qed.

(** X6.  The tour that [nearestNeighbor] returns starts with the first
    stop of the input, and each stop of the tour is followed by a nearest
    one among the stops that come after it: no later stop is strictly
    nearer.  [nearestNeighbor] returns on stops of the globe that are
    near one another. *)
Theorem nearestNeighbor_is_greedy (xs : list Stop) :
  (forall r, nearestNeighbor xs = Ok r ->
             hd_error (stops r) = hd_error xs /\
             forall pre c n post, stops r = pre ++ c :: n :: post ->
               forall y, In y post -> lt (dist c y) (dist c n) = false) /\
  (nearby xs -> exists r, nearestNeighbor xs = Ok r).
Proof.
  split.
  - intros r E. destruct (all_finite xs) eqn:Hfin.
    + destruct (nearestNeighbor_greedy_tour xs Hfin) as [r' [E' [Hh G]]].
      rewrite E in E'. injection E' as <-. split; [exact Hh |].
      intros pre c n post Es y Hy. apply (G pre c n post Es). now rewrite app_nil_r.
    + destruct (Nat.ltb_spec (length xs) 2) as [Hs | Hl].
      * rewrite (nearestNeighbor_short xs Hs) in E. injection E as <-. cbn [stops].
        split; [reflexivity |]. intros pre c n post Es. exfalso.
        rewrite Es, length_app in Hs. cbn [length] in Hs. lia.
      * rewrite nearestNeighbor_nonfinite in E by assumption. discriminate.
  - intros Hd.
    destruct (nearestNeighbor_ok xs (nearby_finite xs Hd)) as [r [E _]].
    now exists r.
Qed.

(** X7.  On 2 stops or more, one of which has a coordinate that is [NaN]
    or infinite, every algorithm throws a [TypeError]: the scan of
    [nearestNeighbor] finds no candidate below [Infinity] and reads
    [stops[-1]], and the genetic search looks up a minimum that is [NaN]. *)
Theorem non_finite_stops_throw (xs : list Stop)
    (maxIterations populationSize generations k : nat) :
  (2 <= length xs)%nat -> all_finite xs = false ->
  nearestNeighbor xs = TypeError /\
  twoOpt xs maxIterations = TypeError /\
  geneticAlgorithm rnd xs populationSize generations k = TypeError /\
  compareAlgorithms rnd xs k = TypeError.
Proof.
  intros Hlen Hbad.
  pose proof (nearestNeighbor_nonfinite xs Hlen Hbad) as En.
  split; [exact En |]. split; [now apply twoOpt_nonfinite |].
  split; [now apply geneticAlgorithm_nonfinite |].
  unfold compareAlgorithms, bindR, lift. now rewrite En.
Qed.

(** X8.  The inner [while (left < right)] loop of [twoOpt], started at
    [left = i + 1] and [right = j], reverses the part of the route from
    position [i + 1] to position [j] and leaves the rest in place. *)
Theorem reverse_segment_reverses (P M S : list Z) (i j : nat) :
  length P = (i + 1)%nat -> (length P + length M = j + 1)%nat ->
  reverse_segment (P ++ M ++ S) i j = P ++ rev M ++ S.
Proof.
  intros HP HM. unfold reverse_segment. apply reverse_loop_spec; lia.
Qed.

(** X28.  With fewer than 2 stops every algorithm returns the stops in
    the order of the input with distance 0 and improvement 0, and draws
    no random number; with fewer than 4 stops [twoOpt] and
    [geneticAlgorithm] are [nearestNeighbor]: they return what it returns
    and throw when it throws. *)
Theorem small_inputs_fall_back (xs : list Stop)
    (maxIterations populationSize generations k : nat) :
  ((length xs < 2)%nat ->
   let unchanged := {| stops := xs; distance := Fin 0; improvement := Fin 0 |} in
   nearestNeighbor xs = Ok unchanged /\
   twoOpt xs maxIterations = Ok unchanged /\
   geneticAlgorithm rnd xs populationSize generations k = Ok (unchanged, k)) /\
  ((length xs < 4)%nat ->
   twoOpt xs maxIterations = nearestNeighbor xs /\
   geneticAlgorithm rnd xs populationSize generations = lift (nearestNeighbor xs)).
Proof.
  split.
  - intros Hlen unchanged.
    pose proof (nearestNeighbor_short xs Hlen) as Enn. fold unchanged in Enn.
    split; [exact Enn |]. split.
    + rewrite twoOpt_small by lia. exact Enn.
    + rewrite geneticAlgorithm_small by lia. unfold lift. now rewrite Enn.
  - intros Hlen. split.
    + now apply twoOpt_small.
    + now apply geneticAlgorithm_small.
Qed.

Lemma twoOpt_input_order (xs : list Stop) (maxIterations : nat)
    (nn : OptimizationResult) :
  nearestNeighbor xs = Ok nn -> (4 <= length xs)%nat ->
  maxIterations = 0%nat \/ two_opt_optimal xs (indices (length xs)) ->
  exists r, twoOpt xs maxIterations = Ok r /\ stops r = xs.
Proof.
  intros Enn Hlen H. unfold twoOpt.
  destruct (Nat.ltb_spec (length xs) 4); [lia |].
  destruct (nearestNeighbor_returned xs nn Enn) as [P _].
  rewrite Enn. cbn [bind]. rewrite (Permutation_length P).
  assert (Ew : twoOpt_while maxIterations xs (indices (length xs)) true =
               Ok (indices (length xs))).
  { destruct H as [-> | Hopt]; [reflexivity |].
    apply twoOpt_while_optimal; [reflexivity | exact Hopt]. }
  rewrite Ew. cbn [bind].
  rewrite map_stops_valid
    by (apply Forall_valid_perm; reflexivity).
  cbn [bind]. eexists. split; [reflexivity |]. cbn [stops].
  apply map_the_stop_indices.
Qed.

(** X10.  On 4 stops or more, with a cap of 0 iterations, or when no
    pair of positions of the tour in the order of the input passes the
    test of the loop, what [twoOpt] returns is the stops in the order of
    the input.  [twoOpt] returns on stops of the globe that are near one
    another. *)
Theorem twoOpt_returns_input_order (xs : list Stop) (maxIterations : nat) :
  (4 <= length xs)%nat ->
  maxIterations = 0%nat \/ two_opt_optimal xs (indices (length xs)) ->
  (forall r, twoOpt xs maxIterations = Ok r -> stops r = xs) /\
  (nearby xs -> exists r, twoOpt xs maxIterations = Ok r).
Proof.
  intros Hlen H. split.
  - intros r E. destruct (twoOpt_returned xs maxIterations r E) as [nn [Enn _]].
    destruct (twoOpt_input_order xs maxIterations nn Enn Hlen H) as [r' [E' S]].
    rewrite E in E'. now injection E' as <-.
  - intros Hn. destruct (twoOpt_ok xs maxIterations (nearby_finite xs Hn)) as [r [nn [E _]]].
    now exists r.
Qed.

(** X11.  One pass of the double loop of [twoOpt] over a tour ends with
    [improved] false exactly when no pair of positions of the tour passes
    the test [newDist < currentDist], and then the tour is unchanged;
    otherwise it ends with [improved] true.  The pass keeps the tour a
    permutation of the indices. *)
Theorem twoOpt_pass_outcome (xs : list Stop) (route : list Z) :
  Permutation route (indices (length xs)) ->
  exists route' improved,
    twoOpt_pass xs route = Ok (route', improved) /\
    Permutation route' (indices (length xs)) /\
    (improved = false <-> two_opt_optimal xs route) /\
    (improved = false -> route' = route).
Proof.
  intros P.
  destruct (twoOpt_pass_verdict xs route P) as [route' [improved [E [P' Hf]]]].
  exists route', improved. split; [exact E |]. split; [exact P' |]. split.
  - split; [intros F; now apply Hf |].
    intros Hopt. rewrite (twoOpt_pass_optimal xs route P Hopt) in E.
    now injection E as _ <-.
  - intros F. now apply Hf.
Qed.

Lemma twoOpt_dichotomy (xs : list Stop) (maxIterations : nat)
    (nn : OptimizationResult) :
  nearestNeighbor xs = Ok nn -> (4 <= length xs)%nat ->
  exists r route,
    twoOpt xs maxIterations = Ok r /\
    chromosome (length xs) route /\
    stops r = map (the_stop xs) route /\
    (two_opt_optimal xs route \/
     improving_passes xs maxIterations (indices (length xs)) route).
Proof.
  intros Enn Hlen. unfold twoOpt.
  destruct (Nat.ltb_spec (length xs) 4); [lia |].
  destruct (nearestNeighbor_returned xs nn Enn) as [P _].
  rewrite Enn. cbn [bind]. rewrite (Permutation_length P).
  destruct (twoOpt_while_dichotomy xs maxIterations (indices (length xs)))
    as [route [E [Pr Hd]]]; [reflexivity |].
  rewrite E. cbn [bind].
  destruct (map_stops_perm xs route Pr) as [E1 _]. rewrite E1. cbn [bind].
  eexists. exists route. split; [reflexivity |]. split; [exact Pr |].
  split; [reflexivity | exact Hd].
Qed.

(** X12.  On 4 stops or more, the tour that [twoOpt] returns admits no
    pair of positions that passes the test of the loop, unless the cap on
    the iterations stopped the search, every pass that the cap allowed
    having made an exchange.  [twoOpt] returns on stops of the globe that
    are near one another. *)
Theorem twoOpt_optimal_or_capped (xs : list Stop) (maxIterations : nat) :
  (4 <= length xs)%nat ->
  (forall r, twoOpt xs maxIterations = Ok r ->
     exists route,
       chromosome (length xs) route /\
       stops r = map (the_stop xs) route /\
       (two_opt_optimal xs route \/
        improving_passes xs maxIterations (indices (length xs)) route)) /\
  (nearby xs -> exists r, twoOpt xs maxIterations = Ok r).
Proof.
  intros Hlen. split.
  - intros r E. destruct (twoOpt_returned xs maxIterations r E) as [nn [Enn _]].
    destruct (twoOpt_dichotomy xs maxIterations nn Enn Hlen) as [r' [route [E' H]]].
    rewrite E in E'. injection E' as <-. now exists route.
  - intros Hn. destruct (twoOpt_ok xs maxIterations (nearby_finite xs Hn)) as [r [nn [E _]]].
    now exists r.
Qed.

(** X13.  The initial population of [geneticAlgorithm] for [n] stops has
    [populationSize] chromosomes, each of them a permutation of the
    indices [0 .. n - 1], and its creation draws one random number for
    each of the [n - 1] rounds of each shuffle. *)
Theorem initial_population_shuffles (n populationSize k : nat) :
  exists population,
    initial_population rnd n populationSize k =
      Ok (population, (k + populationSize * (n - 1))%nat) /\
    length population = populationSize /\
    Forall (chromosome n) population.
Proof. apply initial_population_draws. Qed.

(** X14.  [orderCrossover] of two chromosomes of [n] genes draws two
    positions and returns a chromosome; with [a] the smaller and [b] the
    larger of the two positions drawn, the child has the genes of
    [parent1] at the positions [a .. b], and, read from position [b + 1]
    on around the end of the array, the genes of [parent2] that are not
    among them, in the order [parent2] has them from position [b + 1]
    on, followed by those genes of [parent1]. *)
Theorem order_crossover_child (n : nat) (parent1 parent2 : list Z) (k : nat) :
  (0 < n)%nat -> chromosome n parent1 -> chromosome n parent2 ->
  exists start end_ child,
    random_below rnd n k = Ok (start, S k) /\
    random_below rnd n (S k) = Ok (end_, S (S k)) /\
    orderCrossover rnd parent1 parent2 k = Ok (child, S (S k)) /\
    chromosome n child /\
    let a := Nat.min start end_ in
    let b := Nat.max start end_ in
    (a <= b < n)%nat /\
    segment child a b = segment parent1 a b /\
    rotate ((b + 1) mod n) child =
    filter (fun v => negb (includes (segment parent1 a b) v))
           (rotate ((b + 1) mod n) parent2) ++ segment parent1 a b.
Proof. apply orderCrossover_cut. Qed.

(** X15.  [mutate] draws two positions of the route and exchanges the
    genes at the two positions drawn; every other position keeps its
    gene. *)
Theorem mutate_exchanges_two_genes (route : list Z) (k : nat) :
  (0 < length route)%nat ->
  exists i j,
    random_below rnd (length route) k = Ok (i, S k) /\
    random_below rnd (length route) (S k) = Ok (j, S (S k)) /\
    (i < length route)%nat /\ (j < length route)%nat /\
    mutate rnd route k = Ok (swap route i j, S (S k)) /\
    nth_error (swap route i j) i = nth_error route j /\
    nth_error (swap route i j) j = nth_error route i /\
    forall p, p <> i -> p <> j -> nth_error (swap route i j) p = nth_error route p.
Proof.
  intros Hn. destruct (mutate_swap rnd route k Hn) as [i [j [Ei [Ej [Hi [Hj E]]]]]].
  exists i, j. split; [exact Ei |]. split; [exact Ej |].
  split; [exact Hi |]. split; [exact Hj |]. split; [exact E |].
  split; [| split].
  - rewrite nth_error_swap by assumption.
    destruct (Nat.eqb_spec i j) as [-> | _]; [reflexivity | now rewrite Nat.eqb_refl].
  - rewrite nth_error_swap by assumption. now rewrite Nat.eqb_refl.
  - intros p Hpi Hpj. rewrite nth_error_swap by assumption.
    destruct (Nat.eqb_spec p j); [congruence |].
    destruct (Nat.eqb_spec p i); [congruence | reflexivity].
Qed.

Lemma population_fitness (xs : list Stop) (population : list (list Z)) :
  Forall (chromosome (length xs)) population ->
  mapM (route_fitness xs) population =
  Ok (map (fun route => div (Fin 1) (add (tour_distance xs route) (Fin (1 / 10))))
          population).
Proof.
  intros F. apply mapM_ok. eapply Forall_impl; [| exact F].
  intros route Hr. unfold route_fitness.
  now rewrite (route_distance_chromosome xs route Hr).
Qed.

(** The distance of the tour of a chromosome is [NaN] or a number that
    is not negative. *)
Lemma tour_distance_cases (xs : list Stop) (route : list Z) :
  chromosome (length xs) route ->
  tour_distance xs route = NaN \/
  exists d, tour_distance xs route = Fin d /\ 0 <= d.
Proof.
  intros C. destruct (all_finite xs) eqn:Hfin.
  - right. now apply tour_distance_finite.
  - destruct (Nat.ltb_spec (length xs) 2) as [Hs | Hl].
    + right. exists 0. split; [| lra]. unfold tour_distance.
      apply calculateRouteDistance_short.
      now rewrite length_map, (perm_length _ _ C).
    + left. now apply tour_distance_nonfinite.
Qed.

(** X16.  With the fitness [1 / (distance + 0.1)] that a generation
    computes, the tournament keeps the first of its two candidates when
    the fitness of that candidate is strictly greater, and then the tour
    of the first candidate is strictly shorter; otherwise it keeps the
    second candidate, as it does when the two tours have the same
    distance. *)
Theorem tournament_prefers_shorter_tour (xs : list Stop) (population : list (list Z))
    (idx1 idx2 : nat) (c1 c2 : list Z) :
  Forall (chromosome (length xs)) population ->
  nth_error population idx1 = Some c1 ->
  nth_error population idx2 = Some c2 ->
  exists fitness,
    mapM (route_fitness xs) population = Ok fitness /\
    (gt (nth idx1 fitness NaN) (nth idx2 fitness NaN) = true ->
     tournament fitness population idx1 idx2 = Ok c1 /\
     lt (tour_distance xs c1) (tour_distance xs c2) = true) /\
    (gt (nth idx1 fitness NaN) (nth idx2 fitness NaN) = false ->
     tournament fitness population idx1 idx2 = Ok c2) /\
    (tour_distance xs c1 = tour_distance xs c2 ->
     tournament fitness population idx1 idx2 = Ok c2).
Proof.
  intros F E1 E2. eexists. split; [now apply population_fitness |].
  rewrite (tournament_eq _ _ _ _ _ _ E1 E2).
  set (f := fun route => div (Fin 1) (add (tour_distance xs route) (Fin (1 / 10)))).
  rewrite (nth_error_nth _ _ NaN (map_nth_error f _ _ E1)).
  rewrite (nth_error_nth _ _ NaN (map_nth_error f _ _ E2)).
  split; [| split].
  - intros G. rewrite G. split; [reflexivity |].
    destruct (tour_distance_cases xs c1) as [N1 | [d1 [Ed1 H1]]];
      [apply (proj1 (Forall_forall _ _) F); eapply nth_error_In; eauto | |].
    { unfold f in G. rewrite N1 in G. unfold gt in G.
      destruct (div (Fin 1) (add (tour_distance xs c2) (Fin (1 / 10)))) as [| [] |];
        discriminate. }
    destruct (tour_distance_cases xs c2) as [N2 | [d2 [Ed2 H2]]];
      [apply (proj1 (Forall_forall _ _) F); eapply nth_error_In; eauto | |].
    { unfold f in G. rewrite N2 in G. discriminate. }
    unfold f in G. rewrite Ed1, Ed2 in *. now rewrite fitness_order in G.
  - now intros ->.
  - intros Etie. unfold f. rewrite Etie. unfold gt. now rewrite lt_irrefl.
Qed.

(** X17.  With 4 stops or more and a population that is not empty,
    whatever the number of generations: every generation keeps
    [populationSize] chromosomes, and what [geneticAlgorithm] returns is
    the tour of the first chromosome of minimal tour distance in the last
    population.  It returns on stops of the globe that are near one
    another. *)
Theorem genetic_returns_best_of_last_population (xs : list Stop)
    (populationSize generations k : nat) :
  (4 <= length xs)%nat -> (0 < populationSize)%nat ->
  exists population k1 population' k2,
    initial_population rnd (length xs) populationSize k = Ok (population, k1) /\
    evolve rnd xs populationSize generations population k1 = Ok (population', k2) /\
    length population' = populationSize /\
    Forall (chromosome (length xs)) population' /\
    (forall r k',
        geneticAlgorithm rnd xs populationSize generations k = Ok (r, k') ->
        k' = k2 /\
        exists i best,
          nth_error population' i = Some best /\
          stops r = map (the_stop xs) best /\
          distance r = tour_distance xs best /\
          (forall c, In c population' -> lt (tour_distance xs c) (distance r) = false) /\
          (forall j c, (j < i)%nat -> nth_error population' j = Some c ->
                       lt (distance r) (tour_distance xs c) = true)) /\
    (nearby xs ->
     exists r, geneticAlgorithm rnd xs populationSize generations k = Ok (r, k2)).
Proof.
  intros Hlen Hp.
  destruct (initial_population_ok rnd (length xs) populationSize k)
    as [population [k1 [Ei [L F]]]].
  destruct (evolve_ok rnd xs generations population) with (k := k1)
    as [population' [k2 [Ee [L' F']]]]; [lia | lia | exact F |].
  rewrite L in Ee, L'.
  exists population, k1, population', k2.
  split; [exact Ei |]. split; [exact Ee |]. split; [exact L' |]. split; [exact F' |].
  assert (Run : all_finite xs = true ->
                exists r i best,
                  geneticAlgorithm rnd xs populationSize generations k = Ok (r, k2) /\
                  nth_error population' i = Some best /\
                  stops r = map (the_stop xs) best /\
                  distance r = tour_distance xs best /\
                  (forall c, In c population' ->
                             lt (tour_distance xs c) (distance r) = false) /\
                  (forall j c, (j < i)%nat -> nth_error population' j = Some c ->
                               lt (distance r) (tour_distance xs c) = true)).
  { intros Hfin.
    destruct (best_solution_ok xs population' Hfin)
      as [r [i [best [nn [E [Eb [Es [Ed [Hmin [Hfirst _]]]]]]]]]]; auto.
    { destruct population'; [simpl in L'; lia | discriminate]. }
    exists r, i, best. split; [| repeat split; auto].
    rewrite (geneticAlgorithm_large rnd xs _ _ Hlen).
    unfold bindR. rewrite Ei, Ee. unfold lift. now rewrite E. }
  split.
  - intros r k' E. destruct (all_finite xs) eqn:Hfin.
    + destruct (Run eq_refl) as [r' [i [best [E' H]]]].
      rewrite E in E'. injection E' as -> ->. split; [reflexivity |].
      now exists i, best.
    + rewrite geneticAlgorithm_nonfinite in E by (assumption || lia). discriminate.
  - intros Hd. destruct (Run (nearby_finite xs Hd)) as [r [i [best [E _]]]].
    now exists r.
Qed.

(** X25.  [Math.floor(Math.random() * n)] consumes one random number
    and is a position below [n] when [n] is positive; it is 0 when [n]
    is 0. *)
Theorem random_index_in_range (n k : nat) :
  exists i, random_below rnd n k = Ok (i, S k) /\
            ((0 < n)%nat -> (i < n)%nat) /\ (n = 0%nat -> i = 0%nat).
Proof.
  destruct (random_below_draw rnd n k) as [i [E Hi]].
  exists i. split; [exact E |]. split; [exact Hi |].
  intros ->. unfold random_below, bindR, Math_random, ret in E.
  injection E as <-. cbn [mul floor_position INR].
  rewrite Rmult_0_r. change 0 with (IZR 0). now rewrite ZfloorZ.
Qed.

(** X18.  With 4 stops or more and [populationSize = 0] the genetic
    search throws a [TypeError]: the minimum of no distance is
    [Infinity], [indexOf] gives [-1], and [population[-1]] is
    [undefined]. *)
Theorem genetic_empty_population_throws (xs : list Stop) (generations k : nat) :
  (4 <= length xs)%nat -> geneticAlgorithm rnd xs 0 generations k = TypeError.
Proof. apply geneticAlgorithm_empty_population. Qed.

End EngineProperties.

(** ** The sign of the improvement *)

Section ImprovementSign.

Variable rnd : RandomSource.

Local Open Scope R_scope.

Lemma improvement_value (dn : R) (r : OptimizationResult) (d : R) :
  0 < dn -> 0 <= d -> distance r = Fin d ->
  improvement r = mul (div (sub (Fin dn) (distance r)) (Fin dn)) (Fin 100) ->
  improvement_against dn r.
Proof.
  intros Hdn Hd Ed Ei. rewrite Ed in Ei. cbn [sub neg add] in Ei.
  rewrite div_Fin in Ei by lra. cbn [mul] in Ei.
  exists d, ((dn - d) / dn * 100). split; [exact Ed |].
  split; [rewrite Ei; f_equal; unfold Rdiv, Rminus; ring |].
  assert (Hq : (dn - d) / dn = 1 - d / dn) by (field; lra).
  assert (Hdq : 0 <= d / dn) by (apply Rle_mult_inv_pos; lra).
  assert (Hs : forall x, 0 < x / dn <-> 0 < x).
  { intros x. split; intros H.
    - replace x with (x / dn * dn) by (field; lra). apply Rmult_lt_0_compat; lra.
    - apply Rdiv_lt_0_compat; lra. }
  split; [rewrite Hq; lra |]. split.
  - pose proof (Hs (dn - d)). split; intros H1; [| assert (0 < (dn - d) / dn) by (apply H; lra); lra].
    assert (0 < (dn - d) / dn) by lra. apply H in H0. lra.
  - pose proof (Hs (d - dn)) as H.
    replace ((d - dn) / dn) with (- ((dn - d) / dn)) in H by (field; lra).
    split; intros H1.
    + assert (0 < - ((dn - d) / dn)) by lra. apply H in H0. lra.
    + assert (0 < - ((dn - d) / dn)) by (apply H; lra). lra.
Qed.

(** X26.  With 4 stops or more of the globe, near one another, the
    improvement that [twoOpt] and [geneticAlgorithm] report against a
    nearest-neighbour tour of positive length is a number, at most 100,
    that is positive exactly when their tour is strictly shorter than the
    nearest-neighbour tour and negative exactly when it is strictly
    longer. *)
Theorem improvement_sign (xs : list Stop)
    (maxIterations populationSize generations : nat) :
  nearby xs -> (4 <= length xs)%nat -> (0 < populationSize)%nat ->
  exists nn dn,
    nearestNeighbor xs = Ok nn /\ distance nn = Fin dn /\ 0 <= dn /\
    (0 < dn ->
     (exists r, twoOpt xs maxIterations = Ok r /\ improvement_against dn r) /\
     returns (geneticAlgorithm rnd xs populationSize generations)
             (improvement_against dn)).
Proof.
  intros Hd Hlen Hp. pose proof (nearby_finite xs Hd) as Hfin.
  destruct (nearestNeighbor_ok xs Hfin) as [nn [Enn [Pnn [Dnn _]]]].
  destruct (finite_distance_of_tour xs nn Hfin Pnn Dnn) as [dn [Edn Hdn]].
  exists nn, dn. split; [exact Enn |]. split; [exact Edn |]. split; [exact Hdn |].
  intros Hpos. split.
  - destruct (twoOpt_ok xs maxIterations Hfin) as [r [nn' [E [Enn' [P [D [_ I]]]]]]].
    rewrite Enn in Enn'. injection Enn' as <-.
    exists r. split; [exact E |].
    destruct (finite_distance_of_tour xs r Hfin P D) as [d [Ed Hd']].
    apply (improvement_value dn r d Hpos Hd' Ed). rewrite (I Hlen), Edn. reflexivity.
  - eapply returns_weaken; [apply (geneticAlgorithm_ok rnd xs _ _ Hfin Hp) |].
    intros r [P [D [nn' [Enn' [_ I]]]]].
    rewrite Enn in Enn'. injection Enn' as <-.
    destruct (finite_distance_of_tour xs r Hfin P D) as [d [Ed Hd']].
    apply (improvement_value dn r d Hpos Hd' Ed). rewrite (I Hlen), Edn. reflexivity.
Qed.

End ImprovementSign.

(** * Properties of the application *)

Section ApplicationProperties.

Variable rnd : RandomSource.

Local Open Scope R_scope.

(** X19.  [handleCalculateRoute] on 2 stops or more of the globe that
    are near one another and whose identifiers are all different: the engine
    function chosen by the name of the algorithm returns
    ([nearestNeighbor] for a name that is neither ['2-opt'] nor
    ['genetic']), and the state gets one route result, which holds every
    stop of the state once, numbered from 1 in the order of the tour, the
    distance that the engine reported, a duration of 3 minutes for each
    kilometre rounded to the nearest integer, the name of the algorithm
    and an efficiency from 0.85 to 1. *)
Theorem handleCalculateRoute_result (st : State.AppState) (k : nat) :
  (2 <= length (State.stops st))%nat ->
  NoDup (map App.id (State.stops st)) ->
  nearby (algorithmStops (State.stops st)) ->
  exists r k' result tour,
    chosen_engine rnd (State.selectedAlgorithm st) (algorithmStops (State.stops st)) k =
      Ok (r, k') /\
    handleCalculateRoute rnd st k =
      Ok ({| State.stops := State.stops st;
             State.selectedStopId := State.selectedStopId st;
             State.routeResults := [result];
             State.isCalculating := false;
             State.selectedAlgorithm := State.selectedAlgorithm st |},
          [toast_route_optimized (App.distance result)]) /\
    route_of (State.stops st) tour (State.selectedAlgorithm st) r result.
Proof.
  intros Hlen Hnd Hd. apply handleCalculateRoute_ok; auto.
  now apply nearby_finite.
Qed.

(** X20.  [handleCalculateRoute] and [handleCompareAlgorithms] compute
    nothing on fewer than 2 stops: the state is unchanged and an error is
    notified.  On 2 stops or more, one of which has a coordinate that is
    [NaN] or infinite, the exception of the engine is caught: the route
    results stay as they were and a failure is notified. *)
Theorem handlers_reject_and_fail (st : State.AppState) (k : nat) :
  ((length (State.stops st) < 2)%nat ->
   handleCalculateRoute rnd st k =
     Ok (st, [toast_error "Add at least 2 delivery stops"]) /\
   handleCompareAlgorithms rnd st k =
     Ok (st, [toast_error "Add at least 2 delivery stops"])) /\
  ((2 <= length (State.stops st))%nat ->
   all_finite (algorithmStops (State.stops st)) = false ->
   let kept :=
     {| State.stops := State.stops st;
        State.selectedStopId := State.selectedStopId st;
        State.routeResults := State.routeResults st;
        State.isCalculating := false;
        State.selectedAlgorithm := State.selectedAlgorithm st |} in
   handleCalculateRoute rnd st k =
     Ok (kept, [toast_error "Failed to calculate route"]) /\
   handleCompareAlgorithms rnd st k =
     Ok (kept, [toast_error "Failed to compare algorithms"])).
Proof.
  split.
  - intros Hlt. unfold handleCalculateRoute, handleCompareAlgorithms.
    destruct (Nat.ltb_spec (length (State.stops st)) 2) as [_ | H]; [| lia].
    now split.
  - intros Hlen Hbad kept. split.
    + now apply handleCalculateRoute_failed.
    + now apply handleCompareAlgorithms_failed.
Qed.

(** X21.  [handleCompareAlgorithms] on 2 stops or more of the globe that
    are near one another and whose identifiers are all different runs
    [nearestNeighbor], [twoOpt] and [geneticAlgorithm] on the stops of the
    state and stores three route results, one for each algorithm, in
    ascending order of distance. *)
Theorem handleCompareAlgorithms_result (st : State.AppState) (k : nat) :
  (2 <= length (State.stops st))%nat ->
  NoDup (map App.id (State.stops st)) ->
  nearby (algorithmStops (State.stops st)) ->
  let ds := State.stops st in
  let xs := algorithmStops ds in
  exists nn opt2 ga k' r1 r2 r3 t1 t2 t3 sorted,
    nearestNeighbor xs = Ok nn /\
    twoOpt xs 100 = Ok opt2 /\
    geneticAlgorithm rnd xs 50 100 (S (S k)) = Ok (ga, k') /\
    route_of ds t1 "nearest-neighbor" nn r1 /\
    route_of ds t2 "2-opt" opt2 r2 /\
    route_of ds t3 "genetic" ga r3 /\
    handleCompareAlgorithms rnd st k =
      Ok ({| State.stops := ds;
             State.selectedStopId := State.selectedStopId st;
             State.routeResults := sorted;
             State.isCalculating := false;
             State.selectedAlgorithm := State.selectedAlgorithm st |},
          [toast_success "Compared 3 algorithms"]) /\
    Permutation sorted [r1; r2; r3] /\
    StronglySorted le_route_distance sorted.
Proof.
  intros Hlen Hnd Hd. apply handleCompareAlgorithms_ok; auto.
  now apply nearby_finite.
Qed.

(** X22.  [handleRemoveStop] removes from the stops of the state every
    stop that has the identifier, keeps the others, and clears the
    selection; it does not touch the route results: after a run of
    [handleCalculateRoute] on stops of the globe near one another, the
    stop that is removed is still a stop of the route result that the
    state holds. *)
Theorem removed_stop_stays_in_results (st : State.AppState) (k : nat) (i : string) :
  (2 <= length (State.stops st))%nat ->
  NoDup (map App.id (State.stops st)) ->
  nearby (algorithmStops (State.stops st)) ->
  In i (map App.id (State.stops st)) ->
  exists st1 toasts result,
    handleCalculateRoute rnd st k = Ok (st1, toasts) /\
    let st2 := fst (handleRemoveStop i st1) in
    (forall s, In s (State.stops st2) <->
               In s (State.stops st) /\ App.id s <> i) /\
    State.selectedStopId st2 = None /\
    State.routeResults st2 = [result] /\
    In i (map App.id (App.stops result)).
Proof.
  intros Hlen Hnd Hd Hin. pose proof (nearby_finite _ Hd) as Hfin.
  destruct (handleCalculateRoute_ok rnd st k Hlen Hnd Hfin)
    as [r [k' [result [tour [_ [E [P [_ [Es _]]]]]]]]].
  eexists. eexists. exists result. split; [exact E |].
  cbn [handleRemoveStop fst State.stops State.selectedStopId State.routeResults].
  split; [| split; [reflexivity | split; [reflexivity |]]].
  - intros s. rewrite filter_In. split; intros [Hs Hne]; (split; [exact Hs |]).
    + intros Ei. rewrite Ei, String.eqb_refl in Hne. discriminate.
    + destruct (String.eqb_spec (App.id s) i); [contradiction | reflexivity].
  - rewrite Es, map_id_numbered.
    apply (Permutation_in _ (Permutation_map App.id (Permutation_sym P))). exact Hin.
Qed.

(** X23.  [detectBorough] on finite coordinates: the region of each
    borough.  The tests are tried in the order Bronx, Staten Island,
    Brooklyn, Queens, so the strip of longitudes between -73.8 and -73.7
    north of latitude 40.8 goes to the Bronx, and every point of latitude
    between 40.65 and 40.75 is in Manhattan, whatever its longitude. *)
Theorem detectBorough_by_region (la lo : R) :
  (detectBorough (Fin la) (Fin lo) = "Bronx"%string <-> 40.8 < la /\ lo < -73.7) /\
  (detectBorough (Fin la) (Fin lo) = "Staten Island"%string <->
     la < 40.6 /\ lo < -74.0) /\
  (detectBorough (Fin la) (Fin lo) = "Brooklyn"%string <->
     la < 40.65 /\ -73.95 < lo) /\
  (detectBorough (Fin la) (Fin lo) = "Queens"%string <->
     40.75 < la /\ -73.8 < lo /\ ~ (40.8 < la /\ lo < -73.7)) /\
  (40.65 <= la <= 40.75 -> detectBorough (Fin la) (Fin lo) = "Manhattan"%string).
Proof.
  rewrite detectBorough_regions.
  repeat (destruct (Rlt_dec _ _));
    (split; [| split; [| split; [| split]]]);
    try (split; [intros; (discriminate || lra) | intros; (reflexivity || (exfalso; lra))]);
    try (intros; (reflexivity || (exfalso; lra))).
Qed.

(** X24.  [detectBorough] answers on every pair of numbers with one of
    the five boroughs, and with Manhattan as soon as one coordinate is
    [NaN]. *)
Theorem detectBorough_total (lat lng : number) :
  In (detectBorough lat lng)
     ["Bronx"; "Staten Island"; "Brooklyn"; "Queens"; "Manhattan"]%string /\
  detectBorough NaN lng = "Manhattan"%string /\
  detectBorough lat NaN = "Manhattan"%string.
Proof.
  split; [| split].
  - unfold detectBorough.
    repeat (destruct (_ && _); [cbn [In]; tauto |]). cbn [In]. tauto.
  - reflexivity.
  - assert (E1 : forall x, lt NaN x = false) by reflexivity.
    assert (E2 : forall x, gt NaN (Fin x) = false) by reflexivity.
    unfold detectBorough. rewrite !E1, !E2, !andb_false_r. reflexivity.
Qed.

End ApplicationProperties.

(** * The further properties on sample inputs *)

Section FurtherInstances.

(** X2 on the first example stop of the application. *)
Lemma haversine_range_witness :
  (-90 <= 40.7505 <= 90)%R /\ (-180 <= -73.9934 <= 180)%R /\
  calculateDistance (Fin 40.7505) (Fin (-73.9934)) (Fin 40.7505) (Fin (-73.9934)) = Fin 0.
Proof.
  assert (H1 : (-90 <= 40.7505 <= 90)%R) by lra.
  assert (H2 : (-180 <= -73.9934 <= 180)%R) by lra.
  split; [exact H1 |]. split; [exact H2 |].
  exact (proj2 (haversine_range (Fin 0) (Fin 0) (Fin 0) (Fin 0) 40.7505 (-73.9934)) H1 H2).
Defined.

(** X3 on two points three degrees apart. *)
Lemma haversine_arc_length_witness :
  (Rabs (3 - 0) <= 180)%R /\
  calculateDistance (Fin 0) (Fin 0) (Fin 3) (Fin 0) =
    Fin (km_per_degree * Rabs (3 - 0)) /\
  calculateDistance (Fin 0) (Fin 0) (Fin 0) (Fin 3) =
    Fin (km_per_degree * Rabs (3 - 0)).
Proof.
  assert (H : (Rabs (3 - 0) <= 180)%R)
    by (unfold Rabs; destruct (Rcase_abs (3 - 0)); lra).
  split; [exact H |]. exact (haversine_arc_length 0 3 0 H).
Defined.

(** X5 on a latitude that is [NaN] and on the stops of [uncharted]. *)
Lemma distance_of_non_finite_witness :
  finite NaN && finite (Fin 0) && finite (Fin 0) && finite (Fin 0) = false /\
  calculateDistance NaN (Fin 0) (Fin 0) (Fin 0) = NaN /\
  (2 <= length uncharted)%nat /\ all_finite uncharted = false /\
  calculateRouteDistance uncharted = NaN.
Proof.
  assert (H2 : (2 <= length uncharted)%nat) by (simpl; lia).
  split; [reflexivity |].
  split; [exact (proj1 (distance_of_non_finite NaN (Fin 0) (Fin 0) (Fin 0) uncharted)
                   eq_refl) |].
  split; [exact H2 |]. split; [reflexivity |].
  exact (proj2 (distance_of_non_finite NaN (Fin 0) (Fin 0) (Fin 0) uncharted) H2 eq_refl).
Defined.

(** X6 on the five example stops of the application. *)
Lemma nearestNeighbor_is_greedy_witness :
  nearby (algorithmStops examples) /\
  exists r, nearestNeighbor (algorithmStops examples) = Ok r /\
            hd_error (stops r) = hd_error (algorithmStops examples) /\
            forall pre c n post, stops r = pre ++ c :: n :: post ->
              forall y, In y post -> lt (dist c y) (dist c n) = false.
Proof.
  assert (Hd : nearby (algorithmStops examples))
    by nearby_stops.
  split; [exact Hd |].
  destruct (nearestNeighbor_is_greedy (algorithmStops examples)) as [G R].
  destruct (R Hd) as [r E]. exists r. split; [exact E | exact (G r E)].
Defined.

(** X7 on the stops of [uncharted]. *)
Lemma non_finite_stops_throw_witness :
  (2 <= length uncharted)%nat /\ all_finite uncharted = false /\
  nearestNeighbor uncharted = TypeError /\
  twoOpt uncharted 100 = TypeError /\
  geneticAlgorithm zero_source uncharted 50 100 0 = TypeError /\
  compareAlgorithms zero_source uncharted 0 = TypeError.
Proof.
  assert (H2 : (2 <= length uncharted)%nat) by (simpl; lia).
  split; [exact H2 |]. split; [reflexivity |].
  exact (non_finite_stops_throw zero_source uncharted 100 50 100 0 H2 eq_refl).
Defined.

(** X8 on the route [0; 1; 2; 3] between the positions 0 and 2. *)
Lemma reverse_segment_reverses_witness :
  length [0%Z] = (0 + 1)%nat /\
  (length [0%Z] + length [1; 2]%Z = 2 + 1)%nat /\
  reverse_segment ([0] ++ [1; 2] ++ [3])%Z 0 2 = ([0] ++ rev [1; 2] ++ [3])%Z.
Proof.
  split; [reflexivity |]. split; [reflexivity |].
  exact (reverse_segment_reverses [0%Z] [1; 2]%Z [3%Z] 0 2 eq_refl eq_refl).
Defined.

(** X28 on one stop and on three stops of the square. *)
Lemma small_inputs_fall_back_witness :
  ((length (firstn 1 square) < 2)%nat /\
   let unchanged :=
     {| stops := firstn 1 square; distance := Fin 0; improvement := Fin 0 |} in
   nearestNeighbor (firstn 1 square) = Ok unchanged /\
   twoOpt (firstn 1 square) 100 = Ok unchanged /\
   geneticAlgorithm quarter_source (firstn 1 square) 50 100 0 = Ok (unchanged, 0%nat)) /\
  ((length (firstn 3 square) < 4)%nat /\
   twoOpt (firstn 3 square) 100 = nearestNeighbor (firstn 3 square) /\
   geneticAlgorithm quarter_source (firstn 3 square) 50 100 =
   lift (nearestNeighbor (firstn 3 square))).
Proof.
  split.
  - assert (H : (length (firstn 1 square) < 2)%nat) by (simpl; lia).
    split; [exact H |].
    exact (proj1 (small_inputs_fall_back quarter_source (firstn 1 square) 100 50 100 0) H).
  - assert (H : (length (firstn 3 square) < 4)%nat) by (simpl; lia).
    split; [exact H |].
    exact (proj2 (small_inputs_fall_back quarter_source (firstn 3 square) 100 50 100 0) H).
Defined.

(** X10 on the stops of [meridian], with a cap of 0. *)
Lemma twoOpt_returns_input_order_witness :
  (4 <= length meridian)%nat /\
  (0%nat = 0%nat \/ two_opt_optimal meridian (indices (length meridian))) /\
  nearby meridian /\
  exists r, twoOpt meridian 0 = Ok r /\ stops r = meridian.
Proof.
  assert (H4 : (4 <= length meridian)%nat) by (simpl; lia).
  assert (H0 : 0%nat = 0%nat \/ two_opt_optimal meridian (indices (length meridian)))
    by (left; reflexivity).
  assert (Hn : nearby meridian) by nearby_stops.
  split; [exact H4 |]. split; [exact H0 |]. split; [exact Hn |].
  destruct (twoOpt_returns_input_order meridian 0 H4 H0) as [S R].
  destruct (R Hn) as [r E]. exists r. split; [exact E | exact (S r E)].
Defined.

(** X11 on the stops of [meridian] in the order of the input. *)
Lemma twoOpt_pass_outcome_witness :
  Permutation (indices 4) (indices (length meridian)) /\
  exists route' improved,
    twoOpt_pass meridian (indices 4) = Ok (route', improved) /\
    Permutation route' (indices (length meridian)) /\
    (improved = false <-> two_opt_optimal meridian (indices 4)) /\
    (improved = false -> route' = indices 4).
Proof.
  assert (P : Permutation (indices 4) (indices (length meridian)))
    by apply Permutation_refl.
  split; [exact P |].
  exact (twoOpt_pass_outcome meridian (indices 4) P).
Defined.

(** X12 on the stops of [meridian], with a cap of 1. *)
Lemma twoOpt_optimal_or_capped_witness :
  (4 <= length meridian)%nat /\ nearby meridian /\
  exists r route,
    twoOpt meridian 1 = Ok r /\
    chromosome (length meridian) route /\
    stops r = map (the_stop meridian) route /\
    (two_opt_optimal meridian route \/
     improving_passes meridian 1 (indices (length meridian)) route).
Proof.
  assert (H4 : (4 <= length meridian)%nat) by (simpl; lia).
  assert (Hn : nearby meridian) by nearby_stops.
  split; [exact H4 |]. split; [exact Hn |].
  destruct (twoOpt_optimal_or_capped meridian 1 H4) as [S R].
  destruct (R Hn) as [r E]. destruct (S r E) as [route H].
  exists r, route. split; [exact E | exact H].
Defined.

(** X14 on two chromosomes of four genes. *)
Lemma order_crossover_child_witness :
  (0 < 4)%nat /\ chromosome 4 forward /\ chromosome 4 backward /\
  exists start end_ child,
    random_below quarter_source 4 2 = Ok (start, 3%nat) /\
    random_below quarter_source 4 3 = Ok (end_, 4%nat) /\
    orderCrossover quarter_source forward backward 2 = Ok (child, 4%nat) /\
    chromosome 4 child /\
    let a := Nat.min start end_ in
    let b := Nat.max start end_ in
    (a <= b < 4)%nat /\
    segment child a b = segment forward a b /\
    rotate ((b + 1) mod 4) child =
    filter (fun v => negb (includes (segment forward a b) v))
           (rotate ((b + 1) mod 4) backward) ++ segment forward a b.
Proof.
  assert (H0 : (0 < 4)%nat) by lia.
  assert (C1 : chromosome 4 forward) by apply Permutation_refl.
  assert (C2 : chromosome 4 backward)
    by exact (Permutation_sym (Permutation_rev forward)).
  split; [exact H0 |]. split; [exact C1 |]. split; [exact C2 |].
  exact (order_crossover_child quarter_source 4 forward backward 2 H0 C1 C2).
Defined.

(** X15 on a chromosome of four genes. *)
Lemma mutate_exchanges_two_genes_witness :
  (0 < length forward)%nat /\
  exists i j,
    random_below quarter_source (length forward) 1 = Ok (i, 2%nat) /\
    random_below quarter_source (length forward) 2 = Ok (j, 3%nat) /\
    (i < length forward)%nat /\ (j < length forward)%nat /\
    mutate quarter_source forward 1 = Ok (swap forward i j, 3%nat) /\
    nth_error (swap forward i j) i = nth_error forward j /\
    nth_error (swap forward i j) j = nth_error forward i /\
    forall p, p <> i -> p <> j -> nth_error (swap forward i j) p = nth_error forward p.
Proof.
  assert (H0 : (0 < length forward)%nat) by (simpl; lia).
  split; [exact H0 |].
  exact (mutate_exchanges_two_genes quarter_source forward 1 H0).
Defined.

(** X16 on two tours of the four corners of a square, along the sides
    and across the diagonals. *)
Lemma tournament_prefers_shorter_tour_witness :
  Forall (chromosome (length square)) [forward; crossed] /\
  nth_error [forward; crossed] 0 = Some forward /\
  nth_error [forward; crossed] 1 = Some crossed /\
  exists fitness,
    mapM (route_fitness square) [forward; crossed] = Ok fitness /\
    (gt (nth 0 fitness NaN) (nth 1 fitness NaN) = true ->
     tournament fitness [forward; crossed] 0 1 = Ok forward /\
     lt (tour_distance square forward) (tour_distance square crossed) = true) /\
    (gt (nth 0 fitness NaN) (nth 1 fitness NaN) = false ->
     tournament fitness [forward; crossed] 0 1 = Ok crossed) /\
    (tour_distance square forward = tour_distance square crossed ->
     tournament fitness [forward; crossed] 0 1 = Ok crossed).
Proof.
  assert (F : Forall (chromosome (length square)) [forward; crossed]).
  { constructor; [apply Permutation_refl |].
    constructor; [| constructor].
    unfold chromosome, crossed, indices. cbn. apply perm_skip, perm_swap. }
  split; [exact F |]. split; [reflexivity |]. split; [reflexivity |].
  exact (tournament_prefers_shorter_tour square [forward; crossed] 0 1 forward crossed
           F eq_refl eq_refl).
Defined.

(** X17 on the five example stops of the application, with a population
    of four and three generations. *)
Lemma genetic_returns_best_of_last_population_witness :
  let xs := algorithmStops examples in
  (4 <= length xs)%nat /\ (0 < 4)%nat /\ nearby xs /\
  exists population k1 population' k2 r i best,
    initial_population quarter_source (length xs) 4 0 = Ok (population, k1) /\
    evolve quarter_source xs 4 3 population k1 = Ok (population', k2) /\
    length population' = 4%nat /\
    Forall (chromosome (length xs)) population' /\
    geneticAlgorithm quarter_source xs 4 3 0 = Ok (r, k2) /\
    nth_error population' i = Some best /\
    stops r = map (the_stop xs) best /\
    distance r = tour_distance xs best /\
    (forall c, In c population' -> lt (tour_distance xs c) (distance r) = false) /\
    (forall j c, (j < i)%nat -> nth_error population' j = Some c ->
                 lt (distance r) (tour_distance xs c) = true).
Proof.
  intros xs.
  assert (H4 : (4 <= length xs)%nat) by (simpl; lia).
  assert (Hp : (0 < 4)%nat) by lia.
  assert (Hd : nearby xs)
    by nearby_stops.
  split; [exact H4 |]. split; [exact Hp |]. split; [exact Hd |].
  destruct (genetic_returns_best_of_last_population quarter_source xs 4 3 0 H4 Hp)
    as [population [k1 [population' [k2 [Ei [Ee [L [F [Hr Hex]]]]]]]]].
  destruct (Hex Hd) as [r E].
  destruct (Hr r k2 E) as [_ [i [best H]]].
  exists population, k1, population', k2, r, i, best.
  split; [exact Ei |]. split; [exact Ee |]. split; [exact L |]. split; [exact F |].
  split; [exact E | exact H].
Defined.

(** X18 on the four corners of a square. *)
Lemma genetic_empty_population_throws_witness :
  (4 <= length square)%nat /\ geneticAlgorithm zero_source square 0 100 0 = TypeError.
Proof.
  assert (H4 : (4 <= length square)%nat) by (simpl; lia).
  split; [exact H4 |].
  exact (genetic_empty_population_throws zero_source square 100 0 H4).
Defined.

Lemma examples_distinct : NoDup (map App.id (State.stops example_state)).
Proof.
  cbn. repeat constructor; cbn; intuition discriminate.
Defined.

Lemma examples_nearby :
  nearby (algorithmStops (State.stops example_state)).
Proof. nearby_stops. Defined.

(** X19 on the example stops, with the 2-opt algorithm selected. *)
Lemma handleCalculateRoute_result_witness :
  (2 <= length (State.stops example_state))%nat /\
  NoDup (map App.id (State.stops example_state)) /\
  nearby (algorithmStops (State.stops example_state)) /\
  exists r k' result tour,
    chosen_engine zero_source (State.selectedAlgorithm example_state)
                  (algorithmStops (State.stops example_state)) 0 = Ok (r, k') /\
    handleCalculateRoute zero_source example_state 0 =
      Ok ({| State.stops := State.stops example_state;
             State.selectedStopId := State.selectedStopId example_state;
             State.routeResults := [result];
             State.isCalculating := false;
             State.selectedAlgorithm := State.selectedAlgorithm example_state |},
          [toast_route_optimized (App.distance result)]) /\
    route_of (State.stops example_state) tour
             (State.selectedAlgorithm example_state) r result.
Proof.
  assert (H2 : (2 <= length (State.stops example_state))%nat) by (simpl; lia).
  split; [exact H2 |]. split; [exact examples_distinct |].
  split; [exact examples_nearby |].
  exact (handleCalculateRoute_result zero_source example_state 0
           H2 examples_distinct examples_nearby).
Defined.

(** X20 on the state without stops that [handleClearAll] gives, and on a
    state with a stop that has no latitude. *)
Lemma handlers_reject_and_fail_witness :
  let cleared := fst (handleClearAll example_state) in
  ((length (State.stops cleared) < 2)%nat /\
   handleCalculateRoute zero_source cleared 0 =
     Ok (cleared, [toast_error "Add at least 2 delivery stops"]) /\
   handleCompareAlgorithms zero_source cleared 0 =
     Ok (cleared, [toast_error "Add at least 2 delivery stops"])) /\
  ((2 <= length (State.stops uncharted_state))%nat /\
   all_finite (algorithmStops (State.stops uncharted_state)) = false /\
   let kept :=
     {| State.stops := State.stops uncharted_state;
        State.selectedStopId := State.selectedStopId uncharted_state;
        State.routeResults := State.routeResults uncharted_state;
        State.isCalculating := false;
        State.selectedAlgorithm := State.selectedAlgorithm uncharted_state |} in
   handleCalculateRoute zero_source uncharted_state 0 =
     Ok (kept, [toast_error "Failed to calculate route"]) /\
   handleCompareAlgorithms zero_source uncharted_state 0 =
     Ok (kept, [toast_error "Failed to compare algorithms"])).
Proof.
  intros cleared.
  assert (H1 : (length (State.stops cleared) < 2)%nat) by (simpl; lia).
  assert (H2 : (2 <= length (State.stops uncharted_state))%nat) by (simpl; lia).
  split.
  - split; [exact H1 |].
    exact (proj1 (handlers_reject_and_fail zero_source cleared 0) H1).
  - split; [exact H2 |]. split; [reflexivity |].
    exact (proj2 (handlers_reject_and_fail zero_source uncharted_state 0) H2 eq_refl).
Defined.

(** X21 on the example stops. *)
Lemma handleCompareAlgorithms_result_witness :
  (2 <= length (State.stops example_state))%nat /\
  NoDup (map App.id (State.stops example_state)) /\
  nearby (algorithmStops (State.stops example_state)) /\
  let ds := State.stops example_state in
  let xs := algorithmStops ds in
  exists nn opt2 ga k' r1 r2 r3 t1 t2 t3 sorted,
    nearestNeighbor xs = Ok nn /\
    twoOpt xs 100 = Ok opt2 /\
    geneticAlgorithm zero_source xs 50 100 2 = Ok (ga, k') /\
    route_of ds t1 "nearest-neighbor" nn r1 /\
    route_of ds t2 "2-opt" opt2 r2 /\
    route_of ds t3 "genetic" ga r3 /\
    handleCompareAlgorithms zero_source example_state 0 =
      Ok ({| State.stops := ds;
             State.selectedStopId := State.selectedStopId example_state;
             State.routeResults := sorted;
             State.isCalculating := false;
             State.selectedAlgorithm := State.selectedAlgorithm example_state |},
          [toast_success "Compared 3 algorithms"]) /\
    Permutation sorted [r1; r2; r3] /\
    StronglySorted le_route_distance sorted.
Proof.
  assert (H2 : (2 <= length (State.stops example_state))%nat) by (simpl; lia).
  split; [exact H2 |]. split; [exact examples_distinct |].
  split; [exact examples_nearby |].
  exact (handleCompareAlgorithms_result zero_source example_state 0
           H2 examples_distinct examples_nearby).
Defined.

(** X22 on the example stops, the stop ['3'] being removed. *)
Lemma removed_stop_stays_in_results_witness :
  (2 <= length (State.stops example_state))%nat /\
  NoDup (map App.id (State.stops example_state)) /\
  nearby (algorithmStops (State.stops example_state)) /\
  In "3"%string (map App.id (State.stops example_state)) /\
  exists st1 toasts result,
    handleCalculateRoute zero_source example_state 0 = Ok (st1, toasts) /\
    let st2 := fst (handleRemoveStop "3" st1) in
    (forall s, In s (State.stops st2) <->
               In s (State.stops example_state) /\ App.id s <> "3"%string) /\
    State.selectedStopId st2 = None /\
    State.routeResults st2 = [result] /\
    In "3"%string (map App.id (App.stops result)).
Proof.
  assert (H2 : (2 <= length (State.stops example_state))%nat) by (simpl; lia).
  assert (H3 : In "3"%string (map App.id (State.stops example_state)))
    by (cbn; tauto).
  split; [exact H2 |]. split; [exact examples_distinct |].
  split; [exact examples_nearby |]. split; [exact H3 |].
  exact (removed_stop_stays_in_results zero_source example_state 0 "3"
           H2 examples_distinct examples_nearby H3).
Defined.

(** X26 on the five example stops of the application. *)
Lemma improvement_sign_witness :
  let xs := algorithmStops examples in
  nearby xs /\ (4 <= length xs)%nat /\ (0 < 50)%nat /\
  exists nn dn,
    nearestNeighbor xs = Ok nn /\ distance nn = Fin dn /\ (0 <= dn)%R /\
    ((0 < dn)%R ->
     (exists r, twoOpt xs 100 = Ok r /\ improvement_against dn r) /\
     returns (geneticAlgorithm quarter_source xs 50 100)
             (improvement_against dn)).
Proof.
  intros xs.
  assert (Hd : nearby xs)
    by nearby_stops.
  assert (H4 : (4 <= length xs)%nat) by (simpl; lia).
  assert (Hp : (0 < 50)%nat) by lia.
  split; [exact Hd |]. split; [exact H4 |]. split; [exact Hp |].
  exact (improvement_sign quarter_source xs 100 50 100 Hd H4 Hp).
Defined.

(** X27 on the four stops of [meridian]. *)
Lemma nearestNeighbor_on_doubles_witness :
  Binary64.below_Infinity Binary64.meridian /\
  exists r, Binary64.nearestNeighbor Binary64.meridian = Ok r /\
            Permutation (Binary64.stops r) Binary64.meridian.
Proof.
  assert (Hd : Binary64.below_Infinity Binary64.meridian).
  { intros p q Hp Hq. cbn in Hp, Hq.
    repeat (destruct Hp as [<- | Hp]); try contradiction;
    repeat (destruct Hq as [<- | Hq]); try contradiction; vm_compute; reflexivity. }
  split; [exact Hd |].
  destruct (nearestNeighbor_on_doubles Binary64.meridian) as [P [_ R]].
  destruct (R Hd) as [r E]. exists r. split; [exact E | exact (P r E)].
Defined.

End FurtherInstances.
